(** * Mailpile configuration containers (mailpile/config.py)

    A shallow embedding of the rule-driven containers [ConfigDict] and
    [ConfigList] (both built by [RuledContainer]), of the escaping
    [CommentedEscapedConfigParser] and of [ConfigManager.parse_config],
    followed by the properties of the specification.

    Conventions of the embedding.
    - Python text (str and unicode) is a [string] holding its UTF-8 bytes;
      [encode('utf-8')] and [decode('utf-8')] are the identity.
    - A Python dict is an association list with unique keys; the order of
      the list is the iteration order of the dict.
    - Exceptions are values of [exn]; a call that can raise returns
      [result].  A call that mutates its receiver returns the receiver's
      state along with the outcome, so a raised exception still shows what
      was written before it.
    - Floats and the checkers that look at the file system or use
      [CleanText] are not interpreted: they are the field [ext_check] of
      the record [externs], which holds what the module takes from
      elsewhere. *)

From Stdlib Require Import ZArith List String Ascii Bool Lia.
From Stdlib Require Import Decimal DecimalString DecimalZ.
Import ListNotations.
Open Scope string_scope.
Open Scope Z_scope.
Set Warnings "-register-all".

(** ** Text helpers (Python's str methods) *)

Module Text.

Definition is_space (c : ascii) : bool :=
  let n := nat_of_ascii c in
  ((9 <=? n) && (n <=? 13))%nat || (n =? 32)%nat.

Definition is_digit (c : ascii) : bool :=
  let n := nat_of_ascii c in ((48 <=? n) && (n <=? 57))%nat.

Definition is_upper (c : ascii) : bool :=
  let n := nat_of_ascii c in ((65 <=? n) && (n <=? 90))%nat.

Definition is_lower (c : ascii) : bool :=
  let n := nat_of_ascii c in ((97 <=? n) && (n <=? 122))%nat.

Definition lower_char (c : ascii) : ascii :=
  if is_upper c then ascii_of_nat (nat_of_ascii c + 32) else c.

Fixpoint lower (s : string) : string :=
  match s with
  | EmptyString => EmptyString
  | String c r => String (lower_char c) (lower r)
  end.

Fixpoint lstrip (s : string) : string :=
  match s with
  | String c r => if is_space c then lstrip r else s
  | EmptyString => EmptyString
  end.

(** [rstrip] keeps a character when something that is not white space
    follows it or it is itself not white space. *)
Fixpoint rstrip (s : string) : string :=
  match s with
  | EmptyString => EmptyString
  | String c r =>
      match rstrip r with
      | EmptyString => if is_space c then EmptyString else String c EmptyString
      | r' => String c r'
      end
  end.

Definition strip (s : string) : string := rstrip (lstrip s).

Fixpoint rev_acc (s acc : string) : string :=
  match s with
  | EmptyString => acc
  | String c r => rev_acc r (String c acc)
  end.

(** [s.endswith(' ')] together with [s[:-1]]: the text before a final
    space, when there is one. *)
Fixpoint chop_final_space (s : string) : option string :=
  match s with
  | EmptyString => None
  | String c EmptyString => if Ascii.eqb c " " then Some EmptyString else None
  | String c r =>
      match chop_final_space r with
      | Some r' => Some (String c r')
      | None => None
      end
  end.

(** [' ' * n] for a possibly negative [n]. *)
Definition spaces (n : Z) : string :=
  string_of_list_ascii (repeat " "%char (Z.to_nat n)).

Definition len (s : string) : Z := Z.of_nat (String.length s).

(** [sep.join(parts)] *)
Fixpoint join (sep : string) (parts : list string) : string :=
  match parts with
  | [] => EmptyString
  | [p] => p
  | p :: ps => p ++ sep ++ join sep ps
  end.

(** [s.split(sep)] for a one-character separator: the pieces between the
    separators, at least one piece. *)
Fixpoint split (sep : ascii) (s : string) : list string :=
  match s with
  | EmptyString => [EmptyString]
  | String c r =>
      if Ascii.eqb c sep then EmptyString :: split sep r
      else match split sep r with
           | p :: ps => String c p :: ps
           | [] => [String c EmptyString]
           end
  end.

(** Is [c] one of the characters of [set]? *)
Fixpoint mem_char (c : ascii) (set : string) : bool :=
  match set with
  | EmptyString => false
  | String d r => Ascii.eqb c d || mem_char c r
  end.

(** [s.find(c)]: the text before the first [c] and the text after it. *)
Fixpoint cut_at (p : ascii -> bool) (s : string) : option (string * ascii * string) :=
  match s with
  | EmptyString => None
  | String c r =>
      if p c then Some (EmptyString, c, r)
      else match cut_at p r with
           | Some (a, d, b) => Some (String c a, d, b)
           | None => None
           end
  end.

(** Python compares byte strings byte by byte. *)
Fixpoint ltb (a b : string) : bool :=
  match a, b with
  | EmptyString, EmptyString => false
  | EmptyString, String _ _ => true
  | String _ _, EmptyString => false
  | String x a', String y b' =>
      if (nat_of_ascii x <? nat_of_ascii y)%nat then true
      else if (nat_of_ascii y <? nat_of_ascii x)%nat then false
      else ltb a' b'
  end.

End Text.

(** ** Python values *)

(** The scalar values a rule can name as a default or list in a value
    set.  Floats are left out of the embedding. *)
Inductive scalar : Type :=
| SNone
| SBool (b : bool)
| SInt (z : Z)
| SStr (s : string).

(** The two container classes: [ConfigDict = RuledContainer(dict)] and
    [ConfigList = RuledContainer(list)]. *)
Inductive kind : Type := KDict | KList.

(** The private fields [_name], [_key] and [_comment] of a container. *)
Record meta : Type := Meta {
  m_name : string;
  m_key : string;
  m_comment : option string
}.

(** A rule is the Python list [[comment, checker, default]].  The checker
    is a tag of [RULE_CHECK_MAP], a type or function, [True], [False], a
    value set, a dict of rules, or a container class made by [_MakeCheck];
    the default is a scalar, a dict (the rules of a nested mapping) or a
    list. *)
Inductive checker : Type :=
| CkTrue
| CkFalse
| CkBool
| CkInt
| CkLong
| CkUnicode
| CkStr
| CkB36
| CkExt (tag : string)
| CkTag (tag : string)
| CkSet (vs : list scalar)
| CkRules (rs : list (string * rule))
| CkClass (k : kind) (rs : list (string * rule))
with rule : Type :=
| Rule (comment : string) (check : checker) (default : dflt)
with dflt : Type :=
| DScalar (v : scalar)
| DDict (rs : list (string * rule))
| DList
| DOther.

Definition rules : Type := list (string * rule).

Definition rule_comment (r : rule) : string :=
  match r with Rule c _ _ => c end.
Definition rule_checker (r : rule) : checker :=
  match r with Rule _ c _ => c end.
Definition rule_default (r : rule) : dflt :=
  match r with Rule _ _ d => d end.

(** A Python value: a scalar, a plain dict or list, an object the
    embedding does not look into (a bound method, say), or a container
    with its fields, its rules, the attributes set on the instance and its
    data. *)
Inductive value : Type :=
| VNone
| VBool (b : bool)
| VInt (z : Z)
| VStr (s : string)
| VDict (d : list (string * value))
| VList (l : list value)
| VOpaque (what : string)
| VRules (rs : rules)
| VCDict (m : meta) (rs : rules) (attrs : list (string * value))
         (d : list (string * value))
| VCList (m : meta) (rs : rules) (attrs : list (string * value))
         (l : list value).

Definition of_scalar (s : scalar) : value :=
  match s with
  | SNone => VNone
  | SBool b => VBool b
  | SInt z => VInt z
  | SStr t => VStr t
  end.

Definition is_scalar (v : value) : bool :=
  match v with
  | VNone | VBool _ | VInt _ | VStr _ => true
  | _ => false
  end.

(** The key of an item access: list containers take an ordinal or text. *)
Inductive pykey : Type :=
| KInt (z : Z)
| KStr (s : string).

(** ** Exceptions *)

(** [InvalidKeyError] is the source's subclass of [ValueError].  The three
    [ValueError]s of [__setitem__] are kept apart by their message:
    [InvalidValue path v] is "Invalid value for path: v" and [Immutable
    path] is "Modifying path is not allowed".  [UnknownConstraint] is the
    plain [Exception] of [__setitem__] and [UsageError] comes from
    [mailpile.util]. *)
Inductive exn : Type :=
| InvalidKeyError (name key : string)
| InvalidValue (path : string) (v : value)
| Immutable (path : string)
| OtherValueError
| TypeError
| KeyError (key : string)
| IndexError
| AttributeError (attr : string)
| AssertionError
| UnknownConstraint (path : string)
| UsageError (msg : string)
| ParsingError
| OtherError (what : string)
| NoFuel.

(** [isinstance(e, ValueError)] *)
Definition is_ValueError (e : exn) : bool :=
  match e with
  | InvalidKeyError _ _ | InvalidValue _ _ | Immutable _ | OtherValueError => true
  | _ => false
  end.

Definition is_TypeError (e : exn) : bool :=
  match e with TypeError => true | _ => false end.

Definition is_KeyError (e : exn) : bool :=
  match e with KeyError _ => true | _ => false end.

Inductive result (A : Type) : Type :=
| Ok (a : A)
| Raise (e : exn).
Arguments Ok {A} a.
Arguments Raise {A} e.

Definition bind {A B} (r : result A) (f : A -> result B) : result B :=
  match r with
  | Ok a => f a
  | Raise e => Raise e
  end.

Notation "x <- r ;; k" := (bind r (fun x => k))
  (at level 61, r at next level, right associativity).

(** ** Numbers and text *)

Module Num.

(** [str(n)] and [unicode(n)] of an integer: its decimal digits. *)
Definition str_of_Z (z : Z) : string :=
  NilZero.string_of_int (Z.to_int z).

Fixpoint all_digits (s : string) : bool :=
  match s with
  | EmptyString => true
  | String c r => Text.is_digit c && all_digits r
  end.

(** [int(s)] of a text: white space around it is dropped, then an optional
    sign and at least one decimal digit are read.  [None] is the
    [ValueError] of [int]. *)
Definition int_of_str (s : string) : option Z :=
  let t := Text.strip s in
  let body := match t with
              | String "+" r => r
              | String "-" r => r
              | _ => t
              end in
  match body with
  | EmptyString => None
  | _ =>
      if all_digits body then
        match NilZero.int_of_string
                (match t with String "+" r => r | _ => t end) with
        | Some d => Some (Z.of_int d)
        | None => None
        end
      else None
  end.

(** [long(s)] also reads a final [L] or [l]. *)
Fixpoint drop_final_L (s : string) : string :=
  match s with
  | EmptyString => EmptyString
  | String c EmptyString =>
      if Ascii.eqb c "L" || Ascii.eqb c "l" then EmptyString else s
  | String c r => String c (drop_final_L r)
  end.

Definition long_of_str (s : string) : option Z :=
  int_of_str (drop_final_L (Text.strip s)).

(** The value of a base-36 digit. *)
Definition digit36 (c : ascii) : option Z :=
  let n := Z.of_nat (nat_of_ascii c) in
  if Text.is_digit c then Some (n - 48)
  else if Text.is_lower c then Some (n - 87)
  else if Text.is_upper c then Some (n - 55)
  else None.

Fixpoint digits36 (acc : Z) (s : string) : option Z :=
  match s with
  | EmptyString => Some acc
  | String c r =>
      match digit36 c with
      | Some d => digits36 (acc * 36 + d) r
      | None => None
      end
  end.

(** [int(s, 36)]; [None] is its [ValueError]. *)
Definition int36_of_str (s : string) : option Z :=
  match Text.strip s with
  | EmptyString => None
  | String "-" EmptyString | String "+" EmptyString => None
  | String "-" r => option_map Z.opp (digits36 0 r)
  | String "+" r => digits36 0 r
  | t => digits36 0 t
  end.

Definition digit_char36 (d : Z) : ascii :=
  if d <? 10 then ascii_of_nat (Z.to_nat (d + 48))
  else ascii_of_nat (Z.to_nat (d + 87)).

Fixpoint b36_digits (fuel : nat) (n : Z) (acc : string) : string :=
  match fuel with
  | O => acc
  | S f =>
      if n =? 0 then acc
      else b36_digits f (n / 36) (String (digit_char36 (n mod 36)) acc)
  end.

(** Modelled from the spec: [b36] of [mailpile.util], which the source
    imports and which is not part of it.  The spec has a list's addresses
    as lowercase base-36 text, [0, 1, ..., 9, a, b, ...]; the loop below
    peels one digit per round, and a number has fewer digits than its
    binary size. *)
Definition b36 (n : Z) : string :=
  match b36_digits (S (Z.to_nat (Z.log2 n))) n EmptyString with
  | EmptyString => "0"
  | s => s
  end.

End Num.

(** ** Dicts as association lists *)

Section Assoc.
Context {A : Type}.

(** [d[k]], [k in d] *)
Fixpoint alookup (k : string) (d : list (string * A)) : option A :=
  match d with
  | [] => None
  | (k', a) :: r => if String.eqb k k' then Some a else alookup k r
  end.

Definition amem (k : string) (d : list (string * A)) : bool :=
  match alookup k d with Some _ => true | None => false end.

(** [d[k] = a]: the entry is replaced where it is, or added. *)
Fixpoint aset (k : string) (a : A) (d : list (string * A)) : list (string * A) :=
  match d with
  | [] => [(k, a)]
  | (k', a') :: r =>
      if String.eqb k k' then (k, a) :: r else (k', a') :: aset k a r
  end.

Definition akeys (d : list (string * A)) : list string := map fst d.

End Assoc.

(** ** Built-in conversions *)

Definition str_of_bool (b : bool) : string := if b then "True" else "False".

(** [value == s] for a member [s] of a value set.  [True == 1] and
    [False == 0] hold in Python; a value that is not a scalar equals no
    scalar. *)
Definition py_eq_scalar (v : value) (s : scalar) : bool :=
  match v, s with
  | VNone, SNone => true
  | VBool a, SBool b => Bool.eqb a b
  | VBool a, SInt z => (if a then 1 else 0) =? z
  | VInt z, SBool b => z =? (if b then 1 else 0)
  | VInt a, SInt b => a =? b
  | VStr a, SStr b => String.eqb a b
  | _, _ => false
  end.

(** [value in checker] for a list, set or tuple of scalars *)
Definition py_in (v : value) (vs : list scalar) : bool :=
  existsb (py_eq_scalar v) vs.

(** [bool(v)] *)
Definition truthy (v : value) : bool :=
  match v with
  | VNone => false
  | VBool b => b
  | VInt z => negb (z =? 0)
  | VStr s => negb (String.eqb s "")
  | VDict d => match d with [] => false | _ => true end
  | VList l => match l with [] => false | _ => true end
  | VOpaque _ => true
  | VRules rs => match rs with [] => false | _ => true end
  | VCDict _ _ _ d => match d with [] => false | _ => true end
  | VCList _ _ _ l => match l with [] => false | _ => true end
  end.

(** [int(v)]: [TypeError] for what is neither a number nor text. *)
Definition py_int (v : value) : result value :=
  match v with
  | VBool b => Ok (VInt (if b then 1 else 0))
  | VInt z => Ok (VInt z)
  | VStr s => match Num.int_of_str s with
              | Some z => Ok (VInt z)
              | None => Raise OtherValueError
              end
  | _ => Raise TypeError
  end.

Definition py_long (v : value) : result value :=
  match v with
  | VStr s => match Num.long_of_str s with
              | Some z => Ok (VInt z)
              | None => Raise OtherValueError
              end
  | _ => py_int v
  end.

(** What the source takes from outside: the entries of [RULE_CHECK_MAP]
    that the embedding does not interpret ([float], the path and file
    checks, [_HostNameCheck] and [_SlugCheck], by tag); [unicode(v)] of a
    value that is not a scalar; [b36] of [mailpile.util], the base-36 text
    of a number ([Num.b36] is the rendering the spec describes); and the
    test [key == CleanText(key, banned=CleanText.NONVARS).clean] of
    [add_rule], [CleanText] being in [mailpile.util] too. *)
Record externs : Type := Externs {
  ext_check : string -> value -> result value;
  py_text : value -> string;
  b36 : Z -> string;
  clean_key : string -> bool
}.

Section Containers.

Variable X : externs.

(** [unicode(v)] and [str(v)] *)
Definition py_unicode (v : value) : string :=
  match v with
  | VNone => "None"
  | VBool b => str_of_bool b
  | VInt z => Num.str_of_Z z
  | VStr s => s
  | _ => py_text X v
  end.

(** [_B36Check] *)
Definition B36Check (v : value) : result value :=
  match v with
  | VStr s => match Num.int36_of_str s with
              | Some _ => Ok (VStr (Text.lower s))
              | None => Raise OtherValueError
              end
  | _ => Raise TypeError
  end.

(** [RULE_CHECK_MAP.get(check, check)]: a known tag becomes its entry,
    anything else stays what it is. *)
Definition resolve_check (check : checker) : checker :=
  match check with
  | CkStr => CkUnicode
  | CkTag tag =>
      if String.eqb tag "bool" then CkBool
      else if String.eqb tag "b36" then CkB36
      else if String.eqb tag "email" then CkUnicode
      else if String.eqb tag "False" || String.eqb tag "false" then CkFalse
      else if String.eqb tag "int" then CkInt
      else if String.eqb tag "long" then CkLong
      else if String.eqb tag "multiline" then CkUnicode
      else if String.eqb tag "mailroute" then CkUnicode
      else if String.eqb tag "str" then CkUnicode
      else if String.eqb tag "True" || String.eqb tag "true" then CkTrue
      else if String.eqb tag "unicode" then CkUnicode
      else if existsb (String.eqb tag)
                ["dir"; "directory"; "file"; "float"; "hostname"; "new file";
                 "new dir"; "new directory"; "path"; "slug"]
           then CkExt tag
      else CkTag tag
  | _ => check
  end.


(** *** Keys, rules and reads *)

(** [__fixkey__]: the identity on a mapping; a list reads text as a
    base-36 number when it can. *)
Definition fixkey (k : kind) (key : pykey) : pykey :=
  match k, key with
  | KList, KStr s =>
      match Num.int36_of_str s with
      | Some z => KInt z
      | None => key
      end
  | _, _ => key
  end.

(** [key in self.rules]: the keys of a rule set are text. *)
Definition key_in_rules (key : pykey) (rs : rules) : bool :=
  match key with
  | KStr s => amem s rs
  | KInt _ => false
  end.

(** ['%s' % key] *)
Definition key_text (key : pykey) : string :=
  match key with
  | KStr s => s
  | KInt z => Num.str_of_Z z
  end.

(** ['%s/%s' % (self._name, key)] *)
Definition path_of (name : string) (key : pykey) : string :=
  name ++ "/" ++ key_text key.

(** [get_rule] *)
Definition get_rule (k : kind) (name : string) (rs : rules) (key : pykey)
  : result rule :=
  let key := fixkey k key in
  let wildcard :=
    match alookup "_any" rs with
    | Some r => Ok r
    | None => Raise (InvalidKeyError name (key_text key))
    end in
  match key with
  | KStr s => match alookup s rs with
              | Some r => Ok r
              | None => wildcard
              end
  | KInt _ => wildcard
  end.

(** The Python object a rule holds as its default. *)
Definition default_value (d : dflt) : value :=
  match d with
  | DScalar s => of_scalar s
  | DDict rs => VRules rs
  | DList => VList []
  | DOther => VOpaque "default"
  end.

(** [list.__getitem__] and [list.__setitem__] count a negative ordinal
    from the end. *)
Definition list_pos (l : list value) (z : Z) : option nat :=
  let n := Z.of_nat (List.length l) in
  if (0 <=? z) && (z <? n) then Some (Z.to_nat z)
  else if (- n <=? z) && (z <? 0) then Some (Z.to_nat (z + n))
  else None.

Definition list_getitem (l : list value) (key : pykey) : result value :=
  match key with
  | KInt z => match list_pos l z with
              | Some i => match nth_error l i with
                          | Some v => Ok v
                          | None => Raise IndexError
                          end
              | None => Raise IndexError
              end
  | KStr _ => Raise TypeError
  end.

Fixpoint replace_nth (i : nat) (v : value) (l : list value) : list value :=
  match l, i with
  | [], _ => []
  | _ :: r, O => v :: r
  | x :: r, S j => x :: replace_nth j v r
  end.

Definition list_setitem (l : list value) (key : pykey) (v : value)
  : result (list value) :=
  match key with
  | KInt z => match list_pos l z with
              | Some i => Ok (replace_nth i v l)
              | None => Raise IndexError
              end
  | KStr _ => Raise TypeError
  end.

(** [key == v] for an element [v] of a list, as [key in self] needs it. *)
Definition key_eq_value (key : pykey) (v : value) : bool :=
  match key, v with
  | KInt z, VInt z' => z =? z'
  | KInt z, VBool b => z =? (if b then 1 else 0)
  | KStr s, VStr s' => String.eqb s s'
  | _, _ => false
  end.

(** [RC.get].  [key in self] is a key of a mapping and an element of a
    list. *)
Definition get (c : value) (key : pykey) (default : value) : result value :=
  let fallback (rs : rules) (key : pykey) :=
    match default, key with
    | VNone, KStr s =>
        match alookup s rs with
        | Some r => Ok (default_value (rule_default r))
        | None => Ok default
        end
    | _, _ => Ok default
    end in
  match c with
  | VCDict m rs _ d =>
      match key with
      | KStr s => match alookup s d with
                  | Some v => Ok v
                  | None => fallback rs key
                  end
      | KInt _ => fallback rs key
      end
  | VCList m rs _ l =>
      let key := fixkey KList key in
      if existsb (key_eq_value key) l then list_getitem l key
      else fallback rs key
  | _ => Raise TypeError
  end.

(** [RC.__getitem__] and its override [ConfigList.__getitem__] *)
Definition getitem (c : value) (key : pykey) : result value :=
  match c with
  | VCDict m rs _ d =>
      if key_in_rules key rs || amem "_any" rs then get c key VNone
      else match key with
           | KStr s => match alookup s d with
                       | Some v => Ok v
                       | None => Raise (KeyError s)
                       end
           | KInt z => Raise (KeyError (Num.str_of_Z z))
           end
  | VCList m rs _ l => list_getitem l (fixkey KList key)
  | _ => Raise TypeError
  end.

(** *** Attributes *)

(** The names that ordinary attribute lookup finds on the class of a
    container: the members the source defines and those of the built-in
    [dict] or [list]. *)
Definition class_attrs (k : kind) : list string :=
  ["RULE_COMMENT"; "RULE_CHECKER"; "RULE_DEFAULT"; "RULE_CHECK_MAP";
   "_NAME"; "_RULES"; "as_config_bytes"; "as_config"; "reset"; "set_rules";
   "add_rule"; "get_rule"; "get"; "update";
   "__init__"; "__str__"; "__unicode__"; "__fixkey__"; "__passkey__";
   "__getitem__"; "__setitem__"; "__delitem__"; "__getattr__";
   "__setattr__"; "__getattribute__"; "__delattr__"; "__class__";
   "__dict__"; "__doc__"; "__module__"; "__contains__"; "__iter__";
   "__len__"; "__repr__"; "__eq__"; "__ne__"; "__lt__"; "__le__"; "__gt__";
   "__ge__"; "__hash__"; "__new__"; "__reduce__"; "__reduce_ex__";
   "__sizeof__"; "__format__"; "__subclasshook__"; "__weakref__"]
  ++
  match k with
  | KDict =>
      ["all_keys"; "clear"; "copy"; "fromkeys"; "has_key"; "items";
       "iteritems"; "iterkeys"; "itervalues"; "keys"; "pop"; "popitem";
       "setdefault"; "values"; "viewitems"; "viewkeys"; "viewvalues";
       "__cmp__"]
  | KList =>
      ["append"; "extend"; "keys"; "count"; "index"; "insert"; "pop";
       "remove"; "reverse"; "sort"; "__iadd__"; "__add__"; "__mul__";
       "__imul__"; "__rmul__"; "__reversed__"; "__getslice__";
       "__setslice__"; "__delslice__"]
  end.

Definition comment_value (c : option string) : value :=
  match c with
  | Some s => VStr s
  | None => VNone
  end.

(** Ordinary lookup ([__getattribute__]): the fields of the instance, then
    the members of the class. *)
Definition plain_attr (c : value) (attr : string) : option value :=
  let look (k : kind) (m : meta) (rs : rules) (attrs : list (string * value)) :=
    if String.eqb attr "rules" then Some (VRules rs)
    else if String.eqb attr "_name" then Some (VStr (m_name m))
    else if String.eqb attr "_key" then Some (VStr (m_key m))
    else if String.eqb attr "_comment" then Some (comment_value (m_comment m))
    else match alookup attr attrs with
         | Some v => Some v
         | None =>
             if existsb (String.eqb attr) (class_attrs k)
             then Some (VOpaque attr) else None
         end in
  match c with
  | VCDict m rs attrs _ => look KDict m rs attrs
  | VCList m rs attrs _ => look KList m rs attrs
  | _ => None
  end.

Definition kind_of (c : value) : option kind :=
  match c with
  | VCDict _ _ _ _ => Some KDict
  | VCList _ _ _ _ => Some KList
  | _ => None
  end.

Definition rules_of (c : value) : rules :=
  match c with
  | VCDict _ rs _ _ | VCList _ rs _ _ => rs
  | _ => []
  end.

Definition meta_of (c : value) : meta :=
  match c with
  | VCDict m _ _ _ | VCList m _ _ _ => m
  | _ => Meta "" "" None
  end.

Definition name_of (c : value) : string := m_name (meta_of c).

(** Reading [c.attr]: ordinary lookup, and [RC.__getattr__] when that
    finds nothing. *)
Definition getattr (c : value) (attr : string) : result value :=
  match plain_attr c attr with
  | Some v => Ok v
  | None =>
      match kind_of c with
      | Some k =>
          if key_in_rules (fixkey k (KStr attr)) (rules_of c)
             || amem "_any" (rules_of c)
          then getitem c (KStr attr)
          else Raise (AttributeError attr)
      | None => Raise (AttributeError attr)
      end
  end.

(** [hasattr(c, attr)]: reading the attribute raises nothing. *)
Definition hasattr (c : value) (attr : string) : bool :=
  match getattr c attr with
  | Ok _ => true
  | Raise _ => false
  end.

(** [pcls.__setattr__]: the attribute is set on the instance.  The three
    private fields take text (or [None] for the comment); other values for
    them are outside the embedding. *)
Definition plain_setattr (c : value) (attr : string) (v : value) : result value :=
  let upd (m : meta) (attrs : list (string * value))
          (mk : meta -> list (string * value) -> value) :=
    if String.eqb attr "_name" then
      match v with
      | VStr s => Ok (mk (Meta s (m_key m) (m_comment m)) attrs)
      | _ => Raise (OtherError "_name")
      end
    else if String.eqb attr "_key" then
      match v with
      | VStr s => Ok (mk (Meta (m_name m) s (m_comment m)) attrs)
      | _ => Raise (OtherError "_key")
      end
    else if String.eqb attr "_comment" then
      match v with
      | VStr s => Ok (mk (Meta (m_name m) (m_key m) (Some s)) attrs)
      | VNone => Ok (mk (Meta (m_name m) (m_key m) None) attrs)
      | _ => Raise (OtherError "_comment")
      end
    else if String.eqb attr "rules" then Raise (OtherError "rules")
    else Ok (mk m (aset attr v attrs)) in
  match c with
  | VCDict m rs attrs d => upd m attrs (fun m' a' => VCDict m' rs a' d)
  | VCList m rs attrs l => upd m attrs (fun m' a' => VCList m' rs a' l)
  | _ => Raise (AttributeError attr)
  end.

(** *** Writes *)

(** A call that mutates its receiver: the receiver afterwards and the
    outcome of the call. *)
Definition effect (A : Type) : Type := (value * result A)%type.

(** [for x in xs: body], stopping at the first exception *)
Fixpoint for_each {X : Type} (body : value -> X -> effect unit)
         (xs : list X) (c : value) : effect unit :=
  match xs with
  | [] => (c, Ok tt)
  | x :: r =>
      match body c x with
      | (c', Ok _) => for_each body r c'
      | (c', Raise e) => (c', Raise e)
      end
  end.

(** The class attribute [_NAME]: ['config'] in [ConfigDict], ['container']
    in [RC] and so in [ConfigList]. *)
Definition class_name (k : kind) : string :=
  match k with
  | KDict => "config"
  | KList => "container"
  end.

(** [list(v)] and [for x in v] *)
Definition iter_values (v : value) : result (list value) :=
  match v with
  | VList l => Ok l
  | VCList _ _ _ l => Ok l
  | VDict d => Ok (map (fun kv => VStr (fst kv)) d)
  | VCDict _ _ _ d => Ok (map (fun kv => VStr (fst kv)) d)
  | VRules rs => Ok (map (fun kv => VStr (fst kv)) rs)
  | VStr s => Ok (map (fun c => VStr (String c EmptyString)) (list_ascii_of_string s))
  | _ => Raise TypeError
  end.

Section Writes.

(** Making an instance of a container class: kind, [_name], [_comment],
    [_rules] and the positional arguments.  [construct] below ties the
    knot. *)
Variable mk : kind -> string -> option string -> rules -> list value
              -> result value.

(** Is the checker a type or a function, [isinstance(checker, (type,
    type(RuledContainer)))]? *)
Definition is_callable (ck : checker) : bool :=
  match ck with
  | CkBool | CkInt | CkLong | CkUnicode | CkStr | CkB36
  | CkExt _ | CkClass _ _ => true
  | _ => false
  end.

(** [checker(value)] *)
Definition call_checker (ck : checker) (v : value) : result value :=
  match ck with
  | CkBool => Ok (VBool (truthy v))
  | CkInt => py_int v
  | CkLong => py_long v
  | CkUnicode | CkStr => Ok (VStr (py_unicode v))
  | CkB36 => B36Check v
  | CkExt tag => ext_check X tag v
  | CkClass k rs => mk k (class_name k) None rs [v]
  | _ => Raise TypeError
  end.

(** The middle of [__setitem__]: what the rule's checker makes of the
    value. *)
Definition check_value (path : string) (ck : checker) (v : value)
  : result value :=
  match ck with
  | CkTrue => Ok v
  | CkFalse => Raise (Immutable path)
  | CkSet vs => if py_in v vs then Ok v else Raise (InvalidValue path v)
  | _ =>
      if is_callable ck then
        match call_checker ck v with
        | Ok v' => Ok v'
        | Raise e =>
            if is_ValueError e || is_TypeError e
            then Raise (InvalidValue path v) else Raise e
        end
      else Raise (UnknownConstraint path)
  end.

(** Setting [_key] and [_name] on a stored container.  Both are ordinary
    attributes: [add_rule] asserts that no rule is named like an attribute
    the instance has, and [__init__] sets the two before any rule is
    added. *)
Definition rename (v : value) (key name : string) : value :=
  match v with
  | VCDict m rs attrs d => VCDict (Meta name key (m_comment m)) rs attrs d
  | VCList m rs attrs l => VCList (Meta name key (m_comment m)) rs attrs l
  | _ => v
  end.

(** [RC.__passkey__] tests [hasattr(value, 'key')];
    [ConfigList.__passkey__] tests [hasattr(value, '_key')] and uses the
    lowercase base-36 address. *)
Definition passkey (k : kind) (name : string) (key : pykey) (v : value)
  : result value :=
  match k with
  | KDict =>
      if hasattr v "key"
      then Ok (rename v (key_text key) (path_of name key))
      else Ok v
  | KList =>
      if hasattr v "_key" then
        match key with
        | KInt z =>
            let a := Text.lower (b36 X z) in
            Ok (rename v a (name ++ "/" ++ a))
        | KStr _ => Raise TypeError
        end
      else Ok v
  end.

(** [RC.__setitem__].  Nothing is written when it raises. *)
Definition setitem (c : value) (key : pykey) (v : value) : result value :=
  match c with
  | VCDict m rs attrs d =>
      let key := fixkey KDict key in
      r <- get_rule KDict (m_name m) rs key ;;
      v1 <- check_value (path_of (m_name m) key) (rule_checker r) v ;;
      v2 <- passkey KDict (m_name m) key v1 ;;
      match key with
      | KStr s => Ok (VCDict m rs attrs (aset s v2 d))
      | KInt _ => Raise (OtherError "ordinal key in a mapping")
      end
  | VCList m rs attrs l =>
      let key := fixkey KList key in
      r <- get_rule KList (m_name m) rs key ;;
      v1 <- check_value (path_of (m_name m) key) (rule_checker r) v ;;
      v2 <- passkey KList (m_name m) key v1 ;;
      l' <- list_setitem l key v2 ;;
      Ok (VCList m rs attrs l')
  | _ => Raise TypeError
  end.

(** [RC.__setattr__] *)
Definition setattr (c : value) (attr : string) (v : value) : result value :=
  match kind_of c with
  | Some k =>
      if key_in_rules (fixkey k (KStr attr)) (rules_of c)
      then setitem c (KStr attr) v
      else plain_setattr c attr v
  | None => Raise (AttributeError attr)
  end.

(** As an effect on the receiver. *)
Definition assign (c : value) (key : pykey) (v : value) : effect unit :=
  match setitem c key v with
  | Ok c' => (c', Ok tt)
  | Raise e => (c, Raise e)
  end.

(** *** The list container *)

Definition list_data (c : value) : list value :=
  match c with
  | VCList _ _ _ l => l
  | _ => []
  end.

Definition with_list_data (c : value) (l : list value) : value :=
  match c with
  | VCList m rs attrs _ => VCList m rs attrs l
  | _ => c
  end.

(** [len(self)] of a list container *)
Definition clen (c : value) : Z := Z.of_nat (List.length (list_data c)).

(** [ConfigList.append]: a slot holding [None] is added, the value is
    written into it through [__setitem__], and whatever that raises takes
    the last slot away again. *)
Definition append (c : value) (v : value) : effect string :=
  match c with
  | VCList m rs attrs l =>
      let c1 := VCList m rs attrs (l ++ [VNone]) in
      match setitem c1 (KInt (clen c1 - 1)) v with
      | Ok c2 => (c2, Ok (b36 X (clen c2 - 1)))
      | Raise e =>
          (with_list_data c1 (firstn (Z.to_nat (clen c1 - 1)) (list_data c1)),
           Raise e)
      end
  | _ => (c, Raise TypeError)
  end.

Definition append_ (c : value) (v : value) : effect unit :=
  match append c v with
  | (c', Ok _) => (c', Ok tt)
  | (c', Raise e) => (c', Raise e)
  end.

(** [ConfigList.extend], also [__iadd__] *)
Definition extend (c : value) (src : value) : effect unit :=
  match iter_values src with
  | Ok l => for_each append_ l c
  | Raise e => (c, Raise e)
  end.

(** [ConfigList.keys] *)
Definition list_keys (c : value) : list string :=
  map (fun i => Text.lower (b36 X (Z.of_nat i)))
      (seq 0 (List.length (list_data c))).

(** [self[i] = l[i]] and [self.append(l[i])], the bodies of the two loops
    of [ConfigList.update] *)
Definition overwrite_slot (l : list value) (c : value) (i : nat) : effect unit :=
  match nth_error l i with
  | Some x => assign c (KInt (Z.of_nat i)) x
  | None => (c, Raise IndexError)
  end.

Definition append_slot (l : list value) (c : value) (i : nat) : effect unit :=
  match nth_error l i with
  | Some x => append_ c x
  | None => (c, Raise IndexError)
  end.

(** [ConfigList.update] for one argument: the slots the list has are
    overwritten from the source, the rest of the source is appended. *)
Definition update_list1 (c : value) (src : value) : effect unit :=
  match iter_values src with
  | Raise e => (c, Raise e)
  | Ok l =>
      match for_each (overwrite_slot l) (seq 0 (List.length (list_data c))) c with
      | (c1, Ok _) =>
          for_each (append_slot l)
                   (seq (List.length (list_data c1))
                        (List.length l - List.length (list_data c1))) c1
      | (c1, Raise e) => (c1, Raise e)
      end
  end.

Definition update_list (c : value) (args : list value) : effect unit :=
  for_each update_list1 args c.

(** *** The mapping container *)

Definition dict_data (c : value) : list (string * value) :=
  match c with
  | VCDict _ _ _ d => d
  | _ => []
  end.

(** [ConfigDict.__delitem__] evaluates [self.name] for its message, and
    the class has [_name] but no [name]: the read goes through
    [__getattr__].  [UsageError] comes from [mailpile.util]. *)
Definition delitem (c : value) (key : string) : effect unit :=
  match getattr c "name" with
  | Ok v =>
      (c, Raise (UsageError
                   ("Deleting keys from " ++ py_unicode v ++ " is not allowed")))
  | Raise e => (c, Raise e)
  end.

(** [ConfigDict.all_keys] *)
Definition all_keys (c : value) : list string :=
  nodup string_dec
    (akeys (dict_data c)
     ++ filter (fun k => negb (String.eqb k "_any")) (akeys (rules_of c))).

(** One positional argument of [ConfigDict.update]: a mapping is read key
    by key, anything else as a sequence of pairs. *)
Definition pairs_of (src : value) : result (list (string * value)) :=
  match src with
  | VDict d => Ok d
  | VCDict _ _ _ d => Ok d
  | VList l =>
      (fix go (l : list value) : result (list (string * value)) :=
         match l with
         | [] => Ok []
         | VList [VStr k; v] :: r => kvs <- go r ;; Ok ((k, v) :: kvs)
         | VList _ :: _ => Raise OtherValueError
         | _ :: _ => Raise TypeError
         end) l
  | VStr EmptyString => Ok []
  | VStr _ => Raise OtherValueError
  | VCList _ _ _ [] => Ok []
  | VCList _ _ _ _ => Raise (OtherError "update from a list container")
  | VRules _ => Raise (OtherError "update from rules")
  | _ => Raise TypeError
  end.

Definition update_dict1 (c : value) (src : value) : effect unit :=
  match pairs_of src with
  | Ok kvs => for_each (fun c kv => assign c (KStr (fst kv)) (snd kv)) kvs c
  | Raise e => (c, Raise e)
  end.

(** [ConfigDict.update] with its positional and keyword arguments *)
Definition update_dict (c : value) (args : list value)
           (kwargs : list (string * value)) : effect unit :=
  match for_each update_dict1 args c with
  | (c1, Ok _) =>
      for_each (fun c kv => assign c (KStr (fst kv)) (snd kv)) kwargs c1
  | (c1, Raise e) => (c1, Raise e)
  end.

(** [self.update] of either class, positional arguments only *)
Definition update (c : value) (args : list value) : effect unit :=
  match c with
  | VCList _ _ _ _ => update_list c args
  | _ => update_dict c args []
  end.

(** *** Rules and construction *)

Definition with_rules (c : value) (rs : rules) : value :=
  match c with
  | VCDict m _ attrs d => VCDict m rs attrs d
  | VCList m _ attrs l => VCList m rs attrs l
  | _ => c
  end.

(** [pcls.__setitem__(self, key, child)] with a text key, as [add_rule]
    calls it: a list takes no text index. *)
Definition raw_setitem (c : value) (key : string) (v : value) : result value :=
  match c with
  | VCDict m rs attrs d => Ok (VCDict m rs attrs (aset key v d))
  | VCList _ _ _ _ => Raise TypeError
  | _ => Raise TypeError
  end.

(** [add_rule].  The rule is copied and entered, its checker is looked up
    in [RULE_CHECK_MAP]; a default that is a dict or a list makes the key
    a child container and the rule's checker [False]. *)
Definition add_rule (c : value) (key : string) (r : rule) : result value :=
  if negb (clean_key X key) then Raise AssertionError
  else if hasattr c key then Raise AssertionError
  else
    let check := resolve_check (rule_checker r) in
    let name := name_of c ++ "/" ++ key in
    let comment := rule_comment r in
    let check_rule :=
      match check with
      | CkRules crs =>
          Some [("_any", Rule comment (CkClass KDict crs) (DScalar SNone))]
      | _ => None
      end in
    match rule_default r with
    | DDict drs =>
        let c1 := with_rules c
                    (aset key (Rule comment CkFalse (DDict drs)) (rules_of c)) in
        child <- mk KDict name (Some comment)
                    (match check_rule with Some cr => cr | None => drs end) [] ;;
        raw_setitem c1 key child
    | DList =>
        let c1 := with_rules c
                    (aset key (Rule comment CkFalse DList) (rules_of c)) in
        child <- mk KList name (Some comment)
                    (match check_rule with
                     | Some cr => cr
                     | None => [("_any", Rule comment check (DScalar SNone))]
                     end) [] ;;
        raw_setitem c1 key child
    | DScalar s =>
        Ok (with_rules c (aset key (Rule comment check (DScalar s)) (rules_of c)))
    | DOther => Raise TypeError
    end.

(** [set_rules] on the instance [__init__] has just made: [reset] finds
    nothing to clear, then every rule is added. *)
Fixpoint set_rules (c : value) (rs : rules) : result value :=
  match rs with
  | [] => Ok c
  | (key, r) :: rest => c' <- add_rule c key r ;; set_rules c' rest
  end.

(** [RC.__init__] *)
Definition init (k : kind) (name : string) (comment : option string)
           (rs : rules) (args : list value) : result value :=
  let m := Meta name name comment in
  let c0 := match k with
            | KDict => VCDict m [] [] []
            | KList => VCList m [] [] []
            end in
  c1 <- set_rules c0 rs ;;
  match update c1 args with
  | (c2, Ok _) => Ok c2
  | (_, Raise e) => Raise e
  end.

End Writes.

(** Instantiating a container class builds the containers of its nested
    rules and checks nested data with nested classes; [fuel] bounds that
    nesting, and [NoFuel] is raised when it is too small. *)
Fixpoint construct (fuel : nat) (k : kind) (name : string)
         (comment : option string) (rs : rules) (args : list value)
  : result value :=
  match fuel with
  | O => Raise NoFuel
  | S f => init (construct f) k name comment rs args
  end.

(** The operations at a given nesting bound. *)
Definition setitem_ (fuel : nat) := setitem (construct fuel).
Definition setattr_ (fuel : nat) := setattr (construct fuel).
Definition list_append (fuel : nat) := append (construct fuel).
Definition list_extend (fuel : nat) := extend (construct fuel).
Definition list_update (fuel : nat) := update_list (construct fuel).
Definition dict_update (fuel : nat) := update_dict (construct fuel).

(** [ConfigDict(_rules=rs)] and [ConfigList(_rules=rs)] *)
Definition ConfigDict (fuel : nat) (rs : rules) (args : list value) :=
  construct fuel KDict "config" None rs args.
Definition ConfigList (fuel : nat) (rs : rules) (args : list value) :=
  construct fuel KList "container" None rs args.

(** ** The escaping of values: [urllib.quote] and [urllib.unquote] *)

Definition hex_char (d : nat) : ascii :=
  if (d <? 10)%nat then ascii_of_nat (d + 48) else ascii_of_nat (d + 55).

(** The value of a hexadecimal digit of either case. *)
Definition hex_value (c : ascii) : option nat :=
  let n := nat_of_ascii c in
  if Text.is_digit c then Some (n - 48)%nat
  else if ((65 <=? n) && (n <=? 70))%nat then Some (n - 55)%nat
  else if ((97 <=? n) && (n <=? 102))%nat then Some (n - 87)%nat
  else None.

(** Letters, digits and [_.-] are always safe; the source adds the space
    and the slash. *)
Definition is_safe (c : ascii) : bool :=
  Text.is_digit c || Text.is_upper c || Text.is_lower c
  || Text.mem_char c "_.- /".

(** [quote(s, safe=' /')] *)
Fixpoint quote (s : string) : string :=
  match s with
  | EmptyString => EmptyString
  | String c r =>
      if is_safe c then String c (quote r)
      else
        let n := nat_of_ascii c in
        String "%" (String (hex_char (n / 16)) (String (hex_char (n mod 16))
                                                       (quote r)))
  end.

(** [unquote(s)]: a percent sign with two hexadecimal digits after it is
    the byte they name, any other percent sign stays. *)
Fixpoint unquote (s : string) : string :=
  match s with
  | EmptyString => EmptyString
  | String c r =>
      if Ascii.eqb c "%" then
        match r with
        | String a (String b r') =>
            match hex_value a, hex_value b with
            | Some x, Some y => String (ascii_of_nat (16 * x + y)) (unquote r')
            | _, _ => String c (unquote r)
            end
        | _ => String c (unquote r)
        end
      else String c (unquote r)
  end.

(** The value as [CommentedEscapedConfigParser.set] escapes it: quoted,
    and a final space written [%20]. *)
Definition escape_value (s : string) : string :=
  let q := quote s in
  match Text.chop_final_space q with
  | Some q' => q' ++ "%20"
  | None => q
  end.

(** ** [ConfigParser.RawConfigParser] (Python 2.7 standard library)

    The parser holds its sections in the order they were added, each an
    ordered dict of options, and the options of [DEFAULT] apart. *)

Record parser : Type := Parser {
  p_defaults : list (string * string);
  p_sections : list (string * list (string * string))
}.

Definition new_parser : parser := Parser [] [].

(** [add_section] *)
Definition add_section (p : parser) (section : string) : result parser :=
  if String.eqb (Text.lower section) "default" then Raise OtherValueError
  else if amem section (p_sections p)
  then Raise (OtherError "DuplicateSectionError")
  else Ok (Parser (p_defaults p)
                  (p_sections p ++ [(section, [("__name__", section)])])).

(** [RawConfigParser.set]; [optionxform] puts the option in lower case. *)
Definition raw_set (p : parser) (section key value : string) : result parser :=
  if String.eqb section "" || String.eqb section "DEFAULT"
  then Ok (Parser (aset (Text.lower key) value (p_defaults p)) (p_sections p))
  else match alookup section (p_sections p) with
       | Some opts =>
           Ok (Parser (p_defaults p)
                      (aset section (aset (Text.lower key) value opts)
                            (p_sections p)))
       | None => Raise (OtherError "NoSectionError")
       end.

(** [CommentedEscapedConfigParser.set] *)
Definition cecp_set (p : parser) (section key value comment : string)
  : result parser :=
  let value := escape_value value in
  let value :=
    if String.eqb comment "" then value
    else value ++ Text.spaces (25 - Text.len key - Text.len value) ++ " ; "
               ++ comment in
  raw_set p section key value.

(** [RawConfigParser.items]: the defaults overlaid with the section,
    without the entry [__name__]. *)
Definition raw_items (p : parser) (section : string)
  : result (list (string * string)) :=
  match alookup section (p_sections p) with
  | Some opts =>
      Ok (filter (fun kv => negb (String.eqb (fst kv) "__name__"))
                 (fold_left (fun d kv => aset (fst kv) (snd kv) d) opts
                            (p_defaults p)))
  | None =>
      if String.eqb section "DEFAULT"
      then Ok (filter (fun kv => negb (String.eqb (fst kv) "__name__"))
                      (p_defaults p))
      else Raise (OtherError "NoSectionError")
  end.

(** [CommentedEscapedConfigParser.items] *)
Definition cecp_items (p : parser) (section : string)
  : result (list (string * string)) :=
  kvs <- raw_items p section ;;
  Ok (map (fun kv => (fst kv, unquote (snd kv))) kvs).

(** [sections()] *)
Definition sections (p : parser) : list string := akeys (p_sections p).

(** *** Writing *)

Definition NL : ascii := "010"%char.
Definition nl : string := String NL EmptyString.

(** [value.replace('\n', '\n\t')] *)
Fixpoint indent_newlines (s : string) : string :=
  match s with
  | EmptyString => EmptyString
  | String c r =>
      if Ascii.eqb c NL then String c (String "009" (indent_newlines r))
      else String c (indent_newlines r)
  end.

Definition write_option (kv : string * string) : string :=
  if String.eqb (fst kv) "__name__" then ""
  else fst kv ++ " = " ++ indent_newlines (snd kv) ++ nl.

Definition write_section (sec : string * list (string * string)) : string :=
  "[" ++ fst sec ++ "]" ++ nl
  ++ String.concat "" (map write_option (snd sec)) ++ nl.

(** [RawConfigParser.write] *)
Definition write (p : parser) : string :=
  (match p_defaults p with
   | [] => ""
   | ds =>
       "[DEFAULT]" ++ nl
       ++ String.concat ""
            (map (fun kv => fst kv ++ " = " ++ indent_newlines (snd kv) ++ nl) ds)
       ++ nl
   end)
  ++ String.concat "" (map write_section (p_sections p)).

(** *** Reading *)

(** The lines [readline] returns: each ends with its newline, but for a
    last one that has none. *)
Fixpoint readlines (s : string) : list string :=
  match s with
  | EmptyString => []
  | String c r =>
      if Ascii.eqb c NL then String c EmptyString :: readlines r
      else match readlines r with
           | [] => [String c EmptyString]
           | l :: ls => String c l :: ls
           end
  end.

(** While a file is read every option holds the list of its lines. *)
Record reading : Type := Reading {
  r_defaults : list (string * list string);
  r_sections : list (string * list (string * list string));
  r_cursect : option (option string);
  r_optname : option string;
  r_error : bool
}.

Definition first_char (s : string) : option ascii :=
  match s with
  | String c _ => Some c
  | EmptyString => None
  end.

Definition starts_with_any (s set : string) : bool :=
  match first_char s with
  | Some c => Text.mem_char c set
  | None => false
  end.

(** [line.split(None, 1)[0]]: the first run of characters that are not
    white space. *)
Fixpoint take_word (s : string) : string :=
  match s with
  | EmptyString => EmptyString
  | String c r => if Text.is_space c then EmptyString else String c (take_word r)
  end.

Definition is_rem (line : string) : bool :=
  String.eqb (Text.lower (take_word (Text.lstrip line))) "rem"
  && starts_with_any line "rR".

(** [SECTCRE], an opening bracket, a header of one character or more
    without a closing bracket, and the closing bracket. *)
Definition match_section (line : string) : option string :=
  match line with
  | String "[" r =>
      match Text.cut_at (fun c => Ascii.eqb c "]") r with
      | Some (EmptyString, _, _) => None
      | Some (header, _, _) => Some header
      | None => None
      end
  | _ => None
  end.

Fixpoint drop_final_newline (s : string) : string :=
  match s with
  | EmptyString => EmptyString
  | String c EmptyString => if Ascii.eqb c NL then EmptyString else s
  | String c r => String c (drop_final_newline r)
  end.

(** [OPTCRE]: the option runs from a first character that is no
    separator and no white space to the first [:] or [=]; the value is
    what follows the separator and its white space, up to the end of the
    line. *)
Definition match_option (line : string) : option (string * ascii * string) :=
  match line with
  | String c r =>
      if Text.mem_char c ":=" || Text.is_space c then None
      else match Text.cut_at (fun c => Text.mem_char c ":=") r with
           | Some (before, vi, rest) =>
               Some (String c before, vi, drop_final_newline (Text.lstrip rest))
           | None => None
           end
  | EmptyString => None
  end.

Fixpoint last_char (s : string) : option ascii :=
  match s with
  | EmptyString => None
  | String c EmptyString => Some c
  | String _ r => last_char r
  end.

(** A semicolon that follows white space starts a comment.  For a value
    that starts with the semicolon, [optval[pos-1]] is [optval[-1]], its
    last character. *)
Definition strip_inline_comment (optval : string) : string :=
  match Text.cut_at (fun c => Ascii.eqb c ";") optval with
  | Some (before, _, _) =>
      let prev := match last_char before with
                  | Some c => Some c
                  | None => last_char optval
                  end in
      match prev with
      | Some c => if Text.is_space c then before else optval
      | None => optval
      end
  | None => optval
  end.

Definition cur_options (st : reading) (cur : option string)
  : list (string * list string) :=
  match cur with
  | None => r_defaults st
  | Some name => match alookup name (r_sections st) with
                 | Some o => o
                 | None => []
                 end
  end.

Definition set_cur_options (st : reading) (cur : option string)
           (o : list (string * list string)) (optname : option string) : reading :=
  match cur with
  | None => Reading o (r_sections st) (r_cursect st) optname (r_error st)
  | Some name =>
      Reading (r_defaults st) (aset name o (r_sections st)) (r_cursect st)
              optname (r_error st)
  end.

(** The text of two double quotes, which [_read] takes for an empty
    value. *)
Definition two_quotes : string :=
  String (ascii_of_nat 34) (String (ascii_of_nat 34) EmptyString).

(** One round of the loop of [RawConfigParser._read]. *)
Definition read_line (st : reading) (line : string) : result reading :=
  if String.eqb (Text.strip line) "" || starts_with_any line "#;" then Ok st
  else if is_rem line then Ok st
  else
    let continuation :=
      match first_char line, r_cursect st, r_optname st with
      | Some c, Some cur, Some optname =>
          if Text.is_space c then Some (cur, optname) else None
      | _, _, _ => None
      end in
    match continuation with
    | Some (cur, optname) =>
        let o := cur_options st cur in
        let old := match alookup optname o with Some l => l | None => [] end in
        Ok (set_cur_options st cur (aset optname (old ++ [Text.strip line])%list o)
                            (Some optname))
    | None =>
        match match_section line with
        | Some sectname =>
            if amem sectname (r_sections st) then
              Ok (Reading (r_defaults st) (r_sections st) (Some (Some sectname))
                          None (r_error st))
            else if String.eqb sectname "DEFAULT" then
              Ok (Reading (r_defaults st) (r_sections st) (Some None)
                          None (r_error st))
            else
              Ok (Reading (r_defaults st)
                          (r_sections st ++ [(sectname, [("__name__", [sectname])])])
                          (Some (Some sectname)) None (r_error st))
        | None =>
            match r_cursect st with
            | None => Raise (OtherError "MissingSectionHeaderError")
            | Some cur =>
                match match_option line with
                | Some (optname, vi, optval) =>
                    let optname := Text.lower (Text.rstrip optname) in
                    let optval :=
                      Text.strip (strip_inline_comment optval) in
                    let optval :=
                      if String.eqb optval two_quotes then "" else optval in
                    Ok (set_cur_options st cur
                          (aset optname [optval] (cur_options st cur))
                          (Some optname))
                | None =>
                    Ok (Reading (r_defaults st) (r_sections st) (r_cursect st)
                                (r_optname st) true)
                end
            end
        end
    end.

Fixpoint read_lines (st : reading) (lines : list string) : result reading :=
  match lines with
  | [] => Ok st
  | l :: ls => st' <- read_line st l ;; read_lines st' ls
  end.

Definition join_lines (o : list (string * list string)) : list (string * string) :=
  map (fun kv => (fst kv, Text.join nl (snd kv))) o.

(** [readfp] into a new parser: the lines are read, a line that is
    neither header nor option makes the whole read fail at its end, and
    the lines of every value are joined. *)
Definition readfp (data : string) : result parser :=
  st <- read_lines (Reading [] [] None None false) (readlines data) ;;
  if r_error st then Raise ParsingError
  else Ok (Parser (join_lines (r_defaults st))
                  (map (fun s => (fst s, join_lines (snd s))) (r_sections st))).

(** ** Serialization: [as_config] *)

(** [sorted(set(keys))] *)
Fixpoint insert_key (k : string) (l : list string) : list string :=
  match l with
  | [] => [k]
  | x :: r =>
      if String.eqb k x then l
      else if Text.ltb k x then k :: l
      else x :: insert_key k r
  end.

Definition sorted_set (keys : list string) : list string :=
  fold_right insert_key [] keys.

(** [self.keys()] *)
Definition keys_of (c : value) : list string :=
  match c with
  | VCDict _ _ _ d => akeys d
  | VCList _ _ _ _ => list_keys c
  | _ => []
  end.

(** The keys [as_config] walks through: those of the rules, with those of
    the data when there are no rules or a wildcard, sorted, [_any] left
    out. *)
Definition config_keys (c : value) : list string :=
  let keys := akeys (rules_of c) in
  let keys :=
    match keys with
    | [] => keys_of c
    | _ => if existsb (String.eqb "_any") keys
           then (keys ++ keys_of c)%list else keys
    end in
  filter (fun k => negb (String.eqb k "_any")) (sorted_set keys).

(** The section a container writes to: its name, and its comment after a
    colon when it has one. *)
Definition section_of (c : value) : string :=
  match m_comment (meta_of c) with
  | Some cm => if String.eqb cm "" then name_of c
               else name_of c ++ ": " ++ cm
  | None => name_of c
  end.

(** The first loop of [as_config], for one key: a value that is no
    container and whose text is not empty is set in the section, which is
    added when its first value is.  A key that is not set is written as a
    comment, with its default. *)
Definition emit_leaf (c : value) (acc : parser * bool) (key : string)
  : result (parser * bool) :=
  v <- getitem c (KStr key) ;;
  if hasattr v "as_config" then Ok acc
  else
    let comment := match alookup key (rules_of c) with
                   | Some r => rule_comment r
                   | None => ""
                   end in
    let text := py_unicode v in
    if String.eqb text "" then Ok acc
    else
      let is_set := existsb (String.eqb key) (keys_of c) in
      let key' := if is_set then key else ";" ++ key in
      let comment' := if is_set then comment else "(default) " ++ comment in
      p1 <- (if snd acc then Ok (fst acc)
             else add_section (fst acc) (section_of c)) ;;
      p2 <- cecp_set p1 (section_of c) key' text comment' ;;
      Ok (p2, true).

Fixpoint emit_leaves (c : value) (acc : parser * bool) (keys : list string)
  : result (parser * bool) :=
  match keys with
  | [] => Ok acc
  | k :: r => acc' <- emit_leaf c acc k ;; emit_leaves c acc' r
  end.

(** The second loop of [as_config]: every value that is a container
    writes itself into the parser, by the call [rec]. *)
Fixpoint emit_children (rec : value -> parser -> result parser) (c : value)
         (p : parser) (keys : list string) : result parser :=
  match keys with
  | [] => Ok p
  | k :: r =>
      v <- getitem c (KStr k) ;;
      if hasattr v "as_config"
      then p' <- rec v p ;; emit_children rec c p' r
      else emit_children rec c p r
  end.

(** [as_config(config)]; [fuel] bounds the depth of the tree. *)
Fixpoint as_config (fuel : nat) (c : value) (config : parser) : result parser :=
  match fuel with
  | O => Raise NoFuel
  | S f =>
      let keys := config_keys c in
      acc <- emit_leaves c (config, false) keys ;;
      emit_children (as_config f) c (fst acc) keys
  end.

(** [as_config_bytes] *)
Definition as_config_bytes (fuel : nat) (c : value) : result string :=
  p <- as_config fuel c new_parser ;; Ok (write p).

(** ** The tree loader: [parse_config] *)

(** The variable [cfg] of [parse_config] refers to an object of the tree,
    named here by the keys that lead to it from the root, or to the new
    dict of [cfg = cfg[part] = {}].  Python assigns the targets of that
    statement from left to right: [cfg] is the new dict first, and then
    the dict gets itself under [part].  The tree is not touched. *)
Inductive cursor : Type :=
| Here (path : list pykey)
| Detached (part : string).

Definition child (v : value) (k : pykey) : option value :=
  match v, k with
  | VCDict _ _ _ d, KStr s => alookup s d
  | VDict d, KStr s => alookup s d
  | VCList _ _ _ l, KInt z => nth_error l (Z.to_nat z)
  | VList l, KInt z => nth_error l (Z.to_nat z)
  | _, _ => None
  end.

Fixpoint at_path (v : value) (p : list pykey) : option value :=
  match p with
  | [] => Some v
  | k :: r => match child v k with
              | Some v' => at_path v' r
              | None => None
              end
  end.

Definition put_child (v : value) (k : pykey) (x : value) : value :=
  match v, k with
  | VCDict m rs a d, KStr s => VCDict m rs a (aset s x d)
  | VDict d, KStr s => VDict (aset s x d)
  | VCList m rs a l, KInt z => VCList m rs a (replace_nth (Z.to_nat z) x l)
  | VList l, KInt z => VList (replace_nth (Z.to_nat z) x l)
  | _, _ => v
  end.

(** The tree with the object at [p] replaced. *)
Fixpoint put_path (v : value) (p : list pykey) (new : value) : value :=
  match p with
  | [] => new
  | k :: r => match child v k with
              | Some x => put_child v k (put_path x r new)
              | None => v
              end
  end.

Fixpoint is_prefix (a b : string) : bool :=
  match a, b with
  | EmptyString, _ => true
  | String x a', String y b' => Ascii.eqb x y && is_prefix a' b'
  | _, _ => false
  end.

Fixpoint is_substring (a b : string) : bool :=
  is_prefix a b
  || match b with
     | EmptyString => false
     | String _ b' => is_substring a b'
     end.

(** [part in cfg] *)
Definition contains (v : value) (part : string) : result bool :=
  match v with
  | VCDict _ _ _ d | VDict d => Ok (amem part d)
  | VCList _ _ _ l | VList l => Ok (existsb (key_eq_value (KStr part)) l)
  | VRules rs => Ok (amem part rs)
  | VStr s => Ok (is_substring part s)
  | _ => Raise TypeError
  end.

(** Where [cfg[part]] is in the tree, for the object [v] at [p]. *)
Definition descend (v : value) (p : list pykey) (part : string)
  : result (list pykey) :=
  match v with
  | VCDict _ _ _ _ => _ <- getitem v (KStr part) ;; Ok (p ++ [KStr part])%list
  | VCList _ _ _ l =>
      _ <- getitem v (KStr part) ;;
      match fixkey KList (KStr part) with
      | KInt z => match list_pos l z with
                  | Some i => Ok (p ++ [KInt (Z.of_nat i)])%list
                  | None => Raise IndexError
                  end
      | KStr _ => Raise TypeError
      end
  | VDict d => match alookup part d with
               | Some _ => Ok (p ++ [KStr part])%list
               | None => Raise (KeyError part)
               end
  | _ => Raise TypeError
  end.

(** The state of a load: the tree, the warnings given to the session, the
    flag [okay]. *)
Record load : Type := Load {
  l_root : value;
  l_warnings : list string;
  l_okay : bool
}.

Section Loader.

Variable fuel : nat.
(** [session] is an object or [None]; [source] names the text. *)
Variable session : bool.
Variable source : string.

Definition warn (st : load) (msg : string) : load :=
  Load (l_root st)
       (if session then (l_warnings st ++ [msg])%list else l_warnings st)
       false.

(** One round of [for part in cfgpath]. *)
Definition walk_part (section : string) (st : load) (cfg : cursor)
           (part : string) : load * result cursor :=
  match cfg with
  | Detached k =>
      if String.eqb part k then (st, Ok cfg)
      else (st, Raise (AttributeError "rules"))
  | Here p =>
      match at_path (l_root st) p with
      | None => (st, Raise (OtherError "dangling reference"))
      | Some v =>
          match contains v part with
          | Raise e => (st, Raise e)
          | Ok true =>
              match descend v p part with
              | Ok p' => (st, Ok (Here p'))
              | Raise e => (st, Raise e)
              end
          | Ok false =>
              match kind_of v with
              | None => (st, Raise (AttributeError "rules"))
              | Some k =>
                  if amem "_any" (rules_of v) then
                    match k with
                    | KList =>
                        match list_append fuel v (VDict []) with
                        | (v', Ok _) =>
                            let st' := Load (put_path (l_root st) p v')
                                            (l_warnings st) (l_okay st) in
                            match descend v' p part with
                            | Ok p' => (st', Ok (Here p'))
                            | Raise e => (st', Raise e)
                            end
                        | (v', Raise e) =>
                            (Load (put_path (l_root st) p v')
                                  (l_warnings st) (l_okay st), Raise e)
                        end
                    | KDict => (st, Ok (Detached part))
                    end
                  else
                    (warn st ("Invalid (" ++ source ++ "): section " ++ section
                              ++ " does not exist"),
                     Ok cfg)
              end
          end
      end
  end.

Fixpoint walk (section : string) (st : load) (cfg : cursor)
         (parts : list string) : load * result cursor :=
  match parts with
  | [] => (st, Ok cfg)
  | part :: r =>
      match walk_part section st cfg part with
      | (st', Ok cfg') => walk section st' cfg' r
      | (st', Raise e) => (st', Raise e)
      end
  end.

(** [cfg[var] = val] with its [except (ValueError, KeyError)]. *)
Definition set_var (section : string) (cfg : cursor) (st : load)
           (kv : string * string) : load * result unit :=
  match cfg with
  | Detached _ => (st, Ok tt)
  | Here p =>
      match at_path (l_root st) p with
      | None => (st, Raise (OtherError "dangling reference"))
      | Some v =>
          let outcome :=
            match v with
            | VCDict _ _ _ _ | VCList _ _ _ _ =>
                setitem_ fuel v (KStr (fst kv)) (VStr (snd kv))
            | VDict d => Ok (VDict (aset (fst kv) (VStr (snd kv)) d))
            | _ => Raise TypeError
            end in
          match outcome with
          | Ok v' =>
              (Load (put_path (l_root st) p v') (l_warnings st) (l_okay st),
               Ok tt)
          | Raise e =>
              if is_ValueError e || is_KeyError e then
                (warn st ("Invalid (" ++ source ++ "): section " ++ section
                          ++ ", variable " ++ fst kv),
                 Ok tt)
              else (st, Raise e)
          end
      end
  end.

Fixpoint set_vars (section : string) (cfg : cursor) (st : load)
         (kvs : list (string * string)) : load * result unit :=
  match kvs with
  | [] => (st, Ok tt)
  | kv :: r =>
      match set_var section cfg st kv with
      | (st', Ok _) => set_vars section cfg st' r
      | (st', Raise e) => (st', Raise e)
      end
  end.

(** [section.split(':')[0].split('/')[1:]] *)
Definition cfgpath (section : string) : list string :=
  tl (Text.split "/" (hd "" (Text.split ":" section))).

(** One round of [for section in parser.sections()].  The items of the
    section are read when [okay] still holds after the walk. *)
Definition load_section (p : parser) (st : load) (section : string)
  : load * result unit :=
  match walk section st (Here []) (cfgpath section) with
  | (st1, Raise e) => (st1, Raise e)
  | (st1, Ok cfg) =>
      if l_okay st1 then
        match cecp_items p section with
        | Ok kvs => set_vars section cfg st1 kvs
        | Raise e => (st1, Raise e)
        end
      else (st1, Ok tt)
  end.

Fixpoint load_sections (p : parser) (st : load) (secs : list string)
  : load * result unit :=
  match secs with
  | [] => (st, Ok tt)
  | s :: r =>
      match load_section p st s with
      | (st', Ok _) => load_sections p st' r
      | (st', Raise e) => (st', Raise e)
      end
  end.

(** [parse_config(session, data, source)] on the tree [root]: the tree
    and the warnings afterwards, and the flag returned or the exception
    that ended the load. *)
Definition parse_config (root : value) (data : string)
  : value * list string * result bool :=
  match readfp data with
  | Raise e => (root, [], Raise e)
  | Ok p =>
      match load_sections p (Load root [] true) (sections p) with
      | (st, Ok _) => (l_root st, l_warnings st, Ok (l_okay st))
      | (st, Raise e) => (l_root st, l_warnings st, Raise e)
      end
  end.

End Loader.

End Containers.

(** * Properties *)

(** The externals the examples run with: [Num.b36] for [b36], every rule
    key clean, no value accepted by a checker that is not interpreted. *)
Definition std : externs :=
  Externs (fun _ _ => Raise OtherValueError) (fun _ => "<object>")
          Num.b36 (fun _ => true).

(** The container of the spec's example: one rule, [count], an integer
    with default 0. *)
Definition count_rules : rules :=
  [("count", Rule "desc" CkInt (DScalar (SInt 0)))].

Definition count_dict : value :=
  VCDict (Meta "root" "root" None) count_rules [] [].

Lemma alookup_aset_same {A} (k : string) (a : A) d :
  alookup k (aset k a d) = Some a.
Proof.
  induction d as [|[k' a'] d IH]; simpl.
  - now rewrite String.eqb_refl.
  - destruct (String.eqb k k') eqn:E; simpl.
    + now rewrite String.eqb_refl.
    + now rewrite E.
Qed.

Lemma alookup_aset_other {A} (k k' : string) (a : A) d :
  k <> k' -> alookup k' (aset k a d) = alookup k' d.
Proof.
  intros Hne. induction d as [|[k0 a0] d IH]; simpl.
  - destruct (String.eqb_spec k' k); congruence.
  - destruct (String.eqb_spec k k0) as [->|Hk]; simpl.
    + destruct (String.eqb_spec k' k0); congruence.
    + destruct (String.eqb_spec k' k0); auto.
Qed.

(** ** Reading with a default (C3) *)

(** C3, as the claim has it, fails: with [count] unset and a rule default
    of 0, [get("count", 5)] is the caller's 5 and not the rule's 0. *)
Lemma get_prefers_caller_default :
  alookup "count" (dict_data count_dict) = None
  /\ alookup "count" (rules_of count_dict)
     = Some (Rule "desc" CkInt (DScalar (SInt 0)))
  /\ get count_dict (KStr "count") (VInt 5) = Ok (VInt 5)
  /\ get count_dict (KStr "count") (VInt 5)
     <> Ok (default_value (DScalar (SInt 0))).
Proof. repeat split; discriminate. Qed.

(** C3, amended: on a mapping container [get(key, d)] is the stored value
    when the key is set; when it is not set, the rule's default if [d] is
    [None] and the key is listed in the rules, and [d] in every other
    case. *)
Theorem get_stored_else_default (m : meta) (rs : rules)
        (attrs d : list (string * value)) (key : string) (dflt : value) :
  let c := VCDict m rs attrs d in
  (forall v, alookup key d = Some v -> get c (KStr key) dflt = Ok v)
  /\ (forall r, alookup key d = None -> dflt = VNone ->
                alookup key rs = Some r ->
                get c (KStr key) dflt = Ok (default_value (rule_default r)))
  /\ (alookup key d = None -> dflt <> VNone \/ alookup key rs = None ->
      get c (KStr key) dflt = Ok dflt).
Proof.
  simpl. repeat split.
  - intros v ->. reflexivity.
  - intros r -> -> ->. reflexivity.
  - intros -> [Hd | Hr].
    + destruct dflt; try reflexivity. congruence.
    + rewrite Hr. destruct dflt; reflexivity.
Qed.

Lemma get_stored_else_default_witness :
  get (VCDict (Meta "root" "root" None) count_rules [] [("count", VInt 7)])
      (KStr "count") (VInt 5) = Ok (VInt 7)
  /\ get count_dict (KStr "count") VNone = Ok (VInt 0)
  /\ get count_dict (KStr "other") VNone = Ok VNone.
Proof.
  split; [|split].
  - apply (proj1 (get_stored_else_default (Meta "root" "root" None) count_rules
                    [] [("count", VInt 7)] "count" (VInt 5))).
    reflexivity.
  - apply (proj1 (proj2 (get_stored_else_default (Meta "root" "root" None)
                           count_rules [] [] "count" VNone))
             (Rule "desc" CkInt (DScalar (SInt 0)))); reflexivity.
  - apply (proj2 (proj2 (get_stored_else_default (Meta "root" "root" None)
                           count_rules [] [] "other" VNone))).
    + reflexivity.
    + right. reflexivity.
Defined.

(** ** The example of the spec (C9) *)

(** The rule set [{"count": ["desc", int, 0]}] makes the container the
    example is about, whatever it is called. *)
Lemma construct_count_rules (X : externs) (fuel : nat) (name : string)
      (comment : option string) :
  clean_key X "count" = true ->
  construct X (S fuel) KDict name comment count_rules []
  = Ok (VCDict (Meta name name comment) count_rules [] []).
Proof.
  intros Hk. simpl. unfold init. simpl. unfold add_rule.
  rewrite Hk. reflexivity.
Qed.

(** C9: with the rule [{"count": ["desc", int, 0]}], setting [count] to
    the text [42] stores the integer 42, which is then what the key reads
    as, and setting it to [x] raises the [ValueError] "Invalid value for
    name/count: x", [name] being the container's path. *)
Theorem set_count_coerces_or_names_path (X : externs)
        (mk : kind -> string -> option string -> rules -> list value
              -> result value)
        (m : meta) (attrs d : list (string * value)) :
  let c := VCDict m count_rules attrs d in
  setitem X mk c (KStr "count") (VStr "42")
  = Ok (VCDict m count_rules attrs (aset "count" (VInt 42) d))
  /\ getitem (VCDict m count_rules attrs (aset "count" (VInt 42) d))
             (KStr "count") = Ok (VInt 42)
  /\ setitem X mk c (KStr "count") (VStr "x")
     = Raise (InvalidValue (m_name m ++ "/count") (VStr "x")).
Proof.
  simpl. repeat split.
  unfold getitem, get. simpl. now rewrite alookup_aset_same.
Qed.

(** ** Wildcard and unknown keys (C6) *)

(** A rule set with a listed key and a wildcard. *)
Definition mixed_rules : rules :=
  [("count", Rule "desc" CkInt (DScalar (SInt 0)));
   ("_any", Rule "any" CkUnicode (DScalar SNone))].

Definition mixed_dict : value :=
  VCDict (Meta "config" "config" None) mixed_rules [] [].

(** A value that is no container has no attribute at all. *)
Lemma hasattr_scalar (v : value) (attr : string) :
  is_scalar v = true -> hasattr v attr = false.
Proof. destruct v; simpl; intros; try discriminate; reflexivity. Qed.

Lemma passkey_scalar (X : externs) (k : kind) (name : string) (key : pykey)
      (v : value) :
  is_scalar v = true -> passkey X k name key v = Ok v.
Proof.
  intros Hs. unfold passkey.
  rewrite !(hasattr_scalar v) by assumption. now destruct k.
Qed.

Lemma passkey_dict_total (X : externs) (name : string) (key : pykey)
      (v : value) :
  exists v', passkey X KDict name key v = Ok v'.
Proof. unfold passkey. destruct (hasattr v "key"); eauto. Qed.

(** C6, as the claim has it, fails: [mixed_dict] is a container that
    [ConfigDict] builds, it has a wildcard rule whose checker accepts the
    text [x], and assigning [x] to the key [count] raises, because the key
    is listed and its own rule wants an integer. *)
Lemma wildcard_does_not_cover_listed_key :
  ConfigDict std 1 mixed_rules [] = Ok mixed_dict
  /\ alookup "_any" (rules_of mixed_dict)
     = Some (Rule "any" CkUnicode (DScalar SNone))
  /\ check_value std (construct std 1) "config/count" CkUnicode (VStr "x")
     = Ok (VStr "x")
  /\ setitem_ std 1 mixed_dict (KStr "count") (VStr "x")
     = Raise (InvalidValue "config/count" (VStr "x")).
Proof. repeat split. Qed.

(** C6, amended: in a mapping container with a wildcard rule, assigning a
    key that the rules do not list succeeds when the value passes the
    wildcard rule's checker, and the key then holds what the checker
    returned; in a mapping container without a wildcard rule, assigning a
    key that the rules do not list raises [InvalidKeyError]. *)
Theorem unlisted_key_needs_wildcard (X : externs)
        (mk : kind -> string -> option string -> rules -> list value
              -> result value)
        (m : meta) (rs : rules) (attrs d : list (string * value))
        (key : string) (v : value) :
  alookup key rs = None ->
  let c := VCDict m rs attrs d in
  (forall r v1,
      alookup "_any" rs = Some r ->
      check_value X mk (path_of (m_name m) (KStr key)) (rule_checker r) v
      = Ok v1 ->
      exists v2,
        passkey X KDict (m_name m) (KStr key) v1 = Ok v2
        /\ setitem X mk c (KStr key) v = Ok (VCDict m rs attrs (aset key v2 d))
        /\ getitem (VCDict m rs attrs (aset key v2 d)) (KStr key) = Ok v2
        /\ (is_scalar v1 = true -> v2 = v1))
  /\ (alookup "_any" rs = None ->
      setitem X mk c (KStr key) v = Raise (InvalidKeyError (m_name m) key)).
Proof.
  intros Hkey c. split.
  - intros r v1 Hany Hck.
    destruct (passkey_dict_total X (m_name m) (KStr key) v1) as [v2 Hv2].
    exists v2. repeat split.
    + exact Hv2.
    + unfold c, setitem, get_rule, fixkey. rewrite Hkey, Hany.
      cbn [bind]. rewrite Hck. cbn [bind]. rewrite Hv2. reflexivity.
    + unfold getitem, get. simpl. unfold amem. rewrite Hany.
      rewrite orb_true_r. now rewrite alookup_aset_same.
    + intros Hs. rewrite (passkey_scalar X KDict _ _ _ Hs) in Hv2. congruence.
  - intros Hany. unfold c, setitem, get_rule, fixkey.
    now rewrite Hkey, Hany.
Qed.

Lemma unlisted_key_needs_wildcard_witness :
  (exists v2,
      setitem_ std 1 mixed_dict (KStr "colour") (VInt 3)
      = Ok (VCDict (Meta "config" "config" None) mixed_rules []
                   (aset "colour" v2 []))
      /\ v2 = VStr "3")
  /\ setitem_ std 1 count_dict (KStr "evil") (VInt 123)
     = Raise (InvalidKeyError "root" "evil").
Proof.
  split.
  - destruct (proj1 (unlisted_key_needs_wildcard std (construct std 1)
                       (Meta "config" "config" None) mixed_rules [] []
                       "colour" (VInt 3) eq_refl)
                    (Rule "any" CkUnicode (DScalar SNone)) (VStr "3")
                    eq_refl eq_refl) as [v2 [_ [Hset [_ Hsc]]]].
    exists v2. split; [exact Hset | apply Hsc; reflexivity].
  - apply (proj2 (unlisted_key_needs_wildcard std (construct std 1)
                    (Meta "root" "root" None) count_rules [] []
                    "evil" (VInt 123) eq_refl)).
    reflexivity.
Defined.

(** ** Deleting a key (C7) *)

(** No deletion succeeds, and the container is what it was. *)
Lemma delitem_never_succeeds (X : externs) (c : value) (key : string) :
  exists e, delitem X c key = (c, Raise e).
Proof. unfold delitem. destruct (getattr c "name"); eauto. Qed.

(** The exception is the [UsageError] the source names when [name] reads
    as an item, that is with a rule [name] or a wildcard rule. *)
Lemma delitem_UsageError_when_name_is_covered (X : externs) (m : meta)
      (rs : rules) (d : list (string * value)) (key : string) :
  amem "name" rs || amem "_any" rs = true ->
  exists msg, delitem X (VCDict m rs [] d) key
              = (VCDict m rs [] d, Raise (UsageError msg)).
Proof.
  intros H. unfold delitem, getattr. cbn [plain_attr]. cbn.
  unfold key_in_rules, fixkey. cbn. rewrite H.
  unfold get. destruct (alookup "name" d); [eauto|].
  destruct (alookup "name" rs); eauto.
Qed.

(** C7, where the code departs from it: in the container of the spec's
    example, which has no rule [name] and no wildcard, deleting [count]
    leaves the container as it was and raises, but what it raises is the
    [AttributeError] of reading [self.name], not the [UsageError] the
    statement builds. *)
Theorem delitem_without_name_raises_AttributeError :
  delitem std count_dict "count" = (count_dict, Raise (AttributeError "name")).
Proof. reflexivity. Qed.

(** ** Items as attributes (C8) *)

(** A mapping container whose only rule is the wildcard. *)
Definition wild_rules : rules := [("_any", Rule "any" CkInt (DScalar SNone))].

Definition wild_dict : value :=
  VCDict (Meta "config" "config" None) wild_rules [] [].

(** C8, as the claim has it, fails for a name that only the wildcard
    covers: assigning the attribute [foo] checks nothing and sets an
    ordinary attribute, where assigning the item [foo] is checked.  The
    text [x] is refused as an item and taken as an attribute; the text
    [5] is stored as the integer 5 under the item and is no item at all
    after the attribute assignment. *)
Lemma wildcard_attribute_write_is_unchecked :
  ConfigDict std 1 wild_rules [] = Ok wild_dict
  /\ setitem_ std 1 wild_dict (KStr "foo") (VStr "x")
     = Raise (InvalidValue "config/foo" (VStr "x"))
  /\ setattr_ std 1 wild_dict "foo" (VStr "x")
     = Ok (VCDict (Meta "config" "config" None) wild_rules
                  [("foo", VStr "x")] [])
  /\ (c1 <- setitem_ std 1 wild_dict (KStr "foo") (VStr "5") ;;
      getitem c1 (KStr "foo")) = Ok (VInt 5)
  /\ (c2 <- setattr_ std 1 wild_dict "foo" (VStr "5") ;;
      getitem c2 (KStr "foo")) = Ok VNone.
Proof. repeat split. Qed.

(** C8, amended: in a mapping container, a name that the rules list is
    written the same way as an attribute and as an item, and read the same
    way; a name that only the wildcard rule covers is read the same way,
    and written as an attribute it becomes an ordinary attribute of the
    object, with no rule looked up and nothing checked.  The reads are
    those of a name that ordinary lookup does not find, which [add_rule]
    asserts of every name it lists. *)
Theorem attribute_access_is_item_access (X : externs)
        (mk : kind -> string -> option string -> rules -> list value
              -> result value)
        (m : meta) (rs : rules) (attrs d : list (string * value))
        (name : string) (v : value) :
  let c := VCDict m rs attrs d in
  (amem name rs = true ->
   setattr X mk c name v = setitem X mk c (KStr name) v
   /\ (plain_attr c name = None -> getattr c name = getitem c (KStr name)))
  /\ (amem name rs = false -> amem "_any" rs = true ->
      setattr X mk c name v = plain_setattr c name v
      /\ (plain_attr c name = None -> getattr c name = getitem c (KStr name))).
Proof.
  intros c. split.
  - intros Hin. split.
    + unfold setattr. cbn [kind_of c rules_of fixkey key_in_rules].
      now rewrite Hin.
    + intros Hp. unfold getattr. rewrite Hp.
      cbn [kind_of c rules_of fixkey key_in_rules]. now rewrite Hin.
  - intros Hout Hany. split.
    + unfold setattr. cbn [kind_of c rules_of fixkey key_in_rules].
      now rewrite Hout.
    + intros Hp. unfold getattr. rewrite Hp.
      cbn [kind_of c rules_of fixkey key_in_rules].
      now rewrite Hout, Hany.
Qed.

Lemma attribute_access_is_item_access_witness :
  (setattr_ std 1 count_dict "count" (VStr "42")
   = setitem_ std 1 count_dict (KStr "count") (VStr "42")
   /\ getattr count_dict "count" = getitem count_dict (KStr "count"))
  /\ (setattr_ std 1 wild_dict "foo" (VStr "x")
      = plain_setattr wild_dict "foo" (VStr "x")
      /\ getattr wild_dict "foo" = getitem wild_dict (KStr "foo")).
Proof.
  split.
  - destruct (proj1 (attribute_access_is_item_access std (construct std 1)
                       (Meta "root" "root" None) count_rules [] []
                       "count" (VStr "42")) eq_refl) as [Hw Hr].
    split; [exact Hw | apply Hr; reflexivity].
  - destruct (proj2 (attribute_access_is_item_access std (construct std 1)
                       (Meta "config" "config" None) wild_rules [] []
                       "foo" (VStr "x")) eq_refl eq_refl) as [Hw Hr].
    split; [exact Hw | apply Hr; reflexivity].
Defined.

(** ** What a checker accepts and refuses *)

Section Verdicts.

Variable X : externs.
Variable mk : kind -> string -> option string -> rules -> list value
              -> result value.

(** [passes ck v v'], the value [v] passes the checker [ck] and [v'] is
    what is stored for it: [v] itself when the checker is [True] or a
    value set that has [v], the checker's result when the checker is a
    type or a function. *)
Inductive passes : checker -> value -> value -> Prop :=
| Pass_true v : passes CkTrue v v
| Pass_member vs v : py_in v vs = true -> passes (CkSet vs) v v
| Pass_call ck v v' :
    is_callable ck = true -> call_checker X mk ck v = Ok v' -> passes ck v v'.

(** [refuses ck v], the checker rejects the value: a value set that does
    not have it, or a type or function that raises [ValueError] or
    [TypeError] on it. *)
Inductive refuses : checker -> value -> Prop :=
| Refuse_member vs v : py_in v vs = false -> refuses (CkSet vs) v
| Refuse_call ck v e :
    is_callable ck = true -> call_checker X mk ck v = Raise e ->
    is_ValueError e || is_TypeError e = true -> refuses ck v.

Lemma check_value_callable (path : string) (ck : checker) (v : value) :
  is_callable ck = true ->
  check_value X mk path ck v
  = match call_checker X mk ck v with
    | Ok v' => Ok v'
    | Raise e => if is_ValueError e || is_TypeError e
                 then Raise (InvalidValue path v) else Raise e
    end.
Proof. destruct ck; simpl; intros H; try discriminate; reflexivity. Qed.

Lemma passes_check_value (path : string) ck v v' :
  passes ck v v' -> check_value X mk path ck v = Ok v'.
Proof.
  intros [v0 | vs v0 Hin | ck0 v0 v0' Hc Hcall].
  - reflexivity.
  - simpl. now rewrite Hin.
  - rewrite check_value_callable by assumption. now rewrite Hcall.
Qed.

Lemma check_value_passes (path : string) ck v v' :
  check_value X mk path ck v = Ok v' -> passes ck v v'.
Proof.
  intros H. destruct (is_callable ck) eqn:Hc.
  - rewrite check_value_callable in H by assumption.
    destruct (call_checker X mk ck v) eqn:Hcall.
    + injection H as <-. now apply Pass_call.
    + destruct (is_ValueError e || is_TypeError e); discriminate.
  - destruct ck; simpl in *; try discriminate.
    + injection H as <-. constructor.
    + destruct (py_in v vs) eqn:Hin; [|discriminate].
      injection H as <-. now constructor.
Qed.

Lemma refuses_check_value (path : string) ck v :
  refuses ck v -> check_value X mk path ck v = Raise (InvalidValue path v).
Proof.
  intros [vs v0 Hin | ck0 v0 e Hc Hcall He].
  - simpl. now rewrite Hin.
  - rewrite check_value_callable by assumption. now rewrite Hcall, He.
Qed.

End Verdicts.

(** ** List arithmetic for [append] *)

Lemma list_pos_last (l : list value) (x : value) :
  list_pos (l ++ [x]) (Z.of_nat (List.length l)) = Some (List.length l).
Proof.
  unfold list_pos. rewrite length_app. simpl.
  replace (0 <=? Z.of_nat (List.length l)) with true
    by (symmetry; apply Z.leb_le; lia).
  replace (Z.of_nat (List.length l) <? Z.of_nat (List.length l + 1)) with true
    by (symmetry; apply Z.ltb_lt; lia).
  simpl. now rewrite Nat2Z.id.
Qed.

Lemma replace_nth_last (l : list value) (x v : value) :
  replace_nth (List.length l) v (l ++ [x]) = (l ++ [v])%list.
Proof. induction l as [|a l IH]; simpl; [reflexivity | now rewrite IH]. Qed.

Lemma firstn_all_but_last (l : list value) (x : value) :
  firstn (List.length l) (l ++ [x]) = l.
Proof. induction l as [|a l IH]; simpl; [reflexivity | now rewrite IH]. Qed.

Lemma clen_snoc m rs attrs (l : list value) (x : value) :
  clen (VCList m rs attrs (l ++ [x])) - 1 = Z.of_nat (List.length l).
Proof. unfold clen. simpl. rewrite length_app. simpl. lia. Qed.

Lemma passkey_list_total (X : externs) (name : string) (z : Z) (v : value) :
  exists v', passkey X KList name (KInt z) v = Ok v'.
Proof. unfold passkey. destruct (hasattr v "_key"); eauto. Qed.

(** [__setitem__] of a list at an ordinal goes by the wildcard rule. *)
Lemma setitem_list_ordinal X mk m rs attrs l z v :
  setitem X mk (VCList m rs attrs l) (KInt z) v
  = match alookup "_any" rs with
    | None => Raise (InvalidKeyError (m_name m) (Num.str_of_Z z))
    | Some r =>
        v1 <- check_value X mk (path_of (m_name m) (KInt z)) (rule_checker r) v ;;
        v2 <- passkey X KList (m_name m) (KInt z) v1 ;;
        l' <- list_setitem l (KInt z) v2 ;;
        Ok (VCList m rs attrs l')
    end.
Proof.
  unfold setitem, get_rule, fixkey. cbn [key_text].
  destruct (alookup "_any" rs); reflexivity.
Qed.

(** ** Appending to a list (C5) *)

Section Append.

Variable X : externs.
Variable mk : kind -> string -> option string -> rules -> list value
              -> result value.
Variables (m : meta) (rs : rules) (attrs : list (string * value)).
Variable r : rule.
Hypothesis wildcard : alookup "_any" rs = Some r.

Lemma append_refused (l : list value) (v : value) :
  refuses X mk (rule_checker r) v ->
  append X mk (VCList m rs attrs l) v
  = (VCList m rs attrs l,
     Raise (InvalidValue
              (path_of (m_name m) (KInt (Z.of_nat (List.length l)))) v)).
Proof.
  intros Href. unfold append.
  rewrite clen_snoc, setitem_list_ordinal, wildcard.
  rewrite (refuses_check_value X mk _ _ _ Href). cbn [bind].
  cbn [with_list_data list_data]. rewrite Nat2Z.id.
  now rewrite firstn_all_but_last.
Qed.

Lemma append_accepted (l : list value) (v v1 v2 : value) :
  passes X mk (rule_checker r) v v1 ->
  passkey X KList (m_name m) (KInt (Z.of_nat (List.length l))) v1 = Ok v2 ->
  append X mk (VCList m rs attrs l) v
  = (VCList m rs attrs (l ++ [v2]), Ok (b36 X (Z.of_nat (List.length l)))).
Proof.
  intros Hpass Hv2. unfold append.
  rewrite clen_snoc, setitem_list_ordinal, wildcard.
  rewrite (passes_check_value X mk _ _ _ _ Hpass). cbn [bind].
  rewrite Hv2. cbn [bind]. unfold list_setitem.
  rewrite list_pos_last. cbn [bind].
  rewrite replace_nth_last, clen_snoc. reflexivity.
Qed.

End Append.

(** C5: in a list container with a wildcard rule, [append(v)] of a value
    the rule's checker refuses raises the [ValueError] "Invalid value for
    name/n: v" and leaves the list as it was, the slot it had added taken
    away again; [append(v)] of a value the checker accepts puts what the
    checker made of it at the end and returns [b36] of the length the list
    had before. *)
Theorem append_rolls_back_or_returns_address (X : externs)
        (mk : kind -> string -> option string -> rules -> list value
              -> result value)
        (m : meta) (rs : rules) (attrs : list (string * value))
        (l : list value) (r : rule) (v : value) :
  alookup "_any" rs = Some r ->
  let c := VCList m rs attrs l in
  let n := Z.of_nat (List.length l) in
  (refuses X mk (rule_checker r) v ->
   append X mk c v = (c, Raise (InvalidValue (path_of (m_name m) (KInt n)) v)))
  /\ (forall v1,
         passes X mk (rule_checker r) v v1 ->
         exists v2,
           passkey X KList (m_name m) (KInt n) v1 = Ok v2
           /\ append X mk c v
              = (VCList m rs attrs (l ++ [v2]), Ok (b36 X n))
           /\ (is_scalar v1 = true -> v2 = v1)).
Proof.
  intros Hany c n. split.
  - intros Href. now apply append_refused with (r := r).
  - intros v1 Hpass.
    destruct (passkey_list_total X (m_name m) n v1) as [v2 Hv2].
    exists v2. split; [exact Hv2 | split].
    + now apply append_accepted with (r := r) (v1 := v1).
    + intros Hs. rewrite (passkey_scalar X KList _ _ _ Hs) in Hv2. congruence.
Qed.

(** The list of colours of the source's docstring, holding one colour. *)
Definition colors_rules : rules :=
  [("_any", Rule "Colors" (CkSet [SStr "red"; SStr "blue"]) (DScalar SNone))].

Definition colors_list : value :=
  VCList (Meta "config/colors" "config/colors" (Some "Colors"))
         colors_rules [] [VStr "red"].

Lemma append_rolls_back_or_returns_address_witness :
  list_append std 1 colors_list (VStr "green")
  = (colors_list, Raise (InvalidValue "config/colors/1" (VStr "green")))
  /\ list_append std 1 colors_list (VStr "blue")
     = (VCList (Meta "config/colors" "config/colors" (Some "Colors"))
               colors_rules [] [VStr "red"; VStr "blue"],
        Ok "1").
Proof.
  split.
  - apply (proj1 (append_rolls_back_or_returns_address std (construct std 1)
                    (Meta "config/colors" "config/colors" (Some "Colors"))
                    colors_rules [] [VStr "red"] _ (VStr "green") eq_refl)).
    apply Refuse_member. reflexivity.
  - destruct (proj2 (append_rolls_back_or_returns_address std (construct std 1)
                       (Meta "config/colors" "config/colors" (Some "Colors"))
                       colors_rules [] [VStr "red"] _ (VStr "blue") eq_refl)
                    (VStr "blue")
                    (Pass_member std (construct std 1)
                                 [SStr "red"; SStr "blue"] (VStr "blue") eq_refl))
      as [v2 [_ [Happ Hs]]].
    rewrite (Hs eq_refl) in Happ. exact Happ.
Defined.

(** ** Updating a list (C10) *)

(** What a list stores for an accepted value at a slot: a container is
    given the slot's address as its key and name, anything else is stored
    as it is. *)
Definition keyed (X : externs) (name : string) (i : nat) (y : value) : value :=
  match passkey X KList name (KInt (Z.of_nat i)) y with
  | Ok y' => y'
  | Raise _ => y
  end.

Definition keyed_all (X : externs) (name : string) (ys : list value)
  : list value :=
  map (fun i => keyed X name i (nth i ys VNone)) (seq 0 (List.length ys)).

Lemma passkey_keyed (X : externs) (name : string) (i : nat) (y : value) :
  passkey X KList name (KInt (Z.of_nat i)) y = Ok (keyed X name i y).
Proof.
  unfold keyed. destruct (passkey_list_total X name (Z.of_nat i) y) as [y' E].
  now rewrite E.
Qed.

Lemma keyed_scalar (X : externs) (name : string) (i : nat) (y : value) :
  is_scalar y = true -> keyed X name i y = y.
Proof. intros H. unfold keyed. now rewrite passkey_scalar. Qed.

Lemma keyed_all_scalars (X : externs) (name : string) (ys : list value) :
  forallb is_scalar ys = true -> keyed_all X name ys = ys.
Proof.
  intros H. unfold keyed_all.
  apply nth_ext with (d := keyed X name 0%nat (nth 0%nat ys VNone)) (d' := VNone).
  - now rewrite length_map, length_seq.
  - intros i Hi. rewrite length_map, length_seq in Hi.
    rewrite (map_nth (fun i => keyed X name i (nth i ys VNone)) _ 0%nat i).
    rewrite seq_nth by assumption. simpl.
    apply keyed_scalar. rewrite forallb_forall in H. apply H.
    now apply nth_In.
Qed.

Lemma list_pos_middle (done todo : list value) (t : value) :
  list_pos (done ++ t :: todo) (Z.of_nat (List.length done))
  = Some (List.length done).
Proof.
  unfold list_pos. rewrite length_app. simpl.
  replace (0 <=? Z.of_nat (List.length done)) with true
    by (symmetry; apply Z.leb_le; lia).
  replace (Z.of_nat (List.length done)
           <? Z.of_nat (List.length done + S (List.length todo))) with true
    by (symmetry; apply Z.ltb_lt; lia).
  simpl. now rewrite Nat2Z.id.
Qed.

Lemma replace_nth_middle (done todo : list value) (t v : value) :
  replace_nth (List.length done) v (done ++ t :: todo) = (done ++ v :: todo)%list.
Proof. induction done as [|a l IH]; simpl; [reflexivity | now rewrite IH]. Qed.

Lemma Forall2_nth_some (P : value -> value -> Prop) (xs ys : list value) :
  Forall2 P xs ys ->
  forall i : nat,
    (i < List.length xs)%nat ->
    exists x, nth_error xs i = Some x /\ P x (nth i ys VNone).
Proof.
  induction 1 as [|x y xs' ys' Hxy Hrest IH]; intros i Hi; simpl in Hi.
  - lia.
  - destruct i as [|i]; simpl.
    + eauto.
    + apply IH. lia.
Qed.

Section Update.

Variable X : externs.
Variable mk : kind -> string -> option string -> rules -> list value
              -> result value.
Variables (m : meta) (rs : rules) (attrs : list (string * value)).
Variable r : rule.
Hypothesis wildcard : alookup "_any" rs = Some r.

Variables xs ys : list value.
Hypothesis accepted : Forall2 (passes X mk (rule_checker r)) xs ys.

Let st (i : nat) : value := keyed X (m_name m) i (nth i ys VNone).

Lemma accepted_nth (i : nat) :
  (i < List.length xs)%nat ->
  exists x, nth_error xs i = Some x
            /\ passes X mk (rule_checker r) x (nth i ys VNone).
Proof. apply Forall2_nth_some. exact accepted. Qed.

Lemma overwrite_one (done todo : list value) (t : value) :
  (List.length done < List.length xs)%nat ->
  overwrite_slot X mk xs (VCList m rs attrs (done ++ t :: todo))
                 (List.length done)
  = (VCList m rs attrs (done ++ st (List.length done) :: todo), Ok tt).
Proof.
  intros Hlt. destruct (accepted_nth _ Hlt) as [x [Hx Hp]].
  unfold overwrite_slot, assign. rewrite Hx.
  rewrite setitem_list_ordinal, wildcard.
  rewrite (passes_check_value X mk _ _ _ _ Hp). cbn [bind].
  rewrite passkey_keyed. cbn [bind]. unfold list_setitem.
  rewrite list_pos_middle. cbn [bind]. now rewrite replace_nth_middle.
Qed.

Lemma map_seq_snoc (k : nat) :
  (map st (seq 0 k) ++ [st k])%list = map st (seq 0 (S k)).
Proof. now rewrite seq_S, map_app. Qed.

Lemma overwrite_loop (todo : list value) :
  forall k : nat,
    (k + List.length todo <= List.length xs)%nat ->
    for_each (overwrite_slot X mk xs) (seq k (List.length todo))
             (VCList m rs attrs (map st (seq 0 k) ++ todo))
    = (VCList m rs attrs (map st (seq 0 (k + List.length todo))), Ok tt).
Proof.
  induction todo as [|t todo IH]; intros k Hk; simpl.
  - now rewrite app_nil_r, Nat.add_0_r.
  - simpl in Hk.
    pose proof (overwrite_one (map st (seq 0 k)) todo t) as H1.
    rewrite length_map, length_seq in H1. rewrite H1 by lia.
    replace (map st (seq 0 k) ++ st k :: todo)%list
      with ((map st (seq 0 k) ++ [st k]) ++ todo)%list
      by now rewrite <- app_assoc.
    rewrite map_seq_snoc, IH by lia.
    now replace (S k + List.length todo)%nat with (k + S (List.length todo))%nat
      by lia.
Qed.

Lemma append_one (k : nat) :
  (k < List.length xs)%nat ->
  append_slot X mk xs (VCList m rs attrs (map st (seq 0 k))) k
  = (VCList m rs attrs (map st (seq 0 (S k))), Ok tt).
Proof.
  intros Hlt. destruct (accepted_nth _ Hlt) as [x [Hx Hp]].
  unfold append_slot, append_. rewrite Hx.
  rewrite (append_accepted X mk m rs attrs r wildcard _ x _ (st k) Hp).
  - now rewrite map_seq_snoc.
  - rewrite length_map, length_seq. apply passkey_keyed.
Qed.

Lemma append_loop (j : nat) :
  forall k : nat,
    (k + j <= List.length xs)%nat ->
    for_each (append_slot X mk xs) (seq k j)
             (VCList m rs attrs (map st (seq 0 k)))
    = (VCList m rs attrs (map st (seq 0 (k + j))), Ok tt).
Proof.
  induction j as [|j IH]; intros k Hk; simpl.
  - now rewrite Nat.add_0_r.
  - rewrite append_one by lia. rewrite IH by lia.
    now replace (S k + j)%nat with (k + S j)%nat by lia.
Qed.

Lemma update_list1_accepted (l : list value) (src : value) :
  iter_values src = Ok xs ->
  (List.length l <= List.length xs)%nat ->
  update_list1 X mk (VCList m rs attrs l) src
  = (VCList m rs attrs (keyed_all X (m_name m) ys), Ok tt).
Proof.
  intros Hsrc Hlen. unfold update_list1. rewrite Hsrc.
  cbn [list_data].
  pose proof (overwrite_loop l 0%nat Hlen) as H1. simpl in H1. rewrite H1.
  cbn [list_data]. rewrite length_map, length_seq.
  rewrite append_loop by lia.
  replace (List.length l + (List.length xs - List.length l))%nat
    with (List.length ys)
    by (rewrite <- (Forall2_length accepted); lia).
  reflexivity.
Qed.

End Update.

(** C10: when a list container of length n is updated from a source of
    m >= n elements that all pass the wildcard rule's checker, the list
    afterwards holds, slot by slot and in the order of the source, what
    the checker made of each element: the n slots it had are overwritten,
    the other m - n elements are appended, and its length is m. *)
Theorem update_overwrites_then_appends (X : externs)
        (mk : kind -> string -> option string -> rules -> list value
              -> result value)
        (m : meta) (rs : rules) (attrs : list (string * value))
        (l : list value) (r : rule) (src : value) (xs ys : list value) :
  alookup "_any" rs = Some r ->
  iter_values src = Ok xs ->
  (List.length l <= List.length xs)%nat ->
  Forall2 (passes X mk (rule_checker r)) xs ys ->
  let l' := keyed_all X (m_name m) ys in
  update_list X mk (VCList m rs attrs l) [src] = (VCList m rs attrs l', Ok tt)
  /\ List.length l' = List.length xs
  /\ (forall i : nat, (i < List.length xs)%nat ->
        nth_error l' i = Some (keyed X (m_name m) i (nth i ys VNone)))
  /\ (forallb is_scalar ys = true -> l' = ys).
Proof.
  intros Hany Hsrc Hlen Hacc l'. repeat split.
  - unfold update_list. cbn [for_each].
    now rewrite (update_list1_accepted X mk m rs attrs r Hany xs ys Hacc l src).
  - unfold l', keyed_all. rewrite length_map, length_seq.
    symmetry. apply (Forall2_length Hacc).
  - intros i Hi. unfold l', keyed_all.
    rewrite (Forall2_length Hacc) in Hi.
    rewrite nth_error_map, nth_error_seq.
    destruct (Nat.ltb_spec i (List.length ys)); [reflexivity | lia].
  - apply keyed_all_scalars.
Qed.

(** A list of integers, holding one. *)
Definition int_list_rules : rules :=
  [("_any", Rule "We only like ints" CkInt (DScalar (SInt 0)))].

Definition int_list : value :=
  VCList (Meta "container" "container" None) int_list_rules [] [VInt 1].

Lemma update_overwrites_then_appends_witness :
  list_update std 1 int_list [VList [VStr "7"; VInt 8; VStr "9"]]
  = (VCList (Meta "container" "container" None) int_list_rules []
            [VInt 7; VInt 8; VInt 9], Ok tt).
Proof.
  assert (Hacc : Forall2 (passes std (construct std 1) CkInt)
                         [VStr "7"; VInt 8; VStr "9"] [VInt 7; VInt 8; VInt 9])
    by (repeat constructor).
  destruct (update_overwrites_then_appends std (construct std 1)
              (Meta "container" "container" None) int_list_rules []
              [VInt 1] (Rule "We only like ints" CkInt (DScalar (SInt 0)))
              (VList [VStr "7"; VInt 8; VStr "9"])
              [VStr "7"; VInt 8; VStr "9"] [VInt 7; VInt 8; VInt 9]
              eq_refl eq_refl ltac:(simpl; lia) Hacc) as [Hup [_ [_ Hsc]]].
  rewrite (Hsc eq_refl) in Hup. exact Hup.
Defined.

(** ** Stored values have passed their checker (C4) *)

(** The public mutations of a container. *)
Inductive mutation : Type :=
| SetItem (key : pykey) (v : value)
| SetAttr (attr : string) (v : value)
| Append (v : value)
| Extend (src : value)
| Update (args : list value) (kwargs : list (string * value)).

Section Invariant.

Variable X : externs.

(** The mutation as the source runs it, with the nesting bound of the
    call: the container afterwards, whether the call returned or raised. *)
Definition mutate (fuel : nat) (c : value) (o : mutation) : value :=
  match o with
  | SetItem key v => fst (assign X (construct X fuel) c key v)
  | SetAttr attr v => match setattr_ X fuel c attr v with
                      | Ok c' => c'
                      | Raise _ => c
                      end
  | Append v => fst (list_append X fuel c v)
  | Extend src => fst (list_extend X fuel c src)
  | Update args kwargs =>
      match c with
      | VCList _ _ _ _ => fst (list_update X fuel c args)
      | _ => fst (dict_update X fuel c args kwargs)
      end
  end.

Definition mutate_all (c : value) (ops : list (nat * mutation)) : value :=
  fold_left (fun c fo => mutate (fst fo) c (snd fo)) ops c.

(** [v] is a value the rule's checker let through: there is an input for
    which the checker gave [v], or which is [v] and was taken verbatim. *)
Definition let_through (r : rule) (v : value) : Prop :=
  exists (fuel : nat) (input : value),
    passes X (construct X fuel) (rule_checker r) input v.

(** Every scalar the container holds was let through by the rule that
    governs its key. *)
Definition checked (c : value) : Prop :=
  match c with
  | VCDict m rs _ d =>
      forall s v, alookup s d = Some v -> is_scalar v = true ->
                  exists r, get_rule KDict (m_name m) rs (KStr s) = Ok r
                            /\ let_through r v
  | VCList m rs _ l =>
      forall i v, nth_error l i = Some v -> is_scalar v = true ->
                  exists r, get_rule KList (m_name m) rs (KInt (Z.of_nat i)) = Ok r
                            /\ let_through r v
  | _ => True
  end.

(** A container that holds no scalar, as one is before its first write. *)
Definition holds_no_scalar (c : value) : Prop :=
  match c with
  | VCDict _ _ _ d => forall s v, alookup s d = Some v -> is_scalar v = false
  | VCList _ _ _ l => l = []
  | _ => True
  end.

Lemma holds_no_scalar_checked (c : value) : holds_no_scalar c -> checked c.
Proof.
  destruct c; simpl; auto.
  - intros H s v Hs Hv. rewrite (H s v Hs) in Hv. discriminate.
  - intros -> i v Hi. destruct i; discriminate.
Qed.

Lemma get_rule_name (k : kind) (n n' : string) (rs : rules) (key : pykey)
      (r : rule) :
  get_rule k n rs key = Ok r -> get_rule k n' rs key = Ok r.
Proof.
  unfold get_rule. destruct (fixkey k key) as [z|s].
  - destruct (alookup "_any" rs); [auto | discriminate].
  - destruct (alookup s rs); [auto|].
    destruct (alookup "_any" rs); [auto | discriminate].
Qed.

Lemma passkey_scalar_result (k : kind) (name : string) (key : pykey)
      (v1 v2 : value) :
  passkey X k name key v1 = Ok v2 -> is_scalar v2 = true -> v2 = v1.
Proof.
  unfold passkey. intros H Hs.
  destruct k.
  - destruct (hasattr v1 "key"); injection H as <-; [|reflexivity].
    destruct v1; simpl in *; try reflexivity; discriminate.
  - destruct (hasattr v1 "_key"); [|now injection H as <-].
    destruct key; [|discriminate]. injection H as <-.
    destruct v1; simpl in *; try reflexivity; discriminate.
Qed.

(** What a successful [__setitem__] did. *)
Lemma setitem_dict_inv mk m rs attrs d key v c' :
  setitem X mk (VCDict m rs attrs d) key v = Ok c' ->
  exists s r v1 v2,
    key = KStr s
    /\ get_rule KDict (m_name m) rs (KStr s) = Ok r
    /\ passes X mk (rule_checker r) v v1
    /\ passkey X KDict (m_name m) (KStr s) v1 = Ok v2
    /\ c' = VCDict m rs attrs (aset s v2 d).
Proof.
  unfold setitem. cbn [fixkey].
  destruct (get_rule KDict (m_name m) rs key) as [r|] eqn:Hr; [|discriminate].
  cbn [bind].
  destruct (check_value X mk (path_of (m_name m) key) (rule_checker r) v)
    as [v1|] eqn:Hc; [|discriminate].
  cbn [bind].
  destruct (passkey X KDict (m_name m) key v1) as [v2|] eqn:Hp; [|discriminate].
  cbn [bind]. destruct key as [z|s]; [discriminate|].
  intros [= <-]. exists s, r, v1, v2. repeat split; auto.
  now apply check_value_passes with (path := path_of (m_name m) (KStr s)).
Qed.

Lemma setitem_list_inv mk m rs attrs l key v c' :
  setitem X mk (VCList m rs attrs l) key v = Ok c' ->
  exists z i r v1 v2,
    fixkey KList key = KInt z
    /\ alookup "_any" rs = Some r
    /\ passes X mk (rule_checker r) v v1
    /\ passkey X KList (m_name m) (KInt z) v1 = Ok v2
    /\ list_pos l z = Some i
    /\ c' = VCList m rs attrs (replace_nth i v2 l).
Proof.
  unfold setitem.
  destruct (get_rule KList (m_name m) rs (fixkey KList key)) as [r|] eqn:Hr;
    [|discriminate].
  cbn [bind].
  destruct (check_value X mk (path_of (m_name m) (fixkey KList key))
                        (rule_checker r) v) as [v1|] eqn:Hc; [|discriminate].
  cbn [bind].
  destruct (passkey X KList (m_name m) (fixkey KList key) v1) as [v2|] eqn:Hp;
    [|discriminate].
  cbn [bind].
  destruct (fixkey KList key) as [z|s] eqn:Hk; [|discriminate].
  unfold list_setitem. destruct (list_pos l z) as [i|] eqn:Hi; [|discriminate].
  cbn [bind]. intros [= <-].
  exists z, i, r, v1, v2. repeat split; auto.
  - unfold get_rule in Hr. cbn [fixkey] in Hr.
    destruct (alookup "_any" rs); [congruence | discriminate].
  - now apply check_value_passes with (path := path_of (m_name m) (KInt z)).
Qed.

Lemma get_rule_list_ordinal (name : string) (rs : rules) (z : Z) (r : rule) :
  alookup "_any" rs = Some r -> get_rule KList name rs (KInt z) = Ok r.
Proof. intros H. unfold get_rule. cbn [fixkey]. now rewrite H. Qed.

Lemma nth_error_replace_nth (l : list value) (i j : nat) (x v : value) :
  nth_error (replace_nth i x l) j = Some v ->
  (j = i /\ v = x) \/ nth_error l j = Some v.
Proof.
  revert i j. induction l as [|a l IH]; intros i j H.
  - destruct i; simpl in H; destruct j; discriminate.
  - destruct i as [|i]; destruct j as [|j]; simpl in *; auto.
    + left. split; congruence.
    + destruct (IH i j H) as [[-> ->]|]; auto.
Qed.

(** *** What the loops keep *)

Lemma for_each_keeps {A : Type} (P : value -> Prop)
      (body : value -> A -> effect unit) :
  (forall c x, P c -> P (fst (body c x))) ->
  forall xs c, P c -> P (fst (for_each body xs c)).
Proof.
  intros Hbody xs. induction xs as [|x xs IH]; intros c Hc; simpl; auto.
  specialize (Hbody c x Hc). destruct (body c x) as [c' [u|e]]; simpl in *; auto.
Qed.

Section Kept.

Variable mk : kind -> string -> option string -> rules -> list value
              -> result value.
Variable P : value -> Prop.
Hypothesis assign_keeps :
  forall c key v, P c -> P (fst (assign X mk c key v)).
Hypothesis append_keeps :
  forall c v, P c -> P (fst (append X mk c v)).

Lemma append__keeps c v : P c -> P (fst (append_ X mk c v)).
Proof.
  intros Hc. unfold append_. specialize (append_keeps c v Hc).
  now destruct (append X mk c v) as [c' [a|e]].
Qed.

Lemma extend_keeps c src : P c -> P (fst (extend X mk c src)).
Proof.
  intros Hc. unfold extend. destruct (iter_values src); auto.
  apply for_each_keeps; auto. intros; now apply append__keeps.
Qed.

Lemma update_list1_keeps c src : P c -> P (fst (update_list1 X mk c src)).
Proof.
  intros Hc. unfold update_list1. destruct (iter_values src) as [l|]; auto.
  pose proof (for_each_keeps P (overwrite_slot X mk l)) as H1.
  specialize (H1 (fun c i Hc =>
                    match nth_error l i as o
                          return P (fst match o with
                                        | Some x => assign X mk c (KInt (Z.of_nat i)) x
                                        | None => (c, Raise IndexError)
                                        end) with
                    | Some x => assign_keeps c _ x Hc
                    | None => Hc
                    end)
                 (seq 0 (List.length (list_data c))) c Hc).
  destruct (for_each (overwrite_slot X mk l) _ c) as [c1 [u|e]]; simpl in *; auto.
  apply for_each_keeps; auto.
  intros c2 i Hc2. unfold append_slot.
  destruct (nth_error l i); auto. now apply append__keeps.
Qed.

Lemma update_list_keeps c args : P c -> P (fst (update_list X mk c args)).
Proof.
  intros Hc. unfold update_list. apply for_each_keeps; auto.
  intros; now apply update_list1_keeps.
Qed.

Lemma assign_all_keeps c (kvs : list (string * value)) :
  P c ->
  P (fst (for_each (fun c kv => assign X mk c (KStr (fst kv)) (snd kv)) kvs c)).
Proof. intros Hc. apply for_each_keeps; auto. Qed.

Lemma update_dict1_keeps c src : P c -> P (fst (update_dict1 X mk c src)).
Proof.
  intros Hc. unfold update_dict1. destruct (pairs_of src); auto.
  now apply assign_all_keeps.
Qed.

Lemma update_dict_keeps c args kwargs :
  P c -> P (fst (update_dict X mk c args kwargs)).
Proof.
  intros Hc. unfold update_dict.
  pose proof (for_each_keeps P (update_dict1 X mk)
                (fun c x Hc => update_dict1_keeps c x Hc) args c Hc) as H1.
  destruct (for_each (update_dict1 X mk) args c) as [c1 [u|e]]; simpl in *; auto.
  now apply assign_all_keeps.
Qed.

Lemma update_keeps c args : P c -> P (fst (update X mk c args)).
Proof.
  intros Hc. unfold update.
  destruct c; try now apply update_dict_keeps.
  now apply update_list_keeps.
Qed.

End Kept.

(** *** One write keeps the invariant *)

Lemma setitem_checked (fuel : nat) c key v c' :
  checked c -> setitem X (construct X fuel) c key v = Ok c' -> checked c'.
Proof.
  intros Hc Hset. destruct c; try discriminate.
  - destruct (setitem_dict_inv _ _ _ _ _ _ _ _ Hset)
      as [s [r [v1 [v2 [-> [Hr [Hp [Hk ->]]]]]]]].
    intros s0 v0 Hs0 Hv0.
    destruct (String.eqb_spec s s0) as [<-|Hne].
    + rewrite alookup_aset_same in Hs0. injection Hs0 as <-.
      exists r. split; [exact Hr|].
      rewrite (passkey_scalar_result _ _ _ _ _ Hk Hv0). now exists fuel, v.
    + rewrite alookup_aset_other in Hs0 by assumption. now apply Hc.
  - destruct (setitem_list_inv _ _ _ _ _ _ _ _ Hset)
      as [z [i [r [v1 [v2 [_ [Hr [Hp [Hk [_ ->]]]]]]]]]].
    intros j v0 Hj Hv0.
    destruct (nth_error_replace_nth _ _ _ _ _ Hj) as [[-> ->]|Hold].
    + exists r. split; [now apply get_rule_list_ordinal|].
      rewrite (passkey_scalar_result _ _ _ _ _ Hk Hv0). now exists fuel, v.
    + now apply Hc.
Qed.

Lemma assign_checked (fuel : nat) c key v :
  checked c -> checked (fst (assign X (construct X fuel) c key v)).
Proof.
  intros Hc. unfold assign.
  destruct (setitem X (construct X fuel) c key v) eqn:E; simpl; auto.
  now apply setitem_checked with (fuel := fuel) (c := c) (key := key) (v := v).
Qed.

Lemma list_pos_last_inv (l : list value) (x : value) (i : nat) :
  list_pos (l ++ [x]) (Z.of_nat (List.length l)) = Some i -> i = List.length l.
Proof. rewrite list_pos_last. congruence. Qed.

Lemma append_checked (fuel : nat) c v :
  checked c -> checked (fst (append X (construct X fuel) c v)).
Proof.
  intros Hc. unfold append. destruct c; try exact Hc.
  rewrite clen_snoc.
  destruct (setitem X (construct X fuel) (VCList m rs attrs (l ++ [VNone]))
                    (KInt (Z.of_nat (List.length l))) v) as [c2|e] eqn:E.
  - cbn [fst].
    destruct (setitem_list_inv _ _ _ _ _ _ _ _ E)
      as [z [i [r [v1 [v2 [Hz [Hr [Hp [Hk [Hi ->]]]]]]]]]].
    cbn [fixkey] in Hz. injection Hz as <-.
    apply list_pos_last_inv in Hi. subst i. rewrite replace_nth_last.
    intros j v0 Hj Hv0.
    destruct (Nat.lt_ge_cases j (List.length l)) as [Hlt|Hge].
    + rewrite nth_error_app1 in Hj by assumption. now apply Hc.
    + rewrite nth_error_app2 in Hj by assumption.
      destruct (j - List.length l)%nat as [|k] eqn:Ek; simpl in Hj.
      * injection Hj as <-. exists r. split; [now apply get_rule_list_ordinal|].
        rewrite (passkey_scalar_result _ _ _ _ _ Hk Hv0). now exists fuel, v.
      * destruct k; discriminate.
  - cbn [fst with_list_data list_data].
    rewrite Nat2Z.id, firstn_all_but_last. exact Hc.
Qed.

Lemma plain_setattr_checked c attr v c' :
  checked c -> plain_setattr c attr v = Ok c' -> checked c'.
Proof.
  intros Hc H. destruct c; try discriminate; simpl in H;
    repeat match type of H with
           | (if ?b then _ else _) = _ => destruct b
           | match ?x with _ => _ end = _ => destruct x
           end;
    try discriminate; injection H as <-; simpl in *;
    intros k0 v0 H0 Hv0; destruct (Hc k0 v0 H0 Hv0) as [r [Hr Hl]];
    exists r; (split; [|exact Hl]);
    eapply get_rule_name; exact Hr.
Qed.

(** C4, one step: a public mutation keeps the invariant, whether it
    returns or raises. *)
Lemma mutate_checked (fuel : nat) (c : value) (o : mutation) :
  checked c -> checked (mutate fuel c o).
Proof.
  intros Hc. destruct o as [key v|attr v|v|src|args kwargs]; cbn [mutate];
    unfold list_append, list_extend, list_update, dict_update.
  - now apply assign_checked.
  - unfold setattr_, setattr.
    destruct (kind_of c) as [k|]; [|exact Hc].
    destruct (key_in_rules (fixkey k (KStr attr)) (rules_of c)).
    + destruct (setitem X (construct X fuel) c (KStr attr) v) eqn:E; auto.
      now apply setitem_checked with (fuel := fuel) (c := c)
                                     (key := KStr attr) (v := v).
    + destruct (plain_setattr c attr v) eqn:E; auto.
      now apply plain_setattr_checked with (c := c) (attr := attr) (v := v).
  - now apply append_checked.
  - apply extend_keeps; auto. intros; now apply append_checked.
  - destruct c; try (apply update_dict_keeps; auto; intros;
                     now apply assign_checked).
    apply update_list_keeps; auto; intros;
      [now apply assign_checked | now apply append_checked].
Qed.

Lemma mutate_all_checked (ops : list (nat * mutation)) (c : value) :
  checked c -> checked (mutate_all c ops).
Proof.
  revert c. induction ops as [|[fuel o] ops IH]; intros c Hc; simpl; auto.
  apply IH. now apply mutate_checked.
Qed.

(** *** A new container satisfies the invariant *)

Lemma setitem_kind mk c key v c' :
  setitem X mk c key v = Ok c' -> kind_of c' = kind_of c.
Proof.
  intros H. destruct c; try discriminate.
  - destruct (setitem_dict_inv _ _ _ _ _ _ _ _ H)
      as [s [r [v1 [v2 [_ [_ [_ [_ ->]]]]]]]]. reflexivity.
  - destruct (setitem_list_inv _ _ _ _ _ _ _ _ H)
      as [z [i [r [v1 [v2 [_ [_ [_ [_ [_ ->]]]]]]]]]]. reflexivity.
Qed.

Lemma assign_kind mk (k : kind) c key v :
  kind_of c = Some k -> kind_of (fst (assign X mk c key v)) = Some k.
Proof.
  intros Hc. unfold assign. destruct (setitem X mk c key v) eqn:E; simpl; auto.
  now rewrite (setitem_kind _ _ _ _ _ E).
Qed.

Lemma append_kind mk (k : kind) c v :
  kind_of c = Some k -> kind_of (fst (append X mk c v)) = Some k.
Proof.
  intros Hc. unfold append. destruct c; try exact Hc.
  destruct (setitem X mk (VCList m rs attrs (l ++ [VNone])) _ v) eqn:E.
  - cbn [fst]. now rewrite (setitem_kind _ _ _ _ _ E).
  - exact Hc.
Qed.

Lemma add_rule_kind mk c key r c' :
  add_rule X mk c key r = Ok c' -> kind_of c' = kind_of c.
Proof.
  unfold add_rule.
  destruct (negb (clean_key X key)); [discriminate|].
  destruct (hasattr c key); [discriminate|].
  destruct (rule_default r) as [s|drs| |].
  - intros [= <-]. now destruct c.
  - destruct (mk KDict _ _ _ _) as [child|]; [|discriminate]. cbn [bind].
    destruct c; simpl; try discriminate. now intros [= <-].
  - destruct (mk KList _ _ _ _) as [child|]; [|discriminate]. cbn [bind].
    destruct c; simpl; try discriminate. now intros [= <-].
  - discriminate.
Qed.

Lemma set_rules_kind mk rs : forall c c',
  set_rules X mk c rs = Ok c' -> kind_of c' = kind_of c.
Proof.
  induction rs as [|[key r] rs IH]; intros c c' H; simpl in H.
  - now injection H as <-.
  - destruct (add_rule X mk c key r) as [c1|] eqn:E; [|discriminate].
    cbn [bind] in H. rewrite (IH _ _ H). now apply add_rule_kind in E.
Qed.

Lemma init_kind mk k name comment rs args c :
  init X mk k name comment rs args = Ok c -> kind_of c = Some k.
Proof.
  unfold init.
  destruct (set_rules X mk _ rs) as [c1|] eqn:E; [|discriminate]. cbn [bind].
  apply set_rules_kind in E.
  assert (H1 : kind_of c1 = Some k) by (rewrite E; now destruct k).
  pose proof (update_keeps mk (fun c => kind_of c = Some k)
                (fun c key v => assign_kind mk k c key v)
                (fun c v => append_kind mk k c v) c1 args H1) as H2.
  destruct (update X mk c1 args) as [c2 [u|e]]; [|discriminate].
  now intros [= <-].
Qed.

Lemma construct_kind fuel k name comment rs args c :
  construct X fuel k name comment rs args = Ok c -> kind_of c = Some k.
Proof. destruct fuel; [discriminate|]. apply init_kind. Qed.

Lemma container_not_scalar c k : kind_of c = Some k -> is_scalar c = false.
Proof. destruct c; simpl; congruence. Qed.

Lemma add_rule_no_scalar fuel c key r c' :
  holds_no_scalar c -> add_rule X (construct X fuel) c key r = Ok c' ->
  holds_no_scalar c'.
Proof.
  intros Hc. unfold add_rule.
  destruct (negb (clean_key X key)); [discriminate|].
  destruct (hasattr c key); [discriminate|].
  destruct (rule_default r) as [s|drs| |].
  - intros [= <-]. now destruct c.
  - destruct (construct X fuel KDict _ _ _ _) as [child|] eqn:E;
      [|discriminate]. cbn [bind].
    destruct c; simpl; try discriminate. intros [= <-]. simpl.
    intros s v Hs. destruct (String.eqb_spec key s) as [<-|Hne].
    + rewrite alookup_aset_same in Hs. injection Hs as <-.
      apply construct_kind in E. now apply container_not_scalar in E.
    + rewrite alookup_aset_other in Hs by assumption. now apply (Hc s).
  - destruct (construct X fuel KList _ _ _ _) as [child|] eqn:E;
      [|discriminate]. cbn [bind].
    destruct c; simpl; try discriminate. intros [= <-]. simpl.
    intros s v Hs. destruct (String.eqb_spec key s) as [<-|Hne].
    + rewrite alookup_aset_same in Hs. injection Hs as <-.
      apply construct_kind in E. now apply container_not_scalar in E.
    + rewrite alookup_aset_other in Hs by assumption. now apply (Hc s).
  - discriminate.
Qed.

Lemma set_rules_no_scalar fuel rs : forall c c',
  holds_no_scalar c -> set_rules X (construct X fuel) c rs = Ok c' ->
  holds_no_scalar c'.
Proof.
  induction rs as [|[key r] rs IH]; intros c c' Hc H; simpl in H.
  - now injection H as <-.
  - destruct (add_rule X (construct X fuel) c key r) as [c1|] eqn:E;
      [|discriminate].
    cbn [bind] in H. apply (IH c1); auto.
    now apply add_rule_no_scalar with (fuel := fuel) (c := c) (key := key) (r := r).
Qed.

(** What [__init__] returns satisfies the invariant. *)
Lemma construct_checked fuel k name comment rs args c :
  construct X fuel k name comment rs args = Ok c -> checked c.
Proof.
  destruct fuel as [|f]; [discriminate|]. simpl. unfold init.
  destruct (set_rules X (construct X f) _ rs) as [c1|] eqn:E; [|discriminate].
  cbn [bind].
  assert (H1 : checked c1).
  { apply holds_no_scalar_checked.
    apply (set_rules_no_scalar f rs _ c1) in E; auto.
    destruct k; simpl; auto. intros s v Hs. discriminate. }
  pose proof (update_keeps (construct X f) checked
                (fun c key v => assign_checked f c key v)
                (fun c v => append_checked f c v) c1 args H1) as H2.
  destruct (update X (construct X f) c1 args) as [c2 [u|e]]; [|discriminate].
  now intros [= <-].
Qed.


End Invariant.


(** ** Loading sections in either order (C2) *)

(** A text from its lines. *)
Definition text_of (lines : list string) : string :=
  String.concat "" (map (fun l => l ++ nl) lines).

(** A configuration with one section, [sys], and one setting in it. *)
Definition sys_rules : rules :=
  [("sys", Rule "Technical system settings" CkFalse
             (DDict [("fd_cache_size",
                      Rule "Max files kept open" CkInt (DScalar (SInt 500)))]))].

Definition sys_section (d : list (string * value)) : value :=
  VCDict (Meta "config/sys" "config/sys" (Some "Technical system settings"))
         [("fd_cache_size", Rule "Max files kept open" CkInt (DScalar (SInt 500)))]
         [] d.

Definition sys_config (d : list (string * value)) : value :=
  VCDict (Meta "config" "config" None)
         [("sys", Rule "Technical system settings" CkFalse
                    (DDict [("fd_cache_size",
                             Rule "Max files kept open" CkInt
                                  (DScalar (SInt 500)))]))]
         [] [("sys", sys_section d)].

Lemma sys_config_constructed :
  ConfigDict std 2 sys_rules [] = Ok (sys_config []).
Proof. reflexivity. Qed.

(** The valid section first: its setting is applied, the section that
    does not resolve gives one warning, and the load returns [False]. *)
Lemma parse_valid_section_first :
  parse_config std 1 true "internal" (sys_config [])
    (text_of ["[config/sys]"; "fd_cache_size = 123";
              "[config/bogus]"; "blabla = bla"])
  = (sys_config [("fd_cache_size", VInt 123)],
     ["Invalid (internal): section config/bogus does not exist"],
     Ok false).
Proof. vm_compute. reflexivity. Qed.

(** C2, where the code departs from it: with the section that does not
    resolve first, the load returns [False] with its one warning and the
    tree is what it was, the setting of the valid section not applied.
    The items of a section are read under [okay and ...], and [okay] is
    the flag of the whole load. *)
Theorem parse_unresolved_section_first_drops_valid_section :
  parse_config std 1 true "internal" (sys_config [])
    (text_of ["[config/bogus]"; "blabla = bla";
              "[config/sys]"; "fd_cache_size = 123"])
  = (sys_config [],
     ["Invalid (internal): section config/bogus does not exist"],
     Ok false).
Proof. vm_compute. reflexivity. Qed.

(** A section path with two parts that do not resolve gives two
    warnings: the walk goes on after the first. *)
Lemma parse_unresolved_path_warns_per_part :
  parse_config std 1 true "internal" (sys_config [])
    (text_of ["[config/bogus/deeper]"; "blabla = bla"])
  = (sys_config [],
     ["Invalid (internal): section config/bogus/deeper does not exist";
      "Invalid (internal): section config/bogus/deeper does not exist"],
     Ok false).
Proof. vm_compute. reflexivity. Qed.

(** ** Facts about text *)

Lemma append_nil_r (s : string) : s ++ "" = s.
Proof. induction s as [|c s IH]; simpl; [reflexivity | now rewrite IH]. Qed.

Lemma append_assoc (a b c : string) : (a ++ b) ++ c = a ++ (b ++ c).
Proof. induction a as [|x a IH]; simpl; [reflexivity | now rewrite IH]. Qed.

(** ** The escaping is undone by [unquote] *)

Lemma hex_value_hex_char (d : nat) :
  (d < 16)%nat -> hex_value (hex_char d) = Some d.
Proof.
  intros H. do 16 (destruct d as [|d]; [reflexivity|]). lia.
Qed.

Lemma ascii_of_hex_digits (c : ascii) :
  ascii_of_nat (16 * (nat_of_ascii c / 16) + nat_of_ascii c mod 16) = c.
Proof.
  rewrite <- Nat.div_mod_eq. apply ascii_nat_embedding.
Qed.

Lemma safe_is_not_percent (c : ascii) :
  is_safe c = true -> Ascii.eqb c "%" = false.
Proof.
  destruct (Ascii.eqb_spec c "%") as [->|]; [|reflexivity].
  vm_compute. discriminate.
Qed.

Lemma unquote_quote_app (s t : string) :
  unquote (quote s ++ t) = s ++ unquote t.
Proof.
  induction s as [|c r IH]; [reflexivity|].
  cbn [quote]. destruct (is_safe c) eqn:Hs.
  - simpl. rewrite (safe_is_not_percent c Hs). now rewrite IH.
  - cbn -[Nat.div Nat.modulo Nat.mul Nat.add hex_value hex_char].
    pose proof (nat_ascii_bounded c) as Hb.
    rewrite !hex_value_hex_char.
    + now rewrite ascii_of_hex_digits, IH.
    + apply Nat.mod_upper_bound. lia.
    + apply Nat.Div0.div_lt_upper_bound. lia.
Qed.

Lemma unquote_quote (s : string) : unquote (quote s) = s.
Proof.
  rewrite <- (append_nil_r (quote s)), unquote_quote_app. simpl.
  apply append_nil_r.
Qed.

Lemma chop_final_space_inv (t q : string) :
  Text.chop_final_space t = Some q -> t = q ++ " ".
Proof.
  revert q. induction t as [|c t IH]; intros q H; [discriminate|].
  simpl in H. destruct t as [|c' t'].
  - destruct (Ascii.eqb_spec c " ") as [->|]; [|discriminate].
    now injection H as <-.
  - destruct (Text.chop_final_space (String c' t')) as [q1|]; [|discriminate].
    injection H as <-. simpl. now rewrite <- (IH q1).
Qed.

Lemma chop_final_space_none (t : string) :
  Text.chop_final_space t = None -> last_char t <> Some " "%char.
Proof.
  induction t as [|c t IH]; intros H; [discriminate|].
  simpl in *. destruct t as [|c' t'].
  - destruct (Ascii.eqb_spec c " "); [discriminate | congruence].
  - apply IH. now destruct (Text.chop_final_space (String c' t')).
Qed.

Lemma hex_char_not_space (d : nat) : (d < 16)%nat -> hex_char d <> " "%char.
Proof.
  intros H. do 16 (destruct d as [|d]; [discriminate|]). lia.
Qed.

Lemma quote_nil (s : string) : quote s = "" -> s = "".
Proof.
  destruct s as [|c r]; [reflexivity|]. simpl.
  destruct (is_safe c); discriminate.
Qed.

Lemma hex_digits_bounds (c : ascii) :
  (nat_of_ascii c / 16 < 16)%nat /\ (nat_of_ascii c mod 16 < 16)%nat.
Proof.
  pose proof (nat_ascii_bounded c). split.
  - apply Nat.Div0.div_lt_upper_bound. lia.
  - apply Nat.mod_upper_bound. lia.
Qed.

Lemma quote_ends_with_space (s : string) :
  forall q, quote s = q ++ " " -> exists s', s = s' ++ " " /\ q = quote s'.
Proof.
  induction s as [|c r IH]; intros q H.
  - destruct q; discriminate.
  - cbn [quote] in H. destruct (is_safe c) eqn:Hs.
    + destruct q as [|c' q1]; simpl in H.
      * injection H as -> Hr. apply quote_nil in Hr. subst r.
        exists "". split; reflexivity.
      * injection H as <- Hr. destruct (IH q1 Hr) as [s' [-> ->]].
        exists (String c s'). split; [reflexivity|].
        cbn [quote]. now rewrite Hs.
    + destruct (hex_digits_bounds c) as [Hd Hm].
      destruct q as [|c1 [|c2 [|c3 q3]]]; simpl in H.
      * discriminate.
      * injection H as _ Hh _. now apply hex_char_not_space in Hh.
      * injection H as _ _ Hh _. now apply hex_char_not_space in Hh.
      * injection H as <- <- <- Hr. destruct (IH q3 Hr) as [s' [-> ->]].
        exists (String c s'). split; [reflexivity|].
        cbn [quote]. now rewrite Hs.
Qed.

(** What [CommentedEscapedConfigParser.get] and [items] make of an
    escaped value is the value. *)
Lemma unquote_escape_value (s : string) : unquote (escape_value s) = s.
Proof.
  unfold escape_value.
  destruct (Text.chop_final_space (quote s)) as [q|] eqn:E.
  - apply chop_final_space_inv in E.
    destruct (quote_ends_with_space s q E) as [s' [-> ->]].
    now rewrite unquote_quote_app.
  - apply unquote_quote.
Qed.

(** ** Reading back what was written *)

(** Every character of the text satisfies [p]. *)
Fixpoint all_chars (p : ascii -> bool) (s : string) : bool :=
  match s with
  | EmptyString => true
  | String c r => p c && all_chars p r
  end.

Lemma all_chars_app p a b :
  all_chars p (a ++ b) = all_chars p a && all_chars p b.
Proof.
  induction a as [|c a IH]; simpl; [reflexivity|].
  now rewrite IH, andb_assoc.
Qed.

Lemma all_chars_imp (p q : ascii -> bool) s :
  (forall c, p c = true -> q c = true) ->
  all_chars p s = true -> all_chars q s = true.
Proof.
  intros Hpq. induction s as [|c s IH]; simpl; [reflexivity|].
  intros H. apply andb_true_iff in H as [Hc Hs].
  now rewrite (Hpq c Hc), IH.
Qed.

Definition not_newline (c : ascii) : bool := negb (Ascii.eqb c NL).

(** *** Lines *)

Lemma readlines_line (l rest : string) :
  all_chars not_newline l = true ->
  readlines (l ++ nl ++ rest) = (l ++ nl) :: readlines rest.
Proof.
  induction l as [|c l IH]; intros H.
  - reflexivity.
  - simpl in H. apply andb_true_iff in H as [Hc Hl].
    unfold not_newline in Hc. apply negb_true_iff in Hc.
    cbn [String.append readlines]. rewrite Hc, (IH Hl). reflexivity.
Qed.

Lemma read_lines_app st (a b : list string) :
  read_lines st (a ++ b) = (st' <- read_lines st a ;; read_lines st' b).
Proof.
  revert st. induction a as [|l a IH]; intros st; simpl; [reflexivity|].
  destruct (read_line st l); simpl; auto.
Qed.

(** *** Cutting and stripping *)

Lemma cut_at_first p (a b : string) (c : ascii) :
  all_chars (fun x => negb (p x)) a = true -> p c = true ->
  Text.cut_at p (a ++ String c b) = Some (a, c, b).
Proof.
  intros Ha Hc. induction a as [|x a IH]; simpl.
  - now rewrite Hc.
  - simpl in Ha. apply andb_true_iff in Ha as [Hx Ha].
    apply negb_true_iff in Hx. now rewrite Hx, (IH Ha).
Qed.

Lemma cut_at_none p (a : string) :
  all_chars (fun x => negb (p x)) a = true -> Text.cut_at p a = None.
Proof.
  induction a as [|x a IH]; simpl; [reflexivity|].
  intros Ha. apply andb_true_iff in Ha as [Hx Ha].
  apply negb_true_iff in Hx. now rewrite Hx, (IH Ha).
Qed.

Lemma drop_final_newline_app (s : string) : drop_final_newline (s ++ nl) = s.
Proof.
  induction s as [|c s IH]; [reflexivity|].
  cbn [String.append drop_final_newline]. rewrite IH.
  destruct (s ++ nl) eqn:E; [|reflexivity].
  destruct s; discriminate.
Qed.

Lemma rstrip_spaces (t : string) :
  all_chars Text.is_space t = true -> Text.rstrip t = "".
Proof.
  induction t as [|c t IH]; simpl; [reflexivity|].
  intros H. apply andb_true_iff in H as [Hc Ht]. now rewrite (IH Ht), Hc.
Qed.

(** Text that ends in a character that is not white space. *)
Definition ends_solid (s : string) : bool :=
  match last_char s with
  | Some c => negb (Text.is_space c)
  | None => false
  end.

Lemma rstrip_solid (s : string) : ends_solid s = true -> Text.rstrip s = s.
Proof.
  unfold ends_solid. induction s as [|c s IH]; [discriminate|].
  simpl. destruct s as [|c' s'].
  - simpl. intros H. apply negb_true_iff in H. now rewrite H.
  - intros H. rewrite (IH H). reflexivity.
Qed.

Lemma rstrip_solid_app (s t : string) :
  ends_solid s = true -> all_chars Text.is_space t = true ->
  Text.rstrip (s ++ t) = s.
Proof.
  unfold ends_solid. intros Hs Ht. induction s as [|c s IH]; [discriminate|].
  cbn [String.append Text.rstrip]. destruct s as [|c' s'].
  - simpl in *. rewrite (rstrip_spaces t Ht).
    apply negb_true_iff in Hs. now rewrite Hs.
  - rewrite (IH Hs). reflexivity.
Qed.

(** Text that starts with a character that is not white space. *)
Definition starts_solid (s : string) : bool :=
  match first_char s with
  | Some c => negb (Text.is_space c)
  | None => false
  end.

Lemma lstrip_solid (s : string) : starts_solid s = true -> Text.lstrip s = s.
Proof.
  destruct s as [|c s]; [discriminate|]. unfold starts_solid. simpl.
  intros H. apply negb_true_iff in H. now rewrite H.
Qed.

Lemma lstrip_spaces_solid (t s : string) :
  all_chars Text.is_space t = true -> starts_solid s = true ->
  Text.lstrip (t ++ s) = s.
Proof.
  intros Ht Hs. induction t as [|c t IH]; simpl.
  - now apply lstrip_solid.
  - simpl in Ht. apply andb_true_iff in Ht as [Hc Ht]. now rewrite Hc, IH.
Qed.

Lemma strip_solid_app (s t : string) :
  starts_solid s = true -> ends_solid s = true ->
  all_chars Text.is_space t = true ->
  Text.strip (s ++ t) = s.
Proof.
  intros H1 H2 Ht. unfold Text.strip.
  rewrite lstrip_solid.
  - now apply rstrip_solid_app.
  - destruct s; [discriminate | exact H1].
Qed.

Lemma all_chars_spaces (n : Z) : all_chars Text.is_space (Text.spaces n) = true.
Proof.
  unfold Text.spaces. induction (Z.to_nat n) as [|k IH]; simpl; auto.
Qed.

Lemma last_char_app (s : string) (c : ascii) (t : string) :
  last_char (s ++ String c t) = last_char (String c t).
Proof.
  induction s as [|x s IH]; [reflexivity|].
  cbn [append]. simpl last_char. rewrite IH.
  destruct (s ++ String c t) eqn:E; [|reflexivity].
  destruct s; discriminate.
Qed.

(** *** Characters of keys and of escaped values *)

(** A key the loader reads back as it was written: lower-case letters,
    digits and underscores. *)
Definition key_char (c : ascii) : bool :=
  Text.is_lower c || Text.is_digit c || Ascii.eqb c "_".

(** The characters [quote] writes: the safe ones and the percent sign. *)
Definition esc_char (c : ascii) : bool := is_safe c || Ascii.eqb c "%".

Ltac ascii_cases c :=
  destruct c as [[] [] [] [] [] [] [] []]; vm_compute; try discriminate;
  try reflexivity; auto.

Lemma key_char_plain (c : ascii) :
  key_char c = true ->
  Text.is_space c = false /\ Text.mem_char c ":=" = false
  /\ Text.mem_char c "#;" = false /\ Ascii.eqb c "[" = false
  /\ Ascii.eqb c NL = false /\ Text.lower_char c = c.
Proof.
  intros H. ascii_cases c; repeat split; reflexivity.
Qed.

Lemma esc_char_facts (c : ascii) :
  esc_char c = true ->
  Ascii.eqb c ";" = false /\ Ascii.eqb c NL = false
  /\ Ascii.eqb c (ascii_of_nat 34) = false
  /\ (Text.is_space c = true -> c = " "%char).
Proof.
  intros H. ascii_cases c; repeat split; try reflexivity; discriminate.
Qed.

Lemma match_section_other (c : ascii) (r : string) :
  Ascii.eqb c "[" = false -> match_section (String c r) = None.
Proof.
  intros H. destruct c as [[] [] [] [] [] [] [] []]; try reflexivity.
  discriminate.
Qed.

Definition good_key (k : string) : bool :=
  all_chars key_char k && negb (String.eqb k "")
  && negb (String.eqb k "rem") && negb (String.eqb k "__name__")
  && negb (String.eqb k "_any").

(** An escaped value that the reader's stripping leaves alone. *)
Definition good_escaped (e : string) : bool :=
  all_chars esc_char e && starts_solid e && ends_solid e.

Lemma lower_key (k : string) : all_chars key_char k = true -> Text.lower k = k.
Proof.
  induction k as [|c k IH]; simpl; [reflexivity|].
  intros H. apply andb_true_iff in H as [Hc Hk].
  destruct (key_char_plain c Hc) as [_ [_ [_ [_ [_ Hl]]]]].
  now rewrite Hl, IH.
Qed.

Lemma key_no_newline (k : string) :
  all_chars key_char k = true -> all_chars not_newline k = true.
Proof.
  apply all_chars_imp. intros c Hc. unfold not_newline.
  destruct (key_char_plain c Hc) as [_ [_ [_ [_ [-> _]]]]]. reflexivity.
Qed.

Lemma key_no_separator (k : string) :
  all_chars key_char k = true ->
  all_chars (fun x => negb (Text.mem_char x ":=")) k = true.
Proof.
  apply all_chars_imp. intros c Hc.
  destruct (key_char_plain c Hc) as [_ [-> _]]. reflexivity.
Qed.

Lemma key_ends_solid (k : string) :
  all_chars key_char k = true -> k <> "" -> ends_solid k = true.
Proof.
  unfold ends_solid. induction k as [|c k IH]; [congruence|].
  simpl. intros H _. apply andb_true_iff in H as [Hc Hk].
  destruct k as [|c' k'].
  - destruct (key_char_plain c Hc) as [-> _]. reflexivity.
  - apply IH; [exact Hk | discriminate].
Qed.

Lemma take_word_key (k rest : string) :
  all_chars key_char k = true -> take_word (k ++ String " " rest) = k.
Proof.
  induction k as [|c k IH]; simpl; [reflexivity|].
  intros H. apply andb_true_iff in H as [Hc Hk].
  destruct (key_char_plain c Hc) as [-> _]. now rewrite IH.
Qed.

Lemma escaped_no_semicolon (e : string) :
  all_chars esc_char e = true ->
  all_chars (fun x => negb (Ascii.eqb x ";")) e = true.
Proof.
  apply all_chars_imp. intros c Hc.
  destruct (esc_char_facts c Hc) as [-> _]. reflexivity.
Qed.

Lemma escaped_no_newline (e : string) :
  all_chars esc_char e = true -> all_chars not_newline e = true.
Proof.
  apply all_chars_imp. intros c Hc. unfold not_newline.
  destruct (esc_char_facts c Hc) as [_ [-> _]]. reflexivity.
Qed.

Lemma escaped_not_two_quotes (e : string) :
  all_chars esc_char e = true -> String.eqb e two_quotes = false.
Proof.
  intros H. destruct (String.eqb_spec e two_quotes) as [->|]; [|reflexivity].
  vm_compute in H. discriminate.
Qed.

Lemma rstrip_not_empty (s : string) :
  starts_solid s = true -> Text.rstrip s <> "".
Proof.
  destruct s as [|c s]; [discriminate|]. unfold starts_solid. simpl.
  intros H. apply negb_true_iff in H. rewrite H.
  destruct (Text.rstrip s); discriminate.
Qed.

(** The text [cecp_set] adds to an escaped value: nothing, or padding and
    a comment after a semicolon. *)
Inductive comment_tail : string -> Prop :=
| Tail_none : comment_tail ""
| Tail_comment n cm :
    all_chars not_newline cm = true ->
    comment_tail (Text.spaces n ++ " ; " ++ cm).

Lemma spaces_chars (p : ascii -> bool) (n : Z) :
  p " "%char = true -> all_chars p (Text.spaces n) = true.
Proof.
  intros Hp. unfold Text.spaces.
  induction (Z.to_nat n) as [|k IH]; simpl; [reflexivity | now rewrite Hp].
Qed.

Lemma comment_tail_no_newline t :
  comment_tail t -> all_chars not_newline t = true.
Proof.
  intros [|n cm Hcm]; [reflexivity|].
  rewrite all_chars_app, spaces_chars by reflexivity. simpl. exact Hcm.
Qed.

(** The value the reader keeps of a written value is the escaped text. *)
Lemma read_value_back (e t : string) :
  good_escaped e = true -> comment_tail t ->
  Text.strip (strip_inline_comment (e ++ t)) = e.
Proof.
  unfold good_escaped. intros He Ht.
  apply andb_true_iff in He as [He Hend].
  apply andb_true_iff in He as [Hesc Hstart].
  destruct Ht as [|n cm Hcm].
  - rewrite append_nil_r. unfold strip_inline_comment.
    rewrite cut_at_none by now apply escaped_no_semicolon.
    rewrite <- (append_nil_r e) at 1. now apply strip_solid_app.
  - replace (e ++ Text.spaces n ++ " ; " ++ cm)
      with ((e ++ Text.spaces n ++ " ") ++ String ";" (" " ++ cm))
      by (rewrite !append_assoc; reflexivity).
    unfold strip_inline_comment. rewrite cut_at_first.
    + rewrite <- append_assoc, last_char_app. cbn [last_char].
      change (Text.is_space " ") with true. cbv iota.
      rewrite append_assoc. apply strip_solid_app; auto.
      rewrite all_chars_app, all_chars_spaces. reflexivity.
    + rewrite !all_chars_app, (escaped_no_semicolon e Hesc).
      rewrite spaces_chars by reflexivity. reflexivity.
    + reflexivity.
Qed.

(** *** One option line *)

Lemma match_option_key (k e t : string) :
  good_key k = true -> good_escaped e = true ->
  match_option (k ++ " = " ++ e ++ t ++ nl)
  = Some (k ++ " ", "="%char, e ++ t).
Proof.
  unfold good_key, good_escaped. intros Hk He.
  repeat (apply andb_true_iff in Hk as [Hk ?]).
  repeat (apply andb_true_iff in He as [He ?]).
  destruct k as [|c k']; [discriminate|].
  simpl in Hk. apply andb_true_iff in Hk as [Hc Hk'].
  destruct (key_char_plain c Hc) as [Hsp [Hsep _]].
  change (String c k' ++ " = " ++ e ++ t ++ nl)
    with (String c (k' ++ " = " ++ e ++ t ++ nl)).
  unfold match_option. rewrite Hsep, Hsp. cbn [orb].
  replace (k' ++ " = " ++ e ++ t ++ nl)
    with ((k' ++ " ") ++ String "=" (" " ++ e ++ t ++ nl))
    by (rewrite append_assoc; reflexivity).
  rewrite cut_at_first.
  - replace (" " ++ e ++ t ++ nl) with (" " ++ ((e ++ t) ++ nl))
      by (now rewrite (append_assoc e t nl)).
    rewrite (lstrip_spaces_solid " " ((e ++ t) ++ nl)); try reflexivity.
    + now rewrite drop_final_newline_app.
    + destruct e; [discriminate|]. assumption.
  - rewrite all_chars_app, (key_no_separator k' Hk'). reflexivity.
  - reflexivity.
Qed.

Lemma read_option_line (st : reading) (cur : option string) (k e t : string) :
  good_key k = true -> good_escaped e = true -> comment_tail t ->
  r_cursect st = Some cur ->
  read_line st (k ++ " = " ++ e ++ t ++ nl)
  = Ok (set_cur_options st cur (aset k [e] (cur_options st cur)) (Some k)).
Proof.
  intros Hk He Ht Hcur.
  pose proof (match_option_key k e t Hk He) as Hopt.
  pose proof (read_value_back e t He Ht) as Hval.
  unfold good_key in Hk. repeat (apply andb_true_iff in Hk as [Hk ?]).
  assert (Hne : k <> "") by (intros ->; discriminate).
  assert (Hesc : all_chars esc_char e = true).
  { unfold good_escaped in He.
    now repeat (apply andb_true_iff in He as [He ?]). }
  destruct k as [|c k'] eqn:Ek; [congruence|]. rewrite <- Ek in *.
  assert (Hc : key_char c = true)
    by (rewrite Ek in Hk; simpl in Hk; now apply andb_true_iff in Hk as [? _]).
  destruct (key_char_plain c Hc) as [Hsp [Hsep [Hhash [Hbr [Hnl Hlow]]]]].
  set (L := k ++ " = " ++ e ++ t ++ nl) in *.
  assert (HL : L = String c (k' ++ " = " ++ e ++ t ++ nl))
    by (unfold L; rewrite Ek; reflexivity).
  assert (T1 : String.eqb (Text.strip L) "" = false).
  { apply String.eqb_neq. unfold Text.strip. rewrite lstrip_solid.
    - apply rstrip_not_empty. rewrite HL. unfold starts_solid. simpl.
      now rewrite Hsp.
    - rewrite HL. unfold starts_solid. simpl. now rewrite Hsp. }
  assert (T2 : starts_with_any L "#;" = false)
    by (rewrite HL; unfold starts_with_any; simpl first_char; exact Hhash).
  assert (T3 : is_rem L = false).
  { unfold is_rem. rewrite lstrip_solid
      by (rewrite HL; unfold starts_solid; simpl; now rewrite Hsp).
    unfold L. change (" = " ++ e ++ t ++ nl)
      with (String " " ("= " ++ e ++ t ++ nl)).
    rewrite take_word_key, lower_key by assumption.
    now match goal with H : negb (String.eqb k "rem") = true |- _ =>
      apply negb_true_iff in H; rewrite H end. }
  unfold read_line. rewrite T1, T2, T3. cbn [orb].
  rewrite HL at 1. cbn [first_char]. rewrite Hcur, Hsp.
  replace (match r_optname st with Some _ => None | None => None end)
    with (@None (option string * string)) by now destruct (r_optname st).
  rewrite HL at 1. rewrite (match_section_other c _ Hbr).
  rewrite Hopt, Hval.
  rewrite (rstrip_solid_app k " ") by (auto using key_ends_solid).
  rewrite lower_key by assumption.
  now rewrite (escaped_not_two_quotes e Hesc).
Qed.

(** *** Comment lines, blank lines and headers *)

Lemma read_comment_line (st : reading) (l : string) :
  starts_with_any l "#;" = true -> read_line st l = Ok st.
Proof. intros H. unfold read_line. now rewrite H, orb_true_r. Qed.

Lemma read_blank_line (st : reading) : read_line st nl = Ok st.
Proof. reflexivity. Qed.

(** A section header the reader takes as it was written. *)
Definition header_char (c : ascii) : bool :=
  negb (Ascii.eqb c "]") && not_newline c.

Definition good_header (h : string) : bool :=
  all_chars header_char h && negb (String.eqb h "")
  && negb (String.eqb (Text.lower h) "default").

Lemma read_header_line (st : reading) (h : string) :
  good_header h = true -> amem h (r_sections st) = false ->
  read_line st ("[" ++ h ++ "]" ++ nl)
  = Ok (Reading (r_defaults st)
                (r_sections st ++ [(h, [("__name__", [h])])])
                (Some (Some h)) None (r_error st)).
Proof.
  unfold good_header. intros Hh Hnew.
  apply andb_true_iff in Hh as [Hh Hdef].
  apply andb_true_iff in Hh as [Hch Hne].
  apply negb_true_iff in Hne, Hdef.
  set (L := "[" ++ h ++ "]" ++ nl).
  assert (HL : L = String "[" (h ++ String "]" nl)) by reflexivity.
  assert (T1 : String.eqb (Text.strip L) "" = false).
  { apply String.eqb_neq. unfold Text.strip. rewrite lstrip_solid by reflexivity.
    now apply rstrip_not_empty. }
  unfold read_line. rewrite T1.
  change (starts_with_any L "#;") with false.
  replace (is_rem L) with false
    by (unfold is_rem; change (starts_with_any L "rR") with false;
        now rewrite andb_false_r).
  cbn [orb]. rewrite HL at 1. cbn [first_char].
  change (Text.is_space "[") with false.
  assert (Hsec : match_section L = Some h).
  { rewrite HL. unfold match_section. rewrite cut_at_first.
    - destruct h; [discriminate | reflexivity].
    - apply all_chars_imp with (p := header_char); [|exact Hch].
      intros c Hc. unfold header_char in Hc.
      now apply andb_true_iff in Hc as [? _].
    - reflexivity. }
  assert (Hd : String.eqb h "DEFAULT" = false).
  { destruct (String.eqb_spec h "DEFAULT") as [E|]; [|reflexivity].
    rewrite E in Hdef. discriminate. }
  destruct (r_cursect st) as [cur|]; [destruct (r_optname st) as [o|]|];
    cbv iota; now rewrite Hsec, Hnew, Hd.
Qed.

(** *** Association lists that grow at the end *)

Lemma aset_fresh {A} (k : string) (a : A) (d : list (string * A)) :
  alookup k d = None -> aset k a d = (d ++ [(k, a)])%list.
Proof.
  induction d as [|[k' a'] d IH]; simpl; [reflexivity|].
  destruct (String.eqb k k'); [discriminate|]. intros H. now rewrite IH.
Qed.

Lemma aset_last {A} (k : string) (a a' : A) (d : list (string * A)) :
  alookup k d = None -> aset k a' (d ++ [(k, a)]) = (d ++ [(k, a')])%list.
Proof.
  induction d as [|[k0 a0] d IH]; simpl.
  - now rewrite String.eqb_refl.
  - destruct (String.eqb k k0); [discriminate|]. intros H. now rewrite IH.
Qed.

Lemma alookup_last {A} (k : string) (a : A) (d : list (string * A)) :
  alookup k d = None -> alookup k (d ++ [(k, a)]) = Some a.
Proof.
  induction d as [|[k0 a0] d IH]; simpl.
  - now rewrite String.eqb_refl.
  - destruct (String.eqb k k0); [discriminate | exact IH].
Qed.

Lemma alookup_app_none {A} (k : string) (d e : list (string * A)) :
  alookup k (d ++ e) = None <-> alookup k d = None /\ alookup k e = None.
Proof.
  induction d as [|[k0 a0] d IH]; simpl.
  - tauto.
  - destruct (String.eqb k k0); [|exact IH]. split; [discriminate|].
    intros [H _]. discriminate.
Qed.

Lemma alookup_none_not_in {A} (k : string) (d : list (string * A)) :
  alookup k d = None <-> ~ In k (map fst d).
Proof.
  induction d as [|[k0 a0] d IH]; simpl.
  - tauto.
  - destruct (String.eqb_spec k k0) as [->|Hne].
    + split; [discriminate | intros H; exfalso; auto].
    + rewrite IH. split; [intros H [E|E]; auto; congruence | tauto].
Qed.

(** *** The options of a section *)

(** What [as_config] sets in a section: a key with its escaped value and
    perhaps a comment, or, for a key that is not set, a line that starts
    with a semicolon. *)
Inductive written_option : string * string -> Prop :=
| Written_set k e t :
    good_key k = true -> good_escaped e = true -> comment_tail t ->
    written_option (k, e ++ t)
| Written_default k v :
    starts_with_any k "#;" = true -> all_chars not_newline k = true ->
    all_chars not_newline v = true -> written_option (k, v).

(** What the reader keeps of an option. *)
Definition keep (kv : string * string) : list (string * string) :=
  if starts_with_any (fst kv) "#;" then []
  else [(fst kv, Text.strip (strip_inline_comment (snd kv)))].

Definition reread_options (opts : list (string * string))
  : list (string * string) :=
  flat_map keep opts.

Definition option_line (kv : string * string) : string :=
  fst kv ++ " = " ++ snd kv ++ nl.

Definition as_lines (o : list (string * string)) : list (string * list string) :=
  map (fun kv => (fst kv, [snd kv])) o.

Lemma good_key_not_comment (k : string) :
  good_key k = true -> starts_with_any k "#;" = false.
Proof.
  unfold good_key. intros H. repeat (apply andb_true_iff in H as [H ?]).
  destruct k as [|c k]; [reflexivity|]. simpl in H.
  apply andb_true_iff in H as [Hc _].
  now destruct (key_char_plain c Hc) as [_ [_ [? _]]].
Qed.

Lemma keep_written_set (k e t : string) :
  good_key k = true -> good_escaped e = true -> comment_tail t ->
  keep (k, e ++ t) = [(k, e)].
Proof.
  intros Hk He Ht. unfold keep. cbn [fst snd].
  now rewrite (good_key_not_comment k Hk), read_value_back.
Qed.

Lemma read_written_options (name : string)
      (prev : list (string * list (string * list string))) :
  alookup name prev = None ->
  forall (opts : list (string * string)) (done : list (string * list string))
         (optname : option string),
    Forall written_option opts ->
    NoDup (map fst done ++ map fst (reread_options opts))%list ->
    exists optname',
      read_lines (Reading [] (prev ++ [(name, done)])%list (Some (Some name))
                          optname false)
                 (map option_line opts)
      = Ok (Reading []
                    (prev ++ [(name, (done ++ as_lines (reread_options opts))%list)])%list
                    (Some (Some name)) optname' false).
Proof.
  intros Hname. induction opts as [|kv opts IH]; intros done optname Hw Hnd.
  - exists optname. simpl. now rewrite app_nil_r.
  - inversion Hw as [|kv' opts' Hkv Hrest]; subst.
    destruct Hkv as [k e t Hk He Ht | k v Hc Hkn Hvn].
    + cbn [map read_lines]. unfold option_line at 1. cbn [fst snd].
      replace (k ++ " = " ++ (e ++ t) ++ nl) with (k ++ " = " ++ e ++ t ++ nl)
        by (now rewrite (append_assoc e t nl)).
      rewrite (read_option_line
                 (Reading [] (prev ++ [(name, done)])%list (Some (Some name))
                          optname false)
                 (Some name) k e t Hk He Ht eq_refl).
      cbn [bind]. unfold set_cur_options, cur_options.
      cbn [r_sections r_defaults r_cursect r_error].
      rewrite (alookup_last name done prev Hname).
      unfold reread_options in *. cbn [flat_map] in *.
      rewrite (keep_written_set k e t Hk He Ht) in *.
      cbn [List.app map fst] in Hnd.
      assert (Hfresh : alookup k done = None).
      { apply alookup_none_not_in. intros Hin.
        apply NoDup_remove_2 in Hnd. apply Hnd.
        apply in_or_app. now left. }
      rewrite (aset_fresh k [e] done Hfresh), (aset_last name _ _ prev Hname).
      destruct (IH (done ++ [(k, [e])])%list (Some k) Hrest) as [o' Ho'].
      { rewrite map_app. cbn [map fst]. now rewrite <- app_assoc. }
      exists o'. rewrite Ho'. cbn [List.app as_lines map fst snd].
      now rewrite <- app_assoc.
    + cbn [map read_lines]. rewrite read_comment_line.
      * cbn [bind]. unfold reread_options in *. cbn [flat_map] in *.
        unfold keep at 1 in Hnd. unfold keep at 1. cbn [fst] in *.
        rewrite Hc in *. cbn [List.app] in *. now apply IH.
      * unfold option_line. cbn [fst]. destruct k; [discriminate | exact Hc].
Qed.

(** *** A section and a file *)

Lemma concat_cons (x : string) (xs : list string) :
  String.concat "" (x :: xs) = x ++ String.concat "" xs.
Proof.
  destruct xs as [|y ys]; simpl; [now rewrite append_nil_r | reflexivity].
Qed.

Lemma indent_no_newline (v : string) :
  all_chars not_newline v = true -> indent_newlines v = v.
Proof.
  induction v as [|c v IH]; simpl; [reflexivity|].
  intros H. apply andb_true_iff in H as [Hc Hv].
  unfold not_newline in Hc. apply negb_true_iff in Hc.
  now rewrite Hc, IH.
Qed.

Lemma written_option_no_newline (kv : string * string) :
  written_option kv ->
  all_chars not_newline (fst kv) = true /\ all_chars not_newline (snd kv) = true.
Proof.
  intros [k e t Hk He Ht | k v Hc Hkn Hvn]; cbn [fst snd]; [|auto].
  unfold good_key in Hk. repeat (apply andb_true_iff in Hk as [Hk ?]).
  unfold good_escaped in He. repeat (apply andb_true_iff in He as [He ?]).
  split; [now apply key_no_newline|].
  rewrite all_chars_app, (escaped_no_newline e He).
  now rewrite (comment_tail_no_newline t Ht).
Qed.

Lemma written_option_not_name (kv : string * string) :
  written_option kv -> String.eqb (fst kv) "__name__" = false.
Proof.
  intros [k e t Hk He Ht | k v Hc Hkn Hvn]; cbn [fst].
  - unfold good_key in Hk. repeat (apply andb_true_iff in Hk as [Hk ?]).
    now apply negb_true_iff.
  - destruct (String.eqb_spec k "__name__") as [->|]; [discriminate|reflexivity].
Qed.

Lemma write_option_written (kv : string * string) :
  written_option kv -> write_option kv = option_line kv.
Proof.
  intros H. unfold write_option, option_line.
  rewrite (written_option_not_name kv H).
  destruct (written_option_no_newline kv H) as [_ Hv].
  now rewrite indent_no_newline.
Qed.

Lemma readlines_options (opts : list (string * string)) (rest : string) :
  Forall written_option opts ->
  readlines (String.concat "" (map write_option opts) ++ rest)
  = (map option_line opts ++ readlines rest)%list.
Proof.
  induction 1 as [|kv opts Hkv Hrest IH]; [reflexivity|].
  cbn [map]. rewrite concat_cons, (write_option_written kv Hkv).
  destruct (written_option_no_newline kv Hkv) as [Hk Hv].
  unfold option_line at 1.
  replace (((fst kv ++ " = " ++ snd kv ++ nl)
            ++ String.concat "" (map write_option opts)) ++ rest)
    with ((fst kv ++ " = " ++ snd kv) ++ nl
          ++ (String.concat "" (map write_option opts) ++ rest))
    by (now rewrite !append_assoc).
  rewrite readlines_line, IH.
  - cbn [List.app]. unfold option_line at 2. now rewrite !append_assoc.
  - now rewrite !all_chars_app, Hk, Hv.
Qed.

Definition section_lines (name : string) (opts : list (string * string))
  : list string :=
  ("[" ++ name ++ "]" ++ nl) :: (map option_line opts ++ [nl])%list.

Lemma header_no_newline (h : string) :
  good_header h = true -> all_chars not_newline h = true.
Proof.
  unfold good_header. intros H. repeat (apply andb_true_iff in H as [H ?]).
  apply all_chars_imp with (p := header_char); [|exact H].
  intros c Hc. unfold header_char in Hc. now apply andb_true_iff in Hc as [_ ?].
Qed.

Lemma readlines_section (name : string) (opts : list (string * string))
      (rest : string) :
  good_header name = true -> Forall written_option opts ->
  readlines (write_section (name, ("__name__", name) :: opts) ++ rest)
  = (section_lines name opts ++ readlines rest)%list.
Proof.
  intros Hh Hw.
  assert (E : write_section (name, ("__name__", name) :: opts) ++ rest
              = ("[" ++ name ++ "]") ++ nl
                ++ (String.concat "" (map write_option opts) ++ (nl ++ rest))).
  { unfold write_section. cbn [fst snd map]. rewrite concat_cons.
    change (write_option ("__name__", name)) with "".
    cbn [String.append]. rewrite !append_assoc.
    cbn [String.append]. now rewrite !append_assoc. }
  rewrite E, readlines_line.
  - rewrite readlines_options by assumption.
    change (nl ++ rest) with ("" ++ nl ++ rest).
    rewrite readlines_line by reflexivity.
    unfold section_lines. cbn [List.app String.append].
    rewrite <- app_assoc. now rewrite !append_assoc.
  - rewrite !all_chars_app, (header_no_newline name Hh). reflexivity.
Qed.

(** A section as [as_config] leaves it in the parser: the entry
    [__name__] that [add_section] made, then the options set. *)
Definition good_section (sec : string * list (string * string)) : Prop :=
  good_header (fst sec) = true
  /\ exists opts,
      snd sec = ("__name__", fst sec) :: opts
      /\ Forall written_option opts
      /\ NoDup (map fst (reread_options opts)).

(** The section as the reader has it after reading what was written. *)
Definition reread_section (sec : string * list (string * string))
  : string * list (string * string) :=
  (fst sec,
   match snd sec with
   | o :: opts => o :: reread_options opts
   | [] => []
   end).

Lemma reread_keys_not_name (opts : list (string * string)) :
  Forall written_option opts ->
  ~ In "__name__" (map fst (reread_options opts)).
Proof.
  induction 1 as [|kv opts Hkv Hrest IH]; [auto|].
  unfold reread_options in *. cbn [flat_map]. rewrite map_app.
  intros Hin. apply in_app_or in Hin as [Hin|Hin]; [|auto].
  unfold keep in Hin. destruct (starts_with_any (fst kv) "#;"); [easy|].
  destruct Hin as [Hin|[]]. cbn [fst] in Hin.
  apply written_option_not_name in Hkv. rewrite Hin in Hkv. discriminate.
Qed.

Lemma amem_false {A} (k : string) (d : list (string * A)) :
  alookup k d = None -> amem k d = false.
Proof. unfold amem. now intros ->. Qed.

Lemma read_section_lines (prev : list (string * list (string * list string)))
      (cur0 : option (option string)) (opt0 : option string)
      (name : string) (opts : list (string * string)) :
  good_header name = true -> alookup name prev = None ->
  Forall written_option opts -> NoDup (map fst (reread_options opts)) ->
  exists o',
    read_lines (Reading [] prev cur0 opt0 false) (section_lines name opts)
    = Ok (Reading []
            (prev ++ [(name, ("__name__", [name])
                               :: as_lines (reread_options opts))])%list
            (Some (Some name)) o' false).
Proof.
  intros Hh Hname Hw Hnd. unfold section_lines. cbn [read_lines].
  rewrite read_header_line by (auto using amem_false).
  cbn [bind r_defaults r_sections r_error]. rewrite read_lines_app.
  destruct (read_written_options name prev Hname opts
              [("__name__", [name])] None Hw) as [o' Ho'].
  { cbn [map fst List.app]. constructor; [|exact Hnd].
    now apply reread_keys_not_name. }
  rewrite Ho'. cbn [bind read_lines]. rewrite read_blank_line. cbn [bind].
  now exists o'.
Qed.

Definition reread_lines (sec : string * list (string * string))
  : string * list (string * list string) :=
  (fst sec, as_lines (snd (reread_section sec))).

Lemma read_sections (secs : list (string * list (string * string))) :
  Forall good_section secs ->
  forall prev cur0 opt0,
    NoDup (map fst prev ++ map fst secs)%list ->
    exists c' o',
      read_lines (Reading [] prev cur0 opt0 false)
                 (readlines (String.concat "" (map write_section secs)))
      = Ok (Reading [] (prev ++ map reread_lines secs)%list c' o' false).
Proof.
  induction 1 as [|sec secs Hsec Hrest IH]; intros prev cur0 opt0 Hnd.
  - exists cur0, opt0. simpl. now rewrite app_nil_r.
  - destruct sec as [name o]. destruct Hsec as [Hh [opts [Ho [Hw Hk]]]].
    cbn [fst snd] in *. subst o.
    cbn [map]. rewrite concat_cons, readlines_section by assumption.
    rewrite read_lines_app.
    assert (Hname : alookup name prev = None).
    { apply alookup_none_not_in. cbn [map fst] in Hnd.
      apply NoDup_remove_2 in Hnd. intros Hin. apply Hnd.
      apply in_or_app. now left. }
    destruct (read_section_lines prev cur0 opt0 name opts Hh Hname Hw Hk)
      as [o' Ho'].
    rewrite Ho'. cbn [bind].
    destruct (IH (prev ++ [(name, ("__name__", [name])
                                    :: as_lines (reread_options opts))])%list
                 (Some (Some name)) o') as [c2 [o2 H2]].
    { rewrite map_app. cbn [map fst]. rewrite <- app_assoc. exact Hnd. }
    exists c2, o2. rewrite H2. rewrite <- app_assoc. reflexivity.
Qed.

Lemma join_as_lines (o : list (string * string)) : join_lines (as_lines o) = o.
Proof.
  unfold join_lines, as_lines.
  induction o as [|[k v] o IH]; simpl; [reflexivity | now rewrite IH].
Qed.

(** Reading what [write] wrote gives the sections back, each with its
    options in the order they were set, the value of each the escaped
    text without its comment; the commented-out defaults are gone. *)
Lemma readfp_write (p : parser) :
  p_defaults p = [] ->
  Forall good_section (p_sections p) ->
  NoDup (map fst (p_sections p)) ->
  readfp (write p) = Ok (Parser [] (map reread_section (p_sections p))).
Proof.
  intros Hd Hs Hnd. unfold readfp, write. rewrite Hd. cbn [String.append].
  destruct (read_sections (p_sections p) Hs [] None None Hnd) as [c' [o' H]].
  rewrite H. cbn [bind r_error r_defaults r_sections List.app].
  f_equal. f_equal. rewrite map_map.
  apply map_ext. intros sec. unfold reread_lines. cbn [fst snd].
  now rewrite join_as_lines.
Qed.

(** ** Serializing and loading again (C1) *)

(** A rule set with one flag. *)
Definition flag_rules : rules :=
  [("flag", Rule "A flag" CkBool (DScalar (SBool false)))].

Definition flag_dict (d : list (string * value)) : value :=
  VCDict (Meta "config" "config" None) flag_rules [] d.


(** *** Escaped values that survive the reader *)

(** A text of two characters or more that starts with a space: the one
    case in which the reader's stripping eats into the escaped value. *)
Definition leading_space (s : string) : bool :=
  match s with
  | String c (String _ _) => Ascii.eqb c " "
  | _ => false
  end.

Lemma hex_char_esc (d : nat) : (d < 16)%nat -> esc_char (hex_char d) = true.
Proof. intros H. do 16 (destruct d as [|d]; [reflexivity|]). lia. Qed.

Lemma quote_esc (s : string) : all_chars esc_char (quote s) = true.
Proof.
  induction s as [|c r IH]; [reflexivity|]. cbn [quote].
  destruct (is_safe c) eqn:Hs.
  - cbn [all_chars]. unfold esc_char at 1. now rewrite Hs, IH.
  - destruct (hex_digits_bounds c) as [Hd Hm]. cbn [all_chars].
    now rewrite !hex_char_esc, IH.
Qed.

Lemma safe_solid_or_space (c : ascii) :
  esc_char c = true -> Text.is_space c = false \/ c = " "%char.
Proof.
  intros H. destruct (Text.is_space c) eqn:E; [|now left].
  right. now apply (esc_char_facts c H).
Qed.

Lemma first_char_app (a b : string) :
  a <> "" -> first_char (a ++ b) = first_char a.
Proof. destruct a; [congruence | reflexivity]. Qed.

Lemma first_char_quote (c : ascii) (r : string) :
  first_char (quote (String c r)) = Some (if is_safe c then c else "%"%char).
Proof. cbn [quote]. now destruct (is_safe c). Qed.

Lemma last_char_none (s : string) : last_char s = None -> s = "".
Proof.
  induction s as [|c s IH]; [reflexivity|]. simpl.
  destruct s; [discriminate | intros H; specialize (IH H); discriminate].
Qed.

Lemma last_char_all (p : ascii -> bool) (s : string) (c : ascii) :
  all_chars p s = true -> last_char s = Some c -> p c = true.
Proof.
  induction s as [|x s IH]; [discriminate|]. simpl.
  intros H. apply andb_true_iff in H as [Hx Hs].
  destruct s; [intros [= <-]; exact Hx | now apply IH].
Qed.

Lemma good_escaped_escape (s : string) :
  s <> "" -> leading_space s = false -> good_escaped (escape_value s) = true.
Proof.
  intros Hne Hlead. unfold good_escaped.
  destruct s as [|c r]; [congruence|].
  pose proof (quote_esc (String c r)) as Hesc.
  pose proof (first_char_quote c r) as Hfirst.
  assert (Hsolid : r <> "" ->
                   Text.is_space (if is_safe c then c else "%"%char) = false).
  { intros Hr. destruct (is_safe c) eqn:Hs; [|reflexivity].
    assert (He : esc_char c = true) by (unfold esc_char; now rewrite Hs).
    destruct (safe_solid_or_space c He) as [Hsp | ->]; [assumption|].
    destruct r; [congruence | discriminate]. }
  unfold escape_value.
  destruct (Text.chop_final_space (quote (String c r))) as [q|] eqn:E.
  - apply chop_final_space_inv in E. rewrite E in Hesc, Hfirst.
    rewrite all_chars_app in Hesc. apply andb_true_iff in Hesc as [Hq _].
    rewrite all_chars_app, Hq. cbn [andb].
    apply andb_true_iff. split.
    + unfold starts_solid. destruct q as [|x q']; [reflexivity|].
      cbn [String.append first_char] in *. injection Hfirst as ->.
      destruct r as [|c' r'].
      * cbn [quote] in E. destruct (is_safe c); [|reflexivity].
        injection E as E. destruct q'; discriminate.
      * rewrite Hsolid by discriminate. reflexivity.
    + unfold ends_solid. rewrite last_char_app. reflexivity.
  - rewrite Hesc. cbn [andb]. apply andb_true_iff. split.
    + unfold starts_solid. rewrite Hfirst.
      destruct r as [|c' r'].
      * cbn [quote] in E. destruct (is_safe c) eqn:Hs; [|reflexivity].
        cbn [Text.chop_final_space] in E.
        destruct (Ascii.eqb_spec c " ") as [->|Hn]; [discriminate|].
        assert (He : esc_char c = true) by (unfold esc_char; now rewrite Hs).
        destruct (safe_solid_or_space c He) as [-> | Hsp]; [reflexivity | congruence].
      * rewrite Hsolid by discriminate. reflexivity.
    + unfold ends_solid. apply chop_final_space_none in E.
      destruct (last_char (quote (String c r))) as [x|] eqn:El.
      * pose proof (last_char_all esc_char _ x Hesc El) as Hx.
        destruct (safe_solid_or_space x Hx) as [-> | ->]; [reflexivity | congruence].
      * apply last_char_none, quote_nil in El. discriminate.
Qed.

(** *** Section names and paths *)

Definition no_char (x : ascii) (s : string) : bool :=
  all_chars (fun c => negb (Ascii.eqb c x)) s.

Lemma split_no_sep (sep : ascii) (s : string) :
  no_char sep s = true -> Text.split sep s = [s].
Proof.
  unfold no_char. induction s as [|c s IH]; [reflexivity|]. simpl.
  intros H. apply andb_true_iff in H as [Hc Hs].
  apply negb_true_iff in Hc. now rewrite Hc, (IH Hs).
Qed.

Lemma split_app_sep (sep : ascii) (a b : string) :
  no_char sep a = true ->
  Text.split sep (a ++ String sep b) = a :: Text.split sep b.
Proof.
  unfold no_char. induction a as [|c a IH]; simpl.
  - now rewrite Ascii.eqb_refl.
  - intros H. apply andb_true_iff in H as [Hc Ha].
    apply negb_true_iff in Hc. now rewrite Hc, (IH Ha).
Qed.

(** The name of the container that the keys [path] lead to from a root
    called [root]: [add_rule] names a child [parent/key]. *)
Definition path_name (root : string) (path : list string) : string :=
  root ++ String.concat "" (map (fun k => "/" ++ k) path).

Lemma path_name_snoc (root : string) (path : list string) (k : string) :
  path_name root (path ++ [k]) = path_name root path ++ "/" ++ k.
Proof.
  unfold path_name. rewrite append_assoc. f_equal.
  induction path as [|x path IH].
  - reflexivity.
  - cbn [List.app map]. rewrite !concat_cons, IH.
    symmetry. apply append_assoc.
Qed.

Lemma split_path (path : list string) :
  Forall (fun k => no_char "/" k = true) path ->
  forall k0, no_char "/" k0 = true ->
  Text.split "/" (k0 ++ String.concat "" (map (fun k => "/" ++ k) path))
  = k0 :: path.
Proof.
  induction 1 as [|k path Hk Hrest IH]; intros k0 H0.
  - simpl. rewrite append_nil_r. now apply split_no_sep.
  - cbn [map]. rewrite concat_cons.
    change (("/" ++ k) ++ String.concat "" (map (fun k => "/" ++ k) path))
      with (String "/" (k ++ String.concat "" (map (fun k => "/" ++ k) path))).
    rewrite split_app_sep by assumption. now rewrite IH.
Qed.

Lemma key_no_char (x : ascii) (k : string) :
  key_char x = false -> all_chars key_char k = true -> no_char x k = true.
Proof.
  intros Hx. apply all_chars_imp. intros c Hc.
  destruct (Ascii.eqb_spec c x) as [->|]; [congruence | reflexivity].
Qed.

(** The path [parse_config] takes from a section name: the name of a
    container, or the name with a comment after a colon. *)
Lemma cfgpath_section (root : string) (path : list string) (tail : string) :
  no_char "/" root = true -> no_char ":" root = true ->
  Forall (fun k => good_key k = true) path ->
  tail = "" \/ (exists cm, tail = ": " ++ cm) ->
  cfgpath (path_name root path ++ tail) = path.
Proof.
  intros Hr1 Hr2 Hp Ht.
  assert (Hkeys : Forall (fun k => all_chars key_char k = true) path).
  { eapply Forall_impl; [|exact Hp]. intros k Hk. unfold good_key in Hk.
    now repeat (apply andb_true_iff in Hk as [Hk ?]). }
  assert (Hcolon : no_char ":" (path_name root path) = true).
  { unfold path_name, no_char. rewrite all_chars_app. fold (no_char ":" root).
    rewrite Hr2. cbn [andb]. clear Hp. induction Hkeys as [|k p Hk Hrest IH].
    - reflexivity.
    - cbn [map]. rewrite concat_cons, !all_chars_app, IH.
      change (all_chars (fun c => negb (Ascii.eqb c ":")) k)
        with (no_char ":" k).
      now rewrite (key_no_char ":" k eq_refl Hk). }
  assert (Hhd : hd "" (Text.split ":" (path_name root path ++ tail))
                = path_name root path).
  { destruct Ht as [-> | [cm ->]].
    - rewrite append_nil_r, split_no_sep by assumption. reflexivity.
    - change (": " ++ cm) with (String ":" (" " ++ cm)).
      now rewrite split_app_sep. }
  unfold cfgpath. rewrite Hhd. unfold path_name. rewrite split_path; auto.
  eapply Forall_impl; [|exact Hkeys]. intros k Hk.
  now apply (key_no_char "/" k eq_refl).
Qed.

(** *** Objects of the tree by their path *)

Lemma aset_aset {A} (k : string) (a b : A) (d : list (string * A)) :
  aset k b (aset k a d) = aset k b d.
Proof.
  induction d as [|[k' a'] d IH]; simpl.
  - now rewrite String.eqb_refl.
  - destruct (String.eqb k k') eqn:E; simpl.
    + now rewrite String.eqb_refl.
    + now rewrite E, IH.
Qed.

Lemma child_put_child (v x y : value) (s : string) :
  child v (KStr s) = Some y -> child (put_child v (KStr s) x) (KStr s) = Some x.
Proof.
  destruct v; simpl; try discriminate; intros _; apply alookup_aset_same.
Qed.

Lemma child_put_child_other (v x : value) (s s' : string) :
  s <> s' -> child (put_child v (KStr s) x) (KStr s') = child v (KStr s').
Proof.
  intros Hne. destruct v; simpl; try reflexivity;
    now apply alookup_aset_other.
Qed.

Lemma put_child_put_child (v x y : value) (s : string) :
  put_child (put_child v (KStr s) x) (KStr s) y = put_child v (KStr s) y.
Proof. destruct v; simpl; try reflexivity; now rewrite aset_aset. Qed.

Lemma at_path_app (v : value) (p q : list pykey) :
  at_path v (p ++ q)
  = match at_path v p with
    | Some x => at_path x q
    | None => None
    end.
Proof.
  revert v. induction p as [|k p IH]; intros v; simpl; [reflexivity|].
  destruct (child v k); [apply IH | reflexivity].
Qed.

Lemma at_put_below (ks : list string) : forall (v x y : value) (q : list pykey),
  at_path v (map KStr ks) = Some y ->
  at_path (put_path v (map KStr ks) x) (map KStr ks ++ q) = at_path x q.
Proof.
  induction ks as [|k ks IH]; intros v x y q H; [reflexivity|].
  cbn [map at_path put_path List.app] in *.
  destruct (child v (KStr k)) as [w|] eqn:E; [|discriminate].
  rewrite (child_put_child v _ w k E). now apply (IH w x y).
Qed.

Lemma at_put_same (ks : list string) (v x y : value) :
  at_path v (map KStr ks) = Some y ->
  at_path (put_path v (map KStr ks) x) (map KStr ks) = Some x.
Proof.
  intros H. rewrite <- (app_nil_r (map KStr ks)) at 2.
  now rewrite (at_put_below ks v x y []).
Qed.

Lemma put_put_below (ks : list string) : forall (v x y z : value) (q : list pykey),
  at_path v (map KStr ks) = Some y ->
  put_path (put_path v (map KStr ks) x) (map KStr ks ++ q) z
  = put_path v (map KStr ks) (put_path x q z).
Proof.
  induction ks as [|k ks IH]; intros v x y z q H; [reflexivity|].
  cbn [map at_path put_path List.app] in *.
  destruct (child v (KStr k)) as [w|] eqn:E; [|discriminate].
  rewrite (child_put_child v _ w k E), put_child_put_child.
  now rewrite (IH w x y z q H).
Qed.

(** The keys [ks] lead through mapping containers. *)
Fixpoint dict_path (v : value) (ks : list string) : Prop :=
  match ks with
  | [] => True
  | k :: r =>
      match v with
      | VCDict _ _ _ d =>
          match alookup k d with
          | Some ch => dict_path ch r
          | None => False
          end
      | _ => False
      end
  end.

Lemma dict_path_at (ks : list string) : forall v,
  dict_path v ks -> exists y, at_path v (map KStr ks) = Some y.
Proof.
  induction ks as [|k ks IH]; intros v H; simpl; [eauto|].
  destruct v; simpl in *; try contradiction.
  destruct (alookup k d) as [ch|]; [|contradiction]. now apply IH.
Qed.

Lemma dict_path_app (ks : list string) : forall v qs,
  dict_path v (ks ++ qs)
  <-> dict_path v ks
      /\ forall y, at_path v (map KStr ks) = Some y -> dict_path y qs.
Proof.
  induction ks as [|k ks IH]; intros v qs; simpl.
  - split; [intros H; split; [exact I | now intros y [= <-]] |].
    intros [_ H]. now apply H.
  - destruct v; simpl; try (split; [contradiction | tauto]).
    destruct (alookup k d) as [ch|]; [apply IH|].
    split; [contradiction | tauto].
Qed.

Lemma dict_path_put (ks : list string) : forall v x,
  dict_path v ks -> dict_path (put_path v (map KStr ks) x) ks.
Proof.
  induction ks as [|k ks IH]; intros v x H; simpl; [exact I|].
  destruct v; simpl in H; try contradiction.
  destruct (alookup k d) as [ch|] eqn:E; [|contradiction].
  simpl. rewrite E. simpl. rewrite alookup_aset_same. now apply IH.
Qed.

Lemma NoDup_app_disjoint {A} (a b : list A) :
  NoDup (a ++ b) -> forall x, In x a -> ~ In x b.
Proof.
  induction a as [|y a IH]; intros H x Hin; [contradiction|].
  cbn [List.app] in H. inversion H as [|y' l Hy Hrest]; subst.
  destruct Hin as [->|Hin]; [|now apply IH].
  intros Hb. apply Hy. apply in_or_app. now right.
Qed.

Section Reload.

Variable X : externs.
(** The nesting bound of the loader's writes, its session and the name
    it gives the text. *)
Variable fuel : nat.
Variable session : bool.
Variable source : string.

Lemma walk_part_dict (section : string) (st : load) (p : list pykey)
      (part : string) m rs a d ch :
  at_path (l_root st) p = Some (VCDict m rs a d) ->
  alookup part d = Some ch ->
  walk_part X fuel session source section st (Here p) part
  = (st, Ok (Here (p ++ [KStr part]))).
Proof.
  intros Hat Hch. unfold walk_part. rewrite Hat.
  cbn [contains]. unfold amem. rewrite Hch.
  unfold descend, getitem, get. rewrite Hch.
  now destruct (key_in_rules (KStr part) rs || _).
Qed.

Lemma walk_dict (section : string) (st : load) (ks : list string) :
  forall (pre : list string) (v : value),
    at_path (l_root st) (map KStr pre) = Some v ->
    dict_path v ks ->
    walk X fuel session source section st (Here (map KStr pre)) ks
    = (st, Ok (Here (map KStr (pre ++ ks)))).
Proof.
  induction ks as [|k ks IH]; intros pre v Hat Hd.
  - simpl. now rewrite app_nil_r.
  - destruct v; simpl in Hd; try contradiction.
    destruct (alookup k d) as [ch|] eqn:E; [|contradiction].
    cbn [walk]. rewrite (walk_part_dict section st _ k m rs attrs d ch Hat E).
    replace (map KStr pre ++ [KStr k])%list with (map KStr (pre ++ [k]))
      by (now rewrite map_app).
    rewrite (IH (pre ++ [k])%list ch).
    + now rewrite <- app_assoc.
    + rewrite map_app, at_path_app, Hat. simpl. now rewrite E.
    + exact Hd.
Qed.

(** *** The trees the round trip is proved for *)

(** A leaf the loader gives back: its text is not empty, does not start
    with a space that other text follows, and passes the checker of its
    rule as the value it came from. *)
Definition good_leaf (r : rule) (v : value) : Prop :=
  py_unicode X v <> ""
  /\ leading_space (py_unicode X v) = false
  /\ passes X (construct X fuel) (rule_checker r) (VStr (py_unicode X v)) v.

Definition good_rule (kr : string * rule) : Prop :=
  good_key (fst kr) = true
  /\ all_chars not_newline (rule_comment (snd kr)) = true.

(** [plain root n path c]: [c] is a mapping container at the keys [path]
    under a root called [root], of depth [n] at most; it and the
    containers below it are named after their path, their section names
    read as headers, their keys are good keys, all listed in their rules,
    and without a wildcard; every value they hold is a good leaf or a
    container of the same kind, and every key they do not hold has a
    scalar default. *)
Inductive plain (root : string) : nat -> list string -> value -> Prop :=
| Plain_dict n path m rs attrs d :
    Forall (fun k => good_key k = true) path ->
    m_name m = path_name root path ->
    good_header (section_of (VCDict m rs attrs d)) = true ->
    Forall good_rule rs ->
    NoDup (map fst rs) ->
    (forall k, alookup k rs = None -> alookup k d = None) ->
    (forall k r v, alookup k rs = Some r -> alookup k d = Some v ->
                   is_scalar v = true -> good_leaf r v) ->
    (forall k v, alookup k d = Some v -> is_scalar v = false ->
                 plain root n (path ++ [k]) v) ->
    (forall k r, alookup k rs = Some r -> alookup k d = None ->
                 exists s, rule_default r = DScalar s) ->
    plain root (S n) path (VCDict m rs attrs d).

(** [blank c c0]: [c0] is [c] before any leaf was set, the tree that the
    rules alone make. *)
Inductive blank : value -> value -> Prop :=
| Blank_dict m rs attrs attrs0 d d0 :
    (forall k v0, alookup k d0 = Some v0 ->
                  exists v, alookup k d = Some v /\ is_scalar v = false
                            /\ blank v v0) ->
    (forall k v, alookup k d = Some v -> is_scalar v = false ->
                 exists v0, alookup k d0 = Some v0 /\ blank v v0) ->
    blank (VCDict m rs attrs d) (VCDict m rs attrs0 d0).

(** *** What [as_config] sets for one container *)

(** The value [cecp_set] stores: the escaped text, and the comment after
    padding and a semicolon when there is one. *)
Definition with_comment (key e comment : string) : string :=
  if String.eqb comment "" then e
  else e ++ Text.spaces (25 - Text.len key - Text.len e) ++ " ; " ++ comment.

(** The option [emit_leaf] sets for the key [k] of a plain container, if
    it sets one. *)
Definition leaf_option (c : value) (k : string) : list (string * string) :=
  match alookup k (rules_of c) with
  | None => []
  | Some r =>
      match alookup k (dict_data c) with
      | Some v =>
          if is_scalar v
          then [(k, with_comment k (escape_value (py_unicode X v))
                                 (rule_comment r))]
          else []
      | None =>
          let text := py_unicode X (default_value (rule_default r)) in
          if String.eqb text "" then []
          else [(";" ++ k,
                 with_comment (";" ++ k) (escape_value text)
                              ("(default) " ++ rule_comment r))]
      end
  end.

(** The parser with the section of the container as far as it is
    written: not there before the first option, last afterwards. *)
Definition with_section (p0 : parser) (sec : string)
           (o : option (list (string * string))) : parser :=
  match o with
  | None => p0
  | Some opts =>
      Parser (p_defaults p0)
             (p_sections p0 ++ [(sec, ("__name__", sec) :: opts)])
  end.

Definition extend_opts (o : option (list (string * string)))
           (nw : list (string * string)) : option (list (string * string)) :=
  match nw with
  | [] => o
  | _ => Some (match o with Some opts => opts ++ nw | None => nw end)%list
  end.

Definition is_some {A} (o : option A) : bool :=
  match o with Some _ => true | None => false end.

Lemma good_header_facts (sec : string) :
  good_header sec = true ->
  String.eqb (Text.lower sec) "default" = false
  /\ String.eqb sec "" = false /\ String.eqb sec "DEFAULT" = false.
Proof.
  unfold good_header. intros H. repeat (apply andb_true_iff in H as [H ?]).
  repeat match goal with H : negb _ = true |- _ => apply negb_true_iff in H end.
  repeat split; auto.
  destruct (String.eqb_spec sec "DEFAULT") as [->|]; [discriminate|reflexivity].
Qed.

Lemma cecp_set_last (dfl : list (string * string))
      (secs : list (string * list (string * string)))
      (sec : string) (opts : list (string * string))
      (key text comment : string) :
  good_header sec = true -> alookup sec secs = None ->
  Text.lower key = key -> alookup key opts = None ->
  cecp_set (Parser dfl (secs ++ [(sec, opts)])) sec key text comment
  = Ok (Parser dfl
          (secs ++ [(sec, opts ++ [(key, with_comment key (escape_value text)
                                                      comment)])])%list).
Proof.
  intros Hh Hsec Hlow Hkey.
  destruct (good_header_facts sec Hh) as [_ [He Hd]].
  unfold cecp_set, raw_set. rewrite He, Hd. cbn [orb p_sections p_defaults].
  rewrite (alookup_last sec opts secs Hsec), Hlow.
  rewrite (aset_fresh key _ opts Hkey), (aset_last sec _ _ secs Hsec).
  reflexivity.
Qed.

Lemma add_section_new (p : parser) (sec : string) :
  good_header sec = true -> alookup sec (p_sections p) = None ->
  add_section p sec
  = Ok (Parser (p_defaults p) (p_sections p ++ [(sec, [("__name__", sec)])])).
Proof.
  intros Hh Hsec. destruct (good_header_facts sec Hh) as [Hl _].
  unfold add_section. now rewrite Hl, (amem_false sec _ Hsec).
Qed.

Lemma hasattr_as_config (v : value) (k : kind) :
  kind_of v = Some k -> hasattr v "as_config" = true.
Proof.
  destruct v; simpl; try discriminate; intros _;
    unfold hasattr, getattr, plain_attr; cbn [String.eqb Ascii.eqb Bool.eqb];
    destruct (alookup "as_config" attrs); reflexivity.
Qed.

Lemma existsb_akeys {A} (k : string) (d : list (string * A)) :
  existsb (String.eqb k) (akeys d) = amem k d.
Proof.
  unfold amem, akeys. induction d as [|[k' a] d IH]; simpl; [reflexivity|].
  destruct (String.eqb k k'); [reflexivity | exact IH].
Qed.

Lemma is_scalar_of_scalar (s : scalar) : is_scalar (of_scalar s) = true.
Proof. now destruct s. Qed.

Section Emit.

Variables (m : meta) (rs : rules) (attrs d : list (string * value)).
Let c := VCDict m rs attrs d.
Let sec := section_of c.
Hypothesis sec_good : good_header sec = true.
Variable p0 : parser.
Hypothesis sec_new : alookup sec (p_sections p0) = None.
Hypothesis leaves_have_text :
  forall k v, alookup k d = Some v -> is_scalar v = true -> py_unicode X v <> "".
Hypothesis children_are_containers :
  forall k v, alookup k d = Some v -> is_scalar v = false -> kind_of v <> None.
Hypothesis unset_have_scalar_default :
  forall k r, alookup k rs = Some r -> alookup k d = None ->
              exists s, rule_default r = DScalar s.

Definition opts_of (o : option (list (string * string))) : list (string * string) :=
  match o with Some opts => opts | None => [] end.

Lemma set_into_section (o : option (list (string * string)))
      (key text comment : string) :
  Text.lower key = key ->
  alookup key (("__name__", sec) :: opts_of o) = None ->
  (p1 <- (if is_some o then Ok (with_section p0 sec o)
          else add_section (with_section p0 sec o) sec) ;;
   p2 <- cecp_set p1 sec key text comment ;; Ok (p2, true))
  = Ok (with_section p0 sec
          (Some (opts_of o ++ [(key, with_comment key (escape_value text)
                                                  comment)])%list),
        true).
Proof.
  intros Hlow Hfresh. destruct o as [opts|]; cbn [is_some with_section opts_of].
  - cbn [bind].
    rewrite (cecp_set_last (p_defaults p0) (p_sections p0) sec
               (("__name__", sec) :: opts) key text comment sec_good sec_new
               Hlow Hfresh).
    reflexivity.
  - rewrite (add_section_new p0 sec sec_good sec_new). cbn [bind].
    rewrite (cecp_set_last (p_defaults p0) (p_sections p0) sec
               [("__name__", sec)] key text comment sec_good sec_new
               Hlow Hfresh).
    reflexivity.
Qed.

Lemma emit_leaf_step (o : option (list (string * string))) (k : string)
      (r : rule) :
  alookup k rs = Some r -> good_key k = true ->
  (forall kv, In kv (leaf_option c k) ->
              alookup (fst kv) (("__name__", sec) :: opts_of o) = None) ->
  emit_leaf X c (with_section p0 sec o, is_some o) k
  = Ok (with_section p0 sec (extend_opts o (leaf_option c k)),
        is_some (extend_opts o (leaf_option c k))).
Proof.
  intros Hr Hk Hfresh.
  assert (Hlow : Text.lower k = k).
  { apply lower_key. unfold good_key in Hk.
    now repeat (apply andb_true_iff in Hk as [Hk ?]). }
  unfold emit_leaf, leaf_option in *.
  change (rules_of c) with rs in *. change (dict_data c) with d in *.
  change (keys_of X c) with (akeys d). change (section_of c) with sec.
  cbn [fst snd]. rewrite existsb_akeys. unfold amem.
  replace (getitem c (KStr k))
    with (Ok (A := value)
             match alookup k d with
             | Some v => v
             | None => default_value (rule_default r)
             end)
    by (unfold c, getitem, get; cbn [key_in_rules]; unfold amem;
        rewrite Hr; cbn [orb]; now destruct (alookup k d)).
  rewrite Hr in *. cbn [bind].
  destruct (alookup k d) as [v|] eqn:Ed.
  - destruct (is_scalar v) eqn:Es.
    + rewrite (hasattr_scalar v _ Es).
      destruct (String.eqb_spec (py_unicode X v) "") as [E|_];
        [now apply (leaves_have_text k v Ed Es) in E|].
      rewrite (set_into_section o k (py_unicode X v) (rule_comment r) Hlow).
      * cbn [extend_opts is_some]. now destruct o.
      * refine (Hfresh (k, _) _). left. reflexivity.
    + destruct (kind_of v) as [kd|] eqn:Ek;
        [|now apply (children_are_containers k v Ed Es) in Ek].
      rewrite (hasattr_as_config v kd Ek). reflexivity.
  - destruct (unset_have_scalar_default k r Hr Ed) as [s Hs].
    rewrite Hs in *. cbn [default_value] in *.
    rewrite (hasattr_scalar _ _ (is_scalar_of_scalar s)).
    destruct (String.eqb (py_unicode X (of_scalar s)) "") eqn:Et;
      [reflexivity|].
    rewrite (set_into_section o (";" ++ k) (py_unicode X (of_scalar s))
               ("(default) " ++ rule_comment r)).
    + cbn [extend_opts is_some]. now destruct o.
    + cbn [String.append Text.lower]. now rewrite Hlow.
    + refine (Hfresh (";" ++ k, _) _). left. reflexivity.
Qed.

Lemma opts_of_extend (o : option (list (string * string)))
      (nw : list (string * string)) :
  opts_of (extend_opts o nw) = (opts_of o ++ nw)%list.
Proof.
  destruct nw; simpl; [now rewrite app_nil_r|]. now destruct o.
Qed.

Lemma extend_extend (o : option (list (string * string)))
      (a b : list (string * string)) :
  extend_opts (extend_opts o a) b = extend_opts o (a ++ b).
Proof.
  destruct a as [|x a]; [reflexivity|].
  destruct b as [|y b]; cbn [extend_opts List.app].
  - now rewrite app_nil_r.
  - destruct o; cbn; now rewrite <- ?app_assoc.
Qed.

Lemma emit_leaves_steps (ks : list string) :
  forall o : option (list (string * string)),
    Forall (fun k => good_key k = true /\ alookup k rs <> None) ks ->
    NoDup (map fst (("__name__", sec) :: opts_of o)
           ++ map fst (flat_map (leaf_option c) ks))%list ->
    emit_leaves X c (with_section p0 sec o, is_some o) ks
    = Ok (with_section p0 sec (extend_opts o (flat_map (leaf_option c) ks)),
          is_some (extend_opts o (flat_map (leaf_option c) ks))).
Proof.
  induction ks as [|k ks IH]; intros o Hks Hnd; [reflexivity|].
  inversion Hks as [|k' ks' [Hk Hin] Hrest]; subst.
  destruct (alookup k rs) as [r|] eqn:Hr; [|congruence].
  cbn [emit_leaves flat_map] in *.
  rewrite (emit_leaf_step o k r Hr Hk).
  - cbn [bind]. rewrite IH; auto.
    + now rewrite extend_extend.
    + rewrite opts_of_extend. rewrite !map_app in *.
      cbn [map fst List.app] in *. rewrite !map_app, <- !app_assoc.
      exact Hnd.
  - intros kv Hkv. apply alookup_none_not_in. intros Hmem.
    rewrite map_app in Hnd.
    apply (NoDup_app_disjoint _ _ Hnd (fst kv) Hmem).
    apply in_or_app. left. now apply in_map.
Qed.

End Emit.

(** *** The options written are options the reader reads *)

Lemma escape_value_esc (s : string) : all_chars esc_char (escape_value s) = true.
Proof.
  unfold escape_value. pose proof (quote_esc s) as H.
  destruct (Text.chop_final_space (quote s)) as [q|] eqn:E; [|exact H].
  apply chop_final_space_inv in E. rewrite E, all_chars_app in H.
  apply andb_true_iff in H as [Hq _]. now rewrite all_chars_app, Hq.
Qed.

Lemma with_comment_tail (key e cm : string) :
  all_chars not_newline cm = true ->
  exists t, with_comment key e cm = e ++ t /\ comment_tail t.
Proof.
  intros Hcm. unfold with_comment. destruct (String.eqb cm "").
  - exists "". split; [now rewrite append_nil_r | constructor].
  - eexists. split; [reflexivity | now constructor].
Qed.

(** The item the loader gets for the key [k]: the escaped text of the
    leaf that is set there. *)
Definition set_item (c : value) (k : string) : list (string * string) :=
  match alookup k (rules_of c), alookup k (dict_data c) with
  | Some _, Some v =>
      if is_scalar v then [(k, escape_value (py_unicode X v))] else []
  | _, _ => []
  end.

Lemma Forall_alookup {A} (P : string * A -> Prop) (l : list (string * A))
      (k : string) (a : A) :
  Forall P l -> alookup k l = Some a -> P (k, a).
Proof.
  induction 1 as [|[k' a'] l' Hka Hrest IH]; [discriminate|].
  simpl. destruct (String.eqb_spec k k') as [->|]; [|exact IH].
  now intros [= <-].
Qed.

Section Options.

Variables (m : meta) (rs : rules) (attrs d : list (string * value)).
Let c := VCDict m rs attrs d.
Hypothesis rules_good : Forall good_rule rs.
Hypothesis leaves_good :
  forall k r v, alookup k rs = Some r -> alookup k d = Some v ->
                is_scalar v = true -> good_leaf r v.

Lemma rule_is_good (k : string) (r : rule) :
  alookup k rs = Some r -> good_rule (k, r).
Proof. now apply Forall_alookup. Qed.

Lemma leaf_option_written (k : string) :
  Forall written_option (leaf_option c k).
Proof.
  unfold leaf_option. change (rules_of c) with rs. change (dict_data c) with d.
  destruct (alookup k rs) as [r|] eqn:Hr; [|constructor].
  destruct (rule_is_good k r Hr) as [Hk Hcm]. cbn [fst snd] in *.
  destruct (alookup k d) as [v|] eqn:Ed.
  - destruct (is_scalar v) eqn:Es; [|constructor].
    destruct (leaves_good k r v Hr Ed Es) as [Hne [Hlead _]].
    destruct (with_comment_tail k (escape_value (py_unicode X v))
                (rule_comment r) Hcm) as [t [-> Ht]].
    constructor; [|constructor].
    apply Written_set; auto. now apply good_escaped_escape.
  - destruct (String.eqb (py_unicode X (default_value (rule_default r))) "");
      constructor; [|constructor].
    apply Written_default.
    + reflexivity.
    + unfold good_key in Hk. repeat (apply andb_true_iff in Hk as [Hk ?]).
      cbn [String.append all_chars]. now rewrite (key_no_newline k Hk).
    + unfold with_comment.
      destruct (String.eqb ("(default) " ++ rule_comment r) "").
      * apply escaped_no_newline, escape_value_esc.
      * rewrite !all_chars_app.
        rewrite (escaped_no_newline _ (escape_value_esc _)).
        rewrite spaces_chars by reflexivity. cbn [andb].
        cbn [String.append all_chars]. now rewrite Hcm.
Qed.

Lemma leaf_option_reread (k : string) :
  reread_options (leaf_option c k) = set_item c k.
Proof.
  unfold leaf_option, set_item, reread_options.
  change (rules_of c) with rs. change (dict_data c) with d.
  destruct (alookup k rs) as [r|] eqn:Hr; [|reflexivity].
  destruct (rule_is_good k r Hr) as [Hk Hcm]. cbn [fst snd] in *.
  destruct (alookup k d) as [v|] eqn:Ed.
  - destruct (is_scalar v) eqn:Es; [|reflexivity].
    destruct (leaves_good k r v Hr Ed Es) as [Hne [Hlead _]].
    destruct (with_comment_tail k (escape_value (py_unicode X v))
                (rule_comment r) Hcm) as [t [-> Ht]].
    cbn [flat_map]. rewrite keep_written_set; auto.
    now apply good_escaped_escape.
  - now destruct (String.eqb (py_unicode X (default_value (rule_default r))) "").
Qed.

Lemma leaf_option_keys (k x : string) :
  In x (map fst (leaf_option c k)) -> x = k \/ x = ";" ++ k.
Proof.
  unfold leaf_option.
  destruct (alookup k (rules_of c)) as [r|]; [|contradiction].
  destruct (alookup k (dict_data c)) as [v|].
  - destruct (is_scalar v); [|contradiction]. intros [<-|[]]. now left.
  - destruct (String.eqb _ ""); [contradiction|]. intros [<-|[]]. now right.
Qed.

Lemma leaf_option_one (k : string) : NoDup (map fst (leaf_option c k)).
Proof.
  unfold leaf_option.
  destruct (alookup k (rules_of c)) as [r|]; [|constructor].
  destruct (alookup k (dict_data c)) as [v|].
  - destruct (is_scalar v); repeat constructor. intros [].
  - destruct (String.eqb _ ""); repeat constructor. intros [].
Qed.

Lemma good_key_first (k k' : string) :
  good_key k = true -> k <> ";" ++ k'.
Proof.
  intros Hk ->. apply good_key_not_comment in Hk. discriminate.
Qed.

Lemma leaf_options_nodup (ks : list string) :
  NoDup ks -> Forall (fun k => good_key k = true) ks ->
  NoDup (map fst (flat_map (leaf_option c) ks))
  /\ ~ In "__name__" (map fst (flat_map (leaf_option c) ks))
  /\ forall x, In x (map fst (flat_map (leaf_option c) ks)) ->
               exists k, In k ks /\ (x = k \/ x = ";" ++ k).
Proof.
  induction 1 as [|k ks Hk Hnd IH]; intros Hg.
  - repeat split; [constructor | auto | intros x []].
  - inversion Hg as [|k' ks' Hgk Hgrest]; subst.
    destruct (IH Hgrest) as [IH1 [IH2 IH3]].
    cbn [flat_map]. rewrite map_app. repeat split.
    + apply NoDup_app; [apply leaf_option_one | exact IH1 |].
      intros x Hx Hx'. apply leaf_option_keys in Hx.
      destruct (IH3 x Hx') as [k2 [Hin2 Hx2]].
      assert (Hg2 : good_key k2 = true)
        by (rewrite Forall_forall in Hgrest; now apply Hgrest).
      destruct Hx as [->| ->]; destruct Hx2 as [E|E].
      * subst. contradiction.
      * now apply (good_key_first k k2).
      * symmetry in E. now apply (good_key_first k2 k).
      * injection E as E. subst. contradiction.
    + intros Hin. apply in_app_or in Hin as [Hin|Hin]; [|auto].
      apply leaf_option_keys in Hin. destruct Hin as [E|E].
      * subst k. unfold good_key in Hgk.
        repeat (apply andb_true_iff in Hgk as [Hgk ?]). discriminate.
      * discriminate.
    + intros x Hx. apply in_app_or in Hx as [Hx|Hx].
      * exists k. split; [now left | now apply leaf_option_keys].
      * destruct (IH3 x Hx) as [k2 [Hin2 Hx2]]. exists k2. split; auto.
        now right.
Qed.

End Options.

(** *** The items of a section that was read back *)

Lemma fold_aset_fresh (opts acc : list (string * string)) :
  NoDup (map fst acc ++ map fst opts) ->
  fold_left (fun d kv => aset (fst kv) (snd kv) d) opts acc = (acc ++ opts)%list.
Proof.
  revert acc. induction opts as [|[k v] opts IH]; intros acc Hnd.
  - simpl. now rewrite app_nil_r.
  - cbn [fold_left fst snd]. rewrite aset_fresh.
    + rewrite IH.
      * now rewrite <- app_assoc.
      * rewrite map_app. cbn [map fst]. rewrite <- app_assoc. exact Hnd.
    + apply alookup_none_not_in. intros Hin.
      cbn [map fst] in Hnd. apply NoDup_remove_2 in Hnd. apply Hnd.
      apply in_or_app. now left.
Qed.

Lemma filter_not_name (items : list (string * string)) :
  ~ In "__name__" (map fst items) ->
  filter (fun kv => negb (String.eqb (fst kv) "__name__")) items = items.
Proof.
  induction items as [|[k v] items IH]; intros H; [reflexivity|].
  cbn [filter fst]. cbn [map fst] in H.
  destruct (String.eqb_spec k "__name__") as [->|Hne].
  - exfalso. apply H. now left.
  - cbn [negb]. rewrite IH; [reflexivity|]. intros Hin. apply H. now right.
Qed.

Lemma cecp_items_section (pr : parser) (sec : string)
      (items : list (string * string)) :
  p_defaults pr = [] ->
  alookup sec (p_sections pr) = Some (("__name__", sec) :: items) ->
  NoDup ("__name__" :: map fst items) ->
  cecp_items pr sec
  = Ok (map (fun kv => (fst kv, unquote (snd kv))) items).
Proof.
  intros Hd Hsec Hnd. unfold cecp_items, raw_items. rewrite Hsec, Hd.
  rewrite (fold_aset_fresh _ []) by exact Hnd.
  cbn [List.app filter fst]. cbn [String.eqb Ascii.eqb Bool.eqb negb].
  rewrite filter_not_name by (now inversion Hnd).
  reflexivity.
Qed.

(** *** Loading the items of one container *)

Lemma setitem_dict_passes mk m rs a d (k : string) (r : rule) (v v1 : value) :
  alookup k rs = Some r -> passes X mk (rule_checker r) v v1 ->
  is_scalar v1 = true ->
  setitem X mk (VCDict m rs a d) (KStr k) v = Ok (VCDict m rs a (aset k v1 d)).
Proof.
  intros Hr Hp Hs. unfold setitem, get_rule. cbn [fixkey]. rewrite Hr.
  cbn [bind]. rewrite (passes_check_value X mk _ _ _ _ Hp). cbn [bind].
  rewrite (passkey_scalar X KDict _ _ _ Hs). reflexivity.
Qed.

(** The leaf set at the key [k], if one is. *)
Definition set_leaf (c : value) (k : string) : list (string * value) :=
  match alookup k (rules_of c), alookup k (dict_data c) with
  | Some _, Some v => if is_scalar v then [(k, v)] else []
  | _, _ => []
  end.

Definition store_all (d : list (string * value)) (leaves : list (string * value))
  : list (string * value) :=
  fold_left (fun d kv => aset (fst kv) (snd kv) d) leaves d.

Definition unquoted (items : list (string * string)) : list (string * string) :=
  map (fun kv => (fst kv, unquote (snd kv))) items.

Lemma aset_same {A} (k : string) (a : A) (d : list (string * A)) :
  alookup k d = Some a -> aset k a d = d.
Proof.
  induction d as [|[k' a'] d IH]; [discriminate|]. simpl.
  destruct (String.eqb_spec k k') as [->|]; [now intros [= ->]|].
  intros H. now rewrite IH.
Qed.

Lemma put_child_same (v y : value) (k : string) :
  child v (KStr k) = Some y -> put_child v (KStr k) y = v.
Proof.
  destruct v; simpl; try discriminate; intros H; now rewrite aset_same.
Qed.

Lemma put_path_same (ks : list string) : forall (T y : value),
  at_path T (map KStr ks) = Some y -> put_path T (map KStr ks) y = T.
Proof.
  induction ks as [|k ks IH]; intros T y H.
  - simpl in *. congruence.
  - cbn [map at_path put_path] in *.
    destruct (child T (KStr k)) as [w|] eqn:E; [|discriminate].
    rewrite (IH w y H). now apply put_child_same.
Qed.

Section LoadItems.

Variables (m : meta) (rs : rules) (attrs d : list (string * value)).
Let c := VCDict m rs attrs d.
Hypothesis leaves_good :
  forall k r v, alookup k rs = Some r -> alookup k d = Some v ->
                is_scalar v = true -> good_leaf r v.
Variable section : string.
Variable path : list string.
Variable a0 : list (string * value).

Lemma set_vars_leaves (ks : list string) :
  forall (T : value) (dcur : list (string * value)) (w : list string),
    at_path T (map KStr path) = Some (VCDict m rs a0 dcur) ->
    set_vars X fuel session source section (Here (map KStr path))
             (Load T w true) (unquoted (flat_map (set_item c) ks))
    = (Load (put_path T (map KStr path)
                      (VCDict m rs a0
                              (store_all dcur (flat_map (set_leaf c) ks))))
            w true,
       Ok tt).
Proof.
  induction ks as [|k ks IH]; intros T dcur w Hat.
  - cbn. now rewrite (put_path_same path T _ Hat).
  - unfold set_item, set_leaf in *. cbn [flat_map].
    change (rules_of c) with rs in *. change (dict_data c) with d in *.
    destruct (alookup k rs) as [r|] eqn:Hr; [|apply IH; exact Hat].
    destruct (alookup k d) as [v|] eqn:Ed; [|apply IH; exact Hat].
    destruct (is_scalar v) eqn:Es; [|apply IH; exact Hat].
    destruct (leaves_good k r v Hr Ed Es) as [_ [_ Hp]].
    cbn [List.app unquoted map fst snd set_vars]. unfold set_var.
    cbn [l_root]. rewrite Hat. rewrite unquote_escape_value.
    unfold setitem_. cbn [fst snd].
    rewrite (setitem_dict_passes _ m rs a0 dcur k r _ v Hr Hp Es).
    cbn [l_warnings l_okay].
    fold (unquoted (flat_map (set_item c) ks)).
    unfold set_item, set_leaf in IH.
    change (rules_of c) with rs in IH. change (dict_data c) with d in IH.
    rewrite (IH _ (aset k v dcur) w).
    + rewrite <- (app_nil_r (map KStr path)) at 2.
      rewrite (put_put_below path T _ _ _ [] Hat). reflexivity.
    + now apply (at_put_same path T _ _ Hat).
Qed.

End LoadItems.

(** *** The keys [as_config] walks through *)

Lemma insert_key_in (k x : string) (l : list string) :
  In x (insert_key k l) <-> x = k \/ In x l.
Proof.
  induction l as [|y l IH]; simpl; [intuition auto|].
  destruct (String.eqb_spec k y) as [->|Hne]; simpl; [intuition auto|].
  destruct (Text.ltb k y); simpl; [intuition auto|].
  rewrite IH. intuition auto.
Qed.

Lemma sorted_set_in (x : string) (l : list string) :
  In x (sorted_set l) <-> In x l.
Proof.
  unfold sorted_set. induction l as [|y l IH]; simpl; [tauto|].
  rewrite insert_key_in, IH. intuition auto.
Qed.

Lemma nat_of_ascii_inj (x y : ascii) : nat_of_ascii x = nat_of_ascii y -> x = y.
Proof.
  intros H. rewrite <- (ascii_nat_embedding x), <- (ascii_nat_embedding y).
  now rewrite H.
Qed.

Lemma ltb_irrefl (a : string) : Text.ltb a a = false.
Proof.
  induction a as [|x a IH]; [reflexivity|]. simpl.
  now rewrite Nat.ltb_irrefl.
Qed.

Lemma ltb_trans (a : string) : forall b c,
  Text.ltb a b = true -> Text.ltb b c = true -> Text.ltb a c = true.
Proof.
  induction a as [|x a IH]; intros [|y b] [|z c]; simpl; try discriminate; auto.
  destruct (Nat.ltb_spec (nat_of_ascii x) (nat_of_ascii y)) as [Hxy|Hxy];
    destruct (Nat.ltb_spec (nat_of_ascii y) (nat_of_ascii z)) as [Hyz|Hyz];
    destruct (Nat.ltb_spec (nat_of_ascii x) (nat_of_ascii z)) as [Hxz|Hxz];
    try reflexivity; try lia; intros H1 H2.
  - destruct (Nat.ltb_spec (nat_of_ascii z) (nat_of_ascii y)); [discriminate|].
    destruct (Nat.ltb_spec (nat_of_ascii z) (nat_of_ascii x)); lia.
  - destruct (Nat.ltb_spec (nat_of_ascii y) (nat_of_ascii x)); [discriminate|].
    destruct (Nat.ltb_spec (nat_of_ascii z) (nat_of_ascii x)); lia.
  - destruct (Nat.ltb_spec (nat_of_ascii y) (nat_of_ascii x)); [discriminate|].
    destruct (Nat.ltb_spec (nat_of_ascii z) (nat_of_ascii y)); [discriminate|].
    destruct (Nat.ltb_spec (nat_of_ascii z) (nat_of_ascii x)); [lia|].
    now apply (IH b c).
Qed.

Lemma ltb_total (a : string) : forall b,
  Text.ltb a b = false -> a <> b -> Text.ltb b a = true.
Proof.
  induction a as [|x a IH]; intros [|y b]; simpl; try discriminate; auto;
    try congruence.
  destruct (Nat.ltb_spec (nat_of_ascii x) (nat_of_ascii y)) as [Hxy|Hxy];
    [discriminate|].
  destruct (Nat.ltb_spec (nat_of_ascii y) (nat_of_ascii x)) as [Hyx|Hyx];
    [reflexivity|].
  intros H Hne. apply IH; [exact H|].
  intros ->. apply Hne. f_equal. apply nat_of_ascii_inj. lia.
Qed.

(** The list is in ascending order. *)
Fixpoint ascending (l : list string) : Prop :=
  match l with
  | [] => True
  | x :: r => (forall y, In y r -> Text.ltb x y = true) /\ ascending r
  end.

Lemma insert_key_ascending (k : string) (l : list string) :
  ascending l -> ascending (insert_key k l).
Proof.
  induction l as [|y l IH]; intros H; simpl; [split; [intros ? []|exact I]|].
  destruct H as [Hy Hl].
  destruct (String.eqb_spec k y) as [->|Hne]; [now split|].
  destruct (Text.ltb k y) eqn:E.
  - split; [|now split]. intros z [<-|Hz]; [exact E|].
    apply ltb_trans with (b := y); auto.
  - split; [|now apply IH]. intros z Hz. apply insert_key_in in Hz.
    destruct Hz as [->|Hz]; [|now apply Hy].
    apply ltb_total; auto.
Qed.

Lemma ascending_nodup (l : list string) : ascending l -> NoDup l.
Proof.
  induction l as [|x l IH]; intros H; [constructor|].
  destruct H as [Hx Hl]. constructor; [|now apply IH].
  intros Hin. specialize (Hx x Hin). rewrite ltb_irrefl in Hx. discriminate.
Qed.

Lemma sorted_set_nodup (l : list string) : NoDup (sorted_set l).
Proof.
  apply ascending_nodup. unfold sorted_set.
  induction l as [|x l IH]; [exact I|]. simpl. now apply insert_key_ascending.
Qed.

Lemma in_akeys {A} (k : string) (l : list (string * A)) :
  In k (akeys l) <-> alookup k l <> None.
Proof.
  unfold akeys. split.
  - intros Hin Hn. now apply alookup_none_not_in in Hn.
  - intros Hn. destruct (in_dec string_dec k (map fst l)) as [|Hout]; [assumption|].
    apply alookup_none_not_in in Hout. contradiction.
Qed.

Lemma good_rules_no_wildcard (rs : rules) :
  Forall good_rule rs -> existsb (String.eqb "_any") (akeys rs) = false.
Proof.
  induction 1 as [|[k r] rs [Hk _] Hrest IH]; [reflexivity|].
  cbn [akeys map fst existsb] in *. fold (akeys rs). rewrite IH, orb_false_r.
  unfold good_key in Hk. repeat (apply andb_true_iff in Hk as [Hk ?]).
  rewrite String.eqb_sym. now apply negb_true_iff.
Qed.

Lemma config_keys_plain m (rs : rules) attrs (d : list (string * value)) :
  Forall good_rule rs ->
  (forall k, alookup k rs = None -> alookup k d = None) ->
  NoDup (config_keys X (VCDict m rs attrs d))
  /\ forall k, In k (config_keys X (VCDict m rs attrs d))
               <-> alookup k rs <> None.
Proof.
  intros Hg Hsub. unfold config_keys. cbn [rules_of keys_of].
  assert (Hkeys : match akeys rs with
                  | [] => akeys d
                  | _ :: _ =>
                      if existsb (String.eqb "_any") (akeys rs)
                      then (akeys rs ++ akeys d)%list else akeys rs
                  end = akeys rs).
  { rewrite (good_rules_no_wildcard rs Hg). destruct rs as [|kr rs]; [|reflexivity].
    destruct d as [|[k v] d]; [reflexivity|].
    specialize (Hsub k eq_refl). simpl in Hsub.
    rewrite String.eqb_refl in Hsub. discriminate. }
  rewrite Hkeys. split.
  - apply NoDup_filter, sorted_set_nodup.
  - intros k. rewrite filter_In, sorted_set_in, in_akeys. split; [tauto|].
    intros Hk. split; [exact Hk|].
    destruct (alookup k rs) as [r|] eqn:Hr; [|congruence].
    destruct (Forall_alookup good_rule rs k r Hg Hr) as [Hgk _].
    cbn [fst] in Hgk. unfold good_key in Hgk.
    now repeat (apply andb_true_iff in Hgk as [Hgk ?]).
Qed.

Lemma flat_map_flat_map {A B C} (f : A -> list B) (g : B -> list C)
      (l : list A) :
  flat_map g (flat_map f l) = flat_map (fun a => flat_map g (f a)) l.
Proof.
  induction l as [|a l IH]; [reflexivity|]. cbn [flat_map].
  now rewrite flat_map_app, IH.
Qed.

Lemma store_all_other (leaves : list (string * value)) :
  forall (d0 : list (string * value)) (k : string),
    ~ In k (map fst leaves) ->
    alookup k (store_all d0 leaves) = alookup k d0.
Proof.
  unfold store_all. induction leaves as [|[k1 v1] leaves IH]; intros d0 k Hk.
  - reflexivity.
  - cbn [fold_left fst snd]. cbn [map fst] in Hk.
    rewrite IH by (intros H; apply Hk; now right).
    apply alookup_aset_other. intros ->. apply Hk. now left.
Qed.

Lemma store_all_in (leaves : list (string * value)) :
  forall (d0 : list (string * value)) (k : string) (v : value),
    NoDup (map fst leaves) -> In (k, v) leaves ->
    alookup k (store_all d0 leaves) = Some v.
Proof.
  unfold store_all. induction leaves as [|[k1 v1] leaves IH]; intros d0 k v Hnd Hin.
  - contradiction.
  - cbn [fold_left fst snd]. cbn [map fst] in Hnd.
    inversion Hnd as [|x l Hx Hl]; subst.
    destruct Hin as [[= -> ->]|Hin].
    + fold (store_all (aset k v d0) leaves).
      rewrite store_all_other by assumption. apply alookup_aset_same.
    + now apply IH.
Qed.

Lemma load_sections_app (pr : parser) (a b : list string) (st : load) :
  load_sections X fuel session source pr st (a ++ b)
  = match load_sections X fuel session source pr st a with
    | (st', Ok _) => load_sections X fuel session source pr st' b
    | (st', Raise e) => (st', Raise e)
    end.
Proof.
  revert st. induction a as [|s a IH]; intros st; [reflexivity|].
  cbn [List.app load_sections].
  destruct (load_section X fuel session source pr st s) as [st' [u|e]]; auto.
Qed.

(** [reloads n path c news]: serializing the container [c], which is at
    the keys [path], adds the sections [news] to a parser that has no
    section at or below that path; the sections are ones the reader reads
    back; and loading them into a tree that has the blank of [c] at
    [path] puts there a container with every leaf of [c]. *)
Definition reloads (n : nat) (path : list string) (c : value)
           (news : list (string * list (string * string))) : Prop :=
  (forall p,
      (forall s q, cfgpath s = (path ++ q)%list ->
                   alookup s (p_sections p) = None) ->
      as_config X n c p = Ok (Parser (p_defaults p) (p_sections p ++ news)))
  /\ Forall good_section news
  /\ NoDup (map fst news)
  /\ (forall s, In s (map fst news) -> exists q, cfgpath s = (path ++ q)%list)
  /\ (forall c0 pr T w,
         blank c c0 -> p_defaults pr = [] ->
         (forall s, In s news ->
                    alookup (fst s) (p_sections pr)
                    = Some (snd (reread_section s))) ->
         dict_path T path ->
         at_path T (map KStr path) = Some c0 ->
         exists c',
           load_sections X fuel session source pr (Load T w true)
                         (map fst news)
           = (Load (put_path T (map KStr path) c') w true, Ok tt)
           /\ forall q v, at_path c q = Some v -> is_scalar v = true ->
                          at_path c' q = Some v).

(** *** One container: its own section *)

Section Node.

Variable root : string.
Hypothesis root_slash : no_char "/" root = true.
Hypothesis root_colon : no_char ":" root = true.

Variable n : nat.
Variable path : list string.
Variables (m : meta) (rs : rules) (attrs d : list (string * value)).
Let c := VCDict m rs attrs d.
Let sec := section_of c.
Let ks := config_keys X c.

Hypothesis path_good : Forall (fun k => good_key k = true) path.
Hypothesis name_is_path : m_name m = path_name root path.
Hypothesis sec_good : good_header sec = true.
Hypothesis rules_good : Forall good_rule rs.
Hypothesis data_in_rules : forall k, alookup k rs = None -> alookup k d = None.
Hypothesis leaves_good :
  forall k r v, alookup k rs = Some r -> alookup k d = Some v ->
                is_scalar v = true -> good_leaf r v.
Hypothesis children_plain :
  forall k v, alookup k d = Some v -> is_scalar v = false ->
              plain root n (path ++ [k]) v.
Hypothesis unset_default :
  forall k r, alookup k rs = Some r -> alookup k d = None ->
              exists s, rule_default r = DScalar s.
Hypothesis children_reload :
  forall k v, alookup k d = Some v -> is_scalar v = false ->
              exists news, reloads n (path ++ [k]) v news.

Lemma ks_nodup : NoDup ks.
Proof. apply (config_keys_plain m rs attrs d rules_good data_in_rules). Qed.

Lemma ks_in (k : string) : In k ks <-> alookup k rs <> None.
Proof. apply (config_keys_plain m rs attrs d rules_good data_in_rules). Qed.

Lemma ks_good : Forall (fun k => good_key k = true /\ alookup k rs <> None) ks.
Proof.
  apply Forall_forall. intros k Hk. apply ks_in in Hk. split; [|exact Hk].
  destruct (alookup k rs) as [r|] eqn:Hr; [|congruence].
  now destruct (Forall_alookup good_rule rs k r rules_good Hr).
Qed.

Lemma ks_good_keys : Forall (fun k => good_key k = true) ks.
Proof. eapply Forall_impl; [|exact ks_good]. now intros k [? _]. Qed.

Lemma sec_path : cfgpath sec = path.
Proof.
  unfold sec, section_of, c. cbn [meta_of name_of]. unfold name_of.
  cbn [meta_of]. rewrite name_is_path.
  destruct (m_comment m) as [cm|].
  - destruct (String.eqb cm "").
    + rewrite <- (append_nil_r (path_name root path)).
      apply cfgpath_section; auto.
    + apply cfgpath_section; eauto.
  - rewrite <- (append_nil_r (path_name root path)).
    apply cfgpath_section; auto.
Qed.

Lemma child_kind (k : string) (v : value) :
  alookup k d = Some v -> is_scalar v = false -> kind_of v = Some KDict.
Proof.
  intros Hk Hs. destruct (children_plain k v Hk Hs). reflexivity.
Qed.

(** The options of the container's section, and the section if it has an
    option. *)
Definition own_opts : list (string * string) := flat_map (leaf_option c) ks.

Definition own_news : list (string * list (string * string)) :=
  match own_opts with
  | [] => []
  | _ => [(sec, ("__name__", sec) :: own_opts)]
  end.

Lemma leaves_text (k : string) (v : value) :
  alookup k d = Some v -> is_scalar v = true -> py_unicode X v <> "".
Proof.
  intros Hk Hs. destruct (alookup k rs) as [r|] eqn:Hr.
  - now destruct (leaves_good k r v Hr Hk Hs).
  - rewrite (data_in_rules k Hr) in Hk. discriminate.
Qed.

Lemma children_kind (k : string) (v : value) :
  alookup k d = Some v -> is_scalar v = false -> kind_of v <> None.
Proof. intros Hk Hs. rewrite (child_kind k v Hk Hs). discriminate. Qed.

Lemma own_emit (p : parser) :
  alookup sec (p_sections p) = None ->
  exists added,
    emit_leaves X c (p, false) ks
    = Ok (Parser (p_defaults p) (p_sections p ++ own_news), added).
Proof.
  intros Hnew.
  destruct (leaf_options_nodup m rs attrs d ks ks_nodup ks_good_keys)
    as [Hnd [Hname _]].
  pose proof (emit_leaves_steps m rs attrs d sec_good p Hnew leaves_text
                children_kind unset_default ks None ks_good) as H.
  cbn [with_section is_some opts_of map fst List.app] in H.
  fold c in H. rewrite H by (constructor; assumption).
  fold own_opts. unfold own_news.
  destruct own_opts as [|o os]; cbn [extend_opts with_section].
  - exists false. rewrite app_nil_r. now destruct p.
  - now exists true.
Qed.

Lemma own_reread : reread_options own_opts = flat_map (set_item c) ks.
Proof.
  unfold own_opts, reread_options. rewrite flat_map_flat_map.
  apply flat_map_ext. intros k.
  apply (leaf_option_reread m rs attrs d rules_good leaves_good).
Qed.

Lemma set_item_keys (l : list string) (x : string) :
  In x (map fst (flat_map (set_item c) l)) -> In x l.
Proof.
  induction l as [|k l IH]; [auto|]. cbn [flat_map]. rewrite map_app.
  intros Hin. apply in_app_or in Hin as [Hin|Hin]; [|right; auto].
  left. unfold set_item in Hin.
  destruct (alookup k (rules_of c)); [|contradiction].
  destruct (alookup k (dict_data c)) as [v|]; [|contradiction].
  destruct (is_scalar v); [|contradiction]. now destruct Hin as [<-|[]].
Qed.

Lemma set_items_nodup (l : list string) :
  NoDup l -> NoDup (map fst (flat_map (set_item c) l)).
Proof.
  induction 1 as [|k l Hk Hl IH]; [constructor|].
  cbn [flat_map]. rewrite map_app. apply NoDup_app; [| exact IH |].
  - unfold set_item. destruct (alookup k (rules_of c)); [|constructor].
    destruct (alookup k (dict_data c)) as [v|]; [|constructor].
    destruct (is_scalar v); repeat constructor. intros [].
  - intros x Hx Hx'. apply set_item_keys in Hx'.
    assert (x = k); [|now subst].
    unfold set_item in Hx. destruct (alookup k (rules_of c)); [|contradiction].
    destruct (alookup k (dict_data c)) as [v|]; [|contradiction].
    destruct (is_scalar v); [|contradiction]. now destruct Hx as [<-|[]].
Qed.

Lemma set_items_not_name : ~ In "__name__" (map fst (flat_map (set_item c) ks)).
Proof.
  intros Hin. apply set_item_keys in Hin.
  pose proof ks_good_keys as Hg. rewrite Forall_forall in Hg.
  specialize (Hg _ Hin). unfold good_key in Hg.
  repeat (apply andb_true_iff in Hg as [Hg ?]). discriminate.
Qed.

Lemma own_written : Forall written_option own_opts.
Proof.
  unfold own_opts. induction ks as [|k l IH]; [constructor|].
  cbn [flat_map]. apply Forall_app. split; [|exact IH].
  apply (leaf_option_written m rs attrs d rules_good leaves_good).
Qed.

Lemma own_good : Forall good_section own_news.
Proof.
  unfold own_news. destruct own_opts as [|o os] eqn:E; constructor; [|constructor].
  split; [exact sec_good|]. exists (o :: os). cbn [fst snd].
  split; [reflexivity|]. rewrite <- E.
  split; [exact own_written|]. rewrite own_reread.
  apply set_items_nodup, ks_nodup.
Qed.

Lemma no_options_no_leaves :
  own_opts = [] -> flat_map (set_leaf c) ks = [].
Proof.
  unfold own_opts. induction ks as [|k l IH]; [reflexivity|].
  cbn [flat_map]. intros H. apply app_eq_nil in H as [Hk Hl].
  rewrite (IH Hl), app_nil_r.
  unfold leaf_option, set_leaf in *.
  destruct (alookup k (rules_of c)); [|reflexivity].
  destruct (alookup k (dict_data c)) as [v|]; [|reflexivity].
  destruct (is_scalar v); [discriminate | reflexivity].
Qed.

Lemma own_load (pr : parser) (T : value) (w : list string)
      (a0 d0 : list (string * value)) :
  p_defaults pr = [] ->
  (forall s, In s own_news ->
             alookup (fst s) (p_sections pr) = Some (snd (reread_section s))) ->
  dict_path T path ->
  at_path T (map KStr path) = Some (VCDict m rs a0 d0) ->
  load_sections X fuel session source pr (Load T w true) (map fst own_news)
  = (Load (put_path T (map KStr path)
                    (VCDict m rs a0 (store_all d0 (flat_map (set_leaf c) ks))))
          w true,
     Ok tt).
Proof.
  intros Hd Hitems Hdp Hat. unfold own_news in *.
  destruct own_opts as [|o os] eqn:E.
  - rewrite (no_options_no_leaves E). cbn.
    now rewrite (put_path_same path T _ Hat).
  - cbn [map fst load_sections]. unfold load_section.
    rewrite sec_path.
    pose proof (walk_dict sec (Load T w true) path [] T eq_refl Hdp) as Hw.
    cbn [map List.app] in Hw. rewrite Hw. cbn [l_okay].
    specialize (Hitems _ (or_introl eq_refl)).
    cbn [fst snd reread_section] in Hitems. rewrite <- E, own_reread in Hitems.
    rewrite (cecp_items_section pr sec _ Hd Hitems).
    + fold (unquoted (flat_map (set_item c) ks)).
      pose proof (set_vars_leaves m rs attrs d leaves_good sec path a0 ks
                    T d0 w Hat) as Hs.
      fold c in Hs. now rewrite Hs.
    + constructor; [exact set_items_not_name|].
      apply set_items_nodup, ks_nodup.
Qed.

(** *** One container: the sections of its children *)

Lemma getitem_declared (k : string) :
  alookup k rs <> None ->
  exists v, getitem c (KStr k) = Ok v
            /\ match alookup k d with
               | Some x => v = x
               | None => is_scalar v = true
               end.
Proof.
  intros Hk. unfold getitem, c. cbn [key_in_rules]. unfold amem.
  destruct (alookup k rs) as [r|] eqn:Hr; [|congruence].
  cbn [orb]. unfold get. destruct (alookup k d) as [x|] eqn:Hx.
  - now exists x.
  - rewrite Hr. destruct (unset_default k r Hr Hx) as [s Hs].
    rewrite Hs. cbn [default_value]. eexists. split; [reflexivity|].
    apply is_scalar_of_scalar.
Qed.

Lemma path_snoc_inj (k1 k2 : string) (q1 q2 : list string) :
  (path ++ k1 :: q1 = path ++ k2 :: q2)%list -> k1 = k2.
Proof. intros H. apply app_inv_head in H. now injection H. Qed.

Lemma children_loop (l : list string) :
  NoDup l -> (forall k, In k l -> alookup k rs <> None) ->
  exists news,
    (forall p,
        (forall s k q, In k l -> cfgpath s = (path ++ k :: q)%list ->
                       alookup s (p_sections p) = None) ->
        emit_children (as_config X n) c p l
        = Ok (Parser (p_defaults p) (p_sections p ++ news)))
    /\ Forall good_section news
    /\ NoDup (map fst news)
    /\ (forall s, In s (map fst news) ->
                  exists k q, In k l /\ cfgpath s = (path ++ k :: q)%list)
    /\ (forall pr T w a0 dx,
           p_defaults pr = [] ->
           (forall s, In s news ->
                      alookup (fst s) (p_sections pr)
                      = Some (snd (reread_section s))) ->
           dict_path T path ->
           at_path T (map KStr path) = Some (VCDict m rs a0 dx) ->
           (forall k v, In k l -> alookup k d = Some v -> is_scalar v = false ->
                        exists v0, alookup k dx = Some v0 /\ blank v v0) ->
           exists dx',
             load_sections X fuel session source pr (Load T w true)
                           (map fst news)
             = (Load (put_path T (map KStr path) (VCDict m rs a0 dx')) w true,
                Ok tt)
             /\ (forall k, (forall v, In k l -> alookup k d = Some v ->
                                      is_scalar v = true) ->
                           alookup k dx' = alookup k dx)
             /\ (forall k v, In k l -> alookup k d = Some v ->
                             is_scalar v = false ->
                             exists v', alookup k dx' = Some v'
                                        /\ forall q x, at_path v q = Some x ->
                                                       is_scalar x = true ->
                                                       at_path v' q = Some x)).
Proof.
  induction 1 as [|k l Hk Hl IH]; intros Hrs.
  - exists []. split; [|split; [|split; [|split]]].
    + intros p _. cbn [emit_children]. rewrite app_nil_r. now destruct p.
    + constructor.
    + constructor.
    + intros s [].
    + intros pr T w a0 dx _ _ _ Hat _. exists dx. cbn [map load_sections].
      rewrite (put_path_same path T _ Hat).
      split; [reflexivity|]. split; [reflexivity|]. intros k v [].
  - destruct IH as [newsR [HA [HB [HC [HD HE]]]]].
    { intros k' Hk'. apply Hrs. now right. }
    destruct (getitem_declared k (Hrs k (or_introl eq_refl))) as [v [Hget Hv]].
    destruct (alookup k d) as [x|] eqn:Hx;
      [subst x; destruct (is_scalar v) eqn:Hsc|].
    + (* a stored leaf *)
      exists newsR. split; [|split; [|split; [|split]]]; auto.
      * intros p Hp. cbn [emit_children]. rewrite Hget. cbn [bind].
        rewrite (hasattr_scalar v _ Hsc). apply HA.
        intros s k' q Hk'. apply Hp. now right.
      * intros s Hs. destruct (HD s Hs) as [k' [q [Hk' Hq]]].
        exists k', q. split; [now right | exact Hq].
      * intros pr T w a0 dx Hd Hitems Hdp Hat Hblank.
        destruct (HE pr T w a0 dx Hd Hitems Hdp Hat) as [dx' [H1 [H2 H3]]].
        { intros k' v' Hk'. apply Hblank. now right. }
        exists dx'. split; [exact H1|]. split.
        -- intros k' Hk'. apply H2. intros v' Hin. apply Hk'. now right.
        -- intros k' v' [<-|Hin] Hv' Hs'; [congruence|]. now apply H3.
    + (* a container *)
      destruct (children_reload k v Hx Hsc) as [newsK [KA [KB [KC [KD KE]]]]].
      exists (newsK ++ newsR)%list.
      assert (Hdisj : forall s, In s (map fst newsK) -> ~ In s (map fst newsR)).
      { intros s H1 H2. destruct (KD s H1) as [q1 E1].
        destruct (HD s H2) as [k2 [q2 [Hk2 E2]]].
        rewrite <- app_assoc in E1. cbn [List.app] in E1.
        rewrite E1 in E2. apply path_snoc_inj in E2. now subst k2. }
      split; [|split; [|split; [|split]]].
      * intros p Hp. cbn [emit_children]. rewrite Hget. cbn [bind].
        rewrite (hasattr_as_config v KDict (child_kind k v Hx Hsc)).
        rewrite KA.
        2:{ intros s q Hq. rewrite <- app_assoc in Hq. cbn [List.app] in Hq.
            apply (Hp s k q); [now left | exact Hq]. }
        cbn [bind]. rewrite HA.
        -- cbn [p_defaults p_sections]. now rewrite app_assoc.
        -- intros s k' q Hk' Hq. cbn [p_sections].
           apply alookup_app_none. split.
           ++ apply (Hp s k' q); [now right | exact Hq].
           ++ apply alookup_none_not_in. intros Hin.
              destruct (KD s Hin) as [q1 E1].
              rewrite <- app_assoc in E1. cbn [List.app] in E1.
              rewrite E1 in Hq. apply path_snoc_inj in Hq. now subst k'.
      * apply Forall_app. now split.
      * rewrite map_app. apply NoDup_app; auto.
      * intros s Hs. rewrite map_app in Hs. apply in_app_or in Hs as [Hs|Hs].
        -- destruct (KD s Hs) as [q1 E1]. exists k, q1.
           split; [now left|]. rewrite <- app_assoc in E1. exact E1.
        -- destruct (HD s Hs) as [k' [q [Hk' Hq]]].
           exists k', q. split; [now right | exact Hq].
      * intros pr T w a0 dx Hd Hitems Hdp Hat Hblank.
        destruct (Hblank k v (or_introl eq_refl) Hx Hsc) as [v0 [Hv0 Hb]].
        assert (Hdp' : dict_path T (path ++ [k])).
        { apply dict_path_app. split; [exact Hdp|].
          intros y Hy. rewrite Hat in Hy. injection Hy as <-.
          cbn [dict_path]. now rewrite Hv0. }
        assert (Hat' : at_path T (map KStr (path ++ [k])) = Some v0).
        { rewrite map_app, at_path_app, Hat. cbn [map at_path child].
          now rewrite Hv0. }
        destruct (KE v0 pr T w Hb Hd) as [ck [Lk Dk]]; auto.
        { intros s Hs. apply Hitems. apply in_or_app. now left. }
        set (x1 := VCDict m rs a0 (aset k ck dx)).
        assert (Eput : put_path T (map KStr (path ++ [k])) ck
                       = put_path T (map KStr path) x1).
        { rewrite <- (put_path_same path T _ Hat) at 1.
          rewrite map_app.
          rewrite (put_put_below path T _ _ ck [KStr k] Hat).
          cbn [map put_path child put_child]. now rewrite Hv0. }
        destruct (HE pr (put_path T (map KStr path) x1) w a0 (aset k ck dx) Hd)
          as [dx' [H1 [H2 H3]]].
        { intros s Hs. apply Hitems. apply in_or_app. now right. }
        { now apply dict_path_put. }
        { apply (at_put_same path T x1 _ Hat). }
        { intros k' v' Hk' Hv' Hs'.
          rewrite alookup_aset_other by (intros ->; contradiction).
          apply Hblank; auto. now right. }
        exists dx'. split; [|split].
        -- rewrite map_app, load_sections_app, Lk, Eput, H1.
           pose proof (put_put_below path T x1 _ (VCDict m rs a0 dx') [] Hat) as E.
           rewrite app_nil_r in E. cbn [put_path] in E. now rewrite E.
        -- intros k' Hk'. rewrite H2.
           ++ apply alookup_aset_other. intros ->.
              specialize (Hk' v (or_introl eq_refl) Hx). congruence.
           ++ intros v' Hin. apply Hk'. now right.
        -- intros k' v' [<-|Hin] Hv' Hs'.
           ++ exists ck. split.
              ** rewrite H2 by (intros v'' Hin; contradiction).
                 apply alookup_aset_same.
              ** rewrite Hx in Hv'. injection Hv' as <-. exact Dk.
           ++ now apply H3.
    + (* an unset key: its default is a scalar *)
      exists newsR. split; [|split; [|split; [|split]]]; auto.
      * intros p Hp. cbn [emit_children]. rewrite Hget. cbn [bind].
        rewrite (hasattr_scalar v _ Hv). apply HA.
        intros s k' q Hk'. apply Hp. now right.
      * intros s Hs. destruct (HD s Hs) as [k' [q [Hk' Hq]]].
        exists k', q. split; [now right | exact Hq].
      * intros pr T w a0 dx Hd Hitems Hdp Hat Hblank.
        destruct (HE pr T w a0 dx Hd Hitems Hdp Hat) as [dx' [H1 [H2 H3]]].
        { intros k' v' Hk'. apply Hblank. now right. }
        exists dx'. split; [exact H1|]. split.
        -- intros k' Hk'. apply H2. intros v' Hin. apply Hk'. now right.
        -- intros k' v' [<-|Hin] Hv' Hs'; [congruence|]. now apply H3.
Qed.

Lemma set_leaf_in (k : string) (v : value) :
  alookup k d = Some v -> is_scalar v = true ->
  In (k, v) (flat_map (set_leaf c) ks).
Proof.
  intros Hk Hs. apply in_flat_map. exists k. split.
  - apply ks_in. intros Hr. rewrite (data_in_rules k Hr) in Hk. discriminate.
  - unfold set_leaf, c. cbn [rules_of dict_data].
    destruct (alookup k rs) eqn:Hr.
    + rewrite Hk, Hs. now left.
    + rewrite (data_in_rules k Hr) in Hk. discriminate.
Qed.

Lemma set_leaf_keys (l : list string) (k : string) :
  In k (map fst (flat_map (set_leaf c) l)) ->
  In k l /\ exists v, alookup k d = Some v /\ is_scalar v = true.
Proof.
  induction l as [|k1 l IH]; [intros []|]. cbn [flat_map]. rewrite map_app.
  intros Hin. apply in_app_or in Hin as [Hin|Hin].
  - unfold set_leaf, c in Hin. cbn [rules_of dict_data] in Hin.
    destruct (alookup k1 rs); [|contradiction].
    destruct (alookup k1 d) as [v|] eqn:Hv; [|contradiction].
    destruct (is_scalar v) eqn:Hs; [|contradiction].
    destruct Hin as [<-|[]]. split; [now left | now exists v].
  - destruct (IH Hin) as [H1 H2]. split; [now right | exact H2].
Qed.

Lemma set_leaves_nodup (l : list string) :
  NoDup l -> NoDup (map fst (flat_map (set_leaf c) l)).
Proof.
  induction 1 as [|k l Hk Hl IH]; [constructor|].
  cbn [flat_map]. rewrite map_app. apply NoDup_app; [| exact IH |].
  - unfold set_leaf. destruct (alookup k (rules_of c)); [|constructor].
    destruct (alookup k (dict_data c)) as [v|]; [|constructor].
    destruct (is_scalar v); repeat constructor. intros [].
  - intros x Hx Hx'. apply set_leaf_keys in Hx' as [Hx' _].
    assert (x = k); [|now subst].
    unfold set_leaf in Hx. destruct (alookup k (rules_of c)); [|contradiction].
    destruct (alookup k (dict_data c)) as [v|]; [|contradiction].
    destruct (is_scalar v); [|contradiction]. now destruct Hx as [<-|[]].
Qed.

Lemma own_names (s : string) : In s (map fst own_news) -> s = sec.
Proof.
  unfold own_news. destruct own_opts; [intros []|]. now intros [<-|[]].
Qed.

Lemma at_scalar (v x : value) (q : list pykey) :
  is_scalar v = true -> at_path v q = Some x -> q = [] /\ x = v.
Proof.
  intros Hs. destruct q as [|k q]; cbn [at_path].
  - now intros [= <-].
  - now destruct v; destruct k.
Qed.

(** The container reloads, when its children do. *)
Lemma node_reloads : exists news, reloads (S n) path c news.
Proof.
  destruct (children_loop ks ks_nodup (fun k => proj1 (ks_in k)))
    as [newsC [HA [HB [HC [HD HE]]]]].
  exists (own_news ++ newsC)%list.
  assert (Hdisj : forall s, In s (map fst own_news) -> ~ In s (map fst newsC)).
  { intros s H1 H2. apply own_names in H1. subst s.
    destruct (HD _ H2) as [k [q [_ E]]]. rewrite sec_path in E.
    rewrite <- (app_nil_r path) in E at 1. apply app_inv_head in E.
    discriminate. }
  split; [|split; [|split; [|split]]].
  - intros p Hp. cbn [as_config].
    destruct (own_emit p) as [added Hadd].
    { apply (Hp sec []). now rewrite app_nil_r, sec_path. }
    fold ks. unfold bind at 1. rewrite Hadd. cbn [fst].
    fold c. rewrite HA.
    + cbn [p_defaults p_sections]. now rewrite app_assoc.
    + intros s k q _ Hq. cbn [p_sections]. apply alookup_app_none. split.
      * now apply (Hp s (k :: q)).
      * apply alookup_none_not_in. intros Hin. apply own_names in Hin.
        subst s. rewrite sec_path in Hq.
        rewrite <- (app_nil_r path) in Hq at 1. apply app_inv_head in Hq.
        discriminate.
  - apply Forall_app. split; [exact own_good | exact HB].
  - rewrite map_app. apply NoDup_app; auto.
    unfold own_news. destruct own_opts; repeat constructor. intros [].
  - intros s Hs. rewrite map_app in Hs. apply in_app_or in Hs as [Hs|Hs].
    + apply own_names in Hs. subst s. exists []. now rewrite app_nil_r, sec_path.
    + destruct (HD s Hs) as [k [q [_ Hq]]]. now exists (k :: q).
  - intros c0 pr T w Hb Hd Hitems Hdp Hat.
    inversion Hb as [m' rs' attrs' a0 d' d0 Hb1 Hb2 E1 E2]. subst.
    pose proof (own_load pr T w a0 d0 Hd) as Lo.
    set (d1 := store_all d0 (flat_map (set_leaf c) ks)) in *.
    destruct (HE pr (put_path T (map KStr path) (VCDict m rs a0 d1)) w a0 d1 Hd)
      as [dx' [H1 [H2 H3]]].
    { intros s Hs. apply Hitems. apply in_or_app. now right. }
    { now apply dict_path_put. }
    { apply (at_put_same path T _ _ Hat). }
    { intros k v _ Hk Hs. destruct (Hb2 k v Hk Hs) as [v0 [Hv0 Hbl]].
      exists v0. split; [|exact Hbl]. unfold d1.
      rewrite store_all_other; [exact Hv0|].
      intros Hin. apply set_leaf_keys in Hin as [_ [v' [Hv' Hs']]]. congruence. }
    exists (VCDict m rs a0 dx'). split.
    + rewrite map_app, load_sections_app, Lo, H1; auto.
      * pose proof (put_put_below path T (VCDict m rs a0 d1) _
                      (VCDict m rs a0 dx') [] Hat) as E.
        rewrite app_nil_r in E. cbn [put_path] in E. now rewrite E.
      * intros s Hs. apply Hitems. apply in_or_app. now left.
    + intros q x Hq Hx. destruct q as [|[z|k] q].
      * cbn [at_path] in Hq. injection Hq as <-. discriminate.
      * discriminate.
      * cbn [at_path child] in Hq |- *. unfold c in Hq. cbn [child] in Hq.
        destruct (alookup k d) as [y|] eqn:Hy; [|discriminate].
        destruct (is_scalar y) eqn:Hsy.
        -- destruct (at_scalar y x q Hsy Hq) as [-> ->].
           rewrite H2 by (intros v' _; congruence).
           unfold d1. rewrite (store_all_in _ d0 k y); [reflexivity| |].
           ++ apply set_leaves_nodup, ks_nodup.
           ++ now apply set_leaf_in.
        -- destruct (H3 k y) as [v' [Hv' Hall]]; auto.
           ++ apply ks_in. intros Hr. rewrite (data_in_rules k Hr) in Hy.
              discriminate.
           ++ rewrite Hv'. now apply Hall.
Qed.

End Node.

(** *** The whole tree *)

Lemma plain_reloads (root : string) :
  no_char "/" root = true -> no_char ":" root = true ->
  forall n path c, plain root n path c -> exists news, reloads n path c news.
Proof.
  intros Hs Hc n path c H.
  induction H as [n path m rs attrs d H1 H2 H3 H4 H5 H6 H7 H8 IH H9].
  eapply node_reloads; eauto.
Qed.

Lemma alookup_reread (news : list (string * list (string * string))) :
  NoDup (map fst news) ->
  forall sec, In sec news ->
              alookup (fst sec) (map reread_section news)
              = Some (snd (reread_section sec)).
Proof.
  induction news as [|s news IH]; intros Hnd sec Hin; [contradiction|].
  cbn [map fst] in Hnd. inversion Hnd as [|x l Hx Hl]; subst.
  cbn [map alookup]. unfold reread_section at 1. cbn [fst].
  destruct Hin as [->|Hin].
  - now rewrite String.eqb_refl.
  - destruct (String.eqb (fst sec) (fst s)) eqn:E.
    + apply String.eqb_eq in E. exfalso. apply Hx. rewrite <- E.
      now apply in_map.
    + now apply IH.
Qed.


End Reload.

(** A tree with a text at the root and a number one level down. *)
Definition prefs_rules : rules :=
  [("greeting", Rule "A greeting" CkStr (DScalar (SStr "hello")));
   ("sys", Rule "Technical system settings" CkFalse
             (DDict [("fd_cache_size",
                      Rule "Max files kept open" CkInt (DScalar (SInt 500)))]))].

Definition prefs (d : list (string * value)) : value :=
  VCDict (Meta "config" "config" None) prefs_rules [] d.

Definition prefs_set : value :=
  prefs [("sys", sys_section [("fd_cache_size", VInt 7)]);
         ("greeting", VStr "50% off/on ")].

Definition prefs_blank : value := prefs [("sys", sys_section [])].

Ltac by_key k :=
  let E := fresh "E" in
  unfold prefs_rules; cbn [alookup];
  repeat match goal with
         | |- context [String.eqb k ?s] =>
             destruct (String.eqb k s) eqn:E;
             [apply String.eqb_eq in E; subst k; cbn [alookup String.eqb Ascii.eqb Bool.eqb]
             | clear E]
         end.

Lemma prefs_set_plain : plain std 1 "config" 2 [] prefs_set.
Proof.
  apply Plain_dict.
  - constructor.
  - reflexivity.
  - reflexivity.
  - repeat constructor.
  - repeat constructor; cbn; intuition discriminate.
  - intros k. by_key k; intros; congruence.
  - intros k r v. by_key k; intros [= <-] [= <-] Hs; try discriminate.
    split; [discriminate|]. split; [reflexivity|].
    apply Pass_call; reflexivity.
  - intros k v. by_key k; intros [= <-] Hs; try discriminate.
    apply Plain_dict.
    + repeat constructor.
    + reflexivity.
    + reflexivity.
    + repeat constructor.
    + repeat constructor; cbn; intuition discriminate.
    + intros k. by_key k; intros; congruence.
    + intros k r v. by_key k; intros [= <-] [= <-] Hs'; try discriminate.
      split; [discriminate|]. split; [reflexivity|].
      apply Pass_call; reflexivity.
    + intros k v. by_key k; intros [= <-] Hs'; discriminate.
    + intros k r. by_key k; intros [= <-]; discriminate.
  - intros k r. by_key k; intros [= <-]; discriminate.
Qed.

Lemma prefs_set_blank : blank prefs_set prefs_blank.
Proof.
  apply Blank_dict.
  - intros k v0. by_key k; intros [= <-].
    eexists. split; [reflexivity|]. split; [reflexivity|].
    apply Blank_dict.
    + intros k v0. cbn. discriminate.
    + intros k v. by_key k; intros [= <-]; discriminate.
  - intros k v. by_key k; intros [= <-] Hs; try discriminate.
    eexists. split; [reflexivity|].
    apply Blank_dict.
    + intros k v0. cbn. discriminate.
    + intros k v. by_key k; intros [= <-]; discriminate.
Qed.


(** The text of that tree, and the tree it loads into. *)
Lemma prefs_set_text :
  as_config_bytes std 2 prefs_set
  = Ok (text_of ["[config]";
                 "greeting = 50%25 off/on%20   ; A greeting";
                 "";
                 "[config/sys: Technical system settings]";
                 "fd_cache_size = 7            ; Max files kept open";
                 ""])
  /\ parse_config std 1 true "internal" prefs_blank
       (text_of ["[config]";
                 "greeting = 50%25 off/on%20   ; A greeting";
                 "";
                 "[config/sys: Technical system settings]";
                 "fd_cache_size = 7            ; Max files kept open";
                 ""])
     = (prefs [("sys", sys_section [("fd_cache_size", VInt 7)]);
               ("greeting", VStr "50% off/on ")], [], Ok true).
Proof. split; vm_compute; reflexivity. Qed.

(** * More of the module

    The rest of [CommentedEscapedConfigParser], what the checkers make of
    their own results, the loops of the two containers, [reset], and the
    corners of [parse_config]. *)

(** ** Reading one option: [CommentedEscapedConfigParser.get] *)

(** [RawConfigParser.get]: the option of the section, or of the defaults
    when the section has none of that name. *)
Definition raw_get (p : parser) (section key : string) : result string :=
  let opt := Text.lower key in
  let default :=
    match alookup opt (p_defaults p) with
    | Some v => Ok v
    | None => Raise (OtherError "NoOptionError")
    end in
  match alookup section (p_sections p) with
  | None =>
      if String.eqb section "DEFAULT" then default
      else Raise (OtherError "NoSectionError")
  | Some opts =>
      match alookup opt opts with
      | Some v => Ok v
      | None => default
      end
  end.

(** [CommentedEscapedConfigParser.get] *)
Definition cecp_get (p : parser) (section key : string) : result string :=
  v <- raw_get p section key ;; Ok (unquote v).

Lemma unquote_spaces (n : Z) (t : string) :
  unquote (Text.spaces n ++ t) = Text.spaces n ++ unquote t.
Proof.
  unfold Text.spaces. induction (Z.to_nat n) as [|k IH]; [reflexivity|].
  cbn [Text.spaces]. simpl. now rewrite IH.
Qed.

Lemma unquote_escape_value_app (s t : string) :
  unquote (escape_value s ++ t) = s ++ unquote t.
Proof.
  unfold escape_value.
  destruct (Text.chop_final_space (quote s)) as [q|] eqn:E.
  - apply chop_final_space_inv in E.
    destruct (quote_ends_with_space s q E) as [s' [-> ->]].
    rewrite !append_assoc, unquote_quote_app. reflexivity.
  - apply unquote_quote_app.
Qed.

Lemma raw_get_after_set (p : parser) (sec key key' value : string)
      (opts : list (string * string)) :
  alookup sec (p_sections p) = Some opts ->
  sec <> "" -> sec <> "DEFAULT" ->
  Text.lower key' = Text.lower key ->
  exists p', raw_set p sec key value = Ok p'
             /\ raw_get p' sec key' = Ok value.
Proof.
  intros Hsec Hne Hnd Hk. unfold raw_set.
  destruct (String.eqb_spec sec ""); [contradiction|].
  destruct (String.eqb_spec sec "DEFAULT"); [contradiction|].
  cbn [orb]. rewrite Hsec. eexists. split; [reflexivity|].
  unfold raw_get. cbn [p_sections p_defaults].
  rewrite alookup_aset_same, Hk. now rewrite alookup_aset_same.
Qed.

(** X1: a value set without a comment in a section the parser has is what
    [get] returns for the option, read under any spelling of its name that
    differs in case only: [unquote] undoes the escaping of [set] for every
    text. *)
Theorem cecp_get_after_set (p : parser) (sec key key' value : string)
        (opts : list (string * string)) :
  alookup sec (p_sections p) = Some opts ->
  sec <> "" -> sec <> "DEFAULT" ->
  Text.lower key' = Text.lower key ->
  exists p', cecp_set p sec key value "" = Ok p'
             /\ cecp_get p' sec key' = Ok value.
Proof.
  intros Hsec Hne Hnd Hk. unfold cecp_set, cecp_get. cbn [String.eqb].
  destruct (raw_get_after_set p sec key key' (escape_value value) opts
              Hsec Hne Hnd Hk) as [p' [Hset Hget]].
  exists p'. split; [exact Hset|].
  rewrite Hget. cbn [bind]. now rewrite unquote_escape_value.
Qed.

Lemma cecp_get_after_set_witness :
  exists p',
    cecp_set (Parser [] [("config", [("__name__", "config")])])
             "config" "Greeting" "50% off/on " "" = Ok p'
    /\ cecp_get p' "config" "greeting" = Ok "50% off/on ".
Proof.
  apply (cecp_get_after_set (Parser [] [("config", [("__name__", "config")])])
           "config" "Greeting" "greeting" "50% off/on "
           [("__name__", "config")]).
  - reflexivity.
  - discriminate.
  - discriminate.
  - reflexivity.
Defined.

(** X2: a value set with a comment is not what [get] returns before the
    text is written and read again: the parser holds the escaped value,
    the padding and the comment in one text, and [get] returns the value
    with the padding, a semicolon and the unquoted comment after it. *)
Theorem cecp_get_after_set_with_comment
        (p : parser) (sec key value comment : string)
        (opts : list (string * string)) :
  alookup sec (p_sections p) = Some opts ->
  sec <> "" -> sec <> "DEFAULT" ->
  comment <> "" ->
  exists p', cecp_set p sec key value comment = Ok p'
             /\ cecp_get p' sec key
                = Ok (value
                      ++ Text.spaces (25 - Text.len key
                                      - Text.len (escape_value value))
                      ++ " ; " ++ unquote comment).
Proof.
  intros Hsec Hne Hnd Hc. unfold cecp_set, cecp_get.
  destruct (String.eqb_spec comment ""); [contradiction|].
  destruct (raw_get_after_set p sec key key
              (escape_value value
               ++ Text.spaces (25 - Text.len key - Text.len (escape_value value))
               ++ " ; " ++ comment) opts Hsec Hne Hnd eq_refl)
    as [p' [Hset Hget]].
  exists p'. split; [exact Hset|].
  rewrite Hget. cbn [bind].
  rewrite unquote_escape_value_app, unquote_spaces. reflexivity.
Qed.

Lemma cecp_get_after_set_with_comment_witness :
  exists p',
    cecp_set (Parser [] [("config", [("__name__", "config")])])
             "config" "port" "33411" "Listening port" = Ok p'
    /\ cecp_get p' "config" "port"
       = Ok "33411                 ; Listening port".
Proof.
  apply (cecp_get_after_set_with_comment
           (Parser [] [("config", [("__name__", "config")])])
           "config" "port" "33411" "Listening port" [("__name__", "config")]).
  - reflexivity.
  - discriminate.
  - discriminate.
  - discriminate.
Defined.

(** X3: the contract in the docstring of the class.  A value that is not
    empty and does not start with a space before more text, set under a
    key the reader reads back, in one section, with any comment that has
    no newline, is what [get] and [items] give after the parser was
    written to text and the text read into a new parser: the comment is
    gone and the escaping undone. *)
Theorem written_option_is_read_back (sec key value comment : string) :
  good_header sec = true -> good_key key = true ->
  value <> "" -> leading_space value = false ->
  all_chars not_newline comment = true ->
  exists p1 p2 p3,
    add_section new_parser sec = Ok p1
    /\ cecp_set p1 sec key value comment = Ok p2
    /\ readfp (write p2) = Ok p3
    /\ cecp_get p3 sec key = Ok value
    /\ cecp_items p3 sec = Ok [(key, value)].
Proof.
  intros Hsec Hkey Hne Hlead Hcm.
  assert (Hlow : Text.lower key = key).
  { apply lower_key. unfold good_key in Hkey.
    now repeat (apply andb_true_iff in Hkey as [Hkey ?]). }
  assert (Hname : alookup key [("__name__", sec)] = None).
  { cbn [alookup]. destruct (String.eqb_spec key "__name__") as [->|];
      [discriminate | reflexivity]. }
  destruct (with_comment_tail key (escape_value value) comment Hcm)
    as [t [Et Ht]].
  pose proof (good_escaped_escape value Hne Hlead) as Hesc.
  set (opt := (key, with_comment key (escape_value value) comment)).
  exists (Parser [] [(sec, [("__name__", sec)])]),
         (Parser [] [(sec, [("__name__", sec); opt])]),
         (Parser [] [(sec, [("__name__", sec); (key, escape_value value)])]).
  split; [|split; [|split; [|split]]].
  - now rewrite (add_section_new new_parser sec Hsec eq_refl).
  - exact (cecp_set_last [] [] sec [("__name__", sec)] key value comment
             Hsec eq_refl Hlow Hname).
  - rewrite readfp_write.
    + cbn [p_sections map]. unfold reread_section, reread_options, opt.
      cbn [fst snd flat_map].
      rewrite Et, (keep_written_set key _ t Hkey Hesc Ht).
      reflexivity.
    + reflexivity.
    + constructor; [|constructor]. split; [exact Hsec|].
      exists [opt]. cbn [fst snd]. split; [reflexivity|]. split.
      * constructor; [|constructor]. unfold opt. rewrite Et.
        now constructor.
      * unfold reread_options, opt. cbn [flat_map].
        rewrite Et, (keep_written_set key _ t Hkey Hesc Ht).
        repeat constructor. intros [].
    + repeat constructor. intros [].
  - unfold cecp_get, raw_get. cbn [p_sections p_defaults alookup].
    rewrite String.eqb_refl, Hlow. cbn [alookup].
    destruct (String.eqb_spec key "__name__") as [->|]; [discriminate|].
    rewrite String.eqb_refl. cbn [bind]. now rewrite unquote_escape_value.
  - rewrite (cecp_items_section _ sec [(key, escape_value value)]).
    + cbn [map fst snd]. now rewrite unquote_escape_value.
    + reflexivity.
    + cbn [p_sections alookup]. now rewrite String.eqb_refl.
    + constructor.
      * intros [E|[]]. cbn in E. rewrite E in Hkey. discriminate.
      * repeat constructor. intros [].
Qed.

Lemma written_option_is_read_back_witness :
  exists p1 p2 p3,
    add_section new_parser "config/sys: Technical system settings" = Ok p1
    /\ cecp_set p1 "config/sys: Technical system settings" "debug"
                (String.concat nl ["many"; "lines"; "of"; "belching  "])
                "Debugging flags" = Ok p2
    /\ readfp (write p2) = Ok p3
    /\ cecp_get p3 "config/sys: Technical system settings" "debug"
       = Ok (String.concat nl ["many"; "lines"; "of"; "belching  "])
    /\ cecp_items p3 "config/sys: Technical system settings"
       = Ok [("debug", String.concat nl ["many"; "lines"; "of"; "belching  "])].
Proof.
  apply (written_option_is_read_back
           "config/sys: Technical system settings" "debug"
           (String.concat nl ["many"; "lines"; "of"; "belching  "])
           "Debugging flags").
  - reflexivity.
  - reflexivity.
  - discriminate.
  - reflexivity.
  - reflexivity.
Defined.

(** ** What the checkers make of their own results *)

Lemma digit_char_facts (c : ascii) :
  Text.is_digit c = true ->
  Text.is_space c = false /\ Ascii.eqb c "+" = false
  /\ Ascii.eqb c "-" = false /\ Ascii.eqb c "L" = false
  /\ Ascii.eqb c "l" = false.
Proof. intros H. ascii_cases c; repeat split; reflexivity. Qed.

Lemma all_digits_chars (s : string) :
  Num.all_digits s = all_chars Text.is_digit s.
Proof. induction s as [|c s IH]; simpl; [reflexivity | now rewrite IH]. Qed.

Lemma uint_text_digits (u : Decimal.uint) :
  Num.all_digits (NilEmpty.string_of_uint u) = true.
Proof. induction u; simpl; auto. Qed.

Lemma uint_text (u : Decimal.uint) :
  Num.all_digits (NilZero.string_of_uint u) = true
  /\ NilZero.string_of_uint u <> "".
Proof.
  destruct u; simpl; (split; [try apply uint_text_digits; reflexivity
                             | discriminate]).
Qed.

Lemma digits_strip (s : string) :
  Num.all_digits s = true -> s <> "" -> Text.strip s = s.
Proof.
  intros Hd Hne. rewrite all_digits_chars in Hd.
  rewrite <- (append_nil_r s) at 1. apply strip_solid_app; [| |reflexivity].
  - destruct s as [|c r]; [congruence|]. unfold starts_solid. simpl in *.
    apply andb_true_iff in Hd as [Hc _].
    now destruct (digit_char_facts c Hc) as [-> _].
  - unfold ends_solid. destruct (last_char s) as [c|] eqn:E.
    + pose proof (last_char_all _ s c Hd E) as Hc.
      now destruct (digit_char_facts c Hc) as [-> _].
    + apply last_char_none in E. congruence.
Qed.

Lemma minus_digits_strip (r : string) :
  Num.all_digits r = true -> r <> "" ->
  Text.strip (String "-" r) = String "-" r.
Proof.
  intros Hd Hne. rewrite all_digits_chars in Hd.
  rewrite <- (append_nil_r (String "-" r)) at 1.
  apply strip_solid_app; [reflexivity| |reflexivity].
  unfold ends_solid. cbn [last_char]. destruct r as [|c r']; [congruence|].
  destruct (last_char (String c r')) as [x|] eqn:E.
  - pose proof (last_char_all _ _ x Hd E) as Hx.
    now destruct (digit_char_facts x Hx) as [-> _].
  - apply last_char_none in E. discriminate.
Qed.

Lemma int_of_str_digits (s : string) (d : Decimal.int) :
  Num.all_digits s = true -> s <> "" ->
  NilZero.int_of_string s = Some d ->
  Num.int_of_str s = Some (Z.of_int d).
Proof.
  intros Hd Hne Hp. unfold Num.int_of_str.
  rewrite (digits_strip s Hd Hne).
  destruct s as [|c r]; [congruence|].
  assert (Hc : Text.is_digit c = true).
  { simpl in Hd. now apply andb_true_iff in Hd as [? _]. }
  destruct c as [[] [] [] [] [] [] [] []]; try discriminate Hc;
    now rewrite Hd, Hp.
Qed.

Lemma int_of_str_minus_digits (r : string) (d : Decimal.int) :
  Num.all_digits r = true -> r <> "" ->
  NilZero.int_of_string (String "-" r) = Some d ->
  Num.int_of_str (String "-" r) = Some (Z.of_int d).
Proof.
  intros Hd Hne Hp. unfold Num.int_of_str.
  rewrite (minus_digits_strip r Hd Hne).
  destruct r as [|c r']; [congruence|].
  now rewrite Hd, Hp.
Qed.

(** [int] reads the decimal text of a number as that number. *)
Lemma int_of_str_of_Z (z : Z) : Num.int_of_str (Num.str_of_Z z) = Some z.
Proof.
  unfold Num.str_of_Z.
  assert (Hp : NilZero.int_of_string (NilZero.string_of_int (Z.to_int z))
               = Some (Z.to_int z)).
  { apply NilZero.isi; destruct z; simpl; try discriminate;
      intros [= H]; now apply DecimalPos.Unsigned.to_uint_nonnil in H. }
  rewrite <- (DecimalZ.of_to z) at 2.
  destruct (Z.to_int z) as [u|u]; cbn [NilZero.string_of_int] in *;
    destruct (uint_text u) as [Hd Hne].
  - now apply int_of_str_digits.
  - now apply int_of_str_minus_digits.
Qed.

Lemma drop_final_L_digits (s : string) :
  Num.all_digits s = true -> Num.drop_final_L s = s.
Proof.
  induction s as [|c s IH]; [reflexivity|]. simpl. intros H.
  apply andb_true_iff in H as [Hc Hs]. destruct s as [|c' s'].
  - destruct (digit_char_facts c Hc) as [_ [_ [_ [-> ->]]]]. reflexivity.
  - now rewrite (IH Hs).
Qed.

(** [long] reads it the same. *)
Lemma long_of_str_of_Z (z : Z) : Num.long_of_str (Num.str_of_Z z) = Some z.
Proof.
  pose proof (int_of_str_of_Z z) as H. unfold Num.long_of_str.
  unfold Num.str_of_Z in *.
  destruct (Z.to_int z) as [u|u]; cbn [NilZero.string_of_int] in *;
    destruct (uint_text u) as [Hd Hne].
  - now rewrite (digits_strip _ Hd Hne), (drop_final_L_digits _ Hd).
  - rewrite (minus_digits_strip _ Hd Hne).
    destruct (NilZero.string_of_uint u) as [|c r] eqn:E; [congruence|].
    change (Num.drop_final_L (String "-" (String c r)))
      with (String "-" (Num.drop_final_L (String c r))).
    now rewrite (drop_final_L_digits _ Hd).
Qed.

Lemma lower_char_facts (c : ascii) :
  Text.lower_char (Text.lower_char c) = Text.lower_char c
  /\ Text.is_space (Text.lower_char c) = Text.is_space c
  /\ Num.digit36 (Text.lower_char c) = Num.digit36 c
  /\ Ascii.eqb (Text.lower_char c) "-" = Ascii.eqb c "-"
  /\ Ascii.eqb (Text.lower_char c) "+" = Ascii.eqb c "+".
Proof. ascii_cases c; repeat split; reflexivity. Qed.

Lemma lower_lower (s : string) : Text.lower (Text.lower s) = Text.lower s.
Proof.
  induction s as [|c s IH]; simpl; [reflexivity|].
  destruct (lower_char_facts c) as [-> _]. now rewrite IH.
Qed.

Lemma lstrip_lower (s : string) :
  Text.lstrip (Text.lower s) = Text.lower (Text.lstrip s).
Proof.
  induction s as [|c s IH]; simpl; [reflexivity|].
  destruct (lower_char_facts c) as [_ [-> _]].
  destruct (Text.is_space c); [exact IH | reflexivity].
Qed.

Lemma rstrip_lower (s : string) :
  Text.rstrip (Text.lower s) = Text.lower (Text.rstrip s).
Proof.
  induction s as [|c s IH]; simpl; [reflexivity|]. rewrite IH.
  destruct (lower_char_facts c) as [_ [Hsp _]].
  destruct (Text.rstrip s) as [|c' r']; simpl; [|reflexivity].
  rewrite Hsp. now destruct (Text.is_space c).
Qed.

Lemma digits36_lower (s : string) :
  forall acc, Num.digits36 acc (Text.lower s) = Num.digits36 acc s.
Proof.
  induction s as [|c s IH]; intros acc; simpl; [reflexivity|].
  destruct (lower_char_facts c) as [_ [_ [-> _]]].
  destruct (Num.digit36 c); [apply IH | reflexivity].
Qed.

(** [int(s, 36)] does not look at the case of the letters. *)
Lemma int36_of_str_lower (s : string) :
  Num.int36_of_str (Text.lower s) = Num.int36_of_str s.
Proof.
  unfold Num.int36_of_str, Text.strip. rewrite lstrip_lower, rstrip_lower.
  destruct (Text.rstrip (Text.lstrip s)) as [|c r]; [reflexivity|].
  cbn [Text.lower].
  destruct (lower_char_facts c) as [_ [_ [_ [Hm Hp]]]].
  destruct (Ascii.eqb_spec c "-") as [->|Hnm].
  - destruct r as [|a r]; [reflexivity|].
    pose proof (digits36_lower (String a r) 0) as D.
    cbn [Text.lower] in *. change (Text.lower_char "-") with "-"%char.
    cbn -[Num.digits36 Text.lower_char Text.lower]. now rewrite D.
  - destruct (Ascii.eqb_spec c "+") as [->|Hnp].
    + destruct r as [|a r]; [reflexivity|].
      pose proof (digits36_lower (String a r) 0) as D.
      cbn [Text.lower] in *. change (Text.lower_char "+") with "+"%char.
      cbn -[Num.digits36 Text.lower_char Text.lower]. now rewrite D.
    + apply Ascii.eqb_neq in Hm, Hp.
      transitivity (Num.digits36 0 (String (Text.lower_char c) (Text.lower r))).
      * generalize dependent (Text.lower_char c). intros x Hm Hp.
        destruct x as [[] [] [] [] [] [] [] []]; try reflexivity; congruence.
      * change (String (Text.lower_char c) (Text.lower r))
          with (Text.lower (String c r)).
        rewrite digits36_lower.
        destruct c as [[] [] [] [] [] [] [] []]; try reflexivity; congruence.
Qed.

(** The checkers that take the text of what they return. *)
Definition text_stable (ck : checker) : bool :=
  match ck with
  | CkInt | CkLong | CkUnicode | CkStr | CkB36 => true
  | _ => false
  end.

(** X4: what [int], [long], [unicode] (also for [str]) and [_B36Check]
    return is a value whose text the same checker takes and turns into
    that value again: a number is read back from its decimal digits, a
    text is itself, and a base-36 text in lower case stays what it is.
    These are the checkers under which a stored leaf survives being
    written and loaded; [bool] is not one of them. *)
Theorem checker_takes_back_its_text
        (X : externs)
        (mk : kind -> string -> option string -> rules -> list value
              -> result value)
        (ck : checker) (v v' : value) :
  text_stable ck = true ->
  call_checker X mk ck v = Ok v' ->
  call_checker X mk ck (VStr (py_unicode X v')) = Ok v'.
Proof.
  intros Hs Hc. destruct ck; try discriminate Hs; cbn [call_checker] in *.
  - (* int *)
    assert (exists z, v' = VInt z) as [z ->].
    { destruct v; simpl in Hc; try discriminate.
      - injection Hc as <-. eauto.
      - injection Hc as <-. eauto.
      - destruct (Num.int_of_str s); [injection Hc as <-; eauto | discriminate]. }
    cbn [py_unicode py_int]. now rewrite int_of_str_of_Z.
  - (* long *)
    assert (exists z, v' = VInt z) as [z ->].
    { destruct v; simpl in Hc; try discriminate.
      - injection Hc as <-. eauto.
      - injection Hc as <-. eauto.
      - destruct (Num.long_of_str s); [injection Hc as <-; eauto | discriminate]. }
    cbn [py_unicode py_long]. now rewrite long_of_str_of_Z.
  - injection Hc as <-. reflexivity.
  - injection Hc as <-. reflexivity.
  - (* b36 *)
    unfold B36Check in *. destruct v; try discriminate.
    destruct (Num.int36_of_str s) as [n|] eqn:E; [|discriminate].
    injection Hc as <-. cbn [py_unicode].
    now rewrite int36_of_str_lower, E, lower_lower.
Qed.

Lemma checker_takes_back_its_text_witness :
  call_checker std (construct std 1) CkB36 (VStr (py_unicode std (VStr "1z")))
  = Ok (VStr "1z").
Proof.
  apply (checker_takes_back_its_text std (construct std 1) CkB36
           (VStr "1Z") (VStr "1z")); reflexivity.
Defined.

(** ** The loops of the list container *)

Lemma for_each_app {A : Type} (body : value -> A -> effect unit)
      (xs zs : list A) (c : value) :
  for_each body (xs ++ zs) c
  = match for_each body xs c with
    | (c', Ok _) => for_each body zs c'
    | (c', Raise e) => (c', Raise e)
    end.
Proof.
  revert c. induction xs as [|x xs IH]; intros c; [reflexivity|].
  cbn [List.app for_each]. destruct (body c x) as [c' [u|e]]; auto.
Qed.

(** What the list stores for accepted values put at the slots [k],
    [k + 1], ... *)
Fixpoint stored_at (X : externs) (name : string) (k : nat) (ys : list value)
  : list value :=
  match ys with
  | [] => []
  | y :: r => keyed X name k y :: stored_at X name (S k) r
  end.

Lemma stored_at_length X name (ys : list value) :
  forall k, List.length (stored_at X name k ys) = List.length ys.
Proof. induction ys as [|y ys IH]; intros k; simpl; auto. Qed.

Lemma stored_at_scalars X name (ys : list value) :
  forallb is_scalar ys = true -> forall k, stored_at X name k ys = ys.
Proof.
  induction ys as [|y ys IH]; intros H k; [reflexivity|].
  simpl in H. apply andb_true_iff in H as [Hy Hys].
  cbn [stored_at]. now rewrite keyed_scalar, IH.
Qed.

Section Loops.

Variable X : externs.
Variable mk : kind -> string -> option string -> rules -> list value
              -> result value.
Variables (m : meta) (rs : rules) (attrs : list (string * value)).
Variable r : rule.
Hypothesis wildcard : alookup "_any" rs = Some r.

(** Appending values the checker accepts, one after the other. *)
Lemma append_all (xs ys : list value) :
  Forall2 (passes X mk (rule_checker r)) xs ys ->
  forall l : list value,
    for_each (append_ X mk) xs (VCList m rs attrs l)
    = (VCList m rs attrs
              (l ++ stored_at X (m_name m) (List.length l) ys), Ok tt).
Proof.
  induction 1 as [|x y xs ys Hxy Hrest IH]; intros l.
  - cbn [for_each stored_at]. now rewrite app_nil_r.
  - cbn [for_each stored_at]. unfold append_ at 1.
    rewrite (append_accepted X mk m rs attrs r wildcard l x y
               (keyed X (m_name m) (List.length l) y) Hxy (passkey_keyed _ _ _ _)).
    rewrite IH, length_app, Nat.add_1_r, <- app_assoc. reflexivity.
Qed.

(** Overwriting the slots [k], [k + 1], ... with values the checker
    accepts. *)
Lemma overwrite_all (src : list value) (xs ys : list value) :
  Forall2 (passes X mk (rule_checker r)) xs ys ->
  forall (pre done todo rest : list value),
    src = (pre ++ xs)%list ->
    List.length done = List.length pre ->
    List.length todo = List.length xs ->
    for_each (overwrite_slot X mk src)
             (seq (List.length done) (List.length todo))
             (VCList m rs attrs (done ++ todo ++ rest))
    = (VCList m rs attrs
              (done ++ stored_at X (m_name m) (List.length done) ys ++ rest),
       Ok tt).
Proof.
  induction 1 as [|x y xs ys Hxy Hrest IH];
    intros pre done todo rest Hsrc Hdone Htodo.
  - destruct todo; [|discriminate]. reflexivity.
  - destruct todo as [|t todo]; [discriminate|].
    cbn [List.length seq for_each stored_at List.app].
    assert (Hx : nth_error src (List.length done) = Some x).
    { rewrite Hsrc, Hdone, nth_error_app2, Nat.sub_diag by lia. reflexivity. }
    unfold overwrite_slot at 1. rewrite Hx. unfold assign.
    rewrite setitem_list_ordinal, wildcard.
    rewrite (passes_check_value X mk _ _ _ _ Hxy). cbn [bind].
    rewrite passkey_keyed. cbn [bind]. unfold list_setitem.
    rewrite list_pos_middle. cbn [bind]. rewrite replace_nth_middle.
    specialize (IH (pre ++ [x])%list
                   (done ++ [keyed X (m_name m) (List.length done) y])%list
                   todo rest).
    rewrite !length_app, Nat.add_1_r in IH. cbn [List.length] in IH.
    rewrite <- !app_assoc in IH. cbn [List.app] in IH.
    apply IH.
    + now rewrite Hsrc.
    + now rewrite Hdone, Nat.add_1_r.
    + simpl in Htodo. lia.
Qed.

End Loops.

(** X5: in a list container with a wildcard rule, [extend] looks at the
    values in order and stops at the first one the checker refuses: the
    values before it stay appended, each as the checker returned it, the
    error names the slot the refused value would have taken, and nothing
    after it is looked at. *)
Theorem extend_stops_at_first_refusal
        (X : externs)
        (mk : kind -> string -> option string -> rules -> list value
              -> result value)
        (m : meta) (rs : rules) (attrs : list (string * value))
        (r : rule) (l : list value) (src : value)
        (xs ys : list value) (bad : value) (rest : list value) :
  alookup "_any" rs = Some r ->
  iter_values src = Ok (xs ++ bad :: rest)%list ->
  Forall2 (passes X mk (rule_checker r)) xs ys ->
  refuses X mk (rule_checker r) bad ->
  extend X mk (VCList m rs attrs l) src
  = (VCList m rs attrs (l ++ stored_at X (m_name m) (List.length l) ys),
     Raise (InvalidValue
              (path_of (m_name m)
                       (KInt (Z.of_nat (List.length l + List.length xs))))
              bad)).
Proof.
  intros Hany Hsrc Hacc Href. unfold extend. rewrite Hsrc, for_each_app.
  rewrite (append_all X mk m rs attrs r Hany xs ys Hacc l).
  cbn [for_each]. unfold append_.
  rewrite (append_refused X mk m rs attrs r Hany _ bad Href).
  rewrite length_app, stored_at_length, (Forall2_length Hacc). reflexivity.
Qed.

Lemma extend_stops_at_first_refusal_witness :
  list_extend std 1 int_list (VList [VStr "7"; VInt 8; VStr "x"; VInt 9])
  = (VCList (Meta "container" "container" None) int_list_rules []
            [VInt 1; VInt 7; VInt 8],
     Raise (InvalidValue "container/3" (VStr "x"))).
Proof.
  apply (extend_stops_at_first_refusal std (construct std 1)
           (Meta "container" "container" None) int_list_rules []
           (Rule "We only like ints" CkInt (DScalar (SInt 0)))
           [VInt 1] (VList [VStr "7"; VInt 8; VStr "x"; VInt 9])
           [VStr "7"; VInt 8] [VInt 7; VInt 8] (VStr "x") [VInt 9]).
  - reflexivity.
  - reflexivity.
  - repeat constructor.
  - apply Refuse_call with (e := OtherValueError); reflexivity.
Defined.

(** X6: [ConfigList.update] from a source that is shorter than the list
    raises [IndexError]: the first loop runs over the slots of the list
    and reads the source at each, so the slots the source covers are
    overwritten and the read after its last element fails.  The slots
    beyond stay as they were. *)
Theorem update_from_shorter_source
        (X : externs)
        (mk : kind -> string -> option string -> rules -> list value
              -> result value)
        (m : meta) (rs : rules) (attrs : list (string * value))
        (r : rule) (l : list value) (src : value) (xs ys : list value) :
  alookup "_any" rs = Some r ->
  iter_values src = Ok xs ->
  Forall2 (passes X mk (rule_checker r)) xs ys ->
  (List.length xs < List.length l)%nat ->
  update_list X mk (VCList m rs attrs l) [src]
  = (VCList m rs attrs
            (stored_at X (m_name m) 0 ys ++ skipn (List.length xs) l),
     Raise IndexError).
Proof.
  intros Hany Hsrc Hacc Hlen. unfold update_list. cbn [for_each].
  unfold update_list1. rewrite Hsrc. cbn [list_data].
  replace (List.length l)
    with (List.length xs + (List.length l - List.length xs))%nat at 1 by lia.
  rewrite seq_app, for_each_app. cbn [Nat.add].
  pose proof (overwrite_all X mk m rs attrs r Hany xs xs ys Hacc
                [] [] (firstn (List.length xs) l) (skipn (List.length xs) l)
                eq_refl eq_refl) as H.
  rewrite firstn_length_le in H by lia. cbn [List.app List.length] in H.
  rewrite firstn_skipn in H. rewrite H by reflexivity.
  destruct (List.length l - List.length xs)%nat as [|j] eqn:E; [lia|].
  cbn [seq for_each]. unfold overwrite_slot at 1.
  replace (nth_error xs (List.length xs)) with (@None value)
    by (symmetry; apply nth_error_None; lia).
  reflexivity.
Qed.

Lemma update_from_shorter_source_witness :
  list_update std 1
    (VCList (Meta "container" "container" None) int_list_rules []
            [VInt 1; VInt 2; VInt 3])
    [VList [VStr "7"]]
  = (VCList (Meta "container" "container" None) int_list_rules []
            [VInt 7; VInt 2; VInt 3],
     Raise IndexError).
Proof.
  apply (update_from_shorter_source std (construct std 1)
           (Meta "container" "container" None) int_list_rules []
           (Rule "We only like ints" CkInt (DScalar (SInt 0)))
           [VInt 1; VInt 2; VInt 3] (VList [VStr "7"])
           [VStr "7"] [VInt 7]).
  - reflexivity.
  - reflexivity.
  - repeat constructor.
  - simpl. lia.
Defined.

(** ** The keys of a list *)

Lemma list_pos_inside (l : list value) (i : nat) :
  (i < List.length l)%nat -> list_pos l (Z.of_nat i) = Some i.
Proof.
  intros H. unfold list_pos.
  replace (0 <=? Z.of_nat i) with true by (symmetry; apply Z.leb_le; lia).
  replace (Z.of_nat i <? Z.of_nat (List.length l)) with true
    by (symmetry; apply Z.ltb_lt; lia).
  cbn [andb]. now rewrite Nat2Z.id.
Qed.

(** X7: the keys [ConfigList.keys] returns are keys of the list: when
    [int(., 36)] reads the lower-case [b36] text of a slot's number as
    that number, the key at a position is that text, and reading the list
    at the key, as an item or through [get], gives the element at the
    position. *)
Theorem list_key_reads_its_slot
        (X : externs) (m : meta) (rs : rules) (attrs : list (string * value))
        (l : list value) (i : nat) (v : value) :
  nth_error l i = Some v ->
  Num.int36_of_str (Text.lower (b36 X (Z.of_nat i))) = Some (Z.of_nat i) ->
  let c := VCList m rs attrs l in
  let key := Text.lower (b36 X (Z.of_nat i)) in
  List.length (list_keys X c) = List.length l
  /\ nth_error (list_keys X c) i = Some key
  /\ getitem c (KStr key) = Ok v.
Proof.
  intros Hv Hkey c key.
  assert (Hi : (i < List.length l)%nat) by (apply nth_error_Some; congruence).
  split; [|split].
  - unfold list_keys. now rewrite length_map, length_seq.
  - unfold list_keys, c. cbn [list_data].
    rewrite nth_error_map, nth_error_seq.
    destruct (Nat.ltb_spec i (List.length l)); [reflexivity | lia].
  - unfold getitem, c, key, fixkey. rewrite Hkey. unfold list_getitem.
    now rewrite (list_pos_inside l i Hi), Hv.
Qed.

Lemma list_key_reads_its_slot_witness :
  let c := VCList (Meta "container" "container" None) int_list_rules []
                  (map VInt (map Z.of_nat (seq 0 40))) in
  List.length (list_keys std c) = 40%nat
  /\ nth_error (list_keys std c) 37 = Some "11"
  /\ getitem c (KStr "11") = Ok (VInt 37).
Proof.
  apply (list_key_reads_its_slot std (Meta "container" "container" None)
           int_list_rules [] (map VInt (map Z.of_nat (seq 0 40))) 37 (VInt 37));
    reflexivity.
Defined.

(** ** The loop of [ConfigDict.update] *)

Lemma assign_all_same_rules X mk m rs
      (kvs : list (string * value)) :
  forall a d c',
    fst (for_each (fun c kv => assign X mk c (KStr (fst kv)) (snd kv)) kvs
                  (VCDict m rs a d)) = c' ->
    exists a' d', c' = VCDict m rs a' d'.
Proof.
  induction kvs as [|[k v] kvs IH]; intros a d c' H.
  - cbn [for_each fst] in H. subst. eauto.
  - cbn [for_each fst snd] in H. unfold assign in H at 1.
    destruct (setitem X mk (VCDict m rs a d) (KStr k) v) as [c1|e] eqn:E.
    + destruct (setitem_dict_inv X mk _ _ _ _ _ _ _ E)
        as [s [r [v1 [v2 [_ [_ [_ [_ ->]]]]]]]].
      eapply IH. exact H.
    + cbn [fst] in H. subst. eauto.
Qed.

(** X8: [ConfigDict.update] is not all or nothing.  The entries of a
    source are assigned in its order; at a key that no rule covers the
    call raises [InvalidKeyError] naming the container and the key, the
    entries before it stay assigned, and neither the entries after it nor
    the keyword arguments are looked at. *)
Theorem dict_update_stops_at_unknown_key
        (X : externs)
        (mk : kind -> string -> option string -> rules -> list value
              -> result value)
        (m : meta) (rs : rules) (a d : list (string * value))
        (before after kwargs : list (string * value))
        (k : string) (v : value) (c1 : value) :
  alookup k rs = None -> alookup "_any" rs = None ->
  for_each (fun c kv => assign X mk c (KStr (fst kv)) (snd kv)) before
           (VCDict m rs a d) = (c1, Ok tt) ->
  update_dict X mk (VCDict m rs a d)
              [VDict (before ++ (k, v) :: after)] kwargs
  = (c1, Raise (InvalidKeyError (m_name m) k)).
Proof.
  intros Hk Hany Hbefore. unfold update_dict. cbn [for_each].
  unfold update_dict1. cbn [pairs_of]. rewrite for_each_app, Hbefore.
  destruct (assign_all_same_rules X mk m rs before a d c1) as [a' [d' ->]].
  { now rewrite Hbefore. }
  cbn [for_each fst snd]. unfold assign, setitem, get_rule.
  cbn [fixkey key_text]. now rewrite Hk, Hany.
Qed.

Lemma dict_update_stops_at_unknown_key_witness :
  dict_update std 1 count_dict
    [VDict [("count", VStr "42"); ("evil", VInt 1); ("count", VInt 7)]]
    [("count", VInt 8)]
  = (VCDict (Meta "root" "root" None) count_rules [] [("count", VInt 42)],
     Raise (InvalidKeyError "root" "evil")).
Proof.
  apply (dict_update_stops_at_unknown_key std (construct std 1)
           (Meta "root" "root" None) count_rules [] []
           [("count", VStr "42")] [("count", VInt 7)] [("count", VInt 8)]
           "evil" (VInt 1)
           (VCDict (Meta "root" "root" None) count_rules []
                   [("count", VInt 42)]));
    reflexivity.
Defined.

(** ** Nested sections cannot be assigned *)

Section Nested.

Variable X : externs.
Variable mk : kind -> string -> option string -> rules -> list value
              -> result value.

(** A mapping container with its fields [m] and some rules, attributes
    and data. *)
Definition dict_of (m : meta) (c : value) : Prop :=
  exists rs a d, c = VCDict m rs a d.

Lemma hasattr_rule_key m rs a d (k : string) (x : rule) :
  alookup k rs = Some x -> hasattr (VCDict m rs a d) k = true.
Proof.
  intros Hk. unfold hasattr, getattr.
  destruct (plain_attr (VCDict m rs a d) k); [reflexivity|].
  cbn [kind_of fixkey key_in_rules rules_of]. unfold amem at 1. rewrite Hk.
  cbn [orb]. unfold getitem. cbn [key_in_rules]. unfold amem at 1.
  rewrite Hk. cbn [orb]. unfold get.
  destruct (alookup k d); [reflexivity|]. now rewrite Hk.
Qed.

(** What [add_rule] leaves in the rules: the rules there were, and the
    new one, with the checker [False] when its default is a dict or a
    list. *)
Lemma add_rule_rules m rs a d (key : string) (r : rule) (c' : value) :
  add_rule X mk (VCDict m rs a d) key r = Ok c' ->
  alookup key rs = None
  /\ exists ck a' d',
      c' = VCDict m (aset key (Rule (rule_comment r) ck (rule_default r)) rs)
                  a' d'
      /\ (match rule_default r with
          | DDict _ | DList => ck = CkFalse
          | _ => True
          end).
Proof.
  unfold add_rule. destruct (negb (clean_key X key)); [discriminate|].
  destruct (hasattr (VCDict m rs a d) key) eqn:Hh; [discriminate|].
  intros H. split.
  - destruct (alookup key rs) as [x|] eqn:Hk; [|reflexivity].
    now rewrite (hasattr_rule_key m rs a d key x Hk) in Hh.
  - cbn [name_of meta_of rules_of with_rules] in H.
    destruct (rule_default r) as [s|drs| |] eqn:Hd.
    + injection H as <-. eauto 6.
    + destruct (mk KDict _ _ _ _) as [child|]; [|discriminate].
      cbn [bind raw_setitem] in H. injection H as <-. eauto 6.
    + destruct (mk KList _ _ _ _) as [child|]; [|discriminate].
      cbn [bind raw_setitem] in H. injection H as <-. eauto 6.
    + discriminate.
Qed.

Lemma set_rules_keeps (rs0 : rules) :
  forall m rs a d c' (k : string) (x : rule),
    set_rules X mk (VCDict m rs a d) rs0 = Ok c' ->
    alookup k rs = Some x ->
    exists rs' a' d', c' = VCDict m rs' a' d' /\ alookup k rs' = Some x.
Proof.
  induction rs0 as [|[key r] rs0 IH]; intros m rs a d c' k x H Hk.
  - injection H as <-. eauto 6.
  - cbn [set_rules] in H.
    destruct (add_rule X mk (VCDict m rs a d) key r) as [c1|] eqn:E;
      [|discriminate].
    cbn [bind] in H.
    destruct (add_rule_rules _ _ _ _ _ _ _ E) as [Hnew [ck [a1 [d1 [-> _]]]]].
    eapply IH; [exact H|].
    rewrite alookup_aset_other; [exact Hk|]. intros ->. congruence.
Qed.

Lemma set_rules_nested (rs0 : rules) :
  forall m rs a d c' (k : string) (r : rule),
    set_rules X mk (VCDict m rs a d) rs0 = Ok c' ->
    alookup k rs0 = Some r ->
    (match rule_default r with DDict _ | DList => True | _ => False end) ->
    exists rs' a' d',
      c' = VCDict m rs' a' d'
      /\ alookup k rs' = Some (Rule (rule_comment r) CkFalse (rule_default r)).
Proof.
  induction rs0 as [|[key r0] rs0 IH]; intros m rs a d c' k r H Hk Hn.
  - discriminate.
  - cbn [set_rules] in H.
    destruct (add_rule X mk (VCDict m rs a d) key r0) as [c1|] eqn:E;
      [|discriminate].
    cbn [bind] in H.
    destruct (add_rule_rules _ _ _ _ _ _ _ E) as [Hnew [ck [a1 [d1 [-> Hck]]]]].
    cbn [alookup] in Hk. destruct (String.eqb_spec k key) as [->|Hne].
    + injection Hk as ->.
      eapply set_rules_keeps; [exact H|].
      rewrite alookup_aset_same.
      destruct (rule_default r); try contradiction; now subst ck.
    + eapply IH; eauto.
Qed.

Lemma assign_dict_of m c key v :
  dict_of m c ->
  exists a' d', fst (assign X mk c key v)
                = VCDict m (rules_of c) a' d'.
Proof.
  intros [rs [a [d ->]]]. unfold assign.
  destruct (setitem X mk (VCDict m rs a d) key v) as [c1|e] eqn:E.
  - destruct (setitem_dict_inv X mk _ _ _ _ _ _ _ E)
      as [s [r [v1 [v2 [_ [_ [_ [_ ->]]]]]]]]. cbn [fst rules_of]. eauto.
  - cbn [fst rules_of]. eauto.
Qed.

Lemma update_same_rules m rs a d args :
  exists a' d', fst (update X mk (VCDict m rs a d) args) = VCDict m rs a' d'.
Proof.
  apply (update_keeps X mk (fun c => exists a' d', c = VCDict m rs a' d')).
  - intros c key v [a1 [d1 ->]].
    destruct (assign_dict_of m (VCDict m rs a1 d1) key v) as [a' [d' ->]];
      [unfold dict_of; eauto | eauto].
  - intros c v [a1 [d1 ->]]. cbn [append fst]. eauto.
  - eauto.
Qed.

End Nested.

(** X9: in a mapping that [ConfigDict] made, a key whose rule has a dict
    or a list as its default holds a nested container and can never be
    assigned: [add_rule] made the checker of its rule [False], whatever
    checker the rule named, and item and attribute assignment raise
    "Modifying name/key is not allowed" for every value. *)
Theorem nested_key_is_immutable
        (X : externs) (fuel : nat) (name : string) (comment : option string)
        (rs : rules) (args : list value) (c : value) (k : string) (r : rule)
        (mk : kind -> string -> option string -> rules -> list value
              -> result value)
        (v : value) :
  construct X fuel KDict name comment rs args = Ok c ->
  alookup k rs = Some r ->
  (match rule_default r with DDict _ | DList => True | _ => False end) ->
  setitem X mk c (KStr k) v = Raise (Immutable (name ++ "/" ++ k))
  /\ setattr X mk c k v = Raise (Immutable (name ++ "/" ++ k)).
Proof.
  intros Hc Hk Hn. destruct fuel as [|f]; [discriminate|].
  cbn [construct] in Hc. unfold init in Hc.
  destruct (set_rules X (construct X f) _ rs) as [c1|] eqn:E; [|discriminate].
  cbn [bind] in Hc.
  destruct (set_rules_nested X (construct X f) rs _ _ _ _ c1 k r E Hk Hn)
    as [rs1 [a1 [d1 [-> Hr]]]].
  destruct (update_same_rules X (construct X f) (Meta name name comment)
              rs1 a1 d1 args) as [a2 [d2 Hu]].
  destruct (update X (construct X f) _ args) as [c2 [u|e]]; [|discriminate].
  injection Hc as <-. cbn [fst] in Hu. subst c2.
  assert (Hset : setitem X mk (VCDict (Meta name name comment) rs1 a2 d2)
                         (KStr k) v
                 = Raise (Immutable (name ++ "/" ++ k))).
  { unfold setitem, get_rule. cbn [fixkey]. rewrite Hr. reflexivity. }
  split; [exact Hset|].
  unfold setattr. cbn [kind_of fixkey key_in_rules rules_of].
  unfold amem. now rewrite Hr.
Qed.

(** A mapping with a list of integers under [tags]. *)
Definition tags_rules : rules := [("tags", Rule "Tags" CkInt DList)].

Definition tags_config (l : list value) : value :=
  VCDict (Meta "config" "config" None)
         [("tags", Rule "Tags" CkFalse DList)] []
         [("tags", VCList (Meta "config/tags" "config/tags" (Some "Tags"))
                          [("_any", Rule "Tags" CkInt (DScalar SNone))] [] l)].

Lemma nested_key_is_immutable_witness :
  setitem std (construct std 2) (tags_config []) (KStr "tags") (VList [VInt 1])
  = Raise (Immutable "config/tags")
  /\ setattr std (construct std 2) (tags_config []) "tags" (VList [VInt 1])
     = Raise (Immutable "config/tags").
Proof.
  apply (nested_key_is_immutable std 2 "config" None tags_rules []
           (tags_config []) "tags" (Rule "Tags" CkInt DList)).
  - reflexivity.
  - reflexivity.
  - exact I.
Defined.

(** ** [reset] *)

(** [reset()] with both flags set, as a mapping calls it on the containers
    it holds: the rules go, a list is emptied, and a mapping keeps the
    values that have a [reset] themselves, each reset in turn, and deletes
    the others.  [self[key]] for a key of [self.keys()] is the value
    stored there. *)
Fixpoint reset_all (c : value) : value :=
  match c with
  | VCDict m _ attrs d =>
      VCDict m [] attrs
        ((fix children (d : list (string * value)) : list (string * value) :=
            match d with
            | [] => []
            | (k, v) :: r =>
                if hasattr v "reset" then (k, reset_all v) :: children r
                else children r
            end) d)
  | VCList m _ attrs _ => VCList m [] attrs []
  | _ => c
  end.

(** The loop of [ConfigDict.reset] over the keys of the data. *)
Definition reset_children (d : list (string * value)) : list (string * value) :=
  flat_map (fun kv => if hasattr (snd kv) "reset"
                      then [(fst kv, reset_all (snd kv))] else []) d.

(** [ConfigDict.reset(rules, data)] and [ConfigList.reset(rules, data)];
    the one of [RC] only raises. *)
Definition reset (c : value) (rules data : bool) : result value :=
  match c with
  | VCDict m rs attrs d =>
      Ok (VCDict m (if rules then [] else rs) attrs
                 (if data then reset_children d else d))
  | VCList m rs attrs l =>
      Ok (VCList m (if rules then [] else rs) attrs (if data then [] else l))
  | _ => Raise (OtherError "Override this")
  end.

Lemma reset_all_dict m rs attrs d :
  reset_all (VCDict m rs attrs d) = VCDict m [] attrs (reset_children d).
Proof.
  cbn [reset_all]. f_equal. unfold reset_children.
  induction d as [|[k v] d IH]; [reflexivity|].
  cbn [flat_map fst snd]. rewrite IH.
  now destruct (hasattr v "reset").
Qed.

(** The call [reset()] of a container is [reset_all]. *)
Lemma reset_both (c : value) :
  kind_of c <> None -> reset c true true = Ok (reset_all c).
Proof.
  destruct c; cbn [kind_of]; try congruence; intros _.
  - now rewrite reset_all_dict.
  - reflexivity.
Qed.

Lemma hasattr_reset (v : value) :
  hasattr v "reset" = match kind_of v with Some _ => true | None => false end.
Proof.
  destruct v; try reflexivity;
    unfold hasattr, getattr, plain_attr; cbn [String.eqb Ascii.eqb Bool.eqb];
    destruct (alookup "reset" attrs); reflexivity.
Qed.

Lemma reset_all_no_rules (v : value) :
  kind_of v <> None ->
  kind_of (reset_all v) = kind_of v /\ rules_of (reset_all v) = [].
Proof. destruct v; cbn [kind_of]; try congruence; intros _; now split. Qed.

Lemma reset_children_kept (d : list (string * value)) (k : string) (v' : value) :
  alookup k (reset_children d) = Some v' ->
  exists v, In (k, v) d /\ kind_of v <> None /\ v' = reset_all v.
Proof.
  unfold reset_children. induction d as [|[k1 v1] d IH]; [discriminate|].
  cbn [flat_map fst snd]. rewrite hasattr_reset.
  destruct (kind_of v1) as [kd|] eqn:Hk; cbn [List.app alookup].
  - destruct (String.eqb_spec k k1) as [->|Hne].
    + intros [= <-]. exists v1. split; [now left|]. split; congruence.
    + intros H. destruct (IH H) as [v [Hin Hv]]. exists v.
      split; [now right | exact Hv].
  - intros H. destruct (IH H) as [v [Hin Hv]]. exists v.
    split; [now right | exact Hv].
Qed.

Lemma reset_children_keeps (d : list (string * value)) (k : string) (v : value) :
  alookup k d = Some v -> kind_of v <> None ->
  alookup k (reset_children d) = Some (reset_all v).
Proof.
  unfold reset_children. induction d as [|[k1 v1] d IH]; [discriminate|].
  cbn [flat_map fst snd alookup]. rewrite hasattr_reset.
  destruct (String.eqb_spec k k1) as [->|Hne].
  - intros [= ->] Hv. destruct (kind_of v); [|congruence].
    cbn [List.app alookup]. now rewrite String.eqb_refl.
  - intros H Hv. destruct (kind_of v1); cbn [List.app alookup].
    + destruct (String.eqb_spec k k1); [contradiction | now apply IH].
    + now apply IH.
Qed.

(** X10: [reset] of a mapping with [data] set keeps the rules of the
    mapping itself when [rules] is not set, but not those of what it
    holds: every value that is not a container is deleted, and every
    container it holds is reset with both flags, so it stays under its
    key with no rule left. *)
Theorem reset_strips_the_rules_below
        (m : meta) (rs : rules) (a d : list (string * value)) (rules : bool) :
  exists d',
    reset (VCDict m rs a d) rules true
    = Ok (VCDict m (if rules then [] else rs) a d')
    /\ (forall k v, alookup k d = Some v -> kind_of v <> None ->
                    alookup k d' = Some (reset_all v))
    /\ (forall k v', alookup k d' = Some v' ->
                     kind_of v' <> None /\ rules_of v' = []
                     /\ exists v, In (k, v) d /\ v' = reset_all v).
Proof.
  exists (reset_children d). split; [reflexivity|]. split.
  - apply reset_children_keeps.
  - intros k v' H. destruct (reset_children_kept d k v' H) as [v [Hin [Hk ->]]].
    destruct (reset_all_no_rules v Hk) as [Hk' Hr].
    split; [congruence|]. split; [exact Hr|]. eauto.
Qed.

Section AfterReset.

Variable X : externs.
Variable fuel : nat.
Variable session : bool.
Variable source : string.

Lemma setitem_no_rules mk (c : value) (key : pykey) (v : value) :
  kind_of c <> None -> rules_of c = [] ->
  exists nm ky, setitem X mk c key v = Raise (InvalidKeyError nm ky).
Proof.
  destruct c; cbn [kind_of rules_of]; try congruence; intros _ ->;
    unfold setitem, get_rule.
  - cbn [fixkey]. destruct key; cbn [alookup bind]; eauto.
  - destruct (fixkey KList (fixkey KList key)); cbn [alookup bind]; eauto.
Qed.

(** The warning for a variable. *)
Definition variable_warning (section : string) (kv : string * string) : string :=
  "Invalid (" ++ source ++ "): section " ++ section ++ ", variable " ++ fst kv.

Lemma set_vars_no_rules (section : string) (p : list pykey) (c : value)
      (kvs : list (string * string)) :
  kind_of c <> None -> rules_of c = [] ->
  forall (T : value) (w : list string) (ok : bool),
    at_path T p = Some c ->
    set_vars X fuel session source section (Here p) (Load T w ok) kvs
    = (Load T (if session then w ++ map (variable_warning section) kvs else w)
            (match kvs with [] => ok | _ => false end),
       Ok tt).
Proof.
  intros Hk Hr. induction kvs as [|kv kvs IH]; intros T w ok Hat.
  - cbn [set_vars map]. rewrite app_nil_r. now destruct session.
  - cbn [set_vars]. unfold set_var. cbn [l_root]. rewrite Hat.
    destruct (setitem_no_rules (construct X fuel) c (KStr (fst kv))
                (VStr (snd kv)) Hk Hr) as [nm [ky E]].
    assert (Hout : match c with
                   | VCDict _ _ _ _ | VCList _ _ _ _ =>
                       setitem_ X fuel c (KStr (fst kv)) (VStr (snd kv))
                   | VDict d0 => Ok (VDict (aset (fst kv) (VStr (snd kv)) d0))
                   | _ => Raise TypeError
                   end = Raise (InvalidKeyError nm ky)).
    { destruct c; cbn [kind_of] in Hk; try congruence; exact E. }
    rewrite Hout. cbn [is_ValueError orb]. unfold warn. cbn [l_root l_warnings].
    rewrite IH by exact Hat. fold (variable_warning section kv).
    destruct session; cbn [map].
    + rewrite <- app_assoc. cbn [List.app]. now destruct kvs.
    + now destruct kvs.
Qed.

End AfterReset.

(** X11: after [reset(rules=False, data=True)], the call [load] makes
    before it parses the file, no setting of a nested section can be
    loaded.  The section is found, since the container it names is still
    there, but the container has no rules: every variable of the section is
    refused with a warning, nothing is stored, and [okay] is lost. *)
Theorem reload_after_reset_refuses_nested_settings
        (X : externs) (fuel : nat) (session : bool) (source : string)
        (m : meta) (rs : rules) (a d : list (string * value))
        (k : string) (sub root' : value)
        (pr : parser) (section : string) (kvs : list (string * string))
        (w : list string) :
  alookup k d = Some sub -> kind_of sub <> None ->
  reset (VCDict m rs a d) false true = Ok root' ->
  cfgpath section = [k] ->
  cecp_items pr section = Ok kvs ->
  load_section X fuel session source pr (Load root' w true) section
  = (Load root'
          (if session
           then w ++ map (variable_warning source section) kvs else w)
          (match kvs with [] => true | _ => false end),
     Ok tt).
Proof.
  intros Hchild Hkind Hreset Hpath Hitems.
  cbn [reset] in Hreset. injection Hreset as <-.
  pose proof (reset_children_keeps d k sub Hchild Hkind) as Hkept.
  destruct (reset_all_no_rules sub Hkind) as [Hk' Hr'].
  unfold load_section. rewrite Hpath. cbn [walk]. unfold walk_part.
  cbn [l_root at_path contains]. unfold amem. rewrite Hkept.
  unfold descend, getitem. cbn [key_in_rules]. unfold get. rewrite Hkept.
  assert (Hget : (if amem k rs || amem "_any" rs
                  then Ok (reset_all sub) else Ok (reset_all sub))
                 = @Ok value (reset_all sub))
    by now destruct (amem k rs || amem "_any" rs).
  rewrite Hget. cbn [bind List.app l_okay]. rewrite Hitems.
  apply (set_vars_no_rules X fuel session source section [KStr k]
           (reset_all sub)).
  - congruence.
  - exact Hr'.
  - cbn [at_path child]. now rewrite Hkept.
Qed.

Lemma reload_after_reset_refuses_nested_settings_witness :
  load_section std 1 true "mailpile.cfg"
    (Parser [] [("config/sys", [("__name__", "config/sys");
                                ("fd_cache_size", "123")])])
    (Load (VCDict (Meta "config" "config" None) sys_rules []
                  [("sys", reset_all (sys_section []))]) [] true)
    "config/sys"
  = (Load (VCDict (Meta "config" "config" None) sys_rules []
                  [("sys", reset_all (sys_section []))])
          ["Invalid (mailpile.cfg): section config/sys, variable fd_cache_size"]
          false,
     Ok tt).
Proof.
  apply (reload_after_reset_refuses_nested_settings std 1 true "mailpile.cfg"
           (Meta "config" "config" None) sys_rules []
           [("sys", sys_section [("fd_cache_size", VInt 7)])]
           "sys" (sys_section [("fd_cache_size", VInt 7)])
           (VCDict (Meta "config" "config" None) sys_rules []
                   [("sys", reset_all (sys_section []))])
           (Parser [] [("config/sys", [("__name__", "config/sys");
                                       ("fd_cache_size", "123")])])
           "config/sys" [("fd_cache_size", "123")] []).
  - reflexivity.
  - discriminate.
  - reflexivity.
  - reflexivity.
  - reflexivity.
Defined.

(** ** Corners of [parse_config] *)

Section Corners.

Variable X : externs.
Variable fuel : nat.
Variable session : bool.
Variable source : string.

Lemma walk_app (section : string) (a b : list string) :
  forall (st : load) (cfg : cursor),
    walk X fuel session source section st cfg (a ++ b)
    = match walk X fuel session source section st cfg a with
      | (st', Ok cfg') => walk X fuel session source section st' cfg' b
      | (st', Raise e) => (st', Raise e)
      end.
Proof.
  induction a as [|x a IH]; intros st cfg; [reflexivity|].
  cbn [List.app walk].
  destruct (walk_part X fuel session source section st cfg x) as [st' [c|e]];
    auto.
Qed.

Lemma walk_part_leaf (section : string) (st : load) (p : list pykey)
      (part : string) (leaf : value) :
  at_path (l_root st) p = Some leaf -> is_scalar leaf = true ->
  exists e,
    walk_part X fuel session source section st (Here p) part = (st, Raise e)
    /\ (e = TypeError \/ e = AttributeError "rules").
Proof.
  intros Hat Hs. unfold walk_part. rewrite Hat.
  destruct leaf; try discriminate Hs; cbn [contains]; eauto.
  destruct (is_substring part s); cbn [descend kind_of]; eauto.
Qed.

Lemma set_vars_detached (section part : string) (st : load)
      (kvs : list (string * string)) :
  set_vars X fuel session source section (Detached part) st kvs = (st, Ok tt).
Proof. induction kvs as [|kv kvs IH]; [reflexivity | exact IH]. Qed.

Lemma append_grows mk m rs a l x v' addr :
  append X mk (VCList m rs a l) x = (v', Ok addr) ->
  exists y, v' = VCList m rs a (l ++ [y]).
Proof.
  unfold append. rewrite clen_snoc.
  destruct (setitem X mk (VCList m rs a (l ++ [VNone]))
                    (KInt (Z.of_nat (List.length l))) x) as [c2|e] eqn:E;
    [|discriminate].
  intros [= <- _].
  destruct (setitem_list_inv X mk _ _ _ _ _ _ _ E)
    as [z [i [r [v1 [v2 [Hz [_ [_ [_ [Hi ->]]]]]]]]]].
  cbn [fixkey] in Hz. injection Hz as <-.
  rewrite list_pos_last in Hi. injection Hi as <-.
  rewrite replace_nth_last. eauto.
Qed.

End Corners.

(** X12: a section whose path runs through a scalar leaf ends the load
    with an exception, which [parse_config] does not catch: the test
    [part in cfg] raises [TypeError] on a number, a flag or [None], and on
    a text it is a substring test, after which either the text is indexed
    by the part ([TypeError]) or its [rules] are asked for
    ([AttributeError]).  The tree is as it was, and no warning is given. *)
Theorem section_below_a_leaf_raises
        (X : externs) (fuel : nat) (session : bool) (source : string)
        (T leaf : value) (data : string) (pr : parser)
        (section : string) (others : list string)
        (ks : list string) (part : string) (more : list string) :
  readfp data = Ok pr ->
  sections pr = section :: others ->
  cfgpath section = (ks ++ part :: more)%list ->
  dict_path T ks ->
  at_path T (map KStr ks) = Some leaf ->
  is_scalar leaf = true ->
  exists e,
    parse_config X fuel session source T data = (T, [], Raise e)
    /\ (e = TypeError \/ e = AttributeError "rules").
Proof.
  intros Hread Hsecs Hpath Hdp Hat Hs.
  pose proof (walk_dict X fuel session source section (Load T [] true) ks []
                T eq_refl Hdp) as Hw.
  cbn [map List.app] in Hw.
  destruct (walk_part_leaf X fuel session source section (Load T [] true)
              (map KStr ks) part leaf Hat Hs) as [e [He Hcase]].
  exists e. split; [|exact Hcase].
  unfold parse_config. rewrite Hread, Hsecs. cbn [load_sections].
  unfold load_section. rewrite Hpath, walk_app, Hw. cbn [walk].
  now rewrite He.
Qed.

Lemma section_below_a_leaf_raises_witness :
  exists e,
    parse_config std 1 true "internal"
      (sys_config [("fd_cache_size", VInt 7)])
      (text_of ["[config/sys/fd_cache_size/x]"; "y = 1"])
    = (sys_config [("fd_cache_size", VInt 7)], [], Raise e)
    /\ (e = TypeError \/ e = AttributeError "rules").
Proof.
  apply (section_below_a_leaf_raises std 1 true "internal"
           (sys_config [("fd_cache_size", VInt 7)]) (VInt 7)
           (text_of ["[config/sys/fd_cache_size/x]"; "y = 1"])
           (Parser [] [("config/sys/fd_cache_size/x",
                        [("__name__", "config/sys/fd_cache_size/x");
                         ("y", "1")])])
           "config/sys/fd_cache_size/x" []
           ["sys"; "fd_cache_size"] "x" []).
  - reflexivity.
  - reflexivity.
  - reflexivity.
  - exact I.
  - reflexivity.
  - reflexivity.
Defined.

(** X13: a section that names a key a wildcard mapping does not hold yet
    is dropped without a word.  The statement [cfg = cfg[part] = {}]
    binds [cfg] to the new dict first and then stores the dict in itself,
    so the mapping never gets the key; the variables of the section go
    into that dict, no warning is given, and [okay] stays as it was. *)
Theorem new_key_of_wildcard_mapping_is_dropped
        (X : externs) (fuel : nat) (session : bool) (source : string)
        (T : value) (m : meta) (rs : rules) (a d : list (string * value))
        (pr : parser) (section : string) (kvs : list (string * string))
        (ks : list string) (part : string) (w : list string) :
  dict_path T ks ->
  at_path T (map KStr ks) = Some (VCDict m rs a d) ->
  amem "_any" rs = true ->
  alookup part d = None ->
  cfgpath section = (ks ++ [part])%list ->
  cecp_items pr section = Ok kvs ->
  load_section X fuel session source pr (Load T w true) section
  = (Load T w true, Ok tt).
Proof.
  intros Hdp Hat Hany Hpart Hpath Hitems.
  pose proof (walk_dict X fuel session source section (Load T w true) ks []
                T eq_refl Hdp) as Hw.
  cbn [map List.app] in Hw.
  unfold load_section. rewrite Hpath, walk_app, Hw. cbn [walk].
  unfold walk_part. cbn [l_root]. rewrite Hat. cbn [contains].
  unfold amem at 1. rewrite Hpart. cbn [kind_of rules_of]. rewrite Hany.
  cbn [l_okay]. rewrite Hitems. apply set_vars_detached.
Qed.

(** A mapping of data directories by name, as [PathDict] is one. *)
Definition paths_rules : rules :=
  [("_any", Rule "Data directory" CkUnicode (DScalar (SStr "")))].

Definition paths_config (d : list (string * value)) : value :=
  VCDict (Meta "config" "config" None) paths_rules [] d.

Lemma new_key_of_wildcard_mapping_is_dropped_witness :
  load_section std 1 true "internal"
    (Parser [] [("config/vcards", [("__name__", "config/vcards");
                                   ("path", "/tmp/v")])])
    (Load (paths_config []) [] true) "config/vcards"
  = (Load (paths_config []) [] true, Ok tt).
Proof.
  apply (new_key_of_wildcard_mapping_is_dropped std 1 true "internal"
           (paths_config []) (Meta "config" "config" None) paths_rules [] []
           (Parser [] [("config/vcards", [("__name__", "config/vcards");
                                          ("path", "/tmp/v")])])
           "config/vcards" [("path", "/tmp/v")] [] "vcards" []).
  - exact I.
  - reflexivity.
  - reflexivity.
  - reflexivity.
  - reflexivity.
  - reflexivity.
Defined.

(** X14: a section that names a slot of a list appends an element to the
    list every time it is loaded, also when the slot is there.  [part in
    cfg] compares the part with the elements, not with the addresses, so
    it fails for a list of containers; an empty dict is appended through
    the checker, and then [cfg[part]] is the slot the part names. *)
Theorem list_section_appends_an_element
        (X : externs) (fuel : nat) (session : bool) (source : string)
        (T : value) (p : list pykey) (m : meta) (rs : rules)
        (a : list (string * value)) (l : list value)
        (section part : string) (z : Z) (v' : value) (addr : string)
        (w : list string) (ok : bool) :
  at_path T p = Some (VCList m rs a l) ->
  amem "_any" rs = true ->
  existsb (key_eq_value (KStr part)) l = false ->
  list_append X fuel (VCList m rs a l) (VDict []) = (v', Ok addr) ->
  Num.int36_of_str part = Some z ->
  0 <= z <= Z.of_nat (List.length l) ->
  walk_part X fuel session source section (Load T w ok) (Here p) part
  = (Load (put_path T p v') w ok, Ok (Here (p ++ [KInt z])))
  /\ List.length (list_data v') = S (List.length l).
Proof.
  intros Hat Hany Hin Happ Hz Hrange.
  destruct (append_grows X (construct X fuel) m rs a l (VDict []) v' addr Happ)
    as [y ->].
  split; [|cbn [list_data]; rewrite length_app; simpl; lia].
  unfold walk_part. cbn [l_root]. rewrite Hat. cbn [contains]. rewrite Hin.
  cbn [kind_of rules_of]. rewrite Hany. rewrite Happ.
  cbn [l_root l_warnings l_okay].
  unfold descend, getitem, fixkey. rewrite Hz. unfold list_getitem.
  assert (Hpos : list_pos (l ++ [y]) z = Some (Z.to_nat z)).
  { unfold list_pos. rewrite length_app. cbn [List.length].
    replace (0 <=? z) with true by (symmetry; apply Z.leb_le; lia).
    replace (z <? Z.of_nat (List.length l + 1)) with true
      by (symmetry; apply Z.ltb_lt; lia).
    reflexivity. }
  rewrite Hpos.
  destruct (nth_error (l ++ [y]) (Z.to_nat z)) as [x|] eqn:E.
  - cbn [bind]. now rewrite Z2Nat.id by lia.
  - apply nth_error_None in E. rewrite length_app in E. simpl in E. lia.
Qed.

(** A list of tags, each a mapping with a name. *)
Definition tag_rules : rules :=
  [("name", Rule "Name" CkUnicode (DScalar (SStr "")))].

Definition tag (i : string) (d : list (string * value)) : value :=
  VCDict (Meta ("config/tags/" ++ i) i None) tag_rules [] d.

Definition tag_list (l : list value) : value :=
  VCList (Meta "config/tags" "config/tags" (Some "Tags"))
         [("_any", Rule "Tags" (CkClass KDict tag_rules) (DScalar SNone))] [] l.

Lemma list_section_appends_an_element_witness :
  walk_part std 2 true "internal" "config/tags/0"
            (Load (tag_list [tag "0" [("name", VStr "Inbox")]]) [] true)
            (Here []) "0"
  = (Load (tag_list [tag "0" [("name", VStr "Inbox")]; tag "1" []]) [] true,
     Ok (Here [KInt 0]))
  /\ List.length (list_data (tag_list [tag "0" [("name", VStr "Inbox")];
                                       tag "1" []])) = 2%nat.
Proof.
  apply (list_section_appends_an_element std 2 true "internal"
           (tag_list [tag "0" [("name", VStr "Inbox")]]) []
           (Meta "config/tags" "config/tags" (Some "Tags"))
           [("_any", Rule "Tags" (CkClass KDict tag_rules) (DScalar SNone))] []
           [tag "0" [("name", VStr "Inbox")]]
           "config/tags/0" "0" 0
           (tag_list [tag "0" [("name", VStr "Inbox")]; tag "1" []]) "1"
           [] true).
  - reflexivity.
  - reflexivity.
  - reflexivity.
  - reflexivity.
  - reflexivity.
  - simpl. lia.
Defined.

(** ** The session only receives the warnings *)

Section Quiet.

Variable X : externs.
Variable fuel : nat.
Variable session : bool.
Variables source source' : string.

(** Two states of a load with the same tree and flag, the second one
    without warnings. *)
Definition same_load (st st' : load) : Prop :=
  l_root st = l_root st' /\ l_okay st = l_okay st' /\ l_warnings st' = [].

Ltac same_cases :=
  repeat match goal with
         | |- context [match ?x with _ => _ end] => destruct x eqn:?
         end;
  cbn [fst snd l_root l_okay l_warnings warn]; auto.

Lemma walk_part_quiet (section : string) (st st' : load) (cfg : cursor)
      (part : string) :
  same_load st st' ->
  same_load (fst (walk_part X fuel session source section st cfg part))
            (fst (walk_part X fuel false source' section st' cfg part))
  /\ snd (walk_part X fuel session source section st cfg part)
     = snd (walk_part X fuel false source' section st' cfg part).
Proof.
  destruct st as [T w ok], st' as [T' w' ok']. unfold same_load.
  cbn [l_root l_okay l_warnings]. intros [<- [<- ->]].
  unfold walk_part, warn. cbn [l_root l_okay l_warnings].
  same_cases.
Qed.

Lemma walk_quiet (section : string) (parts : list string) :
  forall (st st' : load) (cfg : cursor),
    same_load st st' ->
    same_load (fst (walk X fuel session source section st cfg parts))
              (fst (walk X fuel false source' section st' cfg parts))
    /\ snd (walk X fuel session source section st cfg parts)
       = snd (walk X fuel false source' section st' cfg parts).
Proof.
  induction parts as [|part parts IH]; intros st st' cfg H.
  - now split.
  - cbn [walk].
    destruct (walk_part_quiet section st st' cfg part H) as [H1 H2].
    destruct (walk_part X fuel session source section st cfg part)
      as [s1 [c1|e1]];
      destruct (walk_part X fuel false source' section st' cfg part)
      as [s2 [c2|e2]]; cbn [fst snd] in *; try discriminate.
    + injection H2 as <-. now apply IH.
    + split; [exact H1 | exact H2].
Qed.

Lemma set_var_quiet (section : string) (cfg : cursor) (st st' : load)
      (kv : string * string) :
  same_load st st' ->
  same_load (fst (set_var X fuel session source section cfg st kv))
            (fst (set_var X fuel false source' section cfg st' kv))
  /\ snd (set_var X fuel session source section cfg st kv)
     = snd (set_var X fuel false source' section cfg st' kv).
Proof.
  destruct st as [T w ok], st' as [T' w' ok']. unfold same_load.
  cbn [l_root l_okay l_warnings]. intros [<- [<- ->]].
  unfold set_var, warn. cbn [l_root l_okay l_warnings].
  destruct cfg as [p|part]; [|now cbn].
  destruct (at_path T p) as [v|]; [|now cbn].
  match goal with
  | |- context [match ?o with Ok _ => _ | Raise _ => _ end] =>
      destruct o as [v'|e]
  end; [now cbn|].
  destruct (is_ValueError e || is_KeyError e); now cbn.
Qed.

Lemma set_vars_quiet (section : string) (cfg : cursor)
      (kvs : list (string * string)) :
  forall st st' : load,
    same_load st st' ->
    same_load (fst (set_vars X fuel session source section cfg st kvs))
              (fst (set_vars X fuel false source' section cfg st' kvs))
    /\ snd (set_vars X fuel session source section cfg st kvs)
       = snd (set_vars X fuel false source' section cfg st' kvs).
Proof.
  induction kvs as [|kv kvs IH]; intros st st' H.
  - now split.
  - cbn [set_vars].
    destruct (set_var_quiet section cfg st st' kv H) as [H1 H2].
    destruct (set_var X fuel session source section cfg st kv)
      as [s1 [u1|e1]];
      destruct (set_var X fuel false source' section cfg st' kv)
      as [s2 [u2|e2]]; cbn [fst snd] in *; try discriminate.
    + now apply IH.
    + split; [exact H1 | exact H2].
Qed.

Lemma load_section_quiet (p : parser) (section : string) (st st' : load) :
  same_load st st' ->
  same_load (fst (load_section X fuel session source p st section))
            (fst (load_section X fuel false source' p st' section))
  /\ snd (load_section X fuel session source p st section)
     = snd (load_section X fuel false source' p st' section).
Proof.
  intros H. unfold load_section.
  destruct (walk_quiet section (cfgpath section) st st' (Here []) H)
    as [H1 H2].
  destruct (walk X fuel session source section st (Here []) (cfgpath section))
    as [s1 [c1|e1]];
    destruct (walk X fuel false source' section st' (Here []) (cfgpath section))
    as [s2 [c2|e2]]; cbn [fst snd] in *; try discriminate.
  - injection H2 as <-.
    assert (Ho : l_okay s2 = l_okay s1) by (symmetry; apply H1).
    rewrite Ho. destruct (l_okay s1) eqn:E1; [|now split].
    destruct (cecp_items p section) as [kvs|e].
    + now apply set_vars_quiet.
    + now split.
  - split; [exact H1 | congruence].
Qed.

Lemma load_sections_quiet (p : parser) (secs : list string) :
  forall st st' : load,
    same_load st st' ->
    same_load (fst (load_sections X fuel session source p st secs))
              (fst (load_sections X fuel false source' p st' secs))
    /\ snd (load_sections X fuel session source p st secs)
       = snd (load_sections X fuel false source' p st' secs).
Proof.
  induction secs as [|s secs IH]; intros st st' H.
  - now split.
  - cbn [load_sections].
    destruct (load_section_quiet p s st st' H) as [H1 H2].
    destruct (load_section X fuel session source p st s) as [s1 [u1|e1]];
      destruct (load_section X fuel false source' p st' s) as [s2 [u2|e2]];
      cbn [fst snd] in *; try discriminate.
    + now apply IH.
    + split; [exact H1 | exact H2].
Qed.

End Quiet.

(** X15: the session and the name of the source only matter for the
    warnings.  Whatever the text, [parse_config] without a session leaves
    the same tree and returns the same flag, or raises the same
    exception, as with one, under any name for the source; and without a
    session it gives no warning. *)
Theorem session_only_receives_warnings
        (X : externs) (fuel : nat) (session : bool) (source source' : string)
        (T : value) (data : string) :
  fst (fst (parse_config X fuel false source' T data))
  = fst (fst (parse_config X fuel session source T data))
  /\ snd (parse_config X fuel false source' T data)
     = snd (parse_config X fuel session source T data)
  /\ snd (fst (parse_config X fuel false source' T data)) = [].
Proof.
  unfold parse_config. destruct (readfp data) as [p|e]; [|now repeat split].
  destruct (load_sections_quiet X fuel session source source' p (sections p)
              (Load T [] true) (Load T [] true)) as [[Hr [Ho Hw]] H2].
  { now repeat split. }
  destruct (load_sections X fuel session source p (Load T [] true) (sections p))
    as [s1 [u1|e1]];
    destruct (load_sections X fuel false source' p (Load T [] true) (sections p))
    as [s2 [u2|e2]]; cbn [fst snd] in *; try discriminate.
  - repeat split; congruence.
  - repeat split; congruence.
Qed.

(** ** The filters of [outdatedConfigManager]

    The class is a plain [dict] whose entries [filter], [filter_terms] and
    [filter_tags] are dicts from filter ids to texts.  The three are taken
    to be three objects: no two entries of the manager share their dict. *)

Section Filters.

Variable X : externs.
Variable mk : kind -> string -> option string -> rules -> list value
              -> result value.

(** [self[key]] for the manager [self] *)
Definition entry (self : list (string * value)) (key : string) : result value :=
  match alookup key self with
  | Some v => Ok v
  | None => Raise (KeyError key)
  end.

(** [v[k]] for a text [k]: a dict has the key or raises [KeyError], a
    container reads through its [__getitem__], a list or a text takes no
    text as an index, and nothing else can be indexed.  A dict of rules
    holds rules, which are no values of the embedding. *)
Definition item (v : value) (k : string) : result value :=
  match v with
  | VDict d => match alookup k d with
               | Some x => Ok x
               | None => Raise (KeyError k)
               end
  | VCDict _ _ _ _ | VCList _ _ _ _ => getitem v (KStr k)
  | VRules _ => Raise (OtherError "a rule is no value")
  | _ => Raise TypeError
  end.

(** [v[k] = x] for a text [k] *)
Definition store_item (v : value) (k : string) (x : value) : result value :=
  match v with
  | VDict d => Ok (VDict (aset k x d))
  | VCDict _ _ _ _ | VCList _ _ _ _ => setitem X mk v (KStr k) x
  | VRules _ => Raise (OtherError "a rule is no value")
  | _ => Raise TypeError
  end.

(** The three dicts of the filters, in the order the loops visit them. *)
Definition filter_keys : list string := ["filter"; "filter_terms"; "filter_tags"].

(** The first loop of [filter_swap]: [tmp[key] = self[key][fid_a]]. *)
Fixpoint read_all (self : list (string * value)) (fid : string)
         (keys : list string) : result (list (string * value)) :=
  match keys with
  | [] => Ok []
  | key :: r =>
      d <- entry self key ;;
      x <- item d fid ;;
      tmp <- read_all self fid r ;;
      Ok ((key, x) :: tmp)
  end.

(** A loop over the three keys that writes into the dicts: the manager
    afterwards, and the exception that ended the loop if one did. *)
Fixpoint write_all (body : list (string * value) -> string
                           -> result (list (string * value)))
         (self : list (string * value)) (keys : list string)
  : list (string * value) * result unit :=
  match keys with
  | [] => (self, Ok tt)
  | key :: r =>
      match body self key with
      | Ok self' => write_all body self' r
      | Raise e => (self, Raise e)
      end
  end.

(** [self[key][fid_a] = self[key][fid_b]]: the dict under [key] is
    changed in place, which for the manager is a new value under [key]. *)
Definition copy_slot (fid_a fid_b : string) (self : list (string * value))
           (key : string) : result (list (string * value)) :=
  d <- entry self key ;;
  x <- item d fid_b ;;
  d' <- store_item d fid_a x ;;
  Ok (aset key d' self).

(** [self[key][fid_b] = tmp[key]] *)
Definition put_slot (tmp : list (string * value)) (fid_b : string)
           (self : list (string * value)) (key : string)
  : result (list (string * value)) :=
  d <- entry self key ;;
  x <- entry tmp key ;;
  d' <- store_item d fid_b x ;;
  Ok (aset key d' self).

(** [filter_swap(fid_a, fid_b)] *)
Definition filter_swap (self : list (string * value)) (fid_a fid_b : string)
  : list (string * value) * result unit :=
  match read_all self fid_a filter_keys with
  | Raise e => (self, Raise e)
  | Ok tmp =>
      match write_all (copy_slot fid_a fid_b) self filter_keys with
      | (self1, Raise e) => (self1, Raise e)
      | (self1, Ok _) => write_all (put_slot tmp fid_b) self1 filter_keys
      end
  end.

End Filters.

(** The value under the id [fid] in the dict under [key] of the manager. *)
Definition slot (self : list (string * value)) (key fid : string)
  : option value :=
  match alookup key self with
  | Some (VDict d) => alookup fid d
  | _ => None
  end.

(** The manager has the three dicts, and each has both ids. *)
Definition has_filters (self : list (string * value)) (ids : list string) : Prop :=
  forall key, In key filter_keys ->
    exists d, alookup key self = Some (VDict d)
              /\ forall fid, In fid ids -> alookup fid d <> None.

Section FilterSwap.

Variable X : externs.
Variable mk : kind -> string -> option string -> rules -> list value
              -> result value.

Lemma copy_slot_dict (a b : string) (self : list (string * value))
      (key : string) (d : list (string * value)) (y : value) :
  alookup key self = Some (VDict d) -> alookup b d = Some y ->
  copy_slot X mk a b self key = Ok (aset key (VDict (aset a y d)) self).
Proof.
  intros Hd Hy. unfold copy_slot, entry. rewrite Hd. cbn [bind item].
  now rewrite Hy.
Qed.

Lemma put_slot_dict (tmp : list (string * value)) (b : string)
      (self : list (string * value)) (key : string)
      (d : list (string * value)) (x : value) :
  alookup key self = Some (VDict d) -> alookup key tmp = Some x ->
  put_slot X mk tmp b self key = Ok (aset key (VDict (aset b x d)) self).
Proof.
  intros Hd Hx. unfold put_slot, entry. rewrite Hd, Hx. reflexivity.
Qed.

Lemma alookup_swapped (a b k : string) (x y : value)
      (d : list (string * value)) :
  alookup a d = Some x -> alookup b d = Some y ->
  alookup k (aset b x (aset a y d))
  = if String.eqb k a then alookup b d
    else if String.eqb k b then alookup a d
    else alookup k d.
Proof.
  intros Hx Hy.
  destruct (String.eqb_spec k b) as [->|Hb].
  - rewrite alookup_aset_same.
    destruct (String.eqb_spec b a) as [->|]; congruence.
  - rewrite alookup_aset_other by congruence.
    destruct (String.eqb_spec k a) as [->|Ha].
    + now rewrite alookup_aset_same.
    + now rewrite alookup_aset_other by congruence.
Qed.

(** What [filter_swap] does when the three dicts have both ids. *)
Lemma filter_swap_done (self : list (string * value)) (a b : string)
      (d1 d2 d3 : list (string * value)) (x1 y1 x2 y2 x3 y3 : value) :
  alookup "filter" self = Some (VDict d1) ->
  alookup "filter_terms" self = Some (VDict d2) ->
  alookup "filter_tags" self = Some (VDict d3) ->
  alookup a d1 = Some x1 -> alookup b d1 = Some y1 ->
  alookup a d2 = Some x2 -> alookup b d2 = Some y2 ->
  alookup a d3 = Some x3 -> alookup b d3 = Some y3 ->
  exists self',
    filter_swap X mk self a b = (self', Ok tt)
    /\ alookup "filter" self' = Some (VDict (aset b x1 (aset a y1 d1)))
    /\ alookup "filter_terms" self' = Some (VDict (aset b x2 (aset a y2 d2)))
    /\ alookup "filter_tags" self' = Some (VDict (aset b x3 (aset a y3 d3)))
    /\ forall key, ~ In key filter_keys -> alookup key self' = alookup key self.
Proof.
  intros H1 H2 H3 Hx1 Hy1 Hx2 Hy2 Hx3 Hy3.
  unfold filter_swap, filter_keys. cbn [read_all]. unfold entry.
  rewrite H1, H2, H3. cbn [bind item]. rewrite Hx1, Hx2, Hx3. cbn [bind].
  cbn [write_all].
  set (tmp := [("filter", x1); ("filter_terms", x2); ("filter_tags", x3)]).
  rewrite (copy_slot_dict a b self "filter" d1 y1 H1 Hy1).
  set (s1 := aset "filter" (VDict (aset a y1 d1)) self).
  assert (E2 : alookup "filter_terms" s1 = Some (VDict d2)).
  { unfold s1. now rewrite alookup_aset_other by discriminate. }
  rewrite (copy_slot_dict a b s1 "filter_terms" d2 y2 E2 Hy2).
  set (s2 := aset "filter_terms" (VDict (aset a y2 d2)) s1).
  assert (E3 : alookup "filter_tags" s2 = Some (VDict d3)).
  { unfold s2, s1. now rewrite !alookup_aset_other by discriminate. }
  rewrite (copy_slot_dict a b s2 "filter_tags" d3 y3 E3 Hy3).
  set (s3 := aset "filter_tags" (VDict (aset a y3 d3)) s2).
  assert (F1 : alookup "filter" s3 = Some (VDict (aset a y1 d1))).
  { unfold s3, s2, s1. rewrite !alookup_aset_other by discriminate.
    apply alookup_aset_same. }
  rewrite (put_slot_dict tmp b s3 "filter" _ x1 F1 eq_refl).
  set (s4 := aset "filter" (VDict (aset b x1 (aset a y1 d1))) s3).
  assert (F2 : alookup "filter_terms" s4 = Some (VDict (aset a y2 d2))).
  { unfold s4, s3, s2. rewrite !alookup_aset_other by discriminate.
    apply alookup_aset_same. }
  rewrite (put_slot_dict tmp b s4 "filter_terms" _ x2 F2 eq_refl).
  set (s5 := aset "filter_terms" (VDict (aset b x2 (aset a y2 d2))) s4).
  assert (F3 : alookup "filter_tags" s5 = Some (VDict (aset a y3 d3))).
  { unfold s5, s4, s3. rewrite !alookup_aset_other by discriminate.
    apply alookup_aset_same. }
  rewrite (put_slot_dict tmp b s5 "filter_tags" _ x3 F3 eq_refl).
  eexists. split; [reflexivity|]. split; [|split; [|split]].
  - unfold s5, s4. rewrite !alookup_aset_other by discriminate.
    apply alookup_aset_same.
  - unfold s5. rewrite !alookup_aset_other by discriminate.
    apply alookup_aset_same.
  - apply alookup_aset_same.
  - intros key Hkey. unfold s5, s4, s3, s2, s1.
    rewrite !alookup_aset_other; [reflexivity| | | | | |];
      intros E; apply Hkey; rewrite E; cbn; auto.
Qed.

Lemma has_filters_slots (self : list (string * value)) (ids : list string)
      (key fid : string) :
  has_filters self ids -> In key filter_keys -> In fid ids ->
  exists d x, alookup key self = Some (VDict d) /\ alookup fid d = Some x.
Proof.
  intros H Hkey Hfid. destruct (H key Hkey) as [d [Hd Hall]].
  specialize (Hall fid Hfid). destruct (alookup fid d) as [x|] eqn:E;
    [eauto | congruence].
Qed.

(** The same, in terms of slots. *)
Lemma filter_swap_slots (self : list (string * value)) (ids : list string)
      (a b : string) :
  has_filters self ids -> In a ids -> In b ids ->
  exists self',
    filter_swap X mk self a b = (self', Ok tt)
    /\ has_filters self' ids
    /\ (forall key fid, In key filter_keys ->
          slot self' key fid
          = if String.eqb fid a then slot self key b
            else if String.eqb fid b then slot self key a
            else slot self key fid)
    /\ (forall key, ~ In key filter_keys -> alookup key self' = alookup key self).
Proof.
  intros H Ha Hb.
  destruct (has_filters_slots self ids "filter" a H) as [d1 [x1 [H1 Hx1]]];
    [cbn; auto | exact Ha |].
  destruct (has_filters_slots self ids "filter_terms" a H) as [d2 [x2 [H2 Hx2]]];
    [cbn; auto | exact Ha |].
  destruct (has_filters_slots self ids "filter_tags" a H) as [d3 [x3 [H3 Hx3]]];
    [cbn; auto | exact Ha |].
  destruct (has_filters_slots self ids "filter" b H) as [d1' [y1 [H1' Hy1]]];
    [cbn; auto | exact Hb |].
  destruct (has_filters_slots self ids "filter_terms" b H) as [d2' [y2 [H2' Hy2]]];
    [cbn; auto | exact Hb |].
  destruct (has_filters_slots self ids "filter_tags" b H) as [d3' [y3 [H3' Hy3]]];
    [cbn; auto | exact Hb |].
  rewrite H1 in H1'. injection H1' as <-.
  rewrite H2 in H2'. injection H2' as <-.
  rewrite H3 in H3'. injection H3' as <-.
  destruct (filter_swap_done self a b d1 d2 d3 x1 y1 x2 y2 x3 y3
              H1 H2 H3 Hx1 Hy1 Hx2 Hy2 Hx3 Hy3)
    as [self' [Hrun [E1 [E2 [E3 Hother]]]]].
  exists self'. split; [exact Hrun|]. split; [|split; [|exact Hother]].
  - intros key Hkey.
    destruct (H key Hkey) as [d [Hd Hall]].
    destruct Hkey as [<-|[<-|[<-|[]]]].
    + rewrite H1 in Hd. injection Hd as <-. eexists. split; [exact E1|].
      intros fid Hfid. rewrite (alookup_swapped a b fid x1 y1 d1 Hx1 Hy1).
      destruct (String.eqb fid a); [congruence|].
      destruct (String.eqb fid b); [congruence | now apply Hall].
    + rewrite H2 in Hd. injection Hd as <-. eexists. split; [exact E2|].
      intros fid Hfid. rewrite (alookup_swapped a b fid x2 y2 d2 Hx2 Hy2).
      destruct (String.eqb fid a); [congruence|].
      destruct (String.eqb fid b); [congruence | now apply Hall].
    + rewrite H3 in Hd. injection Hd as <-. eexists. split; [exact E3|].
      intros fid Hfid. rewrite (alookup_swapped a b fid x3 y3 d3 Hx3 Hy3).
      destruct (String.eqb fid a); [congruence|].
      destruct (String.eqb fid b); [congruence | now apply Hall].
  - intros key fid Hkey. unfold slot.
    destruct Hkey as [<-|[<-|[<-|[]]]].
    + rewrite E1, H1. apply alookup_swapped; assumption.
    + rewrite E2, H2. apply alookup_swapped; assumption.
    + rewrite E3, H3. apply alookup_swapped; assumption.
Qed.

End FilterSwap.

(** X16: when the three filter dicts hold both ids, [filter_swap]
    returns, and afterwards each of the three has under the first id what
    it had under the second and under the second what it had under the
    first; every other id, and every other entry of the manager, is as it
    was.  Swapping twice gives every slot its value back. *)
Theorem filter_swap_exchanges_the_slots
        (X : externs)
        (mk : kind -> string -> option string -> rules -> list value
              -> result value)
        (self : list (string * value)) (a b : string) :
  has_filters self [a; b] ->
  exists self' self'',
    filter_swap X mk self a b = (self', Ok tt)
    /\ (forall key fid, In key filter_keys ->
          slot self' key fid
          = if String.eqb fid a then slot self key b
            else if String.eqb fid b then slot self key a
            else slot self key fid)
    /\ (forall key, ~ In key filter_keys -> alookup key self' = alookup key self)
    /\ filter_swap X mk self' a b = (self'', Ok tt)
    /\ (forall key fid, In key filter_keys ->
          slot self'' key fid = slot self key fid)
    /\ (forall key, ~ In key filter_keys -> alookup key self'' = alookup key self).
Proof.
  intros H.
  destruct (filter_swap_slots X mk self [a; b] a b H)
    as [self' [Hrun [H' [Hslots Hother]]]]; [cbn; auto | cbn; auto |].
  destruct (filter_swap_slots X mk self' [a; b] a b H')
    as [self'' [Hrun' [_ [Hslots' Hother']]]]; [cbn; auto | cbn; auto |].
  exists self', self''. repeat split; auto.
  - intros key fid Hkey. rewrite (Hslots' key fid Hkey).
    rewrite !(Hslots key _ Hkey). rewrite !String.eqb_refl.
    destruct (String.eqb_spec fid a) as [->|Ha].
    + destruct (String.eqb_spec b a) as [->|]; reflexivity.
    + destruct (String.eqb_spec fid b) as [->|Hb]; [|reflexivity].
      reflexivity.
  - intros key Hkey. now rewrite Hother', Hother.
Qed.

(** Three filters, with their terms and tags. *)
Definition three_filters (c0 c1 c2 : string) : list (string * value) :=
  [("filter", VDict [("0", VStr c0); ("1", VStr c1); ("2", VStr c2)]);
   ("filter_terms", VDict [("0", VStr "from:a"); ("1", VStr "from:b");
                           ("2", VStr "from:c")]);
   ("filter_tags", VDict [("0", VStr "+1"); ("1", VStr "+2"); ("2", VStr "+3")]);
   ("tag", VDict [("1", VStr "Inbox"); ("2", VStr "Spam"); ("3", VStr "New")])].

Lemma three_filters_has (c0 c1 c2 : string) (ids : list string) :
  Forall (fun fid => In fid ["0"; "1"; "2"]) ids ->
  has_filters (three_filters c0 c1 c2) ids.
Proof.
  intros Hids key Hkey. rewrite Forall_forall in Hids.
  destruct Hkey as [<-|[<-|[<-|[]]]]; eexists; (split; [reflexivity|]);
    intros fid Hfid; specialize (Hids fid Hfid);
    destruct Hids as [<-|[<-|[<-|[]]]]; discriminate.
Qed.

Lemma filter_swap_exchanges_the_slots_witness :
  exists self' self'',
    filter_swap std (construct std 1) (three_filters "A" "B" "C") "0" "2"
    = (self', Ok tt)
    /\ (forall key fid, In key filter_keys ->
          slot self' key fid
          = if String.eqb fid "0" then slot (three_filters "A" "B" "C") key "2"
            else if String.eqb fid "2"
                 then slot (three_filters "A" "B" "C") key "0"
                 else slot (three_filters "A" "B" "C") key fid)
    /\ (forall key, ~ In key filter_keys ->
          alookup key self' = alookup key (three_filters "A" "B" "C"))
    /\ filter_swap std (construct std 1) self' "0" "2" = (self'', Ok tt)
    /\ (forall key fid, In key filter_keys ->
          slot self'' key fid = slot (three_filters "A" "B" "C") key fid)
    /\ (forall key, ~ In key filter_keys ->
          alookup key self'' = alookup key (three_filters "A" "B" "C")).
Proof.
  apply (filter_swap_exchanges_the_slots std (construct std 1)
           (three_filters "A" "B" "C") "0" "2").
  apply three_filters_has.
  repeat (apply Forall_cons || apply Forall_nil); cbn; auto.
Defined.

(** X17: [filter_swap] is not all or nothing.  When the second id is in
    [filter] but not in [filter_terms], the call raises [KeyError] for it
    after the first dict was written: [filter] now has under the first id
    what it has under the second, and what it had under the first is
    gone.  The other two dicts are as they were. *)
Theorem filter_swap_stops_half_way
        (X : externs)
        (mk : kind -> string -> option string -> rules -> list value
              -> result value)
        (self : list (string * value)) (a b : string)
        (d1 d2 d3 : list (string * value)) (x1 x2 x3 y1 : value) :
  alookup "filter" self = Some (VDict d1) ->
  alookup "filter_terms" self = Some (VDict d2) ->
  alookup "filter_tags" self = Some (VDict d3) ->
  alookup a d1 = Some x1 -> alookup a d2 = Some x2 -> alookup a d3 = Some x3 ->
  alookup b d1 = Some y1 -> alookup b d2 = None ->
  let self' := aset "filter" (VDict (aset a y1 d1)) self in
  filter_swap X mk self a b = (self', Raise (KeyError b))
  /\ slot self' "filter" a = Some y1
  /\ slot self' "filter_terms" a = Some x2
  /\ slot self' "filter_tags" a = Some x3.
Proof.
  intros H1 H2 H3 Hx1 Hx2 Hx3 Hy1 Hy2 self'.
  assert (E2 : alookup "filter_terms" self' = Some (VDict d2)).
  { unfold self'. now rewrite alookup_aset_other by discriminate. }
  assert (E3 : alookup "filter_tags" self' = Some (VDict d3)).
  { unfold self'. now rewrite alookup_aset_other by discriminate. }
  split; [|split; [|split]].
  - unfold filter_swap, filter_keys. cbn [read_all]. unfold entry.
    rewrite H1, H2, H3. cbn [bind item]. rewrite Hx1, Hx2, Hx3. cbn [bind].
    cbn [write_all].
    rewrite (copy_slot_dict X mk a b self "filter" d1 y1 H1 Hy1).
    fold self'. unfold copy_slot at 1, entry. rewrite E2. cbn [bind item].
    now rewrite Hy2.
  - unfold slot, self'. rewrite alookup_aset_same. apply alookup_aset_same.
  - unfold slot. now rewrite E2.
  - unfold slot. now rewrite E3.
Qed.

Lemma filter_swap_stops_half_way_witness :
  let self :=
    [("filter", VDict [("0", VStr "A"); ("1", VStr "B")]);
     ("filter_terms", VDict [("0", VStr "from:a")]);
     ("filter_tags", VDict [("0", VStr "+1")])] in
  let self' :=
    aset "filter" (VDict (aset "0" (VStr "B")
                               [("0", VStr "A"); ("1", VStr "B")])) self in
  filter_swap std (construct std 1) self "0" "1" = (self', Raise (KeyError "1"))
  /\ slot self' "filter" "0" = Some (VStr "B")
  /\ slot self' "filter_terms" "0" = Some (VStr "from:a")
  /\ slot self' "filter_tags" "0" = Some (VStr "+1").
Proof.
  apply (filter_swap_stops_half_way std (construct std 1)
           [("filter", VDict [("0", VStr "A"); ("1", VStr "B")]);
            ("filter_terms", VDict [("0", VStr "from:a")]);
            ("filter_tags", VDict [("0", VStr "+1")])]
           "0" "1"
           [("0", VStr "A"); ("1", VStr "B")] [("0", VStr "from:a")]
           [("0", VStr "+1")]
           (VStr "A") (VStr "from:a") (VStr "+1") (VStr "B"));
    reflexivity.
Defined.

(** *** [filter_move] *)

(** [range(a, b)] *)
Definition zrange (a b : Z) : list Z :=
  map (fun j => a + Z.of_nat j) (seq 0 (Z.to_nat (b - a))).

Section FilterMove.

Variable X : externs.
Variable mk : kind -> string -> option string -> rules -> list value
              -> result value.

(** A run of calls of [filter_swap], ended by the first that raises. *)
Fixpoint swap_each (self : list (string * value))
         (pairs : list (string * string))
  : list (string * value) * result unit :=
  match pairs with
  | [] => (self, Ok tt)
  | (a, b) :: r =>
      match filter_swap X mk self a b with
      | (self', Ok _) => swap_each self' r
      | (self', Raise e) => (self', Raise e)
      end
  end.

(** [b36(fid).lower()] *)
Definition fid_of (i : Z) : string := Text.lower (b36 X i).

(** [filter_move(filter_id, filter_new_id)].  Both ids are looked up in
    [filter] and read as base-36 numbers; then the filter is taken from
    its place to the new one by swaps of neighbours, downwards when the
    new place is lower and upwards otherwise.  [b36] is called on the
    numbers between the two ids. *)
Definition filter_move (self : list (string * value))
           (filter_id filter_new_id : string)
  : list (string * value) * result unit :=
  match (d <- entry self "filter" ;; _ <- item d filter_id ;;
         d' <- entry self "filter" ;; _ <- item d' filter_new_id ;; Ok tt) with
  | Raise e => (self, Raise e)
  | Ok _ =>
      match Num.int36_of_str filter_id with
      | None => (self, Raise OtherValueError)
      | Some forig =>
          match Num.int36_of_str filter_new_id with
          | None => (self, Raise OtherValueError)
          | Some ftarget =>
              if ftarget <? forig then
                swap_each self
                  (map (fun fid => (fid_of (fid + 1), fid_of fid))
                       (List.rev (zrange ftarget forig)))
              else
                swap_each self
                  (map (fun fid => (fid_of fid, fid_of (fid + 1)))
                       (zrange forig ftarget))
          end
      end
  end.

Variable lo : Z.
Variable ids : list string.

(** The id of the filter [j] places above [lo]. *)
Definition place (j : nat) : string := fid_of (lo + Z.of_nat j).

Definition distinct_places (k n : nat) : Prop :=
  forall i j : nat,
    (k <= i <= k + n)%nat -> (k <= j <= k + n)%nat ->
    place i = place j -> i = j.

Definition moved_up (self self' : list (string * value)) (k n : nat) : Prop :=
  (forall key, In key filter_keys ->
     slot self' key (place (k + n)) = slot self key (place k)
     /\ (forall j, (k <= j < k + n)%nat ->
           slot self' key (place j) = slot self key (place (S j)))
     /\ (forall fid, (forall j, (k <= j <= k + n)%nat -> fid <> place j) ->
           slot self' key fid = slot self key fid))
  /\ (forall key, ~ In key filter_keys -> alookup key self' = alookup key self).

Definition moved_down (self self' : list (string * value)) (k n : nat) : Prop :=
  (forall key, In key filter_keys ->
     slot self' key (place k) = slot self key (place (k + n))
     /\ (forall j, (k <= j < k + n)%nat ->
           slot self' key (place (S j)) = slot self key (place j))
     /\ (forall fid, (forall j, (k <= j <= k + n)%nat -> fid <> place j) ->
           slot self' key fid = slot self key fid))
  /\ (forall key, ~ In key filter_keys -> alookup key self' = alookup key self).

Lemma eqb_place (i j k n : nat) :
  distinct_places k n ->
  (k <= i <= k + n)%nat -> (k <= j <= k + n)%nat -> i <> j ->
  String.eqb (place i) (place j) = false.
Proof.
  intros Hd Hi Hj Hne. apply String.eqb_neq. intros E. apply Hne.
  now apply (Hd i j).
Qed.

(** The loop of the upward branch. *)
Lemma move_up (n : nat) :
  forall (k : nat) (self : list (string * value)),
    has_filters self ids ->
    (forall j, (k <= j <= k + n)%nat -> In (place j) ids) ->
    distinct_places k n ->
    exists self',
      swap_each self (map (fun j => (place j, place (S j))) (seq k n))
      = (self', Ok tt)
      /\ has_filters self' ids
      /\ moved_up self self' k n.
Proof.
  induction n as [|n IH]; intros k self Hhas Hin Hd.
  - exists self. split; [reflexivity|]. split; [exact Hhas|]. split.
    + intros key Hkey. rewrite Nat.add_0_r. repeat split; auto. intros j Hj. lia.
    + auto.
  - cbn [seq map swap_each].
    destruct (filter_swap_slots X mk self ids (place k) (place (S k)) Hhas)
      as [s1 [Hrun [Hhas1 [Hslots1 Hother1]]]];
      [apply Hin; lia | apply Hin; lia |].
    rewrite Hrun.
    destruct (IH (S k) s1 Hhas1) as [self' [Hrun' [Hhas' [Hup Hoth]]]].
    { intros j Hj. apply Hin. lia. }
    { intros i j Hi Hj. apply Hd; lia. }
    exists self'. split; [exact Hrun'|]. split; [exact Hhas'|]. split.
    + intros key Hkey. destruct (Hup key Hkey) as [Htop [Hmid Hrest]].
      split; [|split].
      * replace (k + S n)%nat with (S k + n)%nat by lia. rewrite Htop.
        rewrite (Hslots1 key _ Hkey).
        rewrite (eqb_place (S k) k k (S n) Hd) by lia.
        now rewrite String.eqb_refl.
      * intros j Hj. destruct (Nat.eq_dec j k) as [->|Hne].
        -- rewrite Hrest.
           ++ rewrite (Hslots1 key _ Hkey). now rewrite String.eqb_refl.
           ++ intros j Hj' E. apply (Hd k j) in E; lia.
        -- rewrite Hmid by lia. rewrite (Hslots1 key _ Hkey).
           rewrite (eqb_place (S j) k k (S n) Hd) by lia.
           now rewrite (eqb_place (S j) (S k) k (S n) Hd) by lia.
      * intros fid Hfid. rewrite Hrest.
        -- rewrite (Hslots1 key _ Hkey).
           destruct (String.eqb_spec fid (place k)) as [E|_];
             [exfalso; apply (Hfid k); [lia | exact E]|].
           destruct (String.eqb_spec fid (place (S k))) as [E|_];
             [exfalso; apply (Hfid (S k)); [lia | exact E]|].
           reflexivity.
        -- intros j Hj. apply Hfid. lia.
    + intros key Hkey. now rewrite Hoth, Hother1.
Qed.

(** The loop of the downward branch. *)
Lemma move_down (n : nat) :
  forall (k : nat) (self : list (string * value)),
    has_filters self ids ->
    (forall j, (k <= j <= k + n)%nat -> In (place j) ids) ->
    distinct_places k n ->
    exists self',
      swap_each self (map (fun j => (place (S j), place j)) (List.rev (seq k n)))
      = (self', Ok tt)
      /\ has_filters self' ids
      /\ moved_down self self' k n.
Proof.
  induction n as [|n IH]; intros k self Hhas Hin Hd.
  - exists self. split; [reflexivity|]. split; [exact Hhas|]. split.
    + intros key Hkey. rewrite Nat.add_0_r. repeat split; auto. intros j Hj. lia.
    + auto.
  - rewrite seq_S, rev_app_distr. cbn [List.rev List.app map swap_each].
    destruct (filter_swap_slots X mk self ids (place (S (k + n))) (place (k + n))
                Hhas)
      as [s1 [Hrun [Hhas1 [Hslots1 Hother1]]]];
      [apply Hin; lia | apply Hin; lia |].
    rewrite Hrun.
    destruct (IH k s1 Hhas1) as [self' [Hrun' [Hhas' [Hdown Hoth]]]].
    { intros j Hj. apply Hin. lia. }
    { intros i j Hi Hj. apply Hd; lia. }
    exists self'. split; [exact Hrun'|]. split; [exact Hhas'|]. split.
    + intros key Hkey. destruct (Hdown key Hkey) as [Hbot [Hmid Hrest]].
      split; [|split].
      * rewrite Hbot. rewrite (Hslots1 key _ Hkey).
        rewrite (eqb_place (k + n) (S (k + n)) k (S n) Hd) by lia.
        rewrite String.eqb_refl.
        now replace (k + S n)%nat with (S (k + n)) by lia.
      * intros j Hj. destruct (Nat.eq_dec j (k + n)) as [->|Hne].
        -- rewrite Hrest.
           ++ rewrite (Hslots1 key _ Hkey). now rewrite String.eqb_refl.
           ++ intros j Hj' E. apply (Hd (S (k + n)) j) in E; lia.
        -- rewrite Hmid by lia. rewrite (Hslots1 key _ Hkey).
           rewrite (eqb_place j (S (k + n)) k (S n) Hd) by lia.
           now rewrite (eqb_place j (k + n) k (S n) Hd) by lia.
      * intros fid Hfid. rewrite Hrest.
        -- rewrite (Hslots1 key _ Hkey).
           destruct (String.eqb_spec fid (place (S (k + n)))) as [E|_];
             [exfalso; apply (Hfid (S (k + n))); [lia | exact E]|].
           destruct (String.eqb_spec fid (place (k + n))) as [E|_];
             [exfalso; apply (Hfid (k + n)%nat); [lia | exact E]|].
           reflexivity.
        -- intros j Hj. apply Hfid. lia.
    + intros key Hkey. now rewrite Hoth, Hother1.
Qed.

End FilterMove.

Lemma zrange_places (a : Z) (n : nat) :
  zrange a (a + Z.of_nat n) = map (fun j => a + Z.of_nat j) (seq 0 n).
Proof.
  unfold zrange. replace (a + Z.of_nat n - a) with (Z.of_nat n) by lia.
  now rewrite Nat2Z.id.
Qed.

(** X18: [filter_move] takes a filter to a new place and shifts the
    filters between the two places by one.  When the three dicts hold the
    ids of the places [lo] to [lo + n], as [b36] writes them in lower
    case, and [int(., 36)] reads each of these ids as its number, moving
    the lowest id to the highest leaves under the highest what was under
    the lowest and under every other place what was one above it; moving
    the highest to the lowest leaves under the lowest what was under the
    highest and under every other place what was one below it.  Every
    other id and every other entry of the manager keeps its value. *)
Theorem filter_move_shifts_the_places_between
        (X : externs)
        (mk : kind -> string -> option string -> rules -> list value
              -> result value)
        (self : list (string * value)) (lo : Z) (n : nat) :
  (forall j : nat, (j <= n)%nat ->
     Num.int36_of_str (place X lo j) = Some (lo + Z.of_nat j)) ->
  has_filters self (map (place X lo) (seq 0 (S n))) ->
  exists up down,
    filter_move X mk self (place X lo 0) (place X lo n) = (up, Ok tt)
    /\ moved_up X lo self up 0 n
    /\ filter_move X mk self (place X lo n) (place X lo 0) = (down, Ok tt)
    /\ moved_down X lo self down 0 n.
Proof.
  intros Hread Hhas.
  set (ids := map (place X lo) (seq 0 (S n))) in *.
  assert (Hin : forall j, (0 <= j <= 0 + n)%nat -> In (place X lo j) ids).
  { intros j Hj. apply in_map, in_seq. lia. }
  assert (Hd : distinct_places X lo 0 n).
  { intros i j Hi Hj E.
    pose proof (Hread i ltac:(lia)) as Ri. pose proof (Hread j ltac:(lia)) as Rj.
    rewrite E, Rj in Ri. injection Ri as Ri. lia. }
  destruct (move_up X mk lo ids n 0%nat self Hhas Hin Hd)
    as [up [Hup [_ Mup]]].
  destruct (move_down X mk lo ids n 0%nat self Hhas Hin Hd)
    as [down [Hdown [_ Mdown]]].
  exists up, down.
  destruct (has_filters_slots self ids "filter" (place X lo 0) Hhas)
    as [d [x0 [Hf H0]]]; [cbn; auto | apply Hin; lia |].
  destruct (has_filters_slots self ids "filter" (place X lo n) Hhas)
    as [d' [xn [Hf' Hn]]]; [cbn; auto | apply Hin; lia |].
  rewrite Hf in Hf'. injection Hf' as <-.
  pose proof (Hread 0%nat ltac:(lia)) as R0.
  pose proof (Hread n ltac:(lia)) as Rn.
  split; [|split; [exact Mup|split; [|exact Mdown]]].
  - unfold filter_move, entry. rewrite Hf. cbn [bind item]. rewrite H0, Hn.
    cbn [bind]. rewrite R0, Rn.
    replace (lo + Z.of_nat n <? lo + Z.of_nat 0) with false
      by (symmetry; apply Z.ltb_ge; lia).
    replace (lo + Z.of_nat n) with (lo + Z.of_nat 0 + Z.of_nat n) by lia.
    rewrite zrange_places, map_map. rewrite <- Hup. f_equal.
    apply map_ext. intros j. unfold place. f_equal; f_equal; lia.
  - unfold filter_move, entry. rewrite Hf. cbn [bind item]. rewrite Hn, H0.
    cbn [bind]. rewrite Rn, R0.
    destruct n as [|n'].
    + cbn [Z.of_nat]. rewrite Z.ltb_irrefl.
      unfold zrange. rewrite Z.sub_diag. cbn [Z.to_nat seq map swap_each].
      cbn [seq List.rev map swap_each] in Hdown. exact Hdown.
    + replace (lo + Z.of_nat 0 <? lo + Z.of_nat (S n')) with true
        by (symmetry; apply Z.ltb_lt; lia).
      replace (lo + Z.of_nat (S n'))
        with (lo + Z.of_nat 0 + Z.of_nat (S n')) by lia.
      rewrite zrange_places, <- map_rev, map_map. rewrite <- Hdown. f_equal.
      apply map_ext. intros j. unfold place. f_equal; f_equal; lia.
Qed.

Lemma filter_move_shifts_the_places_between_witness :
  exists up down,
    filter_move std (construct std 1) (three_filters "A" "B" "C") "0" "2"
    = (up, Ok tt)
    /\ moved_up std 0 (three_filters "A" "B" "C") up 0 2
    /\ filter_move std (construct std 1) (three_filters "A" "B" "C") "2" "0"
       = (down, Ok tt)
    /\ moved_down std 0 (three_filters "A" "B" "C") down 0 2.
Proof.
  apply (filter_move_shifts_the_places_between std (construct std 1)
           (three_filters "A" "B" "C") 0 2).
  - intros j Hj. destruct j as [|[|[|j]]]; [reflexivity .. | lia].
  - apply three_filters_has.
    repeat (apply Forall_cons || apply Forall_nil); cbn; auto.
Defined.

(** The filters after the two moves of the example. *)
Lemma filter_move_example :
  filter_move std (construct std 1) (three_filters "A" "B" "C") "0" "2"
  = ([("filter", VDict [("0", VStr "B"); ("1", VStr "C"); ("2", VStr "A")]);
      ("filter_terms", VDict [("0", VStr "from:b"); ("1", VStr "from:c");
                              ("2", VStr "from:a")]);
      ("filter_tags", VDict [("0", VStr "+2"); ("1", VStr "+3"); ("2", VStr "+1")]);
      ("tag", VDict [("1", VStr "Inbox"); ("2", VStr "Spam"); ("3", VStr "New")])],
     Ok tt)
  /\ filter_move std (construct std 1) (three_filters "A" "B" "C") "2" "0"
     = ([("filter", VDict [("0", VStr "C"); ("1", VStr "A"); ("2", VStr "B")]);
         ("filter_terms", VDict [("0", VStr "from:c"); ("1", VStr "from:a");
                                 ("2", VStr "from:b")]);
         ("filter_tags", VDict [("0", VStr "+3"); ("1", VStr "+1");
                                ("2", VStr "+2")]);
         ("tag", VDict [("1", VStr "Inbox"); ("2", VStr "Spam");
                        ("3", VStr "New")])],
        Ok tt).
Proof. split; vm_compute; reflexivity. Qed.

(** ** Rules that cannot be declared *)

Section Declaring.

Variable X : externs.
Variable mk : kind -> string -> option string -> rules -> list value
              -> result value.

Lemma set_rules_app (a b : rules) :
  forall c : value,
    set_rules X mk c (a ++ b)%list
    = (c' <- set_rules X mk c a ;; set_rules X mk c' b).
Proof.
  induction a as [|[k r] a IH]; intros c; [reflexivity|].
  cbn [List.app set_rules].
  destruct (add_rule X mk c k r) as [c1|e]; [apply IH | reflexivity].
Qed.

(** Every rule that [set_rules] was given is in the rules afterwards. *)
Lemma set_rules_enters (rs0 : rules) :
  forall m rs a d c' (k : string) (r : rule),
    set_rules X mk (VCDict m rs a d) rs0 = Ok c' ->
    alookup k rs0 = Some r ->
    exists rs' a' d', c' = VCDict m rs' a' d' /\ alookup k rs' <> None.
Proof.
  induction rs0 as [|[key r0] rs0 IH]; intros m rs a d c' k r H Hk.
  - discriminate.
  - cbn [set_rules] in H.
    destruct (add_rule X mk (VCDict m rs a d) key r0) as [c1|] eqn:E;
      [|discriminate].
    cbn [bind] in H.
    destruct (add_rule_rules X mk _ _ _ _ _ _ _ E)
      as [Hnew [ck [a1 [d1 [-> Hck]]]]].
    cbn [alookup] in Hk. destruct (String.eqb_spec k key) as [->|Hne].
    + destruct (set_rules_keeps X mk rs0 _ _ _ _ c' key _ H
                  (alookup_aset_same key _ rs))
        as [rs' [a' [d' [-> Hr]]]].
      exists rs', a', d'. split; [reflexivity | congruence].
    + eapply IH; eauto.
Qed.

(** Under a wildcard every attribute of a mapping can be read. *)
Lemma hasattr_under_wildcard m rs a d (key : string) :
  alookup "_any" rs <> None -> hasattr (VCDict m rs a d) key = true.
Proof.
  intros Hany. unfold hasattr, getattr.
  destruct (plain_attr (VCDict m rs a d) key); [reflexivity|].
  cbn [kind_of fixkey key_in_rules rules_of].
  assert (Hw : amem "_any" rs = true).
  { unfold amem. destruct (alookup "_any" rs); congruence. }
  rewrite Hw, orb_true_r. unfold getitem. cbn [key_in_rules].
  rewrite Hw, orb_true_r. unfold get.
  destruct (alookup key d); [reflexivity|].
  destruct (alookup key rs); reflexivity.
Qed.

End Declaring.

(** X19: no rule can be added to a mapping after a wildcard rule.
    [add_rule] asserts that the key is no attribute of the container, and
    once the rules have [_any], [__getattr__] answers for every name.  So
    a rule set that has a wildcard and a key that is added after it cannot
    be made into a [ConfigDict]: the call ends with [AssertionError]. *)
Theorem no_rule_after_wildcard
        (X : externs) (fuel : nat) (name : string) (comment : option string)
        (before after : rules) (key : string) (r : rule) (args : list value)
        (c : value) :
  construct X fuel KDict name comment before [] = Ok c ->
  alookup "_any" before <> None ->
  construct X fuel KDict name comment (before ++ (key, r) :: after)%list args
  = Raise AssertionError.
Proof.
  intros Hc Hany. destruct fuel as [|f]; [discriminate|].
  cbn [construct] in *. unfold init in *.
  destruct (set_rules X (construct X f) _ before) as [c1|] eqn:E;
    [|discriminate].
  rewrite set_rules_app, E. cbn [bind set_rules].
  destruct (alookup "_any" before) as [r0|] eqn:E0; [|congruence].
  destruct (set_rules_enters X (construct X f) before _ _ _ _ c1 "_any" r0 E E0)
    as [rs1 [a1 [d1 [-> Hr]]]].
  unfold add_rule. destruct (clean_key X key); cbn [negb]; [|reflexivity].
  now rewrite (hasattr_under_wildcard _ rs1 a1 d1 key Hr).
Qed.

Lemma no_rule_after_wildcard_witness :
  construct std 1 KDict "config" None
            ([("_any", Rule "Data directory" CkUnicode (DScalar (SStr "")))]
             ++ [("count", Rule "desc" CkInt (DScalar (SInt 0)))])%list
            []
  = Raise AssertionError.
Proof.
  apply (no_rule_after_wildcard std 1 "config" None
           [("_any", Rule "Data directory" CkUnicode (DScalar (SStr "")))] []
           "count" (Rule "desc" CkInt (DScalar (SInt 0))) []
           (paths_config [])).
  - reflexivity.
  - discriminate.
Defined.

(** ** The name of a mapping stored in a wildcard mapping *)

Section Naming.

Variable X : externs.
Variable mk : kind -> string -> option string -> rules -> list value
              -> result value.

Lemma add_rule_fields m rs a d (key : string) (r : rule) (c' : value) :
  add_rule X mk (VCDict m rs a d) key r = Ok c' ->
  exists ck d',
    c' = VCDict m (aset key (Rule (rule_comment r) ck (rule_default r)) rs) a d'.
Proof.
  unfold add_rule. destruct (negb (clean_key X key)); [discriminate|].
  destruct (hasattr (VCDict m rs a d) key); [discriminate|].
  cbn [name_of meta_of rules_of with_rules]. intros H.
  destruct (rule_default r) as [s|drs| |] eqn:Hd.
  - injection H as <-. eauto.
  - destruct (mk KDict _ _ _ _) as [child|]; [|discriminate].
    cbn [bind raw_setitem] in H. injection H as <-. eauto.
  - destruct (mk KList _ _ _ _) as [child|]; [|discriminate].
    cbn [bind raw_setitem] in H. injection H as <-. eauto.
  - discriminate.
Qed.

(** [set_rules] keeps the fields and the attributes, and enters no rule
    under a key it was not given. *)
Lemma set_rules_fields (rs0 : rules) :
  forall m rs a d c',
    set_rules X mk (VCDict m rs a d) rs0 = Ok c' ->
    exists rs' d',
      c' = VCDict m rs' a d'
      /\ forall k, alookup k rs = None -> alookup k rs0 = None ->
                   alookup k rs' = None.
Proof.
  induction rs0 as [|[key r0] rs0 IH]; intros m rs a d c' H.
  - injection H as <-. eauto.
  - cbn [set_rules] in H.
    destruct (add_rule X mk (VCDict m rs a d) key r0) as [c1|] eqn:E;
      [|discriminate].
    cbn [bind] in H.
    destruct (add_rule_fields _ _ _ _ _ _ _ E) as [ck [d1 ->]].
    destruct (IH _ _ _ _ _ H) as [rs' [d' [-> Hnone]]].
    exists rs', d'. split; [reflexivity|].
    intros k Hk Hk0. cbn [alookup] in Hk0.
    destruct (String.eqb_spec k key) as [->|Hne]; [discriminate|].
    apply Hnone; [|exact Hk0]. now rewrite alookup_aset_other.
Qed.

Lemma update_same_fields m rs a d args :
  exists d', fst (update X mk (VCDict m rs a d) args) = VCDict m rs a d'.
Proof.
  apply (update_keeps X mk (fun c => exists d', c = VCDict m rs a d')).
  - intros c key v [d1 ->]. unfold assign.
    destruct (setitem X mk (VCDict m rs a d1) key v) as [c1|e] eqn:E.
    + destruct (setitem_dict_inv X mk _ _ _ _ _ _ _ E)
        as [s [r [v1 [v2 [_ [_ [_ [_ ->]]]]]]]]. cbn [fst]. eauto.
    + cbn [fst]. eauto.
  - intros c v [d1 ->]. cbn [append fst]. eauto.
  - eauto.
Qed.

End Naming.

(** What [ConfigDict] returns: a mapping with the name it was given, no
    attribute of its own, and rules only under the keys of the rule
    set. *)
Lemma construct_dict_fields (X : externs) (fuel : nat) (name : string)
      (comment : option string) (rs : rules) (args : list value) (c : value) :
  construct X fuel KDict name comment rs args = Ok c ->
  exists rs' d',
    c = VCDict (Meta name name comment) rs' [] d'
    /\ forall k, alookup k rs = None -> alookup k rs' = None.
Proof.
  intros Hc. destruct fuel as [|f]; [discriminate|].
  cbn [construct] in Hc. unfold init in Hc.
  destruct (set_rules X (construct X f) _ rs) as [c1|] eqn:E; [|discriminate].
  cbn [bind] in Hc.
  destruct (set_rules_fields X (construct X f) rs _ _ _ _ c1 E)
    as [rs1 [d1 [-> Hnone]]].
  destruct (update_same_fields X (construct X f) (Meta name name comment)
              rs1 [] d1 args) as [d2 Hu].
  destruct (update X (construct X f) _ args) as [c2 [u|e]]; [|discriminate].
  injection Hc as <-. cbn [fst] in Hu. subst c2.
  exists rs1, d2. split; [reflexivity|]. intros k Hk. now apply Hnone.
Qed.

(** X20: a dict assigned under a new key of a wildcard mapping whose
    checker is a dict of rules is stored as a [ConfigDict] of those rules,
    but it is not told its key: [RC.__passkey__] renames a value only if
    it has an attribute [key], and the new mapping has none unless its
    rules have a rule [key] or a wildcard.  It keeps the name [config] of
    its class, and the section it writes itself to is [config], the
    section of a root. *)
Theorem mapping_under_wildcard_is_not_named
        (X : externs) (fuel : nat)
        (m : meta) (rs : rules) (a d : list (string * value))
        (k : string) (v : value) (r : rule) (crs : rules) (sub : value) :
  alookup k rs = None ->
  alookup "_any" rs = Some r ->
  rule_checker r = CkClass KDict crs ->
  alookup "key" crs = None -> alookup "_any" crs = None ->
  construct X fuel KDict "config" None crs [v] = Ok sub ->
  setitem X (construct X fuel) (VCDict m rs a d) (KStr k) v
  = Ok (VCDict m rs a (aset k sub d))
  /\ name_of sub = "config"
  /\ section_of sub = "config".
Proof.
  intros Hk Hany Hck Hkey Hwild Hsub.
  destruct (construct_dict_fields X fuel "config" None crs [v] sub Hsub)
    as [rs' [d' [-> Hnone]]].
  split; [|split; reflexivity].
  unfold setitem, get_rule. cbn [fixkey]. rewrite Hk, Hany. cbn [bind].
  rewrite Hck. cbn [check_value is_callable call_checker class_name].
  rewrite Hsub. cbn [bind]. unfold passkey, hasattr, getattr.
  replace (plain_attr (VCDict (Meta "config" "config" None) rs' [] d') "key")
    with (@None value) by reflexivity.
  cbn [kind_of fixkey key_in_rules rules_of]. unfold amem.
  now rewrite (Hnone "key" Hkey), (Hnone "_any" Hwild).
Qed.

(** A mapping of mappings, as [ConfigDict] makes one for a rule whose
    checker is a dict of rules and whose default is a dict. *)
Definition boxes (d : list (string * value)) : value :=
  VCDict (Meta "config/boxes" "config/boxes" (Some "Boxes"))
         [("_any", Rule "Boxes" (CkClass KDict tag_rules) (DScalar SNone))]
         [] d.

Lemma mapping_under_wildcard_is_not_named_witness :
  setitem std (construct std 2) (boxes []) (KStr "work")
          (VDict [("name", VStr "Work")])
  = Ok (boxes [("work",
                VCDict (Meta "config" "config" None) tag_rules []
                       [("name", VStr "Work")])])
  /\ name_of (VCDict (Meta "config" "config" None) tag_rules []
                     [("name", VStr "Work")]) = "config"
  /\ section_of (VCDict (Meta "config" "config" None) tag_rules []
                        [("name", VStr "Work")]) = "config".
Proof.
  apply (mapping_under_wildcard_is_not_named std 2
           (Meta "config/boxes" "config/boxes" (Some "Boxes"))
           [("_any", Rule "Boxes" (CkClass KDict tag_rules) (DScalar SNone))]
           [] [] "work" (VDict [("name", VStr "Work")])
           (Rule "Boxes" (CkClass KDict tag_rules) (DScalar SNone))
           tag_rules
           (VCDict (Meta "config" "config" None) tag_rules []
                   [("name", VStr "Work")]));
    reflexivity.
Defined.

(** ** Checkers that are no constraint *)

(** What [__setitem__] takes for a constraint: [True], [False], a value
    set, a type or a function. *)
Definition is_constraint (ck : checker) : bool :=
  match ck with
  | CkTrue | CkFalse | CkSet _ => true
  | _ => is_callable ck
  end.

Section Unknown.

Variable X : externs.
Variable mk : kind -> string -> option string -> rules -> list value
              -> result value.

Lemma set_rules_scalar (rs0 : rules) :
  forall m rs a d c' (k : string) (r : rule) (s : scalar),
    set_rules X mk (VCDict m rs a d) rs0 = Ok c' ->
    alookup k rs0 = Some r ->
    rule_default r = DScalar s ->
    exists rs' a' d',
      c' = VCDict m rs' a' d'
      /\ alookup k rs'
         = Some (Rule (rule_comment r) (resolve_check (rule_checker r))
                      (DScalar s)).
Proof.
  induction rs0 as [|[key r0] rs0 IH]; intros m rs a d c' k r s H Hk Hs.
  - discriminate.
  - cbn [set_rules] in H.
    destruct (add_rule X mk (VCDict m rs a d) key r0) as [c1|] eqn:E;
      [|discriminate].
    cbn [bind] in H. cbn [alookup] in Hk.
    destruct (String.eqb_spec k key) as [->|Hne].
    + injection Hk as ->. unfold add_rule in E.
      destruct (negb (clean_key X key)); [discriminate|].
      destruct (hasattr (VCDict m rs a d) key); [discriminate|].
      rewrite Hs in E. injection E as <-.
      cbn [with_rules rules_of] in H.
      eapply set_rules_keeps; [exact H|]. apply alookup_aset_same.
    + destruct (add_rule_rules X mk _ _ _ _ _ _ _ E)
        as [_ [ck [a1 [d1 [-> _]]]]].
      eapply IH; eauto.
Qed.

Lemma check_value_unknown (path : string) (ck : checker) (v : value) :
  is_constraint ck = false ->
  check_value X mk path ck v = Raise (UnknownConstraint path).
Proof. destruct ck; cbn; intros H; try discriminate; reflexivity. Qed.

End Unknown.

(** X21: a rule whose checker [RULE_CHECK_MAP] does not turn into a
    type, a function, [True], [False] or a value set (a tag it does not
    know, or a dict of rules beside a scalar default) is accepted when the
    mapping is made, but its key can never be assigned: [__setitem__]
    raises the plain [Exception] "Unknown constraint" for every value.
    [parse_config] catches [ValueError] and [KeyError] only, so a variable
    for such a key ends the load with that exception, the tree as it
    was. *)
Theorem unknown_constraint_ends_the_load
        (X : externs) (fuel fuel' : nat) (session : bool) (source : string)
        (name : string) (comment : option string) (rs : rules)
        (args : list value) (c : value) (k : string) (r : rule) (s : scalar)
        (section : string) (val : string) (w : list string) (ok : bool) :
  construct X fuel KDict name comment rs args = Ok c ->
  alookup k rs = Some r ->
  rule_default r = DScalar s ->
  is_constraint (resolve_check (rule_checker r)) = false ->
  (forall v, setitem X (construct X fuel') c (KStr k) v
             = Raise (UnknownConstraint (name ++ "/" ++ k)))
  /\ set_var X fuel' session source section (Here []) (Load c w ok) (k, val)
     = (Load c w ok, Raise (UnknownConstraint (name ++ "/" ++ k))).
Proof.
  intros Hc Hk Hs Hck. destruct fuel as [|f]; [discriminate|].
  cbn [construct] in Hc. unfold init in Hc.
  destruct (set_rules X (construct X f) _ rs) as [c1|] eqn:E; [|discriminate].
  cbn [bind] in Hc.
  destruct (set_rules_scalar X (construct X f) rs _ _ _ _ c1 k r s E Hk Hs)
    as [rs1 [a1 [d1 [-> Hr]]]].
  destruct (update_same_rules X (construct X f) (Meta name name comment)
              rs1 a1 d1 args) as [a2 [d2 Hu]].
  destruct (update X (construct X f) _ args) as [c2 [u|e]]; [|discriminate].
  injection Hc as <-. cbn [fst] in Hu. subst c2.
  assert (Hset : forall v,
             setitem X (construct X fuel')
                     (VCDict (Meta name name comment) rs1 a2 d2) (KStr k) v
             = Raise (UnknownConstraint (name ++ "/" ++ k))).
  { intros v. unfold setitem, get_rule. cbn [fixkey]. rewrite Hr. cbn [bind].
    cbn [rule_checker]. now rewrite check_value_unknown. }
  split; [exact Hset|].
  unfold set_var. cbn [l_root at_path fst snd]. unfold setitem_.
  now rewrite Hset.
Qed.

Lemma unknown_constraint_ends_the_load_witness :
  (forall v,
      setitem std (construct std 1)
              (VCDict (Meta "config" "config" None)
                      [("homepage", Rule "Home page" (CkTag "url")
                                         (DScalar (SStr "")))] [] [])
              (KStr "homepage") v
      = Raise (UnknownConstraint "config/homepage"))
  /\ set_var std 1 true "internal" "config" (Here [])
             (Load (VCDict (Meta "config" "config" None)
                           [("homepage", Rule "Home page" (CkTag "url")
                                              (DScalar (SStr "")))] [] [])
                   [] true)
             ("homepage", "http://example.com/")
     = (Load (VCDict (Meta "config" "config" None)
                     [("homepage", Rule "Home page" (CkTag "url")
                                        (DScalar (SStr "")))] [] [])
             [] true,
        Raise (UnknownConstraint "config/homepage")).
Proof.
  apply (unknown_constraint_ends_the_load std 1 1 true "internal"
           "config" None
           [("homepage", Rule "Home page" (CkTag "url") (DScalar (SStr "")))]
           []
           (VCDict (Meta "config" "config" None)
                   [("homepage", Rule "Home page" (CkTag "url")
                                      (DScalar (SStr "")))] [] [])
           "homepage"
           (Rule "Home page" (CkTag "url") (DScalar (SStr ""))) (SStr "")
           "config" "http://example.com/" [] true);
    reflexivity.
Defined.

(** ** Tags and mailboxes of [outdatedConfigManager] *)

(** [v.lower()]: text has the method, and a container answers for the
    name only with a stored value, which cannot be called. *)
Definition lower_of (v : value) : result string :=
  match v with
  | VStr s => Ok (Text.lower s)
  | VCDict _ _ _ _ | VCList _ _ _ _ =>
      match getattr v "lower" with
      | Ok _ => Raise TypeError
      | Raise e => Raise e
      end
  | _ => Raise (AttributeError "lower")
  end.

Section Tags.

Variable X : externs.

(** [tags[t]] for an element [t] of the iteration over [tags]: a key of a
    dict, or an element of a list, which is an index when it is a
    number. *)
Definition item_of (tags t : value) : result value :=
  match t with
  | VStr k => item tags k
  | VInt _ | VBool _ =>
      let z := match t with
               | VInt z => z
               | VBool true => 1
               | _ => 0
               end in
      match tags with
      | VList l => list_getitem l (KInt z)
      | VCList _ _ _ _ | VCDict _ _ _ _ => getitem tags (KInt z)
      | VDict _ => Raise (KeyError (Num.str_of_Z z))
      | _ => Raise TypeError
      end
  | _ =>
      match tags with
      | VDict _ => Raise (KeyError (py_unicode X t))
      | _ => Raise TypeError
      end
  end.

(** [[t for t in tags if tags[t].lower() == tn]] *)
Fixpoint matching (tags : value) (tn : string) (ts : list value)
  : result (list value) :=
  match ts with
  | [] => Ok []
  | t :: r =>
      x <- item_of tags t ;;
      name <- lower_of x ;;
      rest <- matching tags tn r ;;
      Ok (if String.eqb name tn then t :: rest else rest)
  end.

(** [get_tag_id(tn)]: the first id whose tag has the name, in any case of
    letters; [None] when there is none, when the manager has no tags, and
    when the first id found is empty ([tid and tid[0] or None]). *)
Definition get_tag_id (self : list (string * value)) (tn : string)
  : result value :=
  let tn := Text.lower tn in
  match (tags <- entry self "tag" ;;
         ts <- iter_values tags ;;
         tid <- matching tags tn ts ;;
         Ok (match tid with
             | t :: _ => if truthy t then t else VNone
             | [] => VNone
             end)) with
  | Raise (KeyError _) => Ok VNone
  | r => r
  end.

(** Does the tag under [k] have the name [tn]? *)
Definition named (d : list (string * value)) (tn k : string) : bool :=
  match alookup k d with
  | Some (VStr s) => String.eqb (Text.lower s) tn
  | _ => false
  end.

Lemma matching_names (d : list (string * value)) (tn : string)
      (ks : list string) :
  (forall k, In k ks -> exists s, alookup k d = Some (VStr s)) ->
  matching (VDict d) tn (map VStr ks)
  = Ok (map VStr (filter (named d tn) ks)).
Proof.
  induction ks as [|k ks IH]; intros H; [reflexivity|].
  cbn [map matching item_of item filter].
  destruct (H k (or_introl eq_refl)) as [s Hs]. unfold named at 1.
  rewrite Hs. cbn [bind lower_of].
  rewrite IH by (intros k' Hk'; apply H; now right). cbn [bind].
  now destruct (String.eqb (Text.lower s) tn).
Qed.

Lemma alookup_in {A} (k : string) (a : A) (d : list (string * A)) :
  alookup k d = Some a -> In (k, a) d.
Proof.
  induction d as [|[k1 a1] d IH]; [discriminate|]. cbn [alookup].
  destruct (String.eqb_spec k k1) as [->|].
  - intros [= ->]. now left.
  - intros H. right. now apply IH.
Qed.

Lemma text_names (d : list (string * value)) :
  Forall (fun kv => exists s, snd kv = VStr s) d ->
  forall k, In k (map fst d) -> exists s, alookup k d = Some (VStr s).
Proof.
  intros Hd k Hk. destruct (alookup k d) as [v|] eqn:E.
  - apply alookup_in in E. rewrite Forall_forall in Hd.
    destruct (Hd _ E) as [s Hs]. cbn in Hs. subst v. eauto.
  - apply alookup_none_not_in in E. contradiction.
Qed.

End Tags.

(** X22: for a manager whose tags are a dict of names, [get_tag_id]
    returns either [None] or an id that is not empty and whose tag has the
    name asked for, letters compared without their case.  When a tag has
    the name and no id is empty, it does return an id; a tag under the
    empty id is never found. *)
Theorem get_tag_id_finds_a_tag_of_that_name
        (X : externs) (self : list (string * value))
        (d : list (string * value)) (tn : string) :
  alookup "tag" self = Some (VDict d) ->
  Forall (fun kv => exists s, snd kv = VStr s) d ->
  exists res,
    get_tag_id X self tn = Ok res
    /\ (res = VNone
        \/ exists t name,
            res = VStr t /\ t <> ""
            /\ alookup t d = Some (VStr name)
            /\ Text.lower name = Text.lower tn)
    /\ (forall t name,
          alookup t d = Some (VStr name) ->
          Text.lower name = Text.lower tn ->
          ~ In "" (map fst d) ->
          res <> VNone).
Proof.
  intros Htag Hd. unfold get_tag_id, entry. rewrite Htag.
  cbn [bind iter_values].
  replace (map (fun kv : string * value => VStr (fst kv)) d)
    with (map VStr (map fst d)) by now rewrite map_map.
  rewrite (matching_names X d (Text.lower tn) (map fst d) (text_names d Hd)).
  cbn [bind].
  destruct (filter (named d (Text.lower tn)) (map fst d)) as [|t ts] eqn:E.
  - exists VNone. split; [reflexivity|]. split; [now left|].
    intros t name Ht Hname _. exfalso.
    assert (Hin : In t (filter (named d (Text.lower tn)) (map fst d))).
    { apply filter_In. split.
      - apply alookup_in in Ht. now apply (in_map fst) in Ht.
      - unfold named. rewrite Ht, Hname. apply String.eqb_refl. }
    now rewrite E in Hin.
  - assert (Hin : In t (filter (named d (Text.lower tn)) (map fst d)))
      by (rewrite E; now left).
    apply filter_In in Hin as [Hkey Hnamed].
    cbn [map truthy].
    destruct (String.eqb_spec t "") as [->|Hne]; cbn [negb].
    + exists VNone. split; [reflexivity|]. split; [now left|].
      intros t name _ _ Hempty. contradiction.
    + exists (VStr t). split; [reflexivity|]. split; [|discriminate].
      right. unfold named in Hnamed.
      destruct (alookup t d) as [[]|] eqn:Ht; try discriminate.
      apply String.eqb_eq in Hnamed. eauto 6.
Qed.

Lemma get_tag_id_finds_a_tag_of_that_name_witness :
  exists res,
    get_tag_id std (three_filters "A" "B" "C") "SPAM" = Ok res
    /\ (res = VNone
        \/ exists t name,
            res = VStr t /\ t <> ""
            /\ alookup t [("1", VStr "Inbox"); ("2", VStr "Spam");
                          ("3", VStr "New")] = Some (VStr name)
            /\ Text.lower name = Text.lower "SPAM")
    /\ (forall t name,
          alookup t [("1", VStr "Inbox"); ("2", VStr "Spam");
                     ("3", VStr "New")] = Some (VStr name) ->
          Text.lower name = Text.lower "SPAM" ->
          ~ In "" (map fst [("1", VStr "Inbox"); ("2", VStr "Spam");
                            ("3", VStr "New")]) ->
          res <> VNone).
Proof.
  apply (get_tag_id_finds_a_tag_of_that_name std (three_filters "A" "B" "C")
           [("1", VStr "Inbox"); ("2", VStr "Spam"); ("3", VStr "New")] "SPAM").
  - reflexivity.
  - repeat constructor; cbn; eauto.
Defined.

(** The id of the example, and what an empty id does. *)
Lemma get_tag_id_example :
  get_tag_id std (three_filters "A" "B" "C") "SPAM" = Ok (VStr "2")
  /\ get_tag_id std [("tag", VDict [("", VStr "Spam"); ("2", VStr "Spam")])]
                "spam" = Ok VNone.
Proof. split; reflexivity. Qed.

(** *** [get_mailboxes] *)

(** [l.sort()] for a list of texts *)
Fixpoint insert_text (k : string) (l : list string) : list string :=
  match l with
  | [] => [k]
  | x :: r => if Text.ltb x k then x :: insert_text k r else k :: l
  end.

Definition sort_texts (l : list string) : list string :=
  fold_right insert_text [] l.

(** [s[-n:]]: the last [n] characters, all of [s] when it has no more;
    [-0] is [0], so for [n = 0] the slice is all of [s]. *)
Fixpoint drop_chars (n : nat) (s : string) : string :=
  match n, s with
  | O, _ => s
  | S n', String _ r => drop_chars n' r
  | S _, EmptyString => EmptyString
  end.

Definition last_chars (n : nat) (s : string) : string :=
  match n with
  | O => s
  | _ => drop_chars (String.length s - n) s
  end.

(** ['0' * n] *)
Definition zeros (n : nat) : string := string_of_list_ascii (repeat "0"%char n).

Section Mailboxes.

Variable X : externs.
(** [MBX_ID_LEN] of [mailpile.util] *)
Variable MBX_ID_LEN : nat.

(** [v.keys()] *)
Definition keys_method (v : value) : result (list string) :=
  match v with
  | VDict d => Ok (akeys d)
  | VCDict _ _ _ d => Ok (akeys d)
  | VCList _ _ _ _ => Ok (list_keys X v)
  | VRules rs => Ok (akeys rs)
  | _ => Raise (AttributeError "keys")
  end.

(** The inner function [fmt_mbxid] *)
Definition fmt_mbxid (k : string) : result string :=
  match Num.int36_of_str k with
  | None => Raise OtherValueError
  | Some n =>
      let k' := b36 X n in
      if (MBX_ID_LEN <? String.length k')%nat then Raise OtherValueError
      else Ok (last_chars MBX_ID_LEN (zeros MBX_ID_LEN ++ k'))
  end.

Fixpoint fmt_all (boxes : value) (ks : list string)
  : result (list (string * value)) :=
  match ks with
  | [] => Ok []
  | k :: r =>
      id <- fmt_mbxid k ;;
      v <- item boxes k ;;
      rest <- fmt_all boxes r ;;
      Ok ((id, v) :: rest)
  end.

(** [get_mailboxes()] *)
Definition get_mailboxes (self : list (string * value))
  : result (list (string * value)) :=
  boxes <- entry self "mailbox" ;;
  ks <- keys_method boxes ;;
  fmt_all boxes (sort_texts ks).

Lemma zeros_length (n : nat) : String.length (zeros n) = n.
Proof. induction n as [|n IH]; simpl; auto. Qed.

Lemma length_append (s t : string) :
  String.length (s ++ t) = (String.length s + String.length t)%nat.
Proof. induction s as [|c s IH]; simpl; auto. Qed.

Lemma drop_chars_app (s t : string) :
  drop_chars (String.length s) (s ++ t) = t.
Proof. induction s as [|c s IH]; [now destruct t | exact IH]. Qed.

Lemma zeros_add (a b : nat) : zeros (a + b) = zeros a ++ zeros b.
Proof. induction a as [|a IH]; simpl; [reflexivity | unfold zeros in *; simpl; now rewrite IH]. Qed.

(** The padding: zeros on the left, up to the width. *)
Lemma last_chars_pad (k : string) :
  (String.length k <= MBX_ID_LEN)%nat ->
  last_chars MBX_ID_LEN (zeros MBX_ID_LEN ++ k)
  = zeros (MBX_ID_LEN - String.length k) ++ k.
Proof.
  intros Hle. unfold last_chars. destruct MBX_ID_LEN as [|n] eqn:E.
  - destruct k; [reflexivity | simpl in Hle; lia].
  - rewrite length_append, zeros_length.
    replace (S n + String.length k - S n)%nat with (String.length k) by lia.
    replace (S n) with (String.length k + (S n - String.length k))%nat at 1
      by lia.
    rewrite zeros_add, append_assoc.
    rewrite <- (zeros_length (String.length k)) at 1.
    apply drop_chars_app.
Qed.

Lemma fmt_mbxid_width (k id : string) :
  fmt_mbxid k = Ok id ->
  exists n, Num.int36_of_str k = Some n
            /\ id = zeros (MBX_ID_LEN - String.length (b36 X n)) ++ b36 X n
            /\ String.length id = MBX_ID_LEN.
Proof.
  unfold fmt_mbxid. destruct (Num.int36_of_str k) as [n|]; [|discriminate].
  destruct (Nat.ltb_spec MBX_ID_LEN (String.length (b36 X n)));
    [discriminate|].
  intros [= <-]. exists n. split; [reflexivity|].
  rewrite last_chars_pad by assumption. split; [reflexivity|].
  rewrite length_append, zeros_length. lia.
Qed.

Lemma fmt_all_width (boxes : value) (ks : list string) :
  forall l, fmt_all boxes ks = Ok l ->
            List.length l = List.length ks
            /\ Forall (fun p =>
                 String.length (fst p) = MBX_ID_LEN
                 /\ exists k n,
                     In k ks /\ Num.int36_of_str k = Some n
                     /\ fst p = zeros (MBX_ID_LEN - String.length (b36 X n))
                                ++ b36 X n
                     /\ item boxes k = Ok (snd p)) l.
Proof.
  induction ks as [|k ks IH]; intros l H.
  - injection H as <-. split; [reflexivity | constructor].
  - cbn [fmt_all] in H.
    destruct (fmt_mbxid k) as [id|] eqn:Eid; [|discriminate]. cbn [bind] in H.
    destruct (item boxes k) as [v|] eqn:Ev; [|discriminate]. cbn [bind] in H.
    destruct (fmt_all boxes ks) as [rest|] eqn:Er; [|discriminate].
    injection H as <-. destruct (IH rest eq_refl) as [Hlen Hall].
    destruct (fmt_mbxid_width k id Eid) as [n [Hn [Hid Hw]]].
    split; [cbn; now rewrite Hlen|]. constructor.
    + cbn [fst snd]. split; [exact Hw|]. exists k, n.
      repeat split; auto. now left.
    + eapply Forall_impl; [|exact Hall]. cbn beta.
      intros p [Hp [k' [n' [Hin Hrest]]]]. split; [exact Hp|].
      exists k', n'. split; [now right | exact Hrest].
Qed.

Lemma insert_text_length (k : string) (l : list string) :
  List.length (insert_text k l) = S (List.length l).
Proof.
  induction l as [|x l IH]; [reflexivity|]. cbn [insert_text].
  destruct (Text.ltb x k); cbn; auto.
Qed.

Lemma insert_text_in (k x : string) (l : list string) :
  In x (insert_text k l) <-> x = k \/ In x l.
Proof.
  induction l as [|y l IH]; cbn [insert_text In].
  - intuition auto.
  - destruct (Text.ltb y k); cbn [In]; rewrite ?IH; intuition auto.
Qed.

Lemma sort_texts_length (l : list string) :
  List.length (sort_texts l) = List.length l.
Proof.
  induction l as [|x l IH]; [reflexivity|].
  cbn [sort_texts fold_right]. fold (sort_texts l).
  now rewrite insert_text_length, IH.
Qed.

Lemma sort_texts_in (x : string) (l : list string) :
  In x (sort_texts l) <-> In x l.
Proof.
  induction l as [|y l IH]; [reflexivity|].
  cbn [sort_texts fold_right]. fold (sort_texts l).
  rewrite insert_text_in, IH. cbn [In]. intuition auto.
Qed.

End Mailboxes.

(** X23: what [get_mailboxes] returns has one pair for every key of the
    mailbox dict, and the id of each pair has exactly [MBX_ID_LEN]
    characters: it is [b36] of the number the key is in base 36, with
    zeros on its left up to that width, beside the value the dict has
    under the key. *)
Theorem get_mailboxes_ids_have_the_width
        (X : externs) (MBX_ID_LEN : nat) (self : list (string * value))
        (d : list (string * value)) (l : list (string * value)) :
  alookup "mailbox" self = Some (VDict d) ->
  get_mailboxes X MBX_ID_LEN self = Ok l ->
  List.length l = List.length d
  /\ Forall (fun p =>
       String.length (fst p) = MBX_ID_LEN
       /\ exists k n,
           In k (map fst d) /\ Num.int36_of_str k = Some n
           /\ fst p = zeros (MBX_ID_LEN - String.length (b36 X n)) ++ b36 X n
           /\ alookup k d = Some (snd p)) l.
Proof.
  intros Hbox Hrun. unfold get_mailboxes, entry in Hrun. rewrite Hbox in Hrun.
  cbn [bind keys_method] in Hrun.
  destruct (fmt_all_width X MBX_ID_LEN (VDict d) _ l Hrun) as [Hlen Hall].
  split.
  - rewrite Hlen, sort_texts_length. unfold akeys. apply length_map.
  - eapply Forall_impl; [|exact Hall]. cbn beta.
    intros p [Hp [k [n [Hin [Hn [Hid Hitem]]]]]]. split; [exact Hp|].
    exists k, n. rewrite sort_texts_in in Hin. repeat split; auto.
    cbn [item] in Hitem. destruct (alookup k d); [congruence | discriminate].
Qed.

Lemma get_mailboxes_ids_have_the_width_witness :
  let l := [("0010", VStr "/var/mail/b"); ("000a", VStr "/var/mail/a")] in
  let d := [("10", VStr "/var/mail/b"); ("A", VStr "/var/mail/a")] in
  List.length l = List.length d
  /\ Forall (fun p =>
       String.length (fst p) = 4%nat
       /\ exists k n,
           In k (map fst d) /\ Num.int36_of_str k = Some n
           /\ fst p = zeros (4 - String.length (b36 std n)) ++ b36 std n
           /\ alookup k d = Some (snd p)) l.
Proof.
  apply (get_mailboxes_ids_have_the_width std 4
           [("mailbox", VDict [("10", VStr "/var/mail/b");
                               ("A", VStr "/var/mail/a")])]
           [("10", VStr "/var/mail/b"); ("A", VStr "/var/mail/a")]
           [("0010", VStr "/var/mail/b"); ("000a", VStr "/var/mail/a")]);
    reflexivity.
Defined.

(** *** [get_filters] *)

(** An entry of the list [get_filters] returns: [(fid, terms, tags,
    comment)]. *)
Record filter_entry : Type := FilterEntry {
  fe_id : string;
  fe_terms : string;
  fe_tags : string;
  fe_comment : value
}.

(** [l.sort(key=...)] on the pairs of key and element: a stable
    insertion sort. *)
Fixpoint insert_by (n : Z) (k : string) (l : list (Z * string))
  : list (Z * string) :=
  match l with
  | [] => [(n, k)]
  | (m, x) :: r =>
      if m <? n then (m, x) :: insert_by n k r else (n, k) :: l
  end.

Definition sort_by (l : list (Z * string)) : list (Z * string) :=
  fold_right (fun nk acc => insert_by (fst nk) (snd nk) acc) [] l.

(** The keys with [int(k, 36)] of each; the first that is no number in
    base 36 raises [ValueError]. *)
Fixpoint numbered (ks : list string) : result (list (Z * string)) :=
  match ks with
  | [] => Ok []
  | k :: r =>
      match Num.int36_of_str k with
      | None => Raise OtherValueError
      | Some n => rest <- numbered r ;; Ok ((n, k) :: rest)
      end
  end.

Section GetFilters.

Variable X : externs.

(** [v.get(k, default)] *)
Definition get_method (v : value) (k : string) (default : value)
  : result value :=
  match v with
  | VDict d => Ok (match alookup k d with Some x => x | None => default end)
  | VCDict _ _ _ _ | VCList _ _ _ _ => get v (KStr k) default
  | VRules _ => Raise (OtherError "a rule is no value")
  | _ => Raise (AttributeError "get")
  end.

(** [self.get(key, {})] *)
Definition entry_or_empty (self : list (string * value)) (key : string) : value :=
  match alookup key self with
  | Some v => v
  | None => VDict []
  end.

(** The loop of [get_filters] over the sorted ids. *)
Fixpoint collect (self : list (string * value)) (filter_on : option string)
         (fids : list string) : result (list filter_entry) :=
  match fids with
  | [] => Ok []
  | fid :: r =>
      comment <- get_method (entry_or_empty self "filter") fid (VStr "") ;;
      t <- get_method (entry_or_empty self "filter_terms") fid (VStr "") ;;
      g <- get_method (entry_or_empty self "filter_tags") fid (VStr "") ;;
      let terms := py_unicode X t in
      let tags := py_unicode X g in
      rest <- collect self filter_on r ;;
      match filter_on with
      | Some wanted =>
          if String.eqb terms wanted
          then Ok (FilterEntry fid terms tags comment :: rest)
          else Ok rest
      | None => Ok (FilterEntry fid terms tags comment :: rest)
      end
  end.

(** [get_filters(filter_on)] *)
Definition get_filters (self : list (string * value))
           (filter_on : option string) : result (list filter_entry) :=
  ks <- keys_method X (entry_or_empty self "filter") ;;
  nks <- numbered ks ;;
  collect self filter_on (map snd (sort_by nks)).

(** The ids are in the order of their numbers. *)
Fixpoint ascending_ids (ids : list string) : Prop :=
  match ids with
  | [] => True
  | x :: r =>
      (forall y, In y r ->
         exists a b, Num.int36_of_str x = Some a
                     /\ Num.int36_of_str y = Some b /\ a <= b)
      /\ ascending_ids r
  end.

(** Pairs of a number and a text that has the number, in the order of the
    numbers. *)
Fixpoint ascending_pairs (l : list (Z * string)) : Prop :=
  match l with
  | [] => True
  | (n, k) :: r =>
      Num.int36_of_str k = Some n
      /\ (forall m x, In (m, x) r -> n <= m)
      /\ ascending_pairs r
  end.

Lemma insert_by_in (n : Z) (k : string) (l : list (Z * string)) (p : Z * string) :
  In p (insert_by n k l) <-> p = (n, k) \/ In p l.
Proof.
  induction l as [|[m x] l IH]; cbn [insert_by In].
  - intuition auto.
  - destruct (m <? n); cbn [In]; rewrite ?IH; intuition auto.
Qed.

Lemma insert_by_ascending (n : Z) (k : string) (l : list (Z * string)) :
  Num.int36_of_str k = Some n -> ascending_pairs l ->
  ascending_pairs (insert_by n k l).
Proof.
  intros Hk. induction l as [|[m x] l IH]; intros Hl.
  - cbn. repeat split; auto. intros m x [].
  - cbn [insert_by]. destruct Hl as [Hx [Hle Hr]].
    destruct (Z.ltb_spec m n) as [Hlt|Hge].
    + cbn [ascending_pairs]. split; [exact Hx|]. split; [|now apply IH].
      intros m' x' Hin. apply insert_by_in in Hin as [[= -> ->]|Hin].
      * lia.
      * now apply (Hle m' x').
    + cbn [ascending_pairs]. split; [exact Hk|]. split.
      * intros m' x' [[= <- <-]|Hin]; [lia|].
        specialize (Hle m' x' Hin). lia.
      * repeat split; auto.
Qed.

Lemma numbered_pairs (ks : list string) :
  forall nks, numbered ks = Ok nks ->
              map snd nks = ks
              /\ Forall (fun nk => Num.int36_of_str (snd nk) = Some (fst nk)) nks.
Proof.
  induction ks as [|k ks IH]; intros nks H.
  - injection H as <-. split; [reflexivity | constructor].
  - cbn [numbered] in H.
    destruct (Num.int36_of_str k) as [n|] eqn:E; [|discriminate].
    destruct (numbered ks) as [rest|]; [|discriminate].
    injection H as <-. destruct (IH rest eq_refl) as [Hm Hall].
    split; [cbn; now rewrite Hm|]. constructor; [exact E | exact Hall].
Qed.

Lemma sort_by_ascending (l : list (Z * string)) :
  Forall (fun nk => Num.int36_of_str (snd nk) = Some (fst nk)) l ->
  ascending_pairs (sort_by l).
Proof.
  induction 1 as [|[n k] l Hk Hl IH]; [exact I|].
  cbn [sort_by fold_right fst snd]. now apply insert_by_ascending.
Qed.

Lemma sort_by_in (l : list (Z * string)) (p : Z * string) :
  In p (sort_by l) <-> In p l.
Proof.
  induction l as [|[n k] l IH]; [reflexivity|].
  cbn [sort_by fold_right fst snd]. fold (sort_by l).
  rewrite insert_by_in, IH. cbn [In]. intuition auto.
Qed.

Lemma ascending_pairs_ids (l : list (Z * string)) :
  ascending_pairs l -> ascending_ids (map snd l).
Proof.
  induction l as [|[n k] l IH]; [auto|]. intros [Hk [Hle Hr]].
  cbn [map snd ascending_ids]. split; [|now apply IH].
  intros y Hy. apply in_map_iff in Hy as [[m x] [<- Hin]].
  exists n, m. cbn [snd]. repeat split; auto.
  - clear - Hr Hin. induction l as [|[n' k'] l IH]; [contradiction|].
    destruct Hr as [Hk' [_ Hr]]. destruct Hin as [[= -> ->]|Hin]; auto.
  - now apply (Hle m x).
Qed.

(** The entry [collect] makes for an id. *)
Definition entry_for (self : list (string * value)) (e : filter_entry) : Prop :=
  exists t g,
    get_method (entry_or_empty self "filter") (fe_id e) (VStr "")
    = Ok (fe_comment e)
    /\ get_method (entry_or_empty self "filter_terms") (fe_id e) (VStr "") = Ok t
    /\ get_method (entry_or_empty self "filter_tags") (fe_id e) (VStr "") = Ok g
    /\ fe_terms e = py_unicode X t /\ fe_tags e = py_unicode X g.

Lemma collect_spec (self : list (string * value)) (filter_on : option string)
      (fids : list string) :
  forall l, collect self filter_on fids = Ok l ->
    ascending_ids fids ->
    ascending_ids (map fe_id l)
    /\ (forall e, In e l ->
          In (fe_id e) fids /\ entry_for self e
          /\ forall wanted, filter_on = Some wanted -> fe_terms e = wanted)
    /\ (filter_on = None -> map fe_id l = fids).
Proof.
  induction fids as [|fid fids IH]; intros l H Hasc.
  - injection H as <-. split; [exact I|]. split; [intros e0 []|reflexivity].
  - cbn [collect] in H.
    destruct (get_method (entry_or_empty self "filter") fid (VStr ""))
      as [comment|] eqn:Ec; [|discriminate]. cbn [bind] in H.
    destruct (get_method (entry_or_empty self "filter_terms") fid (VStr ""))
      as [t|] eqn:Et; [|discriminate]. cbn [bind] in H.
    destruct (get_method (entry_or_empty self "filter_tags") fid (VStr ""))
      as [g|] eqn:Eg; [|discriminate]. cbn [bind] in H.
    destruct (collect self filter_on fids) as [rest|] eqn:Er; [|discriminate].
    cbn [bind] in H. destruct Hasc as [Hhead Htail].
    destruct (IH rest eq_refl Htail) as [Hsorted [Hall Hnone]].
    set (e0 := FilterEntry fid (py_unicode X t) (py_unicode X g) comment) in *.
    assert (He0 : entry_for self e0).
    { exists t, g. repeat split; auto. }
    assert (Hcons : ascending_ids (map fe_id (e0 :: rest))).
    { cbn [map fe_id e0 ascending_ids]. split; [|exact Hsorted].
      intros y Hy. apply in_map_iff in Hy as [e [<- He]].
      apply Hhead. now apply Hall. }
    assert (Hrest : forall e, In e rest ->
              In (fe_id e) (fid :: fids) /\ entry_for self e
              /\ forall wanted, filter_on = Some wanted -> fe_terms e = wanted).
    { intros e He. destruct (Hall e He) as [H1 H2]. split; [now right | exact H2]. }
    destruct filter_on as [wanted|].
    + destruct (String.eqb_spec (py_unicode X t) wanted) as [Heq|Hne];
        injection H as <-.
      * split; [exact Hcons|]. split; [|discriminate].
        intros e [<-|He]; [|now apply Hrest].
        split; [now left|]. split; [exact He0|]. now intros w [= <-].
      * split; [exact Hsorted|]. split; [exact Hrest | discriminate].
    + injection H as <-. split; [exact Hcons|]. split.
      * intros e [<-|He]; [|now apply Hrest].
        split; [now left|]. split; [exact He0 | discriminate].
      * intros _. cbn [map fe_id e0]. now rewrite Hnone.
Qed.

End GetFilters.

(** X24: the list [get_filters] returns is in the order of the numbers
    the ids are in base 36, whatever the order of the dict.  Every entry
    has an id of the [filter] dict, with what the three dicts hold under
    it (the empty text where one has nothing) as its comment, terms and
    tags; with [filter_on] given, every entry has those terms; without it
    every id of the dict has its entry. *)
Theorem get_filters_are_in_the_order_of_their_numbers
        (X : externs) (self : list (string * value))
        (filter_on : option string) (l : list filter_entry) :
  get_filters X self filter_on = Ok l ->
  ascending_ids (map fe_id l)
  /\ (forall e, In e l ->
        entry_for X self e
        /\ (forall ks, keys_method X (entry_or_empty self "filter") = Ok ks ->
                       In (fe_id e) ks)
        /\ forall wanted, filter_on = Some wanted -> fe_terms e = wanted)
  /\ (filter_on = None ->
      forall ks k, keys_method X (entry_or_empty self "filter") = Ok ks ->
                   In k ks -> In k (map fe_id l)).
Proof.
  unfold get_filters. intros H.
  destruct (keys_method X (entry_or_empty self "filter")) as [ks|] eqn:Ek;
    [|discriminate].
  cbn [bind] in H. destruct (numbered ks) as [nks|] eqn:En; [|discriminate].
  cbn [bind] in H. destruct (numbered_pairs ks nks En) as [Hks Hnum].
  pose proof (ascending_pairs_ids (sort_by nks) (sort_by_ascending nks Hnum))
    as Hasc.
  destruct (collect_spec X self filter_on _ l H Hasc) as [Hsorted [Hall Hnone]].
  assert (Hmem : forall k, In k (map snd (sort_by nks)) <-> In k ks).
  { intros k. rewrite <- Hks. rewrite !in_map_iff.
    split; intros [p [Hp Hin]]; exists p; (split; [exact Hp|]);
      now apply sort_by_in. }
  split; [exact Hsorted|]. split.
  - intros e He. destruct (Hall e He) as [Hin [Hentry Hterms]].
    split; [exact Hentry|]. split; [|exact Hterms].
    intros ks' [= <-]. now apply Hmem.
  - intros Hf ks' k [= <-] Hk. rewrite (Hnone Hf). now apply Hmem.
Qed.

Lemma get_filters_are_in_the_order_of_their_numbers_witness :
  let self := [("filter", VDict [("10", VStr "C"); ("a", VStr "B");
                                 ("2", VStr "A")]);
               ("filter_terms", VDict [("10", VStr "from:c");
                                       ("2", VStr "from:a")])] in
  let l := [FilterEntry "2" "from:a" "" (VStr "A");
            FilterEntry "a" "" "" (VStr "B");
            FilterEntry "10" "from:c" "" (VStr "C")] in
  ascending_ids (map fe_id l)
  /\ (forall e, In e l ->
        entry_for std self e
        /\ (forall ks, keys_method std (entry_or_empty self "filter") = Ok ks ->
                       In (fe_id e) ks)
        /\ forall wanted, @None string = Some wanted -> fe_terms e = wanted)
  /\ (@None string = None ->
      forall ks k, keys_method std (entry_or_empty self "filter") = Ok ks ->
                   In k ks -> In k (map fe_id l)).
Proof.
  apply (get_filters_are_in_the_order_of_their_numbers std
           [("filter", VDict [("10", VStr "C"); ("a", VStr "B");
                              ("2", VStr "A")]);
            ("filter_terms", VDict [("10", VStr "from:c");
                                    ("2", VStr "from:a")])]
           None
           [FilterEntry "2" "from:a" "" (VStr "A");
            FilterEntry "a" "" "" (VStr "B");
            FilterEntry "10" "from:c" "" (VStr "C")]).
  reflexivity.
Defined.
